(* ===== verification/_CoqProject ===== *)
-Q . S2P
Prelude.v
GoLib.v
Config.v
Models.v
JsonNum.v
Json.v
JsonProps.v
Metrics.v
Sql.v
Database.v
DbInvariant.v
World.v
Scenario.v
EventStore.v
StoreLogic.v
StoreProps.v
StoreOutbox.v
StoreProcessing.v
StoreDead.v
Recovery.v
Outbox.v
DeadLetters.v
Worker.v
RabbitMQ.v
Steps.v
System.v
DlqRetry.v
Prometheus.v
Http.v
Handlers.v
EndToEnd.v
Startup.v
Shutdown.v
