(* ===== verification/Prelude.v ===== *)
(** * The Go webhook processor

    A verification library for the service under src/: events arrive over
    HTTP, are stored with an outbox message in one PostgreSQL transaction,
    published to RabbitMQ by a dispatcher, consumed by a pool of workers that
    retry them and put aside those that fail (dead letters), and dead letters
    are replayed by an operator or by a scheduler.

    ** How the program is modelled

    A Go function that touches the database, the clock, the broker or the
    metrics is a state transformer over [World] (World.v); a pure function is a
    Rocq function; an error is a value of [GoError], with its message and what
    it wraps.  [int] and [time.Duration] are integers with the wrap-around of 64
    bits written out ([wrap64]), wherever the code computes with them.

    Everything the environment decides is an argument, and the theorems
    quantify over it (a theorem on what succeeds when no database call fails has
    [no_faults] as a hypothesis): the clocks, the outcome of each database call (it can
    fail before or after the server has applied it), cancellation, row locks of
    other transactions, unspecified row orders, random bytes ([Env], World.v);
    the outcome of each call of the AMQP client ([Amqp], RabbitMQ.v);
    the environment variables and url.Parse
    (arguments of the functions of Config.v); database/sql, golang-migrate, the
    file system and standard error during the start ([Host], Startup.v); what
    writing a command's report to the standard output answers ([Front],
    Handlers.v).  A
    statement PostgreSQL rejects
    for a reason outside the model (text that is not valid UTF-8, say) is a
    failure of that call in [Env].  The Go library is modelled where the code
    depends on what it computes: strconv, strings, net/textproto headers,
    ServeMux, and encoding/json with float64 numbers and UTF-8.  The store is
    written against a class for the codec ([JsonCodec], [JsonCodecOk], Models.v);
    [json_codec] (Json.v) is the instance the program runs with.

    ** The files

    - Prelude: this file; tactics, hint databases, 64-bit integers, sorting.
    - GoLib: errors, results, strconv, strings, hexadecimal.
    - Config: config.go.  LoadConfig, its validation, the durations.
    - Models: models.go, queue.go and the rows the store returns.
    - JsonNum: float64 to shortest decimal text and back.  Json: encoding/json on
      payloads, an Event, and the decoder of a request body.  JsonProps: what is
      written is read back, what is read is well formed.
    - Metrics: metrics.go, operational_metrics.go, latency-metrics.go.  Module
      Latency is the compare-and-swap loop of the latency metrics as a step
      relation over threads and atomic memory cells.
    - Sql: tables as finite maps; INSERT, UPDATE, DELETE, SELECT.
    - Database: the three tables of migrations/ and one definition for each SQL
      statement of event_store.go and dlq_backoff_store.go.
    - DbInvariant: the consistency of the tables ([db_wf]), kept by every
      statement.
    - World: state, environment, monad, transactions.  Scenario: a concrete
      environment for the witnesses.
    - EventStore: the methods of event_store.go and dlq_backoff_store.go.
    - StoreLogic: weakest preconditions for the monad, and the outcomes of the
      transactional methods.  StoreProps: sequences of store calls ([run_ops])
      and the invariants they keep, one policy of allowed calls for each.
    - StoreOutbox, StoreProcessing, StoreDead: the guarantees on the outbox, on
      the processing claims, on the dead letters.
    - Recovery: what a replay means for the dispatchers.
    - Outbox: outbox.go; the dispatcher against the interface EventPublisher.
    - DeadLetters: deadletter.go; Module Memory is the in-process store, and the
      persistent one is an instance of the interface DeadLetterRepository.
    - Worker: worker.go.  RabbitMQ: rabbitmq_queue.go, the instance of
      EventPublisher the program runs with.
    - Steps: outbox.go and worker.go once more, cut at the calls at which another
      goroutine can run; [dispatch_step] and [work_step] go from one control
      point to the next.
    - System: the service as one step relation ([sys_step]): dispatchers and
      workers at their control points, the clients of the store, the queue of
      the broker, crashes.
    - DlqRetry: dlq_retry.go.
    - Prometheus: metrics_prometheus.go, metrics-prometheus-extra.go; the text
      of /metrics/prometheus, with the ratio as a 64-bit float.
    - Http: headers, requests, responses, ServeMux patterns.  Handlers:
      handlers.go, request_id.go, prometheus-handler.go, app.go, commands.go.
    - EndToEnd: a posted event from the request to the worker.
    - Startup: main.go up to the server, logger.go, db_pool.go, migrations.go,
      opening and closing the event store.
    - Shutdown: main.go from the running goroutines to the exit, with
      StopConsuming and the events channel of rabbitmq_queue.go.

    ** What the theorems show

    - Nothing accepted is lost: an event and its outbox message are stored
      together or not at all; a message is marked published only after a
      confirmed publication; the publisher reports success only for a
      positively acknowledged persistent message, carrying the encoded event, on
      a channel in confirm mode; without failures or row locks an accepted event
      is in the next claim that has room for the pending rows; a delivery is forwarded,
      rejected or requeued exactly once, and settled exactly once by the worker.
    - Nothing accepted is lost, for the service as a whole: in every state that
      dispatchers, workers, clients, broker and crashes can reach together, an
      accepted event is finished, still to be dispatched, in the broker, or with
      a worker that has not given it up, unless its last replay was made while a
      dispatcher had an unrecorded confirmation for it; a failed one has its dead
      letter and can be replayed; an idle service hands out what is left.  The
      steps these theorems interleave are those of the code: a goroutine that
      steps alone does what DispatchPending and handleDelivery do.
    - Nothing is changed on the way: whatever document the handler decodes, the
      payload survives the tables and the event survives the broker, numbers and
      strings included; a posted event is what the dispatcher claims and what
      the workers are given.
    - Leases exclude: two dispatchers never hold the same message, two workers
      never hold the same event, as long as the lease runs and the store is used
      as the program uses it; results of a dispatcher whose lease was taken over
      are refused (the fencing token).
    - Failure is handled: the result of processing with retries is one of the
      outcomes the code names, with the dead letter stored on failure; a replay
      is atomic and hands the event to the dispatcher again as it was accepted,
      when no dispatcher has reserved its row; automatic replays are bounded; the
      delays of the scheduler are within their bounds.  A replay while a
      dispatcher has not yet recorded its result can lose the event: Recovery
      proves it of the calls, and [lost] (System.v) is such a run of the service.
    - The tables stay consistent under every sequence of calls, every method
      answers as specified on every branch, and the HTTP handlers and the
      command line answer as specified for every request.
    - Resources: under every interleaving of publications and consumer turns no
      connection is lost, and Close releases all of them; the latency metrics
      are exact once all observers have returned, and an observer that runs
      alone terminates.
    - Start and shutdown: main serves, migrates, replays or exits with an error
      exactly when the code says so, and closes what it opened; the parts go
      down in the order of their dependencies, no wait of the shutdown is a
      deadlock, and once the consumer has returned its end is bounded.

    ** Fuel and bounds

    retry_loop (Worker.v) recurses on [S (to_nat maxAttempts)], one more than
    the iterations of the Go loop, and processEvent_runs proves that it returns
    with an outcome.  The doubling loop of retryDelay (DlqRetry.v) is bounded by
    the number of attempts, its own counter.  strings.TrimSpace (GoLib.v) takes
    the length of the string.  The JSON parser (Json.v) takes three times the
    length of the text, with which it decides every text
    (parse_value_fuel_enough, JsonProps.v), and the search for the shortest decimal (JsonNum.v) 1400 positions,
    shown to be enough for every float64.  An observer that runs alone (Metrics.v) at most
    the steps the theorem names.  The other loops recurse on their
    data; a loop that runs until shutdown takes the list of its wake-ups, of
    arbitrary length.

    ** Limits

    Store calls run one after the other, in every order: a transaction is not
    interleaved with another one inside.  In System.v the broker keeps its
    messages and redelivers what a crashed worker held; [sys_early] is a history
    variable, which records the replays made while a dispatcher had an unrecorded
    confirmation and on which no step depends.  In Shutdown.v a handler, a round of a
    dispatcher and the handling of a delivery are single steps that end; that
    they do is shown in their files.  filepath.ToSlash is the identity, as on
    Unix, and text is escaped as net/url does for paths.  A ticker with an
    interval that is not positive panics, which ends the process
    ([dispatcher_start], [scheduler_run]); the running process of Shutdown.v has
    intervals that are.  Log lines are not modelled.

    ** Plan

    The Prometheus text read back; the JSON of the responses as text. *)

From stdpp Require Import base gmap strings list sorting.
From Stdlib Require Import ZArith Lia.

(** ** Hint databases and tactics *)

Create HintDb webhook discriminated.
Create HintDb dbwf discriminated.

(** Split every conjunction of the context, substitute the equations. *)
Ltac split_hyps :=
  repeat match goal with
  | H : _ ∧ _ |- _ => destruct H
  | H : ∃ _, _ |- _ => destruct H
  end; simplify_eq/=.

(** Case analysis on the innermost scrutinee of a [match] of the goal. *)
Ltac case_goal :=
  match goal with
  | |- context [match ?x with _ => _ end] =>
      lazymatch x with
      | context [match _ with _ => _ end] => fail
      | _ => let E := fresh "E" in destruct x eqn:E
      end
  end.

(** The same on a hypothesis. *)
Ltac case_hyp H :=
  match type of H with
  | context [match ?x with _ => _ end] =>
      lazymatch x with
      | context [match _ with _ => _ end] => fail
      | _ => let E := fresh "E" in destruct x eqn:E
      end
  end.

(** ** Go's [int64] and PostgreSQL's [integer] *)

Definition int64_min : Z := -9223372036854775808.
Definition int64_max : Z := 9223372036854775807.
Definition int4_max : Z := 2147483647.
Definition int4_min : Z := -2147483648.

(** Two's complement wrap-around of Go's [int] and [int64]. *)
Definition wrap64 (z : Z) : Z :=
  ((z + 9223372036854775808) `mod` 18446744073709551616 - 9223372036854775808)%Z.

Definition in_int64 (z : Z) : Prop := (int64_min ≤ z ≤ int64_max)%Z.
Definition in_int4 (z : Z) : bool := (int4_min <=? z)%Z && (z <=? int4_max)%Z.

Lemma wrap64_id z : in_int64 z → wrap64 z = z.
Proof.
  unfold in_int64, int64_min, int64_max, wrap64. intros H.
  rewrite Z.mod_small; lia.
Qed.

Lemma wrap64_range z : in_int64 (wrap64 z).
Proof.
  unfold in_int64, int64_min, int64_max, wrap64.
  pose proof (Z.mod_pos_bound (z + 9223372036854775808) 18446744073709551616).
  lia.
Qed.

Lemma wrap64_step z : in_int64 z → (z < int64_max)%Z → wrap64 (z + 1) = (z + 1)%Z.
Proof. unfold in_int64. intros. apply wrap64_id. unfold in_int64. lia. Qed.

(** Only the last wrap-around of a sum is visible. *)
Lemma wrap64_add_l a b : wrap64 (wrap64 a + b) = wrap64 (a + b).
Proof.
  unfold wrap64. f_equal.
  replace ((a + 9223372036854775808) `mod` 18446744073709551616
           - 9223372036854775808 + b + 9223372036854775808)%Z
    with ((a + 9223372036854775808) `mod` 18446744073709551616 + b)%Z by lia.
  rewrite Z.add_mod_idemp_l by lia. f_equal. lia.
Qed.

(** ** Lists: sorting by a key and arbitrary row orders *)

(** Lexicographic order on pairs of integers, the order of [ORDER BY k1, k2]. *)
Definition lexle (p q : Z * Z) : Prop :=
  (p.1 < q.1 ∨ (p.1 = q.1 ∧ p.2 ≤ q.2))%Z.

#[export] Instance lexle_dec p q : Decision (lexle p q).
Proof. unfold lexle. apply _. Defined.

Lemma lexle_trans : Transitive lexle.
Proof. intros [] [] []; unfold lexle; simpl; lia. Qed.

Lemma lexle_total p q : lexle p q ∨ lexle q p.
Proof. destruct p, q; unfold lexle; simpl; lia. Qed.

Section sorting.
Context {A : Type}.

(** [ORDER BY]: sort by a pair of keys. *)
Definition sort_on (key : A → Z * Z) (l : list A) : list A :=
  merge_sort (λ x y, lexle (key x) (key y)) l.

Lemma sort_on_perm key l : sort_on key l ≡ₚ l.
Proof. apply merge_sort_Permutation. Qed.

Lemma sort_on_sorted key l :
  StronglySorted (λ x y, lexle (key x) (key y)) (sort_on key l).
Proof.
  apply StronglySorted_merge_sort.
  - intros x y z. apply lexle_trans.
  - intros x y. apply lexle_total.
Qed.

Lemma elem_of_sort_on key l x : x ∈ sort_on key l ↔ x ∈ l.
Proof. by rewrite sort_on_perm. Qed.

End sorting.

(** An arbitrary order of rows, resolved by a priority per position: every
    value of [p] gives a permutation. *)
Definition shuffle {A} (p : nat → Z) (l : list A) : list A :=
  (sort_on fst (imap (λ i x, ((p i, Z.of_nat i), x)) l)).*2.

Lemma imap_tag_snd {A B} (q : nat → B) (l : list A) :
  (imap (λ i x, (q i, x)) l).*2 = l.
Proof.
  revert q. induction l as [|x l IH]; intros q; [done|].
  simpl. f_equal. apply (IH (q ∘ S)).
Qed.

Lemma shuffle_perm {A} p (l : list A) : shuffle p l ≡ₚ l.
Proof. unfold shuffle. by rewrite sort_on_perm, imap_tag_snd. Qed.

Lemma elem_of_shuffle {A} p (l : list A) x : x ∈ shuffle p l ↔ x ∈ l.
Proof. by rewrite shuffle_perm. Qed.

Lemma length_shuffle {A} p (l : list A) : length (shuffle p l) = length l.
Proof. by rewrite shuffle_perm. Qed.

Lemma elem_of_take_sub {A} n (l : list A) x : x ∈ take n l → x ∈ l.
Proof. intros. rewrite <- (take_drop n l). by apply elem_of_app; left. Qed.

Lemma StronglySorted_take {A} (R : relation A) n l :
  StronglySorted R l → StronglySorted R (take n l).
Proof.
  intros Hs. revert n. induction Hs as [|x l Hs IH Hx]; intros [|n]; simpl; constructor; [done|].
  by apply Forall_take.
Qed.

Lemma StronglySorted_weaken {A} (R S : relation A) l :
  (∀ x y, R x y → S x y) → StronglySorted R l → StronglySorted S l.
Proof.
  intros HRS. induction 1 as [|x l _ IH Hx]; constructor; [done|].
  eapply Forall_impl; [exact Hx|]. auto.
Qed.

(** A sorted list cut at a limit keeps the smallest elements. *)
Lemma sorted_take_le {A} (R : relation A) n (l : list A) x y :
  StronglySorted R l → x ∈ take n l → y ∈ drop n l → R x y.
Proof.
  rewrite <- (take_drop n l) at 1. intros Hs Hx Hy.
  induction (take n l) as [|z t IH]; simpl in *; [set_solver|].
  apply StronglySorted_cons in Hs as [Hz Hs].
  apply elem_of_cons in Hx as [->|Hx]; [|by apply IH].
  rewrite Forall_forall in Hz. apply Hz. set_solver.
Qed.

#[export] Hint Rewrite @elem_of_sort_on @elem_of_shuffle : webhook.
