(* ===== verification/GoLib.v ===== *)
(** * The parts of Go's standard library the program calls

    [errors] and [fmt.Errorf], [strings], [strconv], [encoding/hex] and
    [crypto/subtle], on byte strings: a Go [string] is a sequence of bytes and
    is modelled by [string], whose characters are bytes.  The second return
    value of a fallible Go function is [option GoError] ([None] is [nil]);
    a pair of a value and an error is [result]. *)

From stdpp Require Import base gmap strings list pretty.
From Stdlib Require Import ZArith Lia Ascii.
From S2P Require Import Prelude.

(** ** Errors *)

(** The error values of the program.  The first three are the sentinels
    declared with [errors.New] at the top of event_store.go; [ErrNoRows] and
    [ErrCanceled] are those of [database/sql] and [context]; [ErrMsg] is any
    other leaf; [ErrWrap pre e post] is [fmt.Errorf] with one [%w]. *)
Inductive GoError : Type :=
| ErrEventAlreadyExists
| ErrDeadLetterNotFound
| ErrDeadLetterNotFailed
| ErrNoRows
| ErrCanceled
| ErrMsg (msg : string)
| ErrWrap (pre : string) (inner : GoError) (post : string).

#[export] Instance GoError_eq_dec : EqDecision GoError.
Proof. solve_decision. Defined.

(** The [Error] method. *)
Fixpoint error_string (e : GoError) : string :=
  match e with
  | ErrEventAlreadyExists => "event already exists"
  | ErrDeadLetterNotFound => "dead letter not found"
  | ErrDeadLetterNotFailed => "event is not failed"
  | ErrNoRows => "sql: no rows in result set"
  | ErrCanceled => "context canceled"
  | ErrMsg m => m
  | ErrWrap pre e post => pre +:+ error_string e +:+ post
  end.

(** [errors.Is]: the error or one it wraps is the target. *)
Fixpoint errors_is (e target : GoError) : bool :=
  bool_decide (e = target) ||
  match e with ErrWrap _ e' _ => errors_is e' target | _ => false end.

(** [fmt.Errorf("pre%w", e)]. *)
Definition errorf (pre : string) (e : GoError) : GoError := ErrWrap pre e "".

Inductive result (A : Type) : Type :=
| Ok (a : A)
| Err (e : GoError).
Arguments Ok {A} a.
Arguments Err {A} e.

#[export] Instance result_eq_dec {A} `{EqDecision A} : EqDecision (result A).
Proof. solve_decision. Defined.

Lemma errors_is_wrap pre e post t :
  (∀ pre e post, t ≠ ErrWrap pre e post) →
  errors_is (ErrWrap pre e post) t = errors_is e t.
Proof.
  intros H. simpl. rewrite bool_decide_eq_false_2; [done|].
  intros <-. by eapply H.
Qed.

(** ** strings *)

Fixpoint drop_bytes (n : nat) (s : string) : string :=
  match n, s with
  | S n, String _ s => drop_bytes n s
  | _, _ => s
  end.

Definition HasPrefix (s p : string) : bool := String.prefix p s.

Definition TrimPrefix (s p : string) : string :=
  if HasPrefix s p then drop_bytes (String.length p) s else s.

(** A string from the codes of its bytes. *)
Definition bytes_string (l : list nat) : string :=
  String.string_of_list_ascii (ascii_of_nat <$> l).

(** The UTF-8 encodings of the code points [unicode.IsSpace] accepts. *)
Definition space_encodings : list string :=
  bytes_string <$>
    [[9]; [10]; [11]; [12]; [13]; [32]; [194; 133]; [194; 160];
     [225; 154; 128];
     [226; 128; 128]; [226; 128; 129]; [226; 128; 130]; [226; 128; 131];
     [226; 128; 132]; [226; 128; 133]; [226; 128; 134]; [226; 128; 135];
     [226; 128; 136]; [226; 128; 137]; [226; 128; 138];
     [226; 128; 168]; [226; 128; 169]; [226; 128; 175]; [226; 129; 159];
     [227; 128; 128]].

(** Strip encodings of [encs] from the front, as often as they occur. *)
Fixpoint strip_front (fuel : nat) (encs : list string) (s : string) : string :=
  match fuel with
  | O => s
  | S fuel =>
      match list_find (λ p, String.prefix p s = true) encs with
      | Some (_, p) => strip_front fuel encs (drop_bytes (String.length p) s)
      | None => s
      end
  end.

Definition TrimSpace (s : string) : string :=
  let l := strip_front (String.length s) space_encodings s in
  String.rev (strip_front (String.length l) (String.rev <$> space_encodings)
                          (String.rev l)).

(** ** strconv *)

Definition digit_val (c : ascii) : option Z :=
  let n := Z.of_nat (nat_of_ascii c) in
  if (48 <=? n)%Z && (n <=? 57)%Z then Some (n - 48)%Z else None.

(** The value of a run of decimal digits, after the value [acc]. *)
Fixpoint digits_val (acc : Z) (s : string) : option Z :=
  match s with
  | EmptyString => Some acc
  | String c s =>
      match digit_val c with
      | Some d => digits_val (acc * 10 + d) s
      | None => None
      end
  end.

(** At least one digit. *)
Definition unsigned_val (s : string) : option Z :=
  match s with
  | EmptyString => None
  | _ => digits_val 0 s
  end.

(** An optional sign, then digits. *)
Definition signed_val (s : string) : option Z :=
  match s with
  | String "+" s' => unsigned_val s'
  | String "-" s' => Z.opp <$> unsigned_val s'
  | _ => unsigned_val s
  end.

(** [n / d] rounded to the nearest integer, ties to even, for [d > 0]. *)
Definition round_half_even (n d : Z) : Z :=
  let q := (n / d)%Z in
  match (2 * (n mod d) ?= d)%Z with
  | Lt => q
  | Gt => q + 1
  | Eq => if Z.even q then q else q + 1
  end%Z.

(** [strconv.Atoi]; [None] is a syntax or a range error. *)
Definition Atoi (s : string) : option Z :=
  match signed_val s with
  | Some z => if (int64_min <=? z)%Z && (z <=? int64_max)%Z then Some z else None
  | None => None
  end.

(** [strconv.ParseBool]. *)
Definition ParseBool (s : string) : option bool :=
  if bool_decide (s ∈ ["1"; "t"; "T"; "true"; "TRUE"; "True"]) then Some true
  else if bool_decide (s ∈ ["0"; "f"; "F"; "false"; "FALSE"; "False"]) then Some false
  else None.

(** ** encoding/hex and crypto/subtle *)

Definition hex_digit (n : nat) : ascii :=
  ascii_of_nat (if n <? 10 then 48 + n else 87 + n).

(** [hex.EncodeToString]. *)
Fixpoint EncodeToString (bytes : list ascii) : string :=
  match bytes with
  | [] => ""
  | b :: bs =>
      String (hex_digit (nat_of_ascii b / 16))
        (String (hex_digit (nat_of_ascii b mod 16)) (EncodeToString bs))
  end.

(** The accumulated difference of two byte strings of equal length. *)
Fixpoint xor_fold (x y : list ascii) (v : N) : N :=
  match x, y with
  | a :: x, b :: y => xor_fold x y (N.lor v (N.lxor (N_of_ascii a) (N_of_ascii b)))
  | _, _ => v
  end.

(** [subtle.ConstantTimeCompare]. *)
Definition ConstantTimeCompare (x y : string) : Z :=
  let x := String.list_ascii_of_string x in
  let y := String.list_ascii_of_string y in
  if length x =? length y then (if (xor_fold x y 0 =? 0)%N then 1 else 0)%Z
  else 0%Z.

(** ** Lemmas *)

Lemma xor_fold_zero x y v :
  length x = length y →
  xor_fold x y v = 0%N ↔ v = 0%N ∧ x = y.
Proof.
  revert y v. induction x as [|a x IH]; intros [|b y] v Hl; simplify_eq/=.
  - naive_solver.
  - rewrite IH by done. rewrite N.lor_eq_0_iff, N.lxor_eq_0_iff. split.
    + intros [[-> Hab] ->]. split; [done|]. f_equal.
      by rewrite <- (ascii_N_embedding a), Hab, ascii_N_embedding.
    + by intros [-> [= -> ->]].
Qed.

Lemma ConstantTimeCompare_spec x y : ConstantTimeCompare x y = 1%Z ↔ x = y.
Proof.
  unfold ConstantTimeCompare.
  rewrite <- (String.string_of_list_ascii_of_string x) at 3.
  rewrite <- (String.string_of_list_ascii_of_string y) at 3.
  set (a := String.list_ascii_of_string x). set (b := String.list_ascii_of_string y).
  assert (String.string_of_list_ascii a = String.string_of_list_ascii b ↔ a = b) as ->.
  { split; [|by intros ->]. intros H%(f_equal String.list_ascii_of_string).
    by rewrite !String.list_ascii_of_string_of_list_ascii in H. }
  destruct (Nat.eqb_spec (length a) (length b)) as [E|E].
  - pose proof (xor_fold_zero a b 0 E). destruct (N.eqb_spec (xor_fold a b 0) 0); naive_solver.
  - split; [done|]. by intros ->.
Qed.

(** Atoi accepts values of [int64] only. *)
Lemma Atoi_range s z : Atoi s = Some z → in_int64 z.
Proof.
  unfold Atoi, in_int64. destruct (signed_val s) as [v|]; [|done].
  destruct (Z.leb_spec int64_min v), (Z.leb_spec v int64_max); naive_solver lia.
Qed.
