(* ===== verification/Models.v ===== *)
(** * models.go, queue.go, deadletter.go: the data exchanged by the components

    An [any] decoded by [encoding/json] is a [jvalue]; a Go map with string
    keys is the list of its bindings in increasing key order, [nil] included
    ([None]).  The store is written against an interface for [encoding/json]: the
    class [JsonCodec] names the functions it calls on payloads, [JsonCodecOk] what
    it relies on; Json.v has the implementation. *)

From stdpp Require Import base gmap strings list.
From Stdlib Require Import ZArith SpecFloat.
From S2P Require Import Prelude GoLib.

(** The values [encoding/json] stores in an [any]; a number is a float64. *)
Inductive jvalue : Type :=
| JNull
| JBool (b : bool)
| JNum (f : spec_float)
| JStr (s : string)
| JArr (l : list jvalue)
| JObj (fields : list (string * jvalue)).

(** [map[string]any]. *)
Abbreviation payload := (option (list (string * jvalue))).

Record Event := mkEvent {
  Event_ID : string;
  Event_Type : string;
  Event_RequestID : string;
  Event_Payload : payload;
}.

(** [payload[key]], the second value of the Go lookup being the [option]. *)
Definition payload_lookup (p : payload) (key : string) : option jvalue :=
  match p with
  | None => None
  | Some fields => snd <$> (snd <$> list_find (λ kv, kv.1 = key) fields)
  end.

(** A claimed or pending row of the outbox (event_store.go). *)
Record OutboxMessage := mkOutboxMessage {
  Message_ID : Z;
  Message_Event : Event;
  Message_Attempts : Z;
  Message_DispatchToken : string;
}.

(** A dead letter as the API shows it (deadletter.go); times in nanoseconds. *)
Record DeadLetter := mkDeadLetter {
  DL_Event : Event;
  DL_Error : string;
  DL_Attempts : Z;
  DL_FailedAt : Z;
  DL_ReplayedAt : option Z;
}.

Record DeadLetterResponse := mkDeadLetterResponse {
  DLR_Count : Z;
  DLR_Items : list DeadLetter;
}.

(** A stored event as [List] returns it (event_store.go). *)
Record StoredEvent := mkStoredEvent {
  SE_ID : string;
  SE_Type : string;
  SE_Payload : jvalue;
  SE_Status : string;
  SE_Error : string;
  SE_Attempts : Z;
  SE_CreatedAt : Z;
  SE_UpdatedAt : Z;
}.

Record RetryableDeadLetterDetail := mkRetryable {
  RD_EventID : string;
  RD_ReplayAttempt : Z;
}.

Record QueueStats := mkQueueStats { Stats_Length : Z; Stats_Capacity : Z }.

(** The JSON functions the store calls: [json.Marshal] and [json.Unmarshal] on
    a payload, and [json.Unmarshal] into an [any]; [inl] is the text of the
    error. *)
Class JsonCodec := {
  json_marshal : payload → string + string;
  json_unmarshal : string → string + payload;
  json_unmarshal_any : string → string + jvalue;
}.

(** Documented behaviour: a payload that itself came out of a JSON document
    ([JsonPayload]) can be encoded, and decoding the encoding gives it back. *)
Class JsonCodecOk (C : JsonCodec) := {
  JsonPayload : payload → Prop;
  json_roundtrip : ∀ p, JsonPayload p →
    ∃ s, json_marshal p = inr s ∧ json_unmarshal s = inr p;
}.
