(* ===== verification/JsonNum.v ===== *)
(** * Numbers in JSON: float64 to text and back

    strconv.ParseFloat and the shortest formatting of strconv.AppendFloat, as
    encoding/json uses them, and the proof that what is written is read back as
    the same number, for every finite float64. *)

From stdpp Require Import base strings list pretty.
From Stdlib Require Import ZArith Lia Ascii SpecFloat.
From S2P Require Import Prelude GoLib.

Local Open Scope Z_scope.

(** ** Decimal digits *)

Definition digit_char (d : Z) : ascii := ascii_of_nat (Z.to_nat (48 + d)).

Fixpoint digits_string (l : list Z) : string :=
  match l with
  | [] => EmptyString
  | d :: l => String (digit_char d) (digits_string l)
  end.

(** The digits at the head of a text. *)
Fixpoint take_digits (s : string) : list Z * string :=
  match s with
  | EmptyString => ([], EmptyString)
  | String c s' =>
      match digit_val c with
      | Some d => let '(l, rest) := take_digits s' in (d :: l, rest)
      | None => ([], s)
      end
  end.

Definition digits_value (l : list Z) : Z := foldl (λ acc d, acc * 10 + d) 0 l.

Fixpoint digits_of (fuel : nat) (n : Z) (acc : list Z) : list Z :=
  match fuel with
  | O => acc
  | S fuel => if n <? 10 then n :: acc else digits_of fuel (n / 10) (n mod 10 :: acc)
  end.

(** The digits of a number, without leading zeros. *)
Definition digits (n : Z) : list Z := digits_of (S (Z.to_nat (Z.log2 n))) n [].

(** ** ParseFloat *)

(** The integer part of the logarithm of [n / d]. *)
Definition floor_log2 (n d : Z) : Z :=
  let k := Z.log2 n - Z.log2 d in
  if (if 0 <=? k then d * 2 ^ k <=? n else d <=? n * 2 ^ (- k)) then k else k - 1.

(** [n / d] divided by [base ^ e], as a fraction. *)
Definition scaled (base n d e : Z) : Z * Z :=
  if 0 <=? e then (n, d * base ^ e) else (n * base ^ (- e), d).

(** The float64 nearest to [n / d], ties to even; [None] is out of range. *)
Definition float_of_ratio (s : bool) (n d : Z) : option spec_float :=
  if n =? 0 then Some (S754_zero s)
  else
    let e := Z.max (-1074) (floor_log2 n d - 52) in
    let '(a, b) := scaled 2 n d e in
    let m := round_half_even a b in
    let '(m, e) := if m =? 2 ^ 53 then (2 ^ 52, e + 1) else (m, e) in
    if 971 <? e then None
    else match m with Zpos p => Some (S754_finite s p e) | _ => Some (S754_zero s) end.

(** The float64 nearest to [m * 10 ^ e].  Exponents that are out of range in any
    case are not computed with. *)
Definition float_of_decimal (s : bool) (m e : Z) : option spec_float :=
  if m =? 0 then Some (S754_zero s)
  else if 310 <? e then None
  else if 400 + Z.log2 m <? - e then Some (S754_zero s)
  else let '(n, d) := scaled 10 m 1 (- e) in float_of_ratio s n d.

(** The value of an exponent; digits after the fifth are ignored. *)
Definition exponent_value (l : list Z) : Z :=
  foldl (λ acc d, if acc <? 10000 then acc * 10 + d else acc) 0 l.

(** The parts of a number: integer digits, fraction and exponent. *)
Definition parse_int (s : string) : option (list Z * string) :=
  match s with
  | String "0" s' => Some ([0], s')
  | _ => match take_digits s with ([], _) => None | (l, rest) => Some (l, rest) end
  end.

Definition parse_frac (s : string) : option (list Z * string) :=
  match s with
  | String "." s' => match take_digits s' with ([], _) => None | (l, rest) => Some (l, rest) end
  | _ => Some ([], s)
  end.

Definition parse_exp_digits (sign : Z) (s : string) : option (Z * string) :=
  match take_digits s with ([], _) => None | (l, rest) => Some (sign * exponent_value l, rest) end.

Definition parse_exp (s : string) : option (Z * string) :=
  match s with
  | String ("e" | "E") (String "-" s') => parse_exp_digits (-1) s'
  | String ("e" | "E") (String "+" s') => parse_exp_digits 1 s'
  | String ("e" | "E") s' => parse_exp_digits 1 s'
  | _ => Some (0, s)
  end.

Definition parse_unsigned (sign : bool) (s : string) : option (spec_float * string) :=
  '(int, s) ← parse_int s;
  '(frac, s) ← parse_frac s;
  '(e, s) ← parse_exp s;
  let f := float_of_decimal sign (digits_value (int ++ frac)) (e - Z.of_nat (length frac)) in
  Some (default (S754_infinity sign) f, s).

(** A JSON number at the head of a text; [None] is a syntax error.  A number out of
    range is read as an infinity, which is what ParseFloat returns with its
    error. *)
Definition parse_number (s : string) : option (spec_float * string) :=
  match s with
  | String "-" s' => parse_unsigned true s'
  | _ => parse_unsigned false s
  end.

(** ** AppendFloat with the shortest precision *)

Definition float_eqb (f g : spec_float) : bool :=
  match f, g with
  | S754_zero s, S754_zero s' => Bool.eqb s s'
  | S754_finite s m e, S754_finite s' m' e' => Bool.eqb s s' && (m =? m')%positive && (e =? e')
  | S754_infinity s, S754_infinity s' => Bool.eqb s s'
  | S754_nan, S754_nan => true
  | _, _ => false
  end.

Definition reads_as (m e : Z) (f : spec_float) : bool :=
  match float_of_decimal false m e with Some g => float_eqb g f | None => false end.

(** The shortest decimal [c * 10 ^ -j] that is read as [f = n / d]: the value cut
    after each digit in turn, rounded down or up. *)
Fixpoint shortest_from (fuel : nat) (f : spec_float) (n d j : Z) : option (Z * Z) :=
  match fuel with
  | O => None
  | S fuel =>
      let '(a, b) := scaled 10 n d (- j) in
      let c := a / b in
      if c =? 0 then shortest_from fuel f n d (j + 1)
      else
        let down := reads_as c (- j) f in
        let up := reads_as (c + 1) (- j) f in
        if down && up then Some (round_half_even a b, j)
        else if down then Some (c, j)
        else if up then Some (c + 1, j)
        else shortest_from fuel f n d (j + 1)
  end.

(** Without trailing zeros. *)
Fixpoint strip_zeros (fuel : nat) (c j : Z) : Z * Z :=
  match fuel with
  | O => (c, j)
  | S fuel => if c mod 10 =? 0 then strip_zeros fuel (c / 10) (j - 1) else (c, j)
  end.

(** A decimal position before the first digit of [m * 2 ^ e]. *)
Definition first_position (m : positive) (e : Z) : Z :=
  - ((Z.log2 (Z.pos m) + e + 1) * 30103 / 100000) - 2.

Definition shortest (m : positive) (e : Z) : option (Z * Z) :=
  let '(n, d) := scaled 2 (Z.pos m) 1 (- e) in
  '(c, j) ← shortest_from 1400 (S754_finite false m e) n d (first_position m e);
  Some (strip_zeros (Z.to_nat (Z.log2 c)) c j).

Definition zeros (n : Z) : list Z := replicate (Z.to_nat n) 0.

(** [c * 10 ^ -j] in the format 'f'. *)
Definition format_f (c j : Z) : string :=
  let l := digits c in
  let nd := Z.of_nat (length l) in
  if j <=? 0 then digits_string (l ++ zeros (- j))
  else if j <? nd then
    digits_string (take (Z.to_nat (nd - j)) l) +:+ "." +:+ digits_string (drop (Z.to_nat (nd - j)) l)
  else "0." +:+ digits_string (zeros (j - nd) ++ l).

(** In the format 'e', with the exponent as encoding/json leaves it. *)
Definition format_e (c j : Z) : string :=
  let l := digits c in
  let e := Z.of_nat (length l) - j - 1 in
  digits_string (take 1 l) +:+ (if (1 <? length l)%nat then "." +:+ digits_string (drop 1 l) else "") +:+ "e"
  +:+ (if e <? 0 then "-" +:+ digits_string (digits (- e)) else "+" +:+ digits_string (digits e)).

(** The thresholds between the formats. *)
Definition uses_exponent (f : spec_float) : bool :=
  match float_of_decimal false 1 (-6), float_of_decimal false 1 21 with
  | Some small, Some large => SFltb f small || SFleb large f
  | _, _ => false
  end.

(** [None] is an unsupported value: NaN and the infinities. *)
Definition format_number (f : spec_float) : option string :=
  match f with
  | S754_zero s => Some (if s then "-0" else "0")
  | S754_finite s m e =>
      '(c, j) ← shortest m e;
      Some ((if s then "-" else "") +:+
            (if uses_exponent (S754_finite false m e) then format_e c j else format_f c j))
  | _ => None
  end.

(** ** The logarithm of a fraction *)

Lemma pow2_pos k : 0 ≤ k → 0 < 2 ^ k.
Proof. intros. by apply Z.pow_pos_nonneg. Qed.
Lemma pow10_pos k : 0 ≤ k → 0 < 10 ^ k.
Proof. intros. by apply Z.pow_pos_nonneg. Qed.

(** [2 ^ k ≤ n / d < 2 ^ (k + 1)]. *)
Definition log_spec (n d k : Z) : Prop :=
  ∀ t, 0 ≤ t → 0 ≤ k + t → d * 2 ^ (k + t) ≤ n * 2 ^ t < 2 * (d * 2 ^ (k + t)).

Lemma floor_log2_spec n d : 0 < n → 0 < d → log_spec n d (floor_log2 n d).
Proof.
  intros Hn Hd. unfold floor_log2. set (k := Z.log2 n - Z.log2 d).
  pose proof (Z.log2_spec n Hn) as [Hn1 Hn2]. pose proof (Z.log2_spec d Hd) as [Hd1 Hd2].
  rewrite Z.pow_succ_r in Hn2, Hd2 by apply Z.log2_nonneg.
  pose proof (Z.log2_nonneg n). pose proof (Z.log2_nonneg d).
  (* [d * 2 ^ k] and [n] are at most a factor of two apart *)
  assert (∀ t, 0 ≤ t → 0 ≤ k + t → d * 2 ^ (k + t) < 2 * (n * 2 ^ t) ∧ n * 2 ^ t < 2 * (d * 2 ^ (k + t))) as Hk.
  { intros t Ht Hkt. assert (2 ^ Z.log2 d * 2 ^ (k + t) = 2 ^ Z.log2 n * 2 ^ t) as E.
    { rewrite <- !Z.pow_add_r by lia. f_equal. lia. }
    pose proof (pow2_pos t Ht) as HT. pose proof (pow2_pos (k + t) Hkt) as HK.
    pose proof (proj1 (Z.mul_lt_mono_pos_r _ _ _ HK) Hd2). pose proof (proj1 (Z.mul_lt_mono_pos_r _ _ _ HT) Hn2).
    pose proof (proj1 (Z.mul_le_mono_pos_r _ _ _ HK) Hd1). pose proof (proj1 (Z.mul_le_mono_pos_r _ _ _ HT) Hn1).
    lia. }
  assert (∀ t, 0 ≤ t → 0 ≤ k + t →
    (if 0 <=? k then d * 2 ^ k <=? n else d <=? n * 2 ^ (- k)) = (d * 2 ^ (k + t) <=? n * 2 ^ t)) as Htest.
  { intros t Ht Hkt. destruct (0 <=? k) eqn:E0.
    - rewrite Z.pow_add_r by lia. pose proof (pow2_pos t Ht). apply eq_true_iff_eq. rewrite !Z.leb_le. nia.
    - apply Z.leb_gt in E0. assert (2 ^ t = 2 ^ (- k) * 2 ^ (k + t)) as ->
        by (rewrite <- Z.pow_add_r by lia; f_equal; lia).
      pose proof (pow2_pos (k + t) Hkt). apply eq_true_iff_eq. rewrite !Z.leb_le. nia. }
  intros t Ht. destruct (if 0 <=? k then _ else _) eqn:E; intros Hkt.
  - specialize (Htest t Ht Hkt). symmetry in Htest. apply Z.leb_le in Htest. destruct (Hk t) as [_ ?]; lia.
  - specialize (Htest t Ht ltac:(lia)). symmetry in Htest. apply Z.leb_gt in Htest. destruct (Hk t) as [Hlo _]; [lia..|].
    replace (k + t) with (Z.succ (k - 1 + t)) in * by lia. rewrite Z.pow_succ_r in * by lia. lia.
Qed.

Lemma log_spec_unique n d k k' : 0 < d → log_spec n d k → log_spec n d k' → k = k'.
Proof.
  intros Hd. assert (∀ k k', log_spec n d k → log_spec n d k' → ¬ k < k') as Hlt.
  { clear k k'. intros k k' Hk Hk' Hlt. set (t := Z.abs k).
    destruct (Hk t) as [_ H1]; [lia..|]. destruct (Hk' t) as [H2 _]; [lia..|].
    assert (2 * 2 ^ (k + t) ≤ 2 ^ (k' + t)) as Hp.
    { rewrite <- Z.pow_succ_r by lia. apply Z.pow_le_mono_r; lia. }
    nia. }
  intros Hk Hk'. pose proof (Hlt _ _ Hk Hk'). pose proof (Hlt _ _ Hk' Hk). lia.
Qed.

Lemma floor_log2_unique n d k : 0 < n → 0 < d → log_spec n d k → floor_log2 n d = k.
Proof. intros. eapply log_spec_unique; [done|by apply floor_log2_spec|done]. Qed.

(** ** Rounding depends on the fraction only *)

Lemma round_half_even_scale a b x : 0 < b → 0 < x → round_half_even (a * x) (b * x) = round_half_even a b.
Proof.
  intros Hb Hx. unfold round_half_even. rewrite Z.div_mul_cancel_r by lia.
  rewrite Zmult_mod_distr_r, Z.mul_assoc.
  by rewrite <- (Zmult_compare_compat_r _ _ x) by lia.
Qed.

Lemma scaled_scale base n d e x : scaled base (n * x) (d * x) e = ((scaled base n d e).1 * x, (scaled base n d e).2 * x).
Proof. unfold scaled. destruct (0 <=? e); simpl; f_equal; lia. Qed.

Lemma scaled_pos base n d e : 0 < base → 0 < n → 0 < d → 0 < (scaled base n d e).1 ∧ 0 < (scaled base n d e).2.
Proof.
  intros Hbase Hn Hd. unfold scaled. destruct (0 <=? e) eqn:E; simpl.
  - apply Z.leb_le in E. pose proof (Z.pow_pos_nonneg base e Hbase E). nia.
  - apply Z.leb_gt in E. pose proof (Z.pow_pos_nonneg base (- e) Hbase ltac:(lia)). nia.
Qed.

Lemma float_of_ratio_scale s n d x : 0 < n → 0 < d → 0 < x → float_of_ratio s (n * x) (d * x) = float_of_ratio s n d.
Proof.
  intros Hn Hd Hx. unfold float_of_ratio.
  assert (n * x =? 0 = false) as -> by lia. assert (n =? 0 = false) as -> by lia.
  assert (floor_log2 (n * x) (d * x) = floor_log2 n d) as ->.
  { apply floor_log2_unique; [nia..|]. intros t Ht Hkt. pose proof (floor_log2_spec n d Hn Hd t Ht Hkt). nia. }
  set (e := Z.max _ _). rewrite scaled_scale. destruct (scaled_pos 2 n d e) as [_ Hb]; [done..|].
  destruct (scaled 2 n d e) as [a b]. simpl in *. by rewrite round_half_even_scale.
Qed.

Lemma float_of_ratio_eq s n d n' d' :
  0 < n → 0 < d → 0 < n' → 0 < d' → n * d' = n' * d → float_of_ratio s n d = float_of_ratio s n' d'.
Proof.
  intros Hn Hd Hn' Hd' E. rewrite <- (float_of_ratio_scale s n d d'), <- (float_of_ratio_scale s n' d' d) by done.
  f_equal; lia.
Qed.

(** Out of range, and too small for any digit. *)
Lemma float_of_ratio_large s n d : 0 < d → d * 2 ^ 1024 ≤ n → float_of_ratio s n d = None.
Proof.
  intros Hd Hle. assert (0 < n) as Hn by (pose proof (pow2_pos 1024); nia).
  unfold float_of_ratio. assert (n =? 0 = false) as -> by lia.
  assert (1024 ≤ floor_log2 n d) as Hk.
  { apply Z.nlt_ge. intros Hlt. set (k := floor_log2 n d) in *. set (t := Z.abs k).
    destruct (floor_log2_spec n d Hn Hd t) as [_ Hhi]; [lia|unfold t, k in *; lia|]. fold k in Hhi.
    assert (2 * 2 ^ (k + t) ≤ 2 ^ 1024 * 2 ^ t) as Hp.
    { rewrite <- Z.pow_succ_r, <- Z.pow_add_r by lia. apply Z.pow_le_mono_r; lia. }
    pose proof (pow2_pos t ltac:(lia)). nia. }
  set (e := Z.max _ _). assert (972 ≤ e) by lia. destruct (scaled 2 n d e) as [a b].
  destruct (_ =? 2 ^ 53); by rewrite (proj2 (Z.ltb_lt _ _)) by lia.
Qed.

Lemma float_of_ratio_small s n d : 0 < n → n * 2 ^ 1075 < d → float_of_ratio s n d = Some (S754_zero s).
Proof.
  intros Hn Hlt. assert (0 < d) as Hd by (pose proof (pow2_pos 1075); nia).
  unfold float_of_ratio. assert (n =? 0 = false) as -> by lia.
  assert (floor_log2 n d < -1023) as Hk.
  { apply Z.nle_gt. intros Hle. set (k := floor_log2 n d) in *. set (t := Z.abs k + 1075).
    destruct (floor_log2_spec n d Hn Hd t) as [Hlo _]; [lia|unfold t, k in *; lia|]. fold k in Hlo.
    assert (2 ^ t ≤ 2 ^ 1075 * 2 ^ (k + t)) as Hp.
    { rewrite <- Z.pow_add_r by lia. apply Z.pow_le_mono_r; lia. }
    pose proof (pow2_pos (k + t) ltac:(lia)). nia. }
  rewrite Z.max_l by lia. assert (scaled 2 n d (-1074) = (n * 2 ^ 1074, d)) as -> by done.
  assert (2 * (n * 2 ^ 1074) < d) as Hq.
  { replace 1075 with (Z.succ 1074) in Hlt by done. rewrite Z.pow_succ_r in Hlt by done. lia. }
  assert (0 ≤ n * 2 ^ 1074) by (pose proof (pow2_pos 1074); nia).
  cbv beta iota. assert (round_half_even (n * 2 ^ 1074) d = 0) as ->; [|done].
  unfold round_half_even. rewrite Z.div_small, Z.mod_small by lia.
  by apply Z.compare_lt_iff in Hq as ->.
Qed.

Lemma float_of_decimal_ratio s m e :
  0 < m → float_of_decimal s m e = (let '(n, d) := scaled 10 m 1 (- e) in float_of_ratio s n d).
Proof.
  intros Hm. unfold float_of_decimal. assert (m =? 0 = false) as -> by lia.
  destruct (310 <? e) eqn:E1; [apply Z.ltb_lt in E1|apply Z.ltb_ge in E1; destruct (_ <? - e) eqn:E2; [apply Z.ltb_lt in E2|done]].
  - unfold scaled. assert (0 <=? - e = false) as -> by lia. rewrite float_of_ratio_large; [done|done|].
    assert (10 ^ 311 ≤ 10 ^ (- - e)) by (apply Z.pow_le_mono_r; lia).
    assert (2 ^ 1024 ≤ 10 ^ 311) by (by vm_compute). nia.
  - pose proof (Z.log2_nonneg m). unfold scaled. assert (0 <=? - e = true) as -> by lia.
    rewrite float_of_ratio_small; [done|done|]. pose proof (Z.log2_spec m Hm) as [_ Hlog].
    assert (10 ^ 401 * 10 ^ Z.log2 m ≤ 10 ^ (- e)).
    { rewrite <- Z.pow_add_r by lia. apply Z.pow_le_mono_r; lia. }
    assert (2 ^ Z.log2 m ≤ 10 ^ Z.log2 m) by (apply Z.pow_le_mono_l; lia).
    assert (2 * 2 ^ 1075 ≤ 10 ^ 401) by (by vm_compute).
    rewrite Z.pow_succ_r in Hlog by lia. pose proof (pow2_pos 1075 ltac:(done)).
    pose proof (pow2_pos (Z.log2 m) ltac:(lia)). nia.
Qed.

(** Shifting the decimal point. *)
Lemma float_of_decimal_shift s m e k :
  0 < m → 0 ≤ k → float_of_decimal s (m * 10 ^ k) e = float_of_decimal s m (e + k).
Proof.
  intros Hm Hk. pose proof (pow10_pos k Hk) as Hp. rewrite !float_of_decimal_ratio by nia.
  destruct (scaled_pos 10 (m * 10 ^ k) 1 (- e)) as [Ha Hb]; [done|nia|done|].
  destruct (scaled_pos 10 m 1 (- (e + k))) as [Ha' Hb']; [done..|].
  destruct (scaled 10 (m * 10 ^ k) 1 (- e)) as [a b] eqn:E, (scaled 10 m 1 (- (e + k))) as [a' b'] eqn:E'.
  simpl in *. apply float_of_ratio_eq; [done..|]. unfold scaled in *.
  destruct (0 <=? - e) eqn:H1, (0 <=? - (e + k)) eqn:H2; simplify_eq; rewrite ?Z.mul_1_l.
  all: try apply Z.leb_le in H1; try apply Z.leb_le in H2; try apply Z.leb_gt in H1; try apply Z.leb_gt in H2; try lia.
  all: rewrite <- ?Z.mul_assoc, ?Z.mul_1_r, <- ?Z.pow_add_r by lia.
  all: f_equal; f_equal; lia.
Qed.

(** ** Reading an exact value *)

Definition float64_valid (f : spec_float) : Prop :=
  match f with
  | S754_zero _ => True
  | S754_finite _ m e => Z.log2 (Z.pos m) ≤ 52 ∧ -1074 ≤ e ≤ 971 ∧ (Z.log2 (Z.pos m) = 52 ∨ e = -1074)
  | _ => False
  end.

Lemma float_of_ratio_exact s m e :
  float64_valid (S754_finite s m e) →
  (let '(n, d) := scaled 2 (Z.pos m) 1 (- e) in float_of_ratio s n d) = Some (S754_finite s m e).
Proof.
  intros (Hlog & He & Hnorm). destruct (scaled_pos 2 (Z.pos m) 1 (- e)) as [Hn Hd]; [done..|].
  destruct (scaled 2 (Z.pos m) 1 (- e)) as [n d] eqn:E. cbn [fst snd] in *.
  assert (∀ t, 0 ≤ t → 0 ≤ e + t → n * 2 ^ t = Z.pos m * d * 2 ^ (e + t)) as Hval.
  { intros t Ht Het. unfold scaled in E. destruct (0 <=? - e) eqn:E0; simplify_eq.
    - apply Z.leb_le in E0. rewrite Z.mul_1_l, <- Z.mul_assoc, <- Z.pow_add_r by lia. do 2 f_equal. lia.
    - apply Z.leb_gt in E0. rewrite Z.mul_1_r, <- Z.mul_assoc, <- Z.pow_add_r by lia. do 2 f_equal. lia. }
  assert (floor_log2 n d = Z.log2 (Z.pos m) + e) as Hk.
  { apply floor_log2_unique; [done..|]. intros t Ht Hkt. pose proof (Z.log2_nonneg (Z.pos m)).
    pose proof (Z.log2_spec (Z.pos m) ltac:(done)) as [Hlo Hhi]. rewrite Z.pow_succ_r in Hhi by lia.
    set (l := Z.log2 (Z.pos m)) in *.
    (* multiply by enough for the exponents to be natural *)
    set (u := Z.abs e). assert (0 < 2 ^ u) as Hu by (apply pow2_pos; lia).
    assert (n * 2 ^ t * 2 ^ u = Z.pos m * d * 2 ^ (e + t + u)) as H1.
    { rewrite <- Z.mul_assoc, <- Z.pow_add_r by lia. rewrite Hval by lia. do 2 f_equal. lia. }
    assert (2 ^ (l + e + t) * 2 ^ u = 2 ^ l * 2 ^ (e + t + u)) as H2.
    { rewrite <- !Z.pow_add_r by lia. f_equal. lia. }
    assert (0 < d * 2 ^ (e + t + u)) as Hp by (pose proof (pow2_pos (e + t + u) ltac:(lia)); nia).
    pose proof (proj1 (Z.mul_le_mono_pos_r _ _ _ Hp) Hlo). pose proof (proj1 (Z.mul_lt_mono_pos_r _ _ _ Hp) Hhi).
    assert (d * 2 ^ (l + e + t) * 2 ^ u = d * 2 ^ (e + t + u) * 2 ^ l) by (rewrite <- Z.mul_assoc, H2; lia).
    split; [apply (Z.mul_le_mono_pos_r _ _ (2 ^ u) Hu)|apply (Z.mul_lt_mono_pos_r (2 ^ u) _ _ Hu)]; lia. }
  unfold float_of_ratio. assert (n =? 0 = false) as -> by lia. rewrite Hk.
  replace (Z.max (-1074) (Z.log2 (Z.pos m) + e - 52)) with e by lia.
  destruct (scaled_pos 2 n d e) as [_ Hb]; [done..|].
  destruct (scaled 2 n d e) as [a b] eqn:E'. cbn [fst snd] in *.
  assert (a = Z.pos m * b) as ->.
  { unfold scaled in E'. destruct (0 <=? e) eqn:E0; simplify_eq.
    - apply Z.leb_le in E0. specialize (Hval 0). rewrite Z.mul_1_r, Z.add_0_r in Hval. rewrite Hval by lia. lia.
    - apply Z.leb_gt in E0. rewrite Hval by lia. rewrite Z.add_opp_diag_r. lia. }
  assert (round_half_even (Z.pos m * b) b = Z.pos m) as ->.
  { unfold round_half_even. rewrite Z.div_mul, Z.mod_mul by lia. by destruct b. }
  assert (Z.pos m =? 2 ^ 53 = false) as ->.
  { apply Z.eqb_neq. intros Hm. rewrite Hm, Z.log2_pow2 in Hlog by done. lia. }
  by assert (971 <? e = false) as -> by lia.
Qed.

(** ** The shortest decimal *)

Lemma round_half_even_cases a b : round_half_even a b = a / b ∨ round_half_even a b = a / b + 1.
Proof. unfold round_half_even. repeat case_match; auto. Qed.

Lemma float_eqb_eq f g : float_eqb f g = true → f = g.
Proof.
  destruct f, g; simpl; try done; rewrite ?andb_true_iff, ?Bool.eqb_true_iff, ?Pos.eqb_eq, ?Z.eqb_eq; naive_solver.
Qed.

Lemma float_eqb_refl f : float_eqb f f = true.
Proof. destruct f; simpl; rewrite ?Bool.eqb_reflx, ?Pos.eqb_refl, ?Z.eqb_refl; done. Qed.

Lemma reads_as_true m e f : reads_as m e f = true ↔ float_of_decimal false m e = Some f.
Proof.
  unfold reads_as. destruct (float_of_decimal false m e) as [g|]; [|done]. split.
  - by intros ->%float_eqb_eq.
  - intros [= ->]. apply float_eqb_refl.
Qed.

(** What it finds is read as the number, and is not too long. *)
Lemma shortest_from_reads fuel f n d j c j' :
  0 < n → 0 < d → shortest_from fuel f n d j = Some (c, j') →
  0 < c ≤ n * 10 ^ Z.max 0 j' + 1 ∧ j ≤ j' < j + Z.of_nat fuel ∧ float_of_decimal false c (- j') = Some f.
Proof.
  intros Hn Hd. revert j. induction fuel as [|fuel IH]; intros j; [done|]. cbn [shortest_from].
  destruct (scaled_pos 10 n d (- j)) as [Ha Hb]; [done..|].
  assert ((scaled 10 n d (- j)).1 ≤ n * 10 ^ Z.max 0 j) as Hle.
  { unfold scaled. destruct (0 <=? - j) eqn:E; [apply Z.leb_le in E|apply Z.leb_gt in E]; cbn [fst].
    - rewrite Z.max_l by lia. lia.
    - rewrite Z.max_r, Z.opp_involutive by lia. lia. }
  destruct (scaled 10 n d (- j)) as [a b]. cbn [fst snd] in *.
  assert (shortest_from fuel f n d (j + 1) = Some (c, j') → 0 < c ≤ n * 10 ^ Z.max 0 j' + 1
    ∧ j ≤ j' < j + Z.of_nat (S fuel) ∧ float_of_decimal false c (- j') = Some f) as Hnext.
  { intros H. destruct (IH _ H) as (? & ? & ?). split_and!; try done; lia. }
  destruct (a / b =? 0) eqn:E0; [done|]. apply Z.eqb_neq in E0.
  assert (0 ≤ a / b ≤ a) as Hc by (split; [apply Z.div_pos; lia|apply Z.div_le_upper_bound; nia]).
  destruct (reads_as (a / b) (- j) f) eqn:Hdown, (reads_as (a / b + 1) (- j) f) eqn:Hup; simpl; [..|done];
    rewrite ?reads_as_true in *; intros [= <- <-].
  - destruct (round_half_even_cases a b) as [-> | ->]; (split_and!; [lia..|done]).
  - split_and!; [lia..|done].
  - split_and!; [lia..|done].
Qed.

(** An exact decimal is found at the latest. *)
Lemma shortest_from_total fuel f n d j J :
  0 < n → 0 < d → 0 ≤ J → (d | n * 10 ^ J) → float_of_ratio false n d = Some f →
  J - j < Z.of_nat fuel → (0 < fuel)%nat → is_Some (shortest_from fuel f n d j).
Proof.
  intros Hn Hd HJ Hdiv Hf. revert j. induction fuel as [|fuel IH]; intros j Hj Hfuel; [lia|]. cbn [shortest_from].
  destruct (decide (J ≤ j)) as [HJj|HJj].
  - assert (scaled 10 n d (- j) = (n * 10 ^ j, d)) as ->.
    { unfold scaled. destruct (0 <=? - j) eqn:E; [|by rewrite Z.opp_involutive].
      apply Z.leb_le in E. assert (j = 0) as -> by lia. f_equal; lia. }
    assert ((d | n * 10 ^ j)) as [c Hc].
    { replace j with (J + (j - J)) by lia. rewrite Z.pow_add_r, Z.mul_assoc by lia. by apply Z.divide_mul_l. }
    rewrite Hc, Z.div_mul by lia. pose proof (pow10_pos j ltac:(lia)). assert (0 < c) as Hpos by nia.
    assert (c =? 0 = false) as -> by lia.
    assert (reads_as c (- j) f = true) as ->.
    { apply reads_as_true. rewrite float_of_decimal_ratio, Z.opp_involutive by done. unfold scaled.
      rewrite (proj2 (Z.leb_le 0 j)) by lia. rewrite <- Hf. apply float_of_ratio_eq; [lia..|]. lia. }
    simpl. case_match; by eexists.
  - assert (is_Some (shortest_from fuel f n d (j + 1))) by (apply IH; lia).
    destruct (scaled 10 n d (- j)) as [a b]. cbv zeta. repeat case_match; try done; by eexists.
Qed.

Lemma strip_zeros_value fuel c j :
  0 < c → let '(c', j') := strip_zeros fuel c j in
  0 < c' ≤ c ∧ j - Z.of_nat fuel ≤ j' ≤ j ∧ c = c' * 10 ^ (j - j').
Proof.
  revert c j. induction fuel as [|fuel IH]; intros c j Hc; simpl.
  { rewrite Z.sub_diag. lia. }
  destruct (c mod 10 =? 0) eqn:E; [|rewrite Z.sub_diag; lia]. apply Z.eqb_eq in E.
  pose proof (Z.div_mod c 10 ltac:(done)) as Hdiv. rewrite E in Hdiv.
  specialize (IH (c / 10) (j - 1) ltac:(lia)). destruct (strip_zeros fuel (c / 10) (j - 1)) as [c' j'].
  destruct IH as (? & ? & Hv). split_and!; [lia..|].
  replace (j - j') with (Z.succ (j - 1 - j')) by lia. rewrite Z.pow_succ_r by lia. lia.
Qed.

Lemma first_position_bounds s m e :
  float64_valid (S754_finite s m e) → -310 ≤ first_position m e ≤ 322.
Proof.
  intros (Hlog & He & _). unfold first_position. pose proof (Z.log2_nonneg (Z.pos m)).
  set (x := Z.log2 (Z.pos m) + e + 1). assert (-1073 ≤ x ≤ 1024) as Hx by lia.
  assert (-324 ≤ x * 30103 / 100000) by (apply Z.div_le_lower_bound; lia).
  assert (x * 30103 / 100000 < 309) by (apply Z.div_lt_upper_bound; lia). lia.
Qed.

Lemma shortest_spec m e :
  float64_valid (S754_finite false m e) →
  ∃ c j, shortest m e = Some (c, j) ∧ 0 < c ∧ Z.log2 c ≤ 8000 ∧ -9000 ≤ j ≤ 2000
    ∧ float_of_decimal false c (- j) = Some (S754_finite false m e).
Proof.
  intros Hv. pose proof (first_position_bounds _ _ _ Hv) as Hpos. pose proof (float_of_ratio_exact _ _ _ Hv) as Hex.
  destruct Hv as (Hlog & He & _). unfold shortest.
  destruct (scaled_pos 2 (Z.pos m) 1 (- e)) as [Hn Hd]; [done..|].
  assert ((scaled 2 (Z.pos m) 1 (- e)).1 < 2 ^ 1024) as Hn'.
  { pose proof (Z.log2_spec (Z.pos m) ltac:(done)) as [_ Hm].
    assert (2 ^ Z.succ (Z.log2 (Z.pos m)) ≤ 2 ^ 53) by (apply Z.pow_le_mono_r; lia).
    assert (2 ^ 1024 = 2 ^ 53 * 2 ^ 971) as -> by (by vm_compute). unfold scaled.
    destruct (0 <=? - e) eqn:E; [apply Z.leb_le in E|apply Z.leb_gt in E]; cbn [fst].
    - pose proof (pow2_pos 971 ltac:(done)). nia.
    - rewrite Z.opp_involutive. assert (2 ^ e ≤ 2 ^ 971) by (apply Z.pow_le_mono_r; lia).
      pose proof (pow2_pos e ltac:(lia)). nia. }
  assert (((scaled 2 (Z.pos m) 1 (- e)).2 | (scaled 2 (Z.pos m) 1 (- e)).1 * 10 ^ Z.max 0 (- e))) as Hdiv.
  { unfold scaled. destruct (0 <=? - e) eqn:E; [apply Z.leb_le in E|apply Z.divide_1_l]; cbn [fst snd].
    rewrite Z.max_r, Z.mul_1_l by lia. apply Z.divide_mul_r. exists (5 ^ (- e)). by rewrite <- Z.pow_mul_l. }
  destruct (scaled 2 (Z.pos m) 1 (- e)) as [n d]. cbn [fst snd] in *.
  destruct (shortest_from_total 1400 _ n d (first_position m e) _ Hn Hd (Z.le_max_l 0 (- e)) Hdiv Hex) as [[c j] Hs]; [lia..|].
  rewrite Hs. cbn [mbind option_bind].
  destruct (shortest_from_reads _ _ _ _ _ _ _ Hn Hd Hs) as (Hc & Hj & Hread).
  assert (Z.log2 c ≤ 7920) as Hlc.
  { apply Z.lt_succ_r, Z.log2_lt_pow2; [lia|].
    assert (10 ^ Z.max 0 j ≤ 10 ^ 1722) as Hj' by (apply Z.pow_le_mono_r; lia).
    assert (2 ^ 1024 * 10 ^ 1722 + 1 < 2 ^ Z.succ 7920) as Hbig by (by vm_compute).
    eapply Z.le_lt_trans; [apply Hc|]. eapply Z.le_lt_trans; [|exact Hbig]. apply Z.add_le_mono_r.
    apply Z.mul_le_mono_nonneg; [exact (Z.lt_le_incl _ _ Hn)|exact (Z.lt_le_incl _ _ Hn')| |exact Hj'].
    apply Z.lt_le_incl, pow10_pos, Z.le_max_l. }
  pose proof (strip_zeros_value (Z.to_nat (Z.log2 c)) c j ltac:(lia)) as Hst.
  destruct (strip_zeros _ c j) as [c' j']. destruct Hst as (Hc' & Hj' & Hval).
  pose proof (Z.log2_nonneg c). pose proof (Z.log2_le_mono c' c ltac:(lia)).
  exists c', j'. split_and!; [done|lia..|]. rewrite <- Hread, Hval, float_of_decimal_shift by lia. f_equal. lia.
Qed.

(** ** Digits and texts *)

Definition is_digit (d : Z) : Prop := 0 ≤ d ≤ 9.

(** The text does not go on with a digit. *)
Definition no_digit (s : string) : Prop :=
  match s with EmptyString => True | String c _ => digit_val c = None end.

Lemma digit_val_char d : is_digit d → digit_val (digit_char d) = Some d.
Proof.
  intros Hd. assert (d = 0 ∨ d = 1 ∨ d = 2 ∨ d = 3 ∨ d = 4 ∨ d = 5 ∨ d = 6 ∨ d = 7 ∨ d = 8 ∨ d = 9) as H
    by (unfold is_digit in Hd; lia).
  by repeat destruct H as [-> | H]; [..|subst].
Qed.

Lemma string_app_cons x (a b : string) : String x a +:+ b = String x (a +:+ b).
Proof. done. Qed.
Lemma string_app_nil (b : string) : EmptyString +:+ b = b.
Proof. done. Qed.
Lemma string_app_assoc (a b c : string) : (a +:+ b) +:+ c = a +:+ (b +:+ c).
Proof. induction a as [|x a IH]; [done|]. by rewrite !string_app_cons, IH. Qed.

(** Texts in normal form: appended to the right, characters in front. *)
Ltac str_norm := repeat first [rewrite string_app_assoc | rewrite string_app_cons | rewrite string_app_nil].

Lemma digits_string_app l l' : digits_string (l ++ l') = digits_string l +:+ digits_string l'.
Proof. induction l as [|d l IH]; [done|]. simpl. by rewrite string_app_cons, IH. Qed.

Lemma take_digits_string l rest :
  Forall is_digit l → no_digit rest → take_digits (digits_string l +:+ rest) = (l, rest).
Proof.
  intros Hl Hr. induction Hl as [|d l Hd Hl IH]; simpl; str_norm.
  - destruct rest as [|c rest]; [done|]. simpl. by rewrite Hr.
  - simpl. by rewrite digit_val_char, IH.
Qed.

Lemma digits_value_app l l' : digits_value (l ++ l') = digits_value l * 10 ^ Z.of_nat (length l') + digits_value l'.
Proof.
  unfold digits_value. rewrite foldl_app. generalize (foldl (λ acc d, acc * 10 + d) 0 l).
  induction l' as [|d l' IH]; intros a; cbn [foldl length].
  - rewrite Z.pow_0_r. lia.
  - rewrite (IH (a * 10 + d)), (IH (0 * 10 + d)), Nat2Z.inj_succ, Z.pow_succ_r by lia. lia.
Qed.

Lemma digits_of_spec fuel n acc :
  0 ≤ n → (Z.to_nat (Z.log2 n) < fuel)%nat →
  ∃ l, digits_of fuel n acc = l ++ acc ∧ digits_value l = n ∧ Forall is_digit l
    ∧ (length l ≤ fuel)%nat ∧ (0 < n → ∃ d l', l = d :: l' ∧ d ≠ 0) ∧ l ≠ [].
Proof.
  revert n acc. induction fuel as [|fuel IH]; intros n acc Hn Hf; [lia|]. simpl.
  destruct (n <? 10) eqn:E; [apply Z.ltb_lt in E|apply Z.ltb_ge in E].
  - exists [n]. split_and!; [done|by unfold digits_value; simpl; lia|by repeat constructor; lia|simpl; lia| |done].
    intros. exists n, []. split; [done|lia].
  - assert (0 < n / 10) as Hq by (apply Z.div_str_pos; lia).
    assert (Z.log2 (n / 10) < Z.log2 n) as Hlog.
    { apply Z.log2_lt_pow2; [lia|]. apply Z.div_lt_upper_bound; [lia|].
      pose proof (Z.log2_spec n ltac:(lia)) as [_ Hhi]. rewrite Z.pow_succ_r in Hhi by apply Z.log2_nonneg. lia. }
    pose proof (Z.log2_nonneg (n / 10)).
    destruct (IH (n / 10) (n mod 10 :: acc)) as (l & -> & Hv & Hd & Hlen & Hhead & _); [lia..|].
    exists (l ++ [n mod 10]). pose proof (Z.mod_pos_bound n 10 ltac:(lia)).
    split_and!; [by rewrite <- app_assoc| |apply Forall_app; split; [done|by repeat constructor; lia]
      |rewrite length_app; simpl; lia| |by destruct l].
    + rewrite digits_value_app, Hv. unfold digits_value. simpl. pose proof (Z.div_mod n 10). lia.
    + intros _. destruct (Hhead Hq) as (d & l' & -> & Hd0). by exists d, (l' ++ [n mod 10]).
Qed.

(** The digits of a number, in one statement. *)
Lemma digits_spec n :
  0 ≤ n → digits_value (digits n) = n ∧ Forall is_digit (digits n) ∧ digits n ≠ []
    ∧ (Z.of_nat (length (digits n)) ≤ Z.log2 n + 1) ∧ (0 < n → ∃ d l', digits n = d :: l' ∧ d ≠ 0).
Proof.
  intros Hn. unfold digits. destruct (digits_of_spec (S (Z.to_nat (Z.log2 n))) n []) as (l & -> & ? & ? & ? & ? & ?); [lia..|].
  rewrite app_nil_r. pose proof (Z.log2_nonneg n). split_and!; try done. lia.
Qed.

(** ** Reading back *)

(** The text does not go on with a part of a number. *)
Definition ends_number (s : string) : Prop :=
  match s with
  | EmptyString => True
  | String c _ => digit_val c = None ∧ c ≠ "."%char ∧ c ≠ "e"%char ∧ c ≠ "E"%char
  end.

Lemma ends_no_digit s : ends_number s → no_digit s.
Proof. destruct s; [done|]. by intros []. Qed.

Lemma parse_int_digits d l rest :
  Forall is_digit (d :: l) → d ≠ 0 → no_digit rest →
  parse_int (digits_string (d :: l) +:+ rest) = Some (d :: l, rest).
Proof.
  intros Hl Hd Hr. pose proof (take_digits_string _ _ Hl Hr) as Ht. apply Forall_cons in Hl as [Hdig _].
  assert (d = 1 ∨ d = 2 ∨ d = 3 ∨ d = 4 ∨ d = 5 ∨ d = 6 ∨ d = 7 ∨ d = 8 ∨ d = 9) as H by (unfold is_digit in Hdig; lia).
  unfold parse_int. rewrite Ht. by repeat destruct H as [-> | H]; [..|subst].
Qed.

Lemma parse_frac_none s : ends_number s → parse_frac s = Some ([], s).
Proof. destruct s as [|[[] [] [] [] [] [] [] []] s]; try done. by intros (_ & [] & _). Qed.

Lemma parse_frac_e s : parse_frac (String "e" s) = Some ([], String "e" s).
Proof. done. Qed.

Lemma parse_frac_digits l rest :
  Forall is_digit l → l ≠ [] → no_digit rest → parse_frac (String "." (digits_string l +:+ rest)) = Some (l, rest).
Proof. intros Hl Hne Hr. simpl. rewrite take_digits_string by done. by destruct l. Qed.

Lemma parse_exp_none s : ends_number s → parse_exp s = Some (0, s).
Proof. destruct s as [|[[] [] [] [] [] [] [] []] s]; try done; by intros (_ & _ & He & HE). Qed.

Lemma exponent_value_small l :
  Forall is_digit l → digits_value l < 100000 → exponent_value l = digits_value l.
Proof.
  induction l as [|d l IH] using rev_ind; [done|]. intros [Hl Hd]%Forall_app Hlt.
  apply Forall_cons in Hd as [Hd _]. unfold is_digit in Hd. rewrite digits_value_app in *.
  change (digits_value [d]) with d in *. change (10 ^ Z.of_nat (length [d])) with 10 in *.
  unfold exponent_value. rewrite foldl_app. cbn [foldl]. fold (exponent_value l).
  rewrite IH by (done || lia). by rewrite (proj2 (Z.ltb_lt _ _)) by lia.
Qed.

Lemma parse_exp_digits_reads sign n rest :
  0 ≤ n < 100000 → no_digit rest → parse_exp_digits sign (digits_string (digits n) +:+ rest) = Some (sign * n, rest).
Proof.
  intros Hn Hr. destruct (digits_spec n) as (Hv & Hd & Hne & _ & _); [lia|]. unfold parse_exp_digits.
  rewrite take_digits_string by done. destruct (digits n) eqn:E; [done|]. rewrite <- E in *.
  by rewrite exponent_value_small, Hv by (rewrite ?Hv; (done || lia)).
Qed.

Lemma parse_exp_reads e rest :
  -100000 < e < 100000 → no_digit rest →
  parse_exp ("e" +:+ (if e <? 0 then "-" +:+ digits_string (digits (- e)) else "+" +:+ digits_string (digits e)) +:+ rest)
  = Some (e, rest).
Proof.
  intros He Hr. destruct (e <? 0) eqn:E; [apply Z.ltb_lt in E|apply Z.ltb_ge in E]; str_norm; unfold parse_exp;
    rewrite parse_exp_digits_reads by (done || lia); do 2 f_equal; lia.
Qed.

Lemma zeros_value k : digits_value (zeros k) = 0.
Proof.
  unfold zeros. induction (Z.to_nat k) as [|n IH]; [done|]. simpl.
  change (0 :: replicate n 0) with ([0] ++ replicate n 0). rewrite digits_value_app, IH. done.
Qed.

Lemma zeros_digits k : Forall is_digit (zeros k).
Proof. apply Forall_replicate. unfold is_digit. lia. Qed.

(** The parts of a text give back the decimal. *)
Lemma parse_unsigned_parts sign s int s1 frac s2 e s3 c j k f :
  parse_int s = Some (int, s1) → parse_frac s1 = Some (frac, s2) → parse_exp s2 = Some (e, s3) →
  0 < c → 0 ≤ k → e - Z.of_nat (length frac) + k = - j → digits_value (int ++ frac) = c * 10 ^ k →
  float_of_decimal sign c (- j) = Some f → parse_unsigned sign s = Some (f, s3).
Proof.
  intros Hi Hf He Hc Hk Hj Hv Hread. unfold parse_unsigned. rewrite Hi. cbn. rewrite Hf. cbn. rewrite He. cbn.
  by rewrite Hv, float_of_decimal_shift, Hj, Hread by done.
Qed.

Lemma format_f_reads sign c j f rest :
  0 < c → float_of_decimal sign c (- j) = Some f → ends_number rest →
  parse_unsigned sign (format_f c j +:+ rest) = Some (f, rest).
Proof.
  intros Hc Hread Hr. destruct (digits_spec c) as (Hv & Hd & _ & _ & Hhead); [lia|].
  destruct (Hhead Hc) as (x & l & El & Hx). unfold format_f. rewrite El in *. set (nd := Z.of_nat (length (x :: l))).
  pose proof (ends_no_digit _ Hr) as Hr'.
  destruct (j <=? 0) eqn:E1; [apply Z.leb_le in E1|apply Z.leb_gt in E1].
  { eapply (parse_unsigned_parts _ _ (x :: l ++ zeros (- j)) _ [] _ 0 _ c j (- j)).
    - apply parse_int_digits; [|done|exact Hr']. apply (Forall_app_2 _ (x :: l)); [done|apply zeros_digits].
    - by apply parse_frac_none.
    - by apply parse_exp_none.
    - done.
    - lia.
    - simpl. lia.
    - rewrite app_nil_r. change (x :: l ++ zeros (- j)) with ((x :: l) ++ zeros (- j)).
      rewrite digits_value_app, Hv, zeros_value. unfold zeros. rewrite length_replicate, Z2Nat.id by lia. lia.
    - done. }
  destruct (j <? nd) eqn:E2; [apply Z.ltb_lt in E2|apply Z.ltb_ge in E2].
  - set (k := Z.to_nat (nd - j)). destruct k as [|k'] eqn:Ek; [lia|]. str_norm. cbn [take drop].
    pose proof (Forall_drop is_digit k' l (proj2 (proj1 (Forall_cons _ _ _) Hd))) as Hdd.
    assert (length (drop k' l) = Z.to_nat j) as Hlen by (rewrite length_drop; unfold nd in *; simpl in *; lia).
    eapply (parse_unsigned_parts _ _ (x :: take k' l) _ (drop k' l) _ 0 _ c j 0).
    + apply parse_int_digits; [|done|done]. apply Forall_cons in Hd as [??]. constructor; [done|by apply Forall_take].
    + apply parse_frac_digits; [done| |done]. intros H. rewrite H in Hlen. simpl in Hlen. lia.
    + by apply parse_exp_none.
    + done.
    + done.
    + rewrite Hlen. lia.
    + simpl. rewrite take_drop, Hv. lia.
    + done.
  - str_norm. eapply (parse_unsigned_parts _ _ [0] _ (zeros (j - nd) ++ x :: l) _ 0 _ c j 0).
    + done.
    + apply parse_frac_digits; [apply Forall_app_2; [apply zeros_digits|done]|by destruct (zeros _)|done].
    + by apply parse_exp_none.
    + done.
    + done.
    + rewrite length_app. unfold zeros. rewrite length_replicate. unfold nd in *. lia.
    + change ([0] ++ zeros (j - nd) ++ x :: l) with ((0 :: zeros (j - nd)) ++ x :: l).
      rewrite digits_value_app, Hv. change (0 :: zeros (j - nd)) with ([0] ++ zeros (j - nd)).
      rewrite digits_value_app, zeros_value. change (digits_value [0]) with 0. lia.
    + done.
Qed.

Lemma format_e_reads sign c j f rest :
  0 < c → Z.log2 c ≤ 8000 → -9000 ≤ j ≤ 2000 → float_of_decimal sign c (- j) = Some f → ends_number rest →
  parse_unsigned sign (format_e c j +:+ rest) = Some (f, rest).
Proof.
  intros Hc Hlog Hj Hread Hr. destruct (digits_spec c) as (Hv & Hd & _ & Hlen & Hhead); [lia|].
  destruct (Hhead Hc) as (x & l & El & Hx). unfold format_e. rewrite El in *. cbn [take drop].
  pose proof (ends_no_digit _ Hr) as Hr'. set (e := Z.of_nat (length (x :: l)) - j - 1).
  assert (-100000 < e < 100000) as He by lia. pose proof (parse_exp_reads e rest He Hr') as Hexp.
  set (tail := "e" +:+ _ +:+ rest) in Hexp.
  assert (no_digit tail) as Htail by done.
  eapply (parse_unsigned_parts _ _ [x] _ l tail e rest c j 0).
  - str_norm. apply (parse_int_digits x []); [apply Forall_cons in Hd as [? _]; by constructor|done|].
    by destruct l.
  - destruct l as [|y l]; [done|]. str_norm. apply parse_frac_digits; [by apply Forall_cons in Hd as [_ ?]|done|done].
  - done.
  - done.
  - done.
  - unfold e. simpl length. lia.
  - simpl. rewrite Hv. lia.
  - done.
Qed.

Lemma float_of_decimal_sign s m e p k :
  float_of_decimal false m e = Some (S754_finite false p k) → float_of_decimal s m e = Some (S754_finite s p k).
Proof.
  unfold float_of_decimal, float_of_ratio. repeat case_match; naive_solver.
Qed.

Lemma parse_number_unsigned s r : parse_unsigned false s = Some r → parse_number s = Some r.
Proof. by destruct s as [|[[] [] [] [] [] [] [] []] s]. Qed.

(** Every finite float64 is written, and read back as itself. *)
Theorem number_roundtrip f rest :
  float64_valid f → ends_number rest →
  ∃ s, format_number f = Some s ∧ parse_number (s +:+ rest) = Some (f, rest).
Proof.
  intros Hv Hr. destruct f as [s|s| |s m e]; [|done|done|]; unfold format_number.
  - eexists. split; [done|]. destruct s; str_norm; unfold parse_number, parse_unsigned, parse_int; cbn;
      rewrite parse_frac_none by done; cbn; by rewrite parse_exp_none.
  - destruct (shortest_spec m e Hv) as (c & j & -> & Hc & Hlog & Hj & Hread). eexists. split; [done|].
    apply (float_of_decimal_sign s) in Hread.
    assert (parse_unsigned s ((if uses_exponent (S754_finite false m e) then format_e c j else format_f c j) +:+ rest)
      = Some (S754_finite s m e, rest)) as Hp.
    { destruct (uses_exponent _); [by apply format_e_reads|by apply format_f_reads]. }
    str_norm. destruct s; str_norm; [done|]. by apply parse_number_unsigned.
Qed.

(** ** What is read is a float64 *)

Lemma scaled_value n d e t :
  0 ≤ t → 0 ≤ e + t → (scaled 2 n d e).1 * (d * 2 ^ (e + t)) = (scaled 2 n d e).2 * (n * 2 ^ t).
Proof.
  intros Ht Het. unfold scaled. destruct (0 <=? e) eqn:E; cbn [fst snd].
  - apply Z.leb_le in E. rewrite Z.pow_add_r by lia. lia.
  - apply Z.leb_gt in E. assert (2 ^ t = 2 ^ (- e) * 2 ^ (e + t)) as ->; [|lia].
    rewrite <- Z.pow_add_r by lia. f_equal. lia.
Qed.

Lemma round_half_even_bounds a b lo hi : 0 < b → lo * b ≤ a < hi * b → lo ≤ round_half_even a b ≤ hi.
Proof.
  intros Hb [Hlo Hhi]. assert (lo ≤ a / b) by (apply Z.div_le_lower_bound; lia).
  assert (a / b < hi) by (apply Z.div_lt_upper_bound; lia). destruct (round_half_even_cases a b); lia.
Qed.

Lemma float_of_ratio_valid s n d f :
  0 < n → 0 < d → float_of_ratio s n d = Some f → float64_valid f.
Proof.
  intros Hn Hd. unfold float_of_ratio. assert (n =? 0 = false) as -> by lia.
  set (L := floor_log2 n d). set (e := Z.max (-1074) (L - 52)).
  destruct (scaled_pos 2 n d e) as [Ha Hb]; [done..|]. set (t := Z.abs L + Z.abs e).
  pose proof (scaled_value n d e t ltac:(lia) ltac:(lia)) as Hval.
  destruct (floor_log2_spec n d Hn Hd t) as [Hlo Hhi]; [lia|fold L; lia|]. fold L in Hlo, Hhi.
  destruct (scaled 2 n d e) as [a b]. cbn [fst snd] in *.
  assert (0 < d * 2 ^ (e + t)) as HX by (pose proof (pow2_pos (e + t) ltac:(lia)); nia).
  assert (a < 2 ^ 53 * b) as Hup.
  { apply (Z.mul_lt_mono_pos_r (d * 2 ^ (e + t))); [done|]. rewrite Hval.
    assert (2 ^ (L + t) ≤ 2 ^ 52 * 2 ^ (e + t)) by (rewrite <- Z.pow_add_r by lia; apply Z.pow_le_mono_r; lia).
    assert (n * 2 ^ t < 2 ^ 53 * (d * 2 ^ (e + t))) by (change (2 ^ 53) with (2 * 2 ^ 52); nia). nia. }
  assert (e ≠ -1074 → 2 ^ 52 * b ≤ a) as Hdown.
  { intros He. apply (Z.mul_le_mono_pos_r _ _ (d * 2 ^ (e + t))); [done|]. rewrite Hval.
    replace (L + t) with (52 + (e + t)) in Hlo by lia. rewrite Z.pow_add_r in Hlo by lia. nia. }
  assert (0 ≤ round_half_even a b ≤ 2 ^ 53 ∧ (e ≠ -1074 → 2 ^ 52 ≤ round_half_even a b)) as [Hm Hm'].
  { split; [apply round_half_even_bounds; lia|]. intros He. specialize (Hdown He).
    apply (round_half_even_bounds a b (2 ^ 52) (2 ^ 53)); lia. }
  assert (∀ m k, (if 971 <? k then None else match m with Z.pos p => Some (S754_finite s p k) | _ => Some (S754_zero s) end) = Some f →
    0 ≤ m < 2 ^ 53 → -1074 ≤ k → (k ≠ -1074 → 2 ^ 52 ≤ m) → float64_valid f) as Hend.
  { clear. intros m k Hf Hm Hk Hnorm. destruct (971 <? k) eqn:E; [done|]. apply Z.ltb_ge in E.
    destruct m as [|p|p]; [by simplify_eq|simplify_eq|lia]. unfold float64_valid.
    assert (Z.log2 (Z.pos p) < 53) by (apply Z.log2_lt_pow2; lia).
    destruct (decide (k = -1074)); [lia|]. assert (52 ≤ Z.log2 (Z.pos p)); [|lia].
    apply Z.log2_le_pow2; [done|]. by apply Hnorm. }
  destruct (round_half_even a b =? 2 ^ 53) eqn:E; intros Hf.
  - apply (Hend (2 ^ 52) (e + 1) Hf); lia.
  - apply Z.eqb_neq in E. apply (Hend _ _ Hf); [lia|lia|exact Hm'].
Qed.

Lemma float_of_decimal_valid s m e f : 0 ≤ m → float_of_decimal s m e = Some f → float64_valid f.
Proof.
  intros Hm. destruct (decide (m = 0)) as [->|Hne]; [by intros [= <-]|].
  rewrite float_of_decimal_ratio by lia. destruct (scaled_pos 10 m 1 (- e)) as [Hn Hd]; [lia..|].
  destruct (scaled 10 m 1 (- e)) as [n d]. by apply float_of_ratio_valid.
Qed.

Lemma take_digits_digits s : Forall is_digit (take_digits s).1.
Proof.
  induction s as [|c s IH]; simpl; [constructor|]. destruct (digit_val c) as [d|] eqn:E; [|constructor].
  destruct (take_digits s). constructor; [|done]. unfold digit_val in E. case_match eqn:Eb; [|done].
  simplify_eq. apply andb_true_iff in Eb as [?%Z.leb_le ?%Z.leb_le]. unfold is_digit. lia.
Qed.

Lemma digits_value_nonneg l : Forall is_digit l → 0 ≤ digits_value l.
Proof.
  induction l as [|d l IH] using rev_ind; [done|]. intros [Hl Hd]%Forall_app. apply Forall_cons in Hd as [Hd _].
  rewrite digits_value_app. specialize (IH Hl). unfold is_digit in Hd. change (digits_value [d]) with d.
  change (10 ^ Z.of_nat (length [d])) with 10. lia.
Qed.

Lemma parse_number_valid s f rest :
  parse_number s = Some (f, rest) → float64_valid f ∨ ∃ sign, f = S754_infinity sign.
Proof.
  assert (∀ sign s f rest, parse_unsigned sign s = Some (f, rest) →
    float64_valid f ∨ ∃ sign, f = S754_infinity sign) as H.
  { clear. intros sign s f rest. unfold parse_unsigned. destruct (parse_int s) as [[int s1]|] eqn:Hi; [|done]. cbn.
    destruct (parse_frac s1) as [[frac s2]|] eqn:Hf; [|done]. cbn. destruct (parse_exp s2) as [[e s3]|]; [|done]. cbn.
    destruct (float_of_decimal _ _ _) eqn:E; intros [= <- <-]; [left|right; by eexists].
    eapply float_of_decimal_valid; [|done]. apply digits_value_nonneg, Forall_app.
    pose proof (take_digits_digits s) as Hd. split.
    - assert (int = [0] ∨ int = (take_digits s).1) as [-> | ->]; [|repeat constructor; lia|done].
      unfold parse_int in Hi. repeat case_match; naive_solver.
    - assert (frac = [] ∨ ∃ s', frac = (take_digits s').1) as [-> | [s' ->]]; [|constructor|apply take_digits_digits].
      unfold parse_frac in Hf. repeat case_match; simplify_eq; try (by left); right; eexists;
        match goal with H : take_digits ?x = _ |- _ => instantiate (1 := x); by rewrite H end. }
  unfold parse_number. repeat case_match; apply H.
Qed.
