(* ===== verification/Json.v ===== *)
(** * encoding/json, as far as the program uses it

    json.Marshal and json.Unmarshal on a payload and on an Event, and the
    decoder of a request body.  The text of an error of json.Unmarshal is an
    argument ([json_error_text]); which inputs are errors is not. *)

From stdpp Require Import base strings list.
From Stdlib Require Import ZArith Lia Ascii SpecFloat.
From S2P Require Import Prelude GoLib Models JsonNum.

(** ** UTF-8 *)

Definition byte_in (lo hi : nat) (c : ascii) : bool := (lo <=? nat_of_ascii c) && (nat_of_ascii c <=? hi).
Definition continuation : ascii → bool := byte_in 128 191.

(** The second byte that may follow a first byte. *)
Definition second_byte (c : ascii) : ascii → bool :=
  let n := nat_of_ascii c in
  if n =? 224 then byte_in 160 191
  else if n =? 237 then byte_in 128 159
  else if n =? 240 then byte_in 144 191
  else if n =? 244 then byte_in 128 143
  else continuation.

(** The length of the encoded rune at the head of a text; 0 is invalid. *)
Definition utf8_len (s : string) : nat :=
  match s with
  | EmptyString => 0
  | String c s1 =>
      if byte_in 0 127 c then 1
      else match s1 with
      | EmptyString => 0
      | String c1 s2 =>
          if byte_in 194 223 c && continuation c1 then 2
          else match s2 with
          | EmptyString => 0
          | String c2 s3 =>
              if byte_in 224 239 c && second_byte c c1 && continuation c2 then 3
              else match s3 with
              | EmptyString => 0
              | String c3 _ =>
                  if byte_in 240 244 c && second_byte c c1 && continuation c2 && continuation c3 then 4 else 0
              end
          end
      end
  end.

(** Valid UTF-8. *)
Fixpoint utf8_valid (s : string) : bool :=
  match s with
  | EmptyString => true
  | String c s1 =>
      match utf8_len s, s1 with
      | 1, _ => utf8_valid s1
      | 2, String _ s2 => utf8_valid s2
      | 3, String _ (String _ s3) => utf8_valid s3
      | 4, String _ (String _ (String _ s4)) => utf8_valid s4
      | _, _ => false
      end
  end.

(** utf8.EncodeRune, for a rune that is no surrogate. *)
Definition encode_rune (r : Z) : string :=
  let chr z := ascii_of_nat (Z.to_nat z) in
  (if r <? 128 then String (chr r) ""
   else if r <? 2048 then String (chr (192 + r / 64)) (String (chr (128 + r mod 64)) "")
   else if r <? 65536 then
     String (chr (224 + r / 4096)) (String (chr (128 + (r / 64) mod 64)) (String (chr (128 + r mod 64)) ""))
   else
     String (chr (240 + r / 262144)) (String (chr (128 + (r / 4096) mod 64))
       (String (chr (128 + (r / 64) mod 64)) (String (chr (128 + r mod 64)) ""))))%Z.

(** U+FFFD. *)
Definition replacement : string := encode_rune 65533.

(** ** Strings *)

(** The text of a double quote. *)
Definition dquote : ascii := ascii_of_nat 34.

(** [\u00XX]. *)
Definition unicode_escape (c : ascii) : string :=
  "\u00" +:+ String (hex_digit (nat_of_ascii c / 16)) (String (hex_digit (nat_of_ascii c mod 16)) "").

Definition quote_ascii (c : ascii) : string :=
  let n := nat_of_ascii c in
  if (n =? 34) || (n =? 92) then String "\" (String c "")
  else if n =? 8 then "\b" else if n =? 12 then "\f" else if n =? 10 then "\n"
  else if n =? 13 then "\r" else if n =? 9 then "\t"
  else if (n <? 32) || (n =? 60) || (n =? 62) || (n =? 38) then unicode_escape c
  else String c "".

(** U+2028 and U+2029 are escaped. *)
Definition quote_three (c c1 c2 : ascii) : string :=
  if (nat_of_ascii c =? 226) && (nat_of_ascii c1 =? 128) && (nat_of_ascii c2 =? 168) then "\u2028"
  else if (nat_of_ascii c =? 226) && (nat_of_ascii c1 =? 128) && (nat_of_ascii c2 =? 169) then "\u2029"
  else String c (String c1 (String c2 "")).

Fixpoint quote_chars (s : string) : string :=
  match s with
  | EmptyString => ""
  | String c s1 =>
      match utf8_len s, s1 with
      | 1, _ => quote_ascii c +:+ quote_chars s1
      | 2, String c1 s2 => String c (String c1 (quote_chars s2))
      | 3, String c1 (String c2 s3) => quote_three c c1 c2 +:+ quote_chars s3
      | 4, String c1 (String c2 (String c3 s4)) => String c (String c1 (String c2 (String c3 (quote_chars s4))))
      | _, _ => "\ufffd" +:+ quote_chars s1
      end
  end.

Definition quote_string (s : string) : string := String dquote (quote_chars s +:+ String dquote "").

(** The escapes of one character. *)
Definition simple_escape (c : ascii) : option ascii :=
  let n := nat_of_ascii c in
  if (n =? 34) || (n =? 92) || (n =? 47) then Some c
  else if n =? 98 then Some (ascii_of_nat 8) else if n =? 102 then Some (ascii_of_nat 12)
  else if n =? 110 then Some (ascii_of_nat 10) else if n =? 114 then Some (ascii_of_nat 13)
  else if n =? 116 then Some (ascii_of_nat 9) else None.

Definition hex_val (c : ascii) : option Z :=
  let n := nat_of_ascii c in
  if byte_in 48 57 c then Some (Z.of_nat n - 48)%Z
  else if byte_in 97 102 c then Some (Z.of_nat n - 87)%Z
  else if byte_in 65 70 c then Some (Z.of_nat n - 55)%Z
  else None.

Definition hex4 (a b c d : ascii) : option Z :=
  a ← hex_val a; b ← hex_val b; c ← hex_val c; d ← hex_val d;
  Some (((a * 16 + b) * 16 + c) * 16 + d)%Z.

Definition is_surrogate (r : Z) : bool := (55296 <=? r)%Z && (r <? 57344)%Z.

(** The rune of a surrogate pair. *)
Definition decode_pair (r r2 : Z) : option Z :=
  if ((55296 <=? r) && (r <? 56320) && (56320 <=? r2) && (r2 <? 57344))%Z
  then Some ((r - 55296) * 1024 + (r2 - 56320) + 65536)%Z else None.

Definition prepend (pre : string) (r : option (string * string)) : option (string * string) :=
  '(s, rest) ← r; Some (pre +:+ s, rest).

(** A string after its opening quote, up to and without the closing one; [None] is
    a syntax error. *)
Fixpoint read_chars (s : string) : option (string * string) :=
  match s with
  | EmptyString => None
  | String c s1 =>
      let n := nat_of_ascii c in
      if n =? 34 then Some ("", s1)
      else if n =? 92 then
        match s1 with
        | EmptyString => None
        | String e s2 =>
            match simple_escape e with
            | Some b => prepend (String b "") (read_chars s2)
            | None =>
                if negb (nat_of_ascii e =? 117) then None
                else match s2 with
                | String h1 (String h2 (String h3 (String h4 s3))) =>
                    match hex4 h1 h2 h3 h4 with
                    | None => None
                    | Some r =>
                        if negb (is_surrogate r) then prepend (encode_rune r) (read_chars s3)
                        else match s3 with
                        | String b (String u (String g1 (String g2 (String g3 (String g4 s4))))) =>
                            if (nat_of_ascii b =? 92) && (nat_of_ascii u =? 117) then
                              match r2 ← hex4 g1 g2 g3 g4; decode_pair r r2 with
                              | Some r' => prepend (encode_rune r') (read_chars s4)
                              | None => prepend replacement (read_chars s3)
                              end
                            else prepend replacement (read_chars s3)
                        | _ => prepend replacement (read_chars s3)
                        end
                    end
                | _ => None
                end
            end
        end
      else if n <? 32 then None
      else
        match utf8_len s, s1 with
        | 1, _ => prepend (String c "") (read_chars s1)
        | 2, String c1 s2 => prepend (String c (String c1 "")) (read_chars s2)
        | 3, String c1 (String c2 s3) => prepend (String c (String c1 (String c2 ""))) (read_chars s3)
        | 4, String c1 (String c2 (String c3 s4)) =>
            prepend (String c (String c1 (String c2 (String c3 "")))) (read_chars s4)
        | _, _ => prepend replacement (read_chars s1)
        end
  end.

(** ** Encoding *)

(** strconv.FormatFloat of the values that have no JSON text. *)
Definition unsupported_value (f : spec_float) : string :=
  "json: unsupported value: " +:+
  match f with S754_infinity true => "-Inf" | S754_infinity false => "+Inf" | _ => "NaN" end.

Definition sum_bind {A B} (r : string + A) (k : A → string + B) : string + B :=
  match r with inl e => inl e | inr a => k a end.

(** The encoding of a value, [inl] being the error. *)
Fixpoint encode (v : jvalue) : string + string :=
  match v with
  | JNull => inr "null"
  | JBool true => inr "true"
  | JBool false => inr "false"
  | JNum f => match format_number f with Some s => inr s | None => inl (unsupported_value f) end
  | JStr s => inr (quote_string s)
  | JArr l =>
      let fix elements (l : list jvalue) : string + string :=
        match l with
        | [] => inr "]"
        | v :: l => sum_bind (encode v) (λ s, sum_bind (elements l) (λ t, inr ("," +:+ s +:+ t)))
        end in
      match l with
      | [] => inr "[]"
      | v :: l => sum_bind (encode v) (λ s, sum_bind (elements l) (λ t, inr ("[" +:+ s +:+ t)))
      end
  | JObj fields =>
      let fix members (fields : list (string * jvalue)) : string + string :=
        match fields with
        | [] => inr "}"
        | (k, v) :: fields =>
            sum_bind (encode v) (λ s, sum_bind (members fields) (λ t, inr ("," +:+ quote_string k +:+ ":" +:+ s +:+ t)))
        end in
      match fields with
      | [] => inr "{}"
      | (k, v) :: fields =>
          sum_bind (encode v) (λ s, sum_bind (members fields) (λ t, inr ("{" +:+ quote_string k +:+ ":" +:+ s +:+ t)))
      end
  end.

(** ** Decoding *)

Definition is_space (c : ascii) : bool :=
  let n := nat_of_ascii c in (n =? 32) || (n =? 9) || (n =? 10) || (n =? 13).

Fixpoint skip_space (s : string) : string :=
  match s with
  | String c s' => if is_space c then skip_space s' else s
  | EmptyString => EmptyString
  end.

(** The order of the keys of a map, and assignment to a key. *)
Fixpoint string_ltb (a b : string) : bool :=
  match a, b with
  | EmptyString, String _ _ => true
  | String x a, String y b =>
      (nat_of_ascii x <? nat_of_ascii y) || ((nat_of_ascii x =? nat_of_ascii y) && string_ltb a b)
  | _, EmptyString => false
  end.

Fixpoint obj_insert (k : string) (v : jvalue) (fields : list (string * jvalue)) : list (string * jvalue) :=
  match fields with
  | [] => [(k, v)]
  | (k', v') :: rest =>
      if string_ltb k k' then (k, v) :: fields
      else if string_ltb k' k then (k', v') :: obj_insert k v rest
      else (k, v) :: rest
  end.

Definition obj_add (fields members : list (string * jvalue)) : list (string * jvalue) :=
  foldl (λ fs kv, obj_insert kv.1 kv.2 fs) fields members.

Definition obj_of (members : list (string * jvalue)) : list (string * jvalue) := obj_add [] members.

(** The nesting the scanner allows. *)
Definition max_depth : Z := 10000.

(** The character at the head, after white space. *)
Definition expect (c : ascii) (s : string) : option string :=
  match skip_space s with
  | String c' s' => if (nat_of_ascii c =? nat_of_ascii c') then Some s' else None
  | EmptyString => None
  end.

(** A literal without its first letter. *)
Fixpoint literal (word : string) (v : jvalue) (s : string) : option (jvalue * string) :=
  match word, s with
  | EmptyString, _ => Some (v, s)
  | String c word, String c' s => if (nat_of_ascii c =? nat_of_ascii c') then literal word v s else None
  | String _ _, EmptyString => None
  end.

(** A value at the head of a text, the elements of an array up to the closing
    bracket, and the members of an object; [depth] arrays and objects are open
    around it.  The value is the document as it is written: an object has its
    members in the order of the text, repeated ones included, and a number out of
    range is an infinity. *)
Fixpoint parse_value (fuel : nat) (depth : Z) (s : string) : option (jvalue * string) :=
  match fuel with
  | O => None
  | S fuel =>
      match skip_space s with
      | EmptyString => None
      | String c s1 =>
          let n := nat_of_ascii c in
          if n =? 123 then
            '(members, rest) ← parse_object fuel depth s1; Some (JObj members, rest)
          else if n =? 91 then
            if (max_depth <=? depth)%Z then None
            else match expect "]" s1 with
            | Some rest => Some (JArr [], rest)
            | None => '(l, rest) ← parse_elements fuel (depth + 1) s1; Some (JArr l, rest)
            end
          else if n =? 34 then '(str, rest) ← read_chars s1; Some (JStr str, rest)
          else if n =? 116 then literal "rue" (JBool true) s1
          else if n =? 102 then literal "alse" (JBool false) s1
          else if n =? 110 then literal "ull" JNull s1
          else '(f, rest) ← parse_number (String c s1); Some (JNum f, rest)
      end
  end
with parse_elements (fuel : nat) (depth : Z) (s : string) : option (list jvalue * string) :=
  match fuel with
  | O => None
  | S fuel =>
      '(v, s1) ← parse_value fuel depth s;
      match expect "," s1 with
      | Some s2 => '(l, rest) ← parse_elements fuel depth s2; Some (v :: l, rest)
      | None => rest ← expect "]" s1; Some ([v], rest)
      end
  end
with parse_object (fuel : nat) (depth : Z) (s : string) : option (list (string * jvalue) * string) :=
  match fuel with
  | O => None
  | S fuel =>
      if (max_depth <=? depth)%Z then None
      else match expect "}" s with
      | Some rest => Some ([], rest)
      | None => parse_members fuel (depth + 1) s
      end
  end
with parse_members (fuel : nat) (depth : Z) (s : string) : option (list (string * jvalue) * string) :=
  match fuel with
  | O => None
  | S fuel =>
      s1 ← expect dquote s;
      '(k, s2) ← read_chars s1;
      s3 ← expect ":" s2;
      '(v, s4) ← parse_value fuel depth s3;
      match expect "," s4 with
      | Some s5 => '(l, rest) ← parse_members fuel depth s5; Some ((k, v) :: l, rest)
      | None => rest ← expect "}" s4; Some ([(k, v)], rest)
      end
  end.

Definition fuel_for (s : string) : nat := 3 * S (String.length s).

(** *** Into an any, a payload and an Event *)

(** The document as an [any]: a number out of range is an error, also in a member
    that is repeated later, and an object is a map. *)
Fixpoint convert (v : jvalue) : option jvalue :=
  match v with
  | JNum (S754_infinity _) => None
  | JArr l =>
      JArr <$> (fix elements (l : list jvalue) : option (list jvalue) :=
        match l with
        | [] => Some []
        | v :: l => v ← convert v; l ← elements l; Some (v :: l)
        end) l
  | JObj members =>
      (λ members, JObj (obj_of members)) <$>
      (fix fields (members : list (string * jvalue)) : option (list (string * jvalue)) :=
        match members with
        | [] => Some []
        | (k, v) :: members => v ← convert v; members ← fields members; Some ((k, v) :: members)
        end) members
  | _ => Some v
  end.

(** A document with nothing but white space after its value. *)
Definition whole {A} (r : option (A * string)) : option A :=
  '(a, rest) ← r;
  match skip_space rest with EmptyString => Some a | _ => None end.

Definition payload_of (v : jvalue) : option payload :=
  match v with JNull => Some None | JObj fields => Some (Some fields) | _ => None end.

(** The names of the fields are compared without case. *)
Fixpoint fold_key (s : string) : string :=
  match s with
  | EmptyString => ""
  | String c s1 =>
      let n := nat_of_ascii c in
      let upper := if byte_in 97 122 c then ascii_of_nat (n - 32) else c in
      match s1 with
      | String c1 s2 =>
          if (n =? 197) && (nat_of_ascii c1 =? 191) then String "S" (fold_key s2)
          else match s2 with
          | String c2 s3 =>
              if (n =? 226) && (nat_of_ascii c1 =? 132) && (nat_of_ascii c2 =? 170) then String "K" (fold_key s3)
              else String upper (fold_key s1)
          | EmptyString => String upper (fold_key s1)
          end
      | EmptyString => String upper ""
      end
  end.

Definition string_of (old : string) (v : jvalue) : option string :=
  match v with JStr s => Some s | JNull => Some old | _ => None end.

(** One member of the document of an event.  A repeated payload is merged into
    the map; the value of an unknown member is skipped without converting it. *)
Definition set_field (ev : Event) (kv : string * jvalue) : option Event :=
  let '(k, v) := kv in
  let '(mkEvent id type requestId p) := ev in
  let name := fold_key k in
  if bool_decide (name = "ID") then id ← string_of id v; Some (mkEvent id type requestId p)
  else if bool_decide (name = "TYPE") then type ← string_of type v; Some (mkEvent id type requestId p)
  else if bool_decide (name = "REQUESTID") then
    requestId ← string_of requestId v; Some (mkEvent id type requestId p)
  else if bool_decide (name = "PAYLOAD") then
    v ← convert v;
    match v with
    | JNull => Some (mkEvent id type requestId None)
    | JObj fields => Some (mkEvent id type requestId (Some (obj_add (default [] p) fields)))
    | _ => None
    end
  else Some ev.

Fixpoint set_fields (ev : Event) (members : list (string * jvalue)) : option Event :=
  match members with
  | [] => Some ev
  | kv :: members => ev ← set_field ev kv; set_fields ev members
  end.

Definition zero_event : Event := mkEvent "" "" "" None.

(** The value at the head of a text, decoded into an Event. *)
Definition parse_event (s : string) : option (Event * string) :=
  match expect "{" s with
  | Some s1 =>
      '(members, rest) ← parse_object (fuel_for s) 0 s1;
      ev ← set_fields zero_event members;
      Some (ev, rest)
  | None =>
      '(v, rest) ← parse_value (fuel_for s) 0 s;
      match v with JNull => Some (zero_event, rest) | _ => None end
  end.

(** json.Marshal(event): the fields in the order of the struct, requestId only
    when it is not empty. *)
Definition event_members (ev : Event) : list (string * jvalue) :=
  [("id", JStr (Event_ID ev)); ("type", JStr (Event_Type ev))]
  ++ (if bool_decide (Event_RequestID ev = "") then [] else [("requestId", JStr (Event_RequestID ev))])
  ++ [("payload", match Event_Payload ev with None => JNull | Some fields => JObj fields end)].

Definition marshal_event (ev : Event) : string + string := encode (JObj (event_members ev)).

(** json.Unmarshal(body, &event) and json.NewDecoder(body).Decode(&event), which
    reads one value and no further.  Their callers do not look at the error. *)
Definition unmarshal_event (s : string) : option Event := whole (parse_event s).
Definition decode_event (s : string) : option Event := fst <$> parse_event s.

Section Codec.
Context (json_error_text : string → string).

Definition or_error {A} (s : string) (r : option A) : string + A :=
  match r with Some a => inr a | None => inl (json_error_text s) end.

(** json.Marshal and json.Unmarshal on a payload and an any. *)
Definition json_codec : JsonCodec := {|
  json_marshal := λ p, match p with None => inr "null" | Some fields => encode (JObj fields) end;
  json_unmarshal := λ s, or_error s (v ← whole (parse_value (fuel_for s) 0 s); v ← convert v; payload_of v);
  json_unmarshal_any := λ s, or_error s (v ← whole (parse_value (fuel_for s) 0 s); convert v);
|}.

End Codec.
