(* ===== verification/JsonProps.v ===== *)
(** * JSON round trips

    What json.Marshal writes, json.Unmarshal reads back, for every value that is
    well formed ([jwf]); and every value json.Unmarshal produces is well formed. *)

From stdpp Require Import base strings list sorting.
From Stdlib Require Import ZArith Lia Ascii SpecFloat.
From S2P Require Import Prelude GoLib Models JsonNum Json.

(** ** UTF-8 *)

(** Texts that are sequences of encoded runes. *)
Inductive valid_text : string → Prop :=
| valid_nil : valid_text ""
| valid_1 c s : byte_in 0 127 c = true → valid_text s → valid_text (String c s)
| valid_2 c c1 s :
    byte_in 194 223 c = true → continuation c1 = true → valid_text s → valid_text (String c (String c1 s))
| valid_3 c c1 c2 s :
    byte_in 224 239 c = true → second_byte c c1 = true → continuation c2 = true →
    valid_text s → valid_text (String c (String c1 (String c2 s)))
| valid_4 c c1 c2 c3 s :
    byte_in 240 244 c = true → second_byte c c1 = true → continuation c2 = true → continuation c3 = true →
    valid_text s → valid_text (String c (String c1 (String c2 (String c3 s)))).

Lemma byte_in_true lo hi c : byte_in lo hi c = true ↔ lo ≤ nat_of_ascii c ≤ hi.
Proof. unfold byte_in. rewrite andb_true_iff, !Nat.leb_le. done. Qed.
Lemma byte_in_false lo hi c : byte_in lo hi c = false ↔ nat_of_ascii c < lo ∨ hi < nat_of_ascii c.
Proof. unfold byte_in. rewrite andb_false_iff, !Nat.leb_gt. done. Qed.

(** A first byte belongs to one of the classes only. *)
Lemma byte_class lo hi lo' hi' c : byte_in lo hi c = true → hi < lo' ∨ hi' < lo → byte_in lo' hi' c = false.
Proof. rewrite byte_in_true, byte_in_false. lia. Qed.

Lemma utf8_len_1 c s : byte_in 0 127 c = true → utf8_len (String c s) = 1.
Proof. intros H. simpl. by rewrite H. Qed.
Lemma utf8_len_2 c c1 s : byte_in 194 223 c = true → continuation c1 = true → utf8_len (String c (String c1 s)) = 2.
Proof. intros H H1. simpl. rewrite (byte_class _ _ 0 127 _ H) by lia. by rewrite H, H1. Qed.
Lemma utf8_len_3 c c1 c2 s :
  byte_in 224 239 c = true → second_byte c c1 = true → continuation c2 = true →
  utf8_len (String c (String c1 (String c2 s))) = 3.
Proof.
  intros H H1 H2. simpl. rewrite (byte_class _ _ 0 127 _ H), (byte_class _ _ 194 223 _ H) by lia. by rewrite H, H1, H2.
Qed.
Lemma utf8_len_4 c c1 c2 c3 s :
  byte_in 240 244 c = true → second_byte c c1 = true → continuation c2 = true → continuation c3 = true →
  utf8_len (String c (String c1 (String c2 (String c3 s)))) = 4.
Proof.
  intros H H1 H2 H3. simpl.
  rewrite (byte_class _ _ 0 127 _ H), (byte_class _ _ 194 223 _ H), (byte_class _ _ 224 239 _ H) by lia.
  by rewrite H, H1, H2, H3.
Qed.

(** The rune at the head, by its length. *)
Lemma utf8_len_cases c s :
  match utf8_len (String c s) with
  | 0 => True
  | 1 => byte_in 0 127 c = true
  | 2 => ∃ c1 s', s = String c1 s' ∧ byte_in 194 223 c = true ∧ continuation c1 = true
  | 3 => ∃ c1 c2 s', s = String c1 (String c2 s') ∧ byte_in 224 239 c = true ∧ second_byte c c1 = true
           ∧ continuation c2 = true
  | 4 => ∃ c1 c2 c3 s', s = String c1 (String c2 (String c3 s')) ∧ byte_in 240 244 c = true
           ∧ second_byte c c1 = true ∧ continuation c2 = true ∧ continuation c3 = true
  | _ => False
  end.
Proof.
  simpl. destruct (byte_in 0 127 c) eqn:E; [done|]. destruct s as [|c1 s]; [done|].
  destruct (_ && continuation c1) eqn:E1; [apply andb_true_iff in E1 as [??]; by exists c1, s|].
  destruct s as [|c2 s]; [done|].
  destruct (_ && continuation c2) eqn:E2.
  { rewrite !andb_true_iff in E2. destruct E2 as [[??]?]. by exists c1, c2, s. }
  destruct s as [|c3 s]; [done|].
  destruct (byte_in 240 244 c && _ && _ && _) eqn:E3; [|done].
  rewrite !andb_true_iff in E3. destruct E3 as [[[??]?]?]. by exists c1, c2, c3, s.
Qed.

Lemma utf8_valid_text s : utf8_valid s = true → valid_text s.
Proof.
  induction s as [s IH] using (well_founded_induction (well_founded_ltof _ String.length)).
  destruct s as [|c s]; [constructor|]. intros H. cbn [utf8_valid] in H.
  pose proof (utf8_len_cases c s) as Hc. destruct (utf8_len (String c s)) as [|[|[|[|[|]]]]]; try done.
  - constructor; [done|]. apply IH; [unfold ltof; simpl; lia|done].
  - destruct Hc as (c1 & s' & -> & ? & ?). constructor; [done..|]. apply IH; [unfold ltof; simpl; lia|done].
  - destruct Hc as (c1 & c2 & s' & -> & ? & ? & ?). constructor; [done..|]. apply IH; [unfold ltof; simpl; lia|done].
  - destruct Hc as (c1 & c2 & c3 & s' & -> & ? & ? & ? & ?). constructor; [done..|].
    apply IH; [unfold ltof; simpl; lia|done].
Qed.

Lemma valid_text_utf8 s : valid_text s → utf8_valid s = true.
Proof.
  induction 1; [done|..]; cbn [utf8_valid];
    rewrite ?utf8_len_1, ?utf8_len_2, ?utf8_len_3, ?utf8_len_4 by done; done.
Qed.

Lemma valid_text_app a b : valid_text a → valid_text b → valid_text (a +:+ b).
Proof. induction 1; intros; str_norm; [done|..]; constructor; by auto. Qed.

(** ** Strings *)

Lemma read_chars_ascii c t :
  byte_in 0 127 c = true → read_chars (quote_ascii c +:+ t) = prepend (String c "") (read_chars t).
Proof. destruct c as [[] [] [] [] [] [] [] []]; intros H; try (by vm_compute in H); done. Qed.

(** A byte that is not ASCII is no quote, escape or control character. *)
Lemma high_byte lo hi c :
  byte_in lo hi c = true → 128 ≤ lo →
  nat_of_ascii c =? 34 = false ∧ nat_of_ascii c =? 92 = false ∧ nat_of_ascii c <? 32 = false.
Proof. rewrite byte_in_true, !Nat.eqb_neq, Nat.ltb_ge. lia. Qed.

Lemma read_chars_2 c c1 t :
  byte_in 194 223 c = true → continuation c1 = true →
  read_chars (String c (String c1 t)) = prepend (String c (String c1 "")) (read_chars t).
Proof.
  intros H H1. destruct (high_byte _ _ _ H) as (E1 & E2 & E3); [lia|]. cbn [read_chars].
  rewrite E1, E2, E3. by rewrite utf8_len_2.
Qed.

Lemma read_chars_3 c c1 c2 t :
  byte_in 224 239 c = true → second_byte c c1 = true → continuation c2 = true →
  read_chars (String c (String c1 (String c2 t))) = prepend (String c (String c1 (String c2 ""))) (read_chars t).
Proof.
  intros H H1 H2. destruct (high_byte _ _ _ H) as (E1 & E2 & E3); [lia|]. cbn [read_chars].
  rewrite E1, E2, E3. by rewrite utf8_len_3.
Qed.

Lemma read_chars_4 c c1 c2 c3 t :
  byte_in 240 244 c = true → second_byte c c1 = true → continuation c2 = true → continuation c3 = true →
  read_chars (String c (String c1 (String c2 (String c3 t))))
  = prepend (String c (String c1 (String c2 (String c3 "")))) (read_chars t).
Proof.
  intros H H1 H2 H3. destruct (high_byte _ _ _ H) as (E1 & E2 & E3); [lia|]. cbn [read_chars].
  rewrite E1, E2, E3. by rewrite utf8_len_4.
Qed.

Lemma ascii_is c n : nat_of_ascii c =? n = true → c = ascii_of_nat n.
Proof. intros <-%Nat.eqb_eq. by rewrite ascii_nat_embedding. Qed.

Lemma read_chars_quote_3 c c1 c2 t :
  byte_in 224 239 c = true → second_byte c c1 = true → continuation c2 = true →
  read_chars (quote_three c c1 c2 +:+ t) = prepend (String c (String c1 (String c2 ""))) (read_chars t).
Proof.
  intros H H1 H2. unfold quote_three.
  destruct (_ && (nat_of_ascii c2 =? 168)) eqn:E.
  { rewrite !andb_true_iff in E. destruct E as [[->%ascii_is ->%ascii_is] ->%ascii_is]. done. }
  clear E. destruct (_ && (nat_of_ascii c2 =? 169)) eqn:E.
  { rewrite !andb_true_iff in E. destruct E as [[->%ascii_is ->%ascii_is] ->%ascii_is]. done. }
  str_norm. by apply read_chars_3.
Qed.

Lemma prepend_some pre s rest : prepend pre (Some (s, rest)) = Some (pre +:+ s, rest).
Proof. done. Qed.

(** A quoted string is read back. *)
Lemma read_quoted s rest :
  utf8_valid s = true → read_chars (quote_chars s +:+ String dquote rest) = Some (s, rest).
Proof.
  intros H%utf8_valid_text. induction H as [|c s Hc _ IH|c c1 s Hc H1 _ IH|c c1 c2 s Hc H1 H2 _ IH|c c1 c2 c3 s Hc H1 H2 H3 _ IH].
  - done.
  - cbn [quote_chars]. rewrite utf8_len_1 by done. str_norm. by rewrite read_chars_ascii, IH, prepend_some.
  - cbn [quote_chars]. rewrite utf8_len_2 by done. str_norm. by rewrite read_chars_2, IH, prepend_some.
  - cbn [quote_chars]. rewrite utf8_len_3 by done. str_norm. by rewrite read_chars_quote_3, IH, prepend_some.
  - cbn [quote_chars]. rewrite utf8_len_4 by done. str_norm. by rewrite read_chars_4, IH, prepend_some.
Qed.

(** ** Well-formed values *)

Definition keys_sorted (fields : list (string * jvalue)) : Prop :=
  StronglySorted (λ a b, string_ltb a b = true) fields.*1.

(** Values inside [d] arrays and objects: strings are UTF-8 and the nesting is
    allowed; what the numbers and the objects are is given. *)
Section Shape.
Context (number_ok : spec_float → Prop) (object_ok : list (string * jvalue) → Prop).

Fixpoint shape (v : jvalue) (d : Z) : Prop :=
  match v with
  | JNull | JBool _ => True
  | JNum f => number_ok f
  | JStr s => utf8_valid s = true
  | JArr l =>
      (d < max_depth)%Z ∧
      (fix all (l : list jvalue) : Prop := match l with [] => True | v :: l => shape v (d + 1) ∧ all l end) l
  | JObj fields =>
      (d < max_depth)%Z ∧ object_ok fields ∧
      (fix all (fields : list (string * jvalue)) : Prop :=
         match fields with [] => True | (k, v) :: fields => (utf8_valid k = true ∧ shape v (d + 1)) ∧ all fields end) fields
  end.

(** The members of an object, in any order. *)
Definition members_shape (d : Z) (fields : list (string * jvalue)) : Prop :=
  Forall (λ kv, utf8_valid kv.1 = true ∧ shape kv.2 d) fields.

Lemma shape_arr l d : shape (JArr l) d ↔ (d < max_depth)%Z ∧ Forall (λ v, shape v (d + 1)) l.
Proof.
  simpl. apply and_iff_compat_l. induction l as [|v l IH]; [by rewrite Forall_nil|]. by rewrite Forall_cons, IH.
Qed.

Lemma shape_obj fields d :
  shape (JObj fields) d ↔ (d < max_depth)%Z ∧ object_ok fields ∧ members_shape (d + 1) fields.
Proof.
  simpl. do 2 apply and_iff_compat_l. unfold members_shape. induction fields as [|[k v] fields IH].
  - by rewrite Forall_nil.
  - by rewrite Forall_cons, IH.
Qed.

End Shape.

(** The values of an [any]: numbers are float64, keys are in order. *)
Abbreviation jwf := (shape float64_valid keys_sorted).
Abbreviation members_wf := (members_shape float64_valid keys_sorted).

(** A document as it is written: numbers can be out of range, members are in any
    order. *)
Definition number_read (f : spec_float) : Prop := float64_valid f ∨ ∃ sign, f = S754_infinity sign.
Abbreviation written := (shape number_read (λ _, True)).
Abbreviation members_written := (members_shape number_read (λ _, True)).

(** Induction over values, with the elements and the members. *)
Lemma jvalue_induct (P : jvalue → Prop) :
  P JNull → (∀ b, P (JBool b)) → (∀ f, P (JNum f)) → (∀ s, P (JStr s)) →
  (∀ l, Forall P l → P (JArr l)) → (∀ fields, Forall (λ kv, P kv.2) fields → P (JObj fields)) → ∀ v, P v.
Proof.
  intros H1 H2 H3 H4 H5 H6. fix IH 1. intros [|b|f|s|l|fields]; [done|done|done|done| |].
  - apply H5. induction l as [|v l IHl]; constructor; [apply IH|done].
  - apply H6. induction fields as [|[k v] fields IHl]; constructor; [apply IH|done].
Qed.

Lemma jwf_mono v d d' : jwf v d → (d' ≤ d)%Z → jwf v d'.
Proof.
  revert d d'. induction v as [| | | |l IH|fields IH] using jvalue_induct; intros d d'; try done.
  - rewrite !shape_arr. intros [? Hl] ?. split; [lia|]. rewrite Forall_forall in *. intros v Hv.
    eapply IH; [done|by apply Hl|lia].
  - rewrite !shape_obj. intros (? & ? & Hf) ?. split_and!; [lia|done|]. unfold members_shape in *. rewrite Forall_forall in *.
    intros kv Hkv. destruct (Hf kv Hkv). split; [done|]. eapply (IH kv); [done|done|lia].
Qed.

(** ** What is written is read back *)

Lemma string_length_app a b : String.length (a +:+ b) = String.length a + String.length b.
Proof. induction a as [|c a IH]; [done|]. rewrite string_app_cons. simpl. by rewrite IH. Qed.

(** The text begins with a value: no white space, no closing bracket. *)
Definition starts_value (s : string) : Prop :=
  match s with
  | EmptyString => False
  | String c _ => is_space c = false ∧ nat_of_ascii c ≠ 93
  end.

Lemma starts_skip s t : starts_value s → skip_space (s +:+ t) = s +:+ t.
Proof. destruct s as [|c s]; [done|]. intros [H _]. str_norm. simpl. by rewrite H. Qed.

Lemma starts_expect s t : starts_value s → expect "]" (s +:+ t) = None.
Proof.
  intros H. unfold expect. rewrite starts_skip by done. destruct s as [|c s]; [done|]. destruct H as [_ H]. str_norm.
  by rewrite (proj2 (Nat.eqb_neq _ _)) by (intros E; apply H; by rewrite <- E).
Qed.

(** [s] is a text of [v] inside [d] brackets. *)
Definition text_of (d : Z) (v : jvalue) (s : string) : Prop :=
  starts_value s ∧ ∀ fuel rest, String.length s < fuel → ends_number rest →
    parse_value fuel d (s +:+ rest) = Some (v, rest).

(** A number begins with a digit or a sign. *)
Lemma parse_number_head s r :
  parse_number s = Some r → ∃ c s', s = String c s' ∧ (c = "-"%char ∨ is_Some (digit_val c)).
Proof.
  destruct s as [|c s]; [done|]. intros H. exists c, s. split; [done|].
  destruct (digit_val c) eqn:Ed; [by right; eexists|]. left.
  destruct (ascii_dec c "-") as [|Hc]; [done|].
  assert (parse_number (String c s) = parse_unsigned false (String c s)) as E.
  { destruct c as [[] [] [] [] [] [] [] []]; done. }
  rewrite E in H. unfold parse_unsigned in H.
  assert (parse_int (String c s) = None) as Hi; [|by rewrite Hi in H].
  assert (take_digits (String c s) = ([], String c s)) as Ht by (simpl; by rewrite Ed).
  unfold parse_int. rewrite Ht. destruct c as [[] [] [] [] [] [] [] []]; done.
Qed.

(** The dispatch of [parse_value] on the first character of a number. *)
Lemma number_char c :
  c = "-"%char ∨ is_Some (digit_val c) →
  is_space c = false ∧ Forall (λ n, nat_of_ascii c ≠ n) [123; 91; 34; 116; 102; 110; 93].
Proof.
  intros H. assert (nat_of_ascii c = 45 ∨ 48 ≤ nat_of_ascii c ≤ 57) as Hn.
  { destruct H as [-> | [z Hz]]; [by left|right]. unfold digit_val in Hz. case_match eqn:E; [|done].
    apply andb_true_iff in E as [?%Z.leb_le ?%Z.leb_le]. lia. }
  split.
  - unfold is_space. rewrite !orb_false_iff, !Nat.eqb_neq. lia.
  - repeat constructor; lia.
Qed.

Lemma text_of_number d f : float64_valid f → ∃ s, format_number f = Some s ∧ text_of d (JNum f) s.
Proof.
  intros Hv. destruct (number_roundtrip f "" Hv I) as (s & Hs & Hp). exists s. split; [done|].
  apply parse_number_head in Hp as (c & s' & Heq & Hc).
  assert (∃ s0, s = String c s0) as [s0 ->].
  { destruct s as [|c0 s0]; [done|]. injection Heq as -> _. by eexists. }
  destruct (number_char c Hc) as [Hsp Hne]. rewrite !Forall_cons in Hne.
  destruct Hne as (? & ? & ? & ? & ? & ? & ? & _). split; [done|].
  intros [|fuel] rest Hf Hr; [lia|]. destruct (number_roundtrip f rest Hv Hr) as (s1 & Hs1 & Hp). simplify_eq.
  str_norm. cbn [parse_value skip_space]. rewrite Hsp. rewrite string_app_cons in Hp.
  do 6 rewrite (proj2 (Nat.eqb_neq _ _)) by done. by rewrite Hp.
Qed.

(** The rest of an array and of an object. *)
Fixpoint elements_text (l : list jvalue) : string + string :=
  match l with
  | [] => inr "]"
  | v :: l => sum_bind (encode v) (λ s, sum_bind (elements_text l) (λ t, inr ("," +:+ s +:+ t)))
  end.

Fixpoint members_text (fields : list (string * jvalue)) : string + string :=
  match fields with
  | [] => inr "}"
  | (k, v) :: fields =>
      sum_bind (encode v) (λ s, sum_bind (members_text fields) (λ t, inr ("," +:+ quote_string k +:+ ":" +:+ s +:+ t)))
  end.

Lemma encode_arr v l :
  encode (JArr (v :: l)) = sum_bind (encode v) (λ s, sum_bind (elements_text l) (λ t, inr ("[" +:+ s +:+ t))).
Proof. done. Qed.

Lemma encode_obj k v fields :
  encode (JObj ((k, v) :: fields)) =
  sum_bind (encode v) (λ s, sum_bind (members_text fields) (λ t, inr ("{" +:+ quote_string k +:+ ":" +:+ s +:+ t))).
Proof. done. Qed.

Lemma parse_elements_text d l :
  Forall (λ v, ∃ s, encode v = inr s ∧ text_of d v s) l →
  ∃ t, elements_text l = inr t ∧ (∀ rest, ends_number (t +:+ rest)) ∧ 0 < String.length t ∧
    ∀ v s fuel rest, text_of d v s → String.length s + String.length t < fuel →
      parse_elements fuel d (s +:+ t +:+ rest) = Some (v :: l, rest).
Proof.
  induction 1 as [|v' l (s' & Hs' & Ht') _ (t & Ht & Hend & Hlen & IH)].
  - eexists. split_and!; [done|by intros|simpl; lia|]. intros v s [|fuel] rest [_ Hs] Hf; [lia|].
    cbn [parse_elements]. rewrite Hs; [done|simpl in Hf; lia|done].
  - simpl. rewrite Hs', Ht. simpl. eexists. split_and!; [done|by intros|str_norm; simpl; lia|].
    intros v s [|fuel] rest [_ Hs] Hf; [lia|]. rewrite !string_length_app in Hf. simpl in Hf.
    cbn [parse_elements]. str_norm. rewrite Hs; [|lia|done]. cbn [mbind option_bind].
    change (expect "," (String "," (s' +:+ t +:+ rest))) with (Some (s' +:+ t +:+ rest)).
    cbv iota. rewrite (IH v' s'); [done|done|lia].
Qed.

Lemma expect_char c s : is_space c = false → expect c (String c s) = Some s.
Proof. intros H. unfold expect. simpl. rewrite H. by rewrite Nat.eqb_refl. Qed.

Lemma parse_members_text d fields :
  members_wf d fields → Forall (λ kv, ∃ s, encode kv.2 = inr s ∧ text_of d kv.2 s) fields →
  ∃ t, members_text fields = inr t ∧ (∀ rest, ends_number (t +:+ rest)) ∧ 0 < String.length t ∧
    ∀ k v s fuel rest, utf8_valid k = true → text_of d v s →
      String.length s + String.length t + 2 < fuel →
      parse_members fuel d (quote_string k +:+ ":" +:+ s +:+ t +:+ rest) = Some ((k, v) :: fields, rest).
Proof.
  intros Hwf. induction 1 as [|[k' v'] fields (s' & Hs' & Ht') _ IH].
  - eexists. split_and!; [done|by intros|simpl; lia|]. intros k v s [|fuel] rest Hk [Hst Hs] Hf; [lia|].
    cbn [parse_members]. unfold quote_string. str_norm. rewrite expect_char by done. cbn [mbind option_bind].
    rewrite read_quoted by done. cbn. rewrite expect_char by done. cbn. rewrite Hs; [done|simpl in Hf; lia|done].
  - apply Forall_cons in Hwf as [[Hk' _] Hwf]. destruct (IH Hwf) as (t & Ht & Hend & Hlen & IHt).
    simpl in *. rewrite Hs', Ht. simpl. eexists. split_and!; [done|by intros|str_norm; simpl; lia|].
    intros k v s [|fuel] rest Hk [Hst Hs] Hf; [lia|]. rewrite !string_length_app in Hf. simpl in Hf.
    cbn [parse_members]. unfold quote_string at 1. str_norm. rewrite expect_char by done. cbn [mbind option_bind].
    rewrite read_quoted by done. cbn. rewrite expect_char by done. cbn. rewrite Hs; [|lia|done]. cbn.
    rewrite expect_char by done. cbn.
    pose proof (IHt k' v' s' fuel rest Hk' Ht' ltac:(lia)) as E. rewrite string_app_cons, string_app_nil in E.
    by rewrite E.
Qed.

(** The order of strings. *)
Lemma string_ltb_asym a b : string_ltb a b = true → string_ltb b a = false.
Proof.
  revert b. induction a as [|x a IH]; intros [|y b]; simpl; try done.
  rewrite orb_true_iff, andb_true_iff, orb_false_iff, andb_false_iff, Nat.ltb_lt, Nat.ltb_ge, Nat.eqb_eq, Nat.eqb_neq.
  intros [?|[? ?%IH]]; [lia|]. split; [lia|by right].
Qed.

Lemma string_ltb_trans a b c : string_ltb a b = true → string_ltb b c = true → string_ltb a c = true.
Proof.
  revert b c. induction a as [|x a IH]; intros [|y b] [|z c]; simpl; try done.
  rewrite !orb_true_iff, !andb_true_iff, !Nat.ltb_lt, !Nat.eqb_eq.
  intros [?|[? H1]] [?|[? H2]]; [left; lia..|]. right. split; [lia|by eapply IH].
Qed.

Lemma string_ltb_total a b : string_ltb a b = false → string_ltb b a = false → a = b.
Proof.
  revert b. induction a as [|x a IH]; intros [|y b]; simpl; try done.
  rewrite !orb_false_iff, !andb_false_iff, !Nat.ltb_ge, !Nat.eqb_neq.
  intros [? H1] [? H2]. assert (nat_of_ascii x = nat_of_ascii y) as Hxy by lia.
  destruct H1 as [|H1]; [lia|]. destruct H2 as [|H2]; [lia|]. f_equal; [|by apply IH].
  by rewrite <- (ascii_nat_embedding x), Hxy, ascii_nat_embedding.
Qed.

(** Assignments in the order of the keys rebuild the map. *)
Lemma obj_insert_last k v fields :
  Forall (λ k', string_ltb k' k = true) fields.*1 → obj_insert k v fields = fields ++ [(k, v)].
Proof.
  induction fields as [|[k' v'] fields IH]; [done|]. intros [Hk Hks]%Forall_cons. simpl in *.
  by rewrite (string_ltb_asym _ _ Hk), Hk, IH.
Qed.

Lemma obj_add_sorted pre fields :
  keys_sorted (pre ++ fields) → obj_add pre fields = pre ++ fields.
Proof.
  unfold obj_add. revert pre. induction fields as [|[k v] fields IH]; intros pre Hs; [by rewrite app_nil_r|].
  simpl. rewrite obj_insert_last.
  - rewrite IH; rewrite <- app_assoc; done.
  - unfold keys_sorted in Hs. rewrite fmap_app in Hs. apply Forall_forall. intros k' Hk'.
    by apply (StronglySorted_app_1_elem_of _ _ _ k' k Hs); [|left].
Qed.

Lemma obj_of_sorted fields : keys_sorted fields → obj_of fields = fields.
Proof. apply (obj_add_sorted []). Qed.

Lemma quote_string_length k : 2 ≤ String.length (quote_string k).
Proof. unfold quote_string. simpl. rewrite string_length_app. simpl. lia. Qed.

(** The members of an object, between its braces. *)
Lemma parse_object_text d fields :
  (d < max_depth)%Z → members_wf (d + 1) fields →
  Forall (λ kv, ∃ s, encode kv.2 = inr s ∧ text_of (d + 1) kv.2 s) fields →
  ∃ s, encode (JObj fields) = inr (String "{" s) ∧
    ∀ fuel rest, String.length s < fuel → parse_object fuel d (s +:+ rest) = Some (fields, rest).
Proof.
  intros Hd Hwf Hall. destruct fields as [|[k v] fields].
  { exists "}". split; [done|]. intros [|fuel] rest Hf; [lia|]. cbn [parse_object].
    by rewrite (proj2 (Z.leb_gt _ _)) by lia. }
  apply Forall_cons in Hwf as [[Hk _] Hwf]. apply Forall_cons in Hall as [(s & Hs & Hst) Hall].
  destruct (parse_members_text _ _ Hwf Hall) as (t & Ht & _ & _ & Hp). rewrite encode_obj. simpl in Hs. rewrite Hs, Ht. simpl.
  exists (quote_string k +:+ ":" +:+ s +:+ t). split; [done|]. intros [|fuel] rest Hf; [lia|].
  rewrite !string_length_app in Hf. pose proof (quote_string_length k).
  set (n := String.length (quote_string k)) in *. clearbody n. simpl in Hf. cbn [parse_object]. rewrite (proj2 (Z.leb_gt _ _)) by lia.
  assert (expect "}" ((quote_string k +:+ ":" +:+ s +:+ t) +:+ rest) = None) as -> by done.
  rewrite !string_app_assoc. apply Hp; [done|done|]. lia.
Qed.

(** The dispatch on the first character. *)
Lemma parse_value_string fuel d t :
  parse_value (S fuel) d (String dquote t) = '(str, rest) ← read_chars t; Some (JStr str, rest).
Proof. done. Qed.

Lemma parse_value_arr fuel d t :
  parse_value (S fuel) d (String "[" t) =
  if (max_depth <=? d)%Z then None
  else match expect "]" t with
  | Some rest => Some (JArr [], rest)
  | None => '(l, rest) ← parse_elements fuel (d + 1) t; Some (JArr l, rest)
  end.
Proof. done. Qed.

Lemma parse_value_obj fuel d t :
  parse_value (S fuel) d (String "{" t) = '(members, rest) ← parse_object fuel d t; Some (JObj members, rest).
Proof. done. Qed.

(** Every well-formed value has a text, and it is read back. *)
Lemma encode_text v d : jwf v d → ∃ s, encode v = inr s ∧ text_of d v s.
Proof.
  revert d. induction v as [|b|f|s|l IH|fields IH] using jvalue_induct; intros d Hwf.
  - exists "null". split; [done|]. split; [done|]. by intros [|fuel] rest Hf Hr; [simpl in Hf; lia|].
  - exists (if b then "true" else "false"). destruct b; (split; [done|]); (split; [done|]);
      by intros [|fuel] rest Hf Hr; [simpl in Hf; lia|].
  - destruct (text_of_number d f Hwf) as (s & Hs & Ht). exists s. simpl. by rewrite Hs.
  - exists (quote_string s). split; [done|]. split; [done|]. intros [|fuel] rest Hf _; [lia|].
    unfold quote_string. str_norm. by rewrite parse_value_string, read_quoted.
  - apply shape_arr in Hwf as [Hd Hwf].
    assert (Forall (λ v, ∃ s, encode v = inr s ∧ text_of (d + 1) v s) l) as Hall.
    { rewrite Forall_forall in *. intros v Hv. apply IH; [done|]. by apply Hwf. }
    destruct l as [|v l].
    + exists "[]". split; [done|]. split; [done|]. intros [|fuel] rest Hf _; [lia|]. str_norm.
      rewrite parse_value_arr. by rewrite (proj2 (Z.leb_gt _ _)) by lia.
    + apply Forall_cons in Hall as [(s & Hs & Hst) Hall].
      destruct (parse_elements_text _ _ Hall) as (t & Ht & _ & _ & Hp). rewrite encode_arr, Hs, Ht. simpl.
      eexists. split; [done|]. split; [done|]. intros [|fuel] rest Hf _; [lia|].
      rewrite !string_length_app in Hf. simpl in Hf. str_norm. rewrite parse_value_arr.
      rewrite (proj2 (Z.leb_gt _ _)) by lia. rewrite starts_expect by apply Hst.
      by rewrite (Hp v s) by (done || lia).
  - apply shape_obj in Hwf as (Hd & Hsort & Hwf).
    destruct (parse_object_text d fields Hd Hwf) as (s & Hs & Hp).
    { unfold members_shape in Hwf. rewrite Forall_forall in *. intros kv Hkv. apply (IH kv Hkv), Hwf. done. }
    rewrite Hs. eexists. split; [done|]. split; [done|]. intros [|fuel] rest Hf _; [lia|]. simpl in Hf. str_norm.
    by rewrite parse_value_obj, Hp by lia.
Qed.

(** ** What is read is well formed *)

Lemma nat_of_chr z : (0 ≤ z < 256)%Z → nat_of_ascii (ascii_of_nat (Z.to_nat z)) = Z.to_nat z.
Proof. intros. apply nat_ascii_embedding. lia. Qed.

(** Continuation bytes carry six bits. *)
Lemma continuation_chr x : continuation (ascii_of_nat (Z.to_nat (128 + x mod 64))) = true.
Proof.
  pose proof (Z.mod_pos_bound x 64 ltac:(lia)). apply byte_in_true. rewrite nat_of_chr by lia. lia.
Qed.

Lemma encode_rune_valid r :
  (0 ≤ r < 1114112)%Z → is_surrogate r = false → valid_text (encode_rune r).
Proof.
  intros Hr Hs. unfold encode_rune.
  assert (¬ (55296 ≤ r < 57344)%Z) as Hns.
  { intros H. unfold is_surrogate in Hs. apply andb_false_iff in Hs as [?%Z.leb_gt|?%Z.ltb_ge]; lia. }
  destruct (r <? 128)%Z eqn:E1; [apply Z.ltb_lt in E1|apply Z.ltb_ge in E1].
  { apply valid_1; [|constructor]. apply byte_in_true. rewrite nat_of_chr by lia. lia. }
  destruct (r <? 2048)%Z eqn:E2; [apply Z.ltb_lt in E2|apply Z.ltb_ge in E2].
  { assert (2 ≤ r / 64 < 32)%Z by (split; [apply Z.div_le_lower_bound|apply Z.div_lt_upper_bound]; lia).
    apply valid_2; [|apply continuation_chr|constructor]. apply byte_in_true. rewrite nat_of_chr by lia. lia. }
  destruct (r <? 65536)%Z eqn:E3; [apply Z.ltb_lt in E3|apply Z.ltb_ge in E3].
  - assert (0 ≤ r / 4096 < 16)%Z by (split; [apply Z.div_pos|apply Z.div_lt_upper_bound]; lia).
    pose proof (Z.mod_pos_bound (r / 64) 64 ltac:(lia)) as Hm.
    assert (r / 4096 = r / 64 / 64)%Z as Hq by (by rewrite Z.div_div by lia).
    pose proof (Z.div_mod (r / 64) 64 ltac:(lia)) as Hdm. pose proof (Z.div_mod r 64 ltac:(lia)) as Hdm'.
    pose proof (Z.mod_pos_bound r 64 ltac:(lia)).
    apply valid_3; [| |apply continuation_chr|constructor].
    + apply byte_in_true. rewrite nat_of_chr by lia. lia.
    + unfold second_byte. rewrite nat_of_chr by lia.
      destruct (_ =? 224) eqn:Ea; [apply Nat.eqb_eq in Ea|clear Ea];
        [apply byte_in_true; rewrite nat_of_chr by lia; lia|].
      destruct (_ =? 237) eqn:Eb; [apply Nat.eqb_eq in Eb|clear Eb];
        [apply byte_in_true; rewrite nat_of_chr by lia; lia|].
      rewrite !(proj2 (Nat.eqb_neq _ _)) by lia. apply continuation_chr.
  - assert (0 ≤ r / 262144 < 5)%Z by (split; [apply Z.div_pos|apply Z.div_lt_upper_bound]; lia).
    pose proof (Z.mod_pos_bound (r / 4096) 64 ltac:(lia)) as Hm.
    assert (r / 262144 = r / 4096 / 64)%Z as Hq by (by rewrite Z.div_div by lia).
    pose proof (Z.div_mod (r / 4096) 64 ltac:(lia)) as Hdm. pose proof (Z.div_mod r 4096 ltac:(lia)) as Hdm'.
    pose proof (Z.mod_pos_bound r 4096 ltac:(lia)).
    apply valid_4; [| |apply continuation_chr|apply continuation_chr|constructor].
    + apply byte_in_true. rewrite nat_of_chr by lia. lia.
    + unfold second_byte. rewrite nat_of_chr by lia.
      rewrite !(proj2 (Nat.eqb_neq _ 224)), !(proj2 (Nat.eqb_neq _ 237)) by lia.
      destruct (_ =? 240) eqn:Ea; [apply Nat.eqb_eq in Ea|clear Ea];
        [apply byte_in_true; rewrite nat_of_chr by lia; lia|].
      destruct (_ =? 244) eqn:Eb; [apply Nat.eqb_eq in Eb|clear Eb];
        [apply byte_in_true; rewrite nat_of_chr by lia; lia|]. apply continuation_chr.
Qed.

Lemma replacement_valid : valid_text replacement.
Proof. by apply encode_rune_valid. Qed.

Lemma hex_val_range c z : hex_val c = Some z → (0 ≤ z < 16)%Z.
Proof.
  unfold hex_val. repeat case_match; intros; simplify_eq;
    repeat match goal with H : byte_in _ _ _ = true |- _ => apply byte_in_true in H end; lia.
Qed.

Lemma hex4_range a b c d z : hex4 a b c d = Some z → (0 ≤ z < 65536)%Z.
Proof.
  unfold hex4. destruct (hex_val a) eqn:Ea; [|done]. destruct (hex_val b) eqn:Eb; [|done].
  destruct (hex_val c) eqn:Ec; [|done]. destruct (hex_val d) eqn:Ed; [|done]. cbn. intros [= <-].
  apply hex_val_range in Ea, Eb, Ec, Ed. lia.
Qed.

Lemma decode_pair_range r r2 z : decode_pair r r2 = Some z → (65536 ≤ z < 1114112)%Z.
Proof.
  unfold decode_pair. case_match eqn:E; [|done]. intros [= <-].
  rewrite !andb_true_iff, !Z.leb_le, !Z.ltb_lt in E. lia.
Qed.

Lemma prepend_inv pre r t rest :
  prepend pre r = Some (t, rest) → ∃ t', r = Some (t', rest) ∧ t = pre +:+ t'.
Proof. destruct r as [[t' rest']|]; [|done]. intros [= <- <-]. by exists t'. Qed.

Lemma simple_escape_valid e b : simple_escape e = Some b → byte_in 0 127 b = true.
Proof. destruct e as [[] [] [] [] [] [] [] []]; intros H; vm_compute in H; simplify_eq; done. Qed.

(** A decoded string is valid UTF-8. *)
Lemma read_chars_valid s t rest : read_chars s = Some (t, rest) → valid_text t.
Proof.
  revert t rest. induction s as [s IH] using (well_founded_induction (well_founded_ltof _ String.length)).
  unfold ltof in IH. destruct s as [|c s1]; [done|]. intros t rest.
  assert (∀ pre s', String.length s' ≤ String.length s1 → valid_text pre →
    prepend pre (read_chars s') = Some (t, rest) → valid_text t) as Hnext.
  { intros pre s' Hlen Hpre (t' & Hr & ->)%prepend_inv. apply valid_text_app; [done|].
    eapply IH; [|done]. simpl. lia. }
  cbn [read_chars]. destruct (_ =? 34); [intros [= <- _]; constructor|].
  destruct (_ =? 92).
  - destruct s1 as [|e s2]; [done|]. destruct (simple_escape e) as [b|] eqn:Ee.
    { apply Hnext; [simpl; lia|]. apply valid_1; [by eapply simple_escape_valid|constructor]. }
    destruct (negb _); [done|]. destruct s2 as [|h1 [|h2 [|h3 [|h4 s3]]]]; try done.
    destruct (hex4 h1 h2 h3 h4) as [r|] eqn:Eh; [|done]. apply hex4_range in Eh.
    destruct (is_surrogate r) eqn:Es; simpl.
    2:{ apply Hnext; [simpl; lia|]. apply encode_rune_valid; [lia|done]. }
    assert (prepend replacement (read_chars s3) = Some (t, rest) → valid_text t) as Hrepl.
    { apply Hnext; [simpl; lia|apply replacement_valid]. }
    destruct s3 as [|b [|u [|g1 [|g2 [|g3 [|g4 s4]]]]]]; try done.
    destruct (_ && _); [|done]. destruct (hex4 g1 g2 g3 g4) as [r2|]; [|done].
    cbn [mbind option_bind]. destruct (decode_pair r r2) as [r'|] eqn:Ep; [|done]. apply decode_pair_range in Ep.
    apply Hnext; [simpl; lia|]. apply encode_rune_valid; [lia|]. unfold is_surrogate.
    apply andb_false_iff. right. apply Z.ltb_ge. lia.
  - destruct (_ <? 32); [done|]. pose proof (utf8_len_cases c s1) as Hc.
    assert (prepend replacement (read_chars s1) = Some (t, rest) → valid_text t) as Hrepl.
    { apply Hnext; [lia|apply replacement_valid]. }
    destruct (utf8_len (String c s1)) as [|[|[|[|[|]]]]]; try done.
    + apply Hnext; [lia|]. apply valid_1; [done|constructor].
    + destruct Hc as (c1 & s' & -> & ? & ?). apply Hnext; [simpl; lia|]. apply valid_2; [done..|constructor].
    + destruct Hc as (c1 & c2 & s' & -> & ? & ? & ?). apply Hnext; [simpl; lia|]. apply valid_3; [done..|constructor].
    + destruct Hc as (c1 & c2 & c3 & s' & -> & ? & ? & ? & ?). apply Hnext; [simpl; lia|].
      apply valid_4; [done..|constructor].
Qed.

(** Assignments to a map. *)
Lemma obj_insert_keys k v fields x : x ∈ (obj_insert k v fields).*1 → x = k ∨ x ∈ fields.*1.
Proof.
  induction fields as [|[k' v'] fields IH]; simpl; [rewrite elem_of_cons; tauto|].
  repeat case_match; simpl; rewrite ?elem_of_cons; [tauto| |tauto]. intros [?|?%IH]; tauto.
Qed.

Lemma obj_insert_sorted k v fields : keys_sorted fields → keys_sorted (obj_insert k v fields).
Proof.
  unfold keys_sorted. induction fields as [|[k' v'] fields IH]; simpl; [repeat constructor|].
  intros Hs. pose proof Hs as [Hk' Hs']%StronglySorted_cons.
  destruct (string_ltb k k') eqn:E1; simpl.
  { apply StronglySorted_cons. split; [|done]. constructor; [done|]. rewrite Forall_forall in *. intros x Hx.
    eapply string_ltb_trans; [done|by apply Hk']. }
  destruct (string_ltb k' k) eqn:E2; simpl; apply StronglySorted_cons.
  - split; [|by apply IH]. apply Forall_forall. intros x [->|Hx]%obj_insert_keys; [done|].
    rewrite Forall_forall in Hk'. by apply Hk'.
  - split; [|done]. by rewrite (string_ltb_total _ _ E1 E2).
Qed.

Lemma obj_insert_wf d k v fields :
  utf8_valid k = true → jwf v d → members_wf d fields → members_wf d (obj_insert k v fields).
Proof.
  intros Hk Hv. unfold members_shape. induction fields as [|[k' v'] fields IH]; simpl; intros Hf.
  - by repeat constructor.
  - apply Forall_cons in Hf as Hf'. destruct Hf' as [Hh Ht]. repeat case_match; repeat constructor; auto; apply Hh.
Qed.

Lemma obj_add_wf d fields members :
  keys_sorted fields → members_wf d fields → members_wf d members →
  keys_sorted (obj_add fields members) ∧ members_wf d (obj_add fields members).
Proof.
  unfold obj_add. revert fields. induction members as [|[k v] members IH]; intros fields Hs Hf Hm; [done|].
  apply Forall_cons in Hm as [[Hk Hv] Hm]. simpl in *. apply IH; [by apply obj_insert_sorted|by apply obj_insert_wf|done].
Qed.

(** The document has the shape of one. *)
Lemma parse_wf fuel :
  (∀ d s v rest, parse_value fuel d s = Some (v, rest) → written v d)
  ∧ (∀ d s l rest, parse_elements fuel d s = Some (l, rest) → Forall (λ v, written v d) l)
  ∧ (∀ d s ms rest, parse_object fuel d s = Some (ms, rest) → (d < max_depth)%Z ∧ members_written (d + 1) ms)
  ∧ (∀ d s ms rest, parse_members fuel d s = Some (ms, rest) → members_written d ms).
Proof.
  induction fuel as [|fuel (IHv & IHe & IHo & IHm)]; [done|]. split_and!; intros d s x rest.
  - cbn [parse_value]. destruct (skip_space s) as [|c s1]; [done|]. destruct (_ =? 123).
    { destruct (parse_object fuel d s1) as [[ms r]|] eqn:E; [|done]. intros [= <- <-].
      apply IHo in E as [Hd Hm]. by apply shape_obj. }
    destruct (_ =? 91).
    { destruct (max_depth <=? d)%Z eqn:Ed; [done|]. apply Z.leb_gt in Ed.
      destruct (expect "]" s1); [intros [= <- <-]; apply shape_arr; by split; [|constructor]|].
      destruct (parse_elements fuel (d + 1) s1) as [[l r]|] eqn:E; [|done]. intros [= <- <-].
      apply shape_arr. split; [done|by eapply IHe]. }
    destruct (_ =? 34).
    { destruct (read_chars s1) as [[t r]|] eqn:E; [|done]. intros [= <- <-].
      by eapply valid_text_utf8, read_chars_valid. }
    assert (∀ word y r, (∀ d, written y d) → literal word y s1 = Some (x, r) → written x d) as Hlit.
    { intros word y r Hy. revert s1. induction word as [|a word IHw]; intros [|b s1]; simpl; try done;
        try (by intros [= <- _]). case_match; [apply IHw|done]. }
    destruct (_ =? 116); [by eapply Hlit|]. destruct (_ =? 102); [by eapply Hlit|]. destruct (_ =? 110); [by eapply Hlit|].
    destruct (parse_number (String c s1)) as [[f r]|] eqn:E; [|done]. intros [= <- <-]. by eapply parse_number_valid.
  - cbn [parse_elements]. destruct (parse_value fuel d s) as [[v s1]|] eqn:E; [|done]. apply IHv in E.
    cbn [mbind option_bind]. destruct (expect "," s1) as [s2|].
    + destruct (parse_elements fuel d s2) as [[l r]|] eqn:El; [|done]. intros [= <- <-]. constructor; [done|by eapply IHe].
    + destruct (expect "]" s1); [|done]. intros [= <- <-]. by repeat constructor.
  - cbn [parse_object]. destruct (max_depth <=? d)%Z eqn:Ed; [done|]. apply Z.leb_gt in Ed.
    destruct (expect "}" s); [intros [= <- <-]; by split; [|constructor]|]. intros E. split; [done|by eapply IHm].
  - cbn [parse_members]. destruct (expect dquote s) as [s1|]; [|done]. cbn [mbind option_bind].
    destruct (read_chars s1) as [[k s2]|] eqn:Ek; [|done]. apply read_chars_valid, valid_text_utf8 in Ek.
    cbn [mbind option_bind].
    destruct (expect ":" s2) as [s3|]; [|done]. cbn [mbind option_bind].
    destruct (parse_value fuel d s3) as [[v s4]|] eqn:E; [|done]. apply IHv in E.
    cbn [mbind option_bind]. destruct (expect "," s4) as [s5|].
    + destruct (parse_members fuel d s5) as [[l r]|] eqn:El; [|done]. intros [= <- <-]. constructor; [done|by eapply IHm].
    + destruct (expect "}" s4); [|done]. intros [= <- <-]. by repeat constructor.
Qed.

(** ** Into an any *)

(** The loops of [convert]. *)
Fixpoint convert_elements (l : list jvalue) : option (list jvalue) :=
  match l with
  | [] => Some []
  | v :: l => v ← convert v; l ← convert_elements l; Some (v :: l)
  end.

Fixpoint convert_members (members : list (string * jvalue)) : option (list (string * jvalue)) :=
  match members with
  | [] => Some []
  | (k, v) :: members => v ← convert v; members ← convert_members members; Some ((k, v) :: members)
  end.

Lemma convert_arr l : convert (JArr l) = JArr <$> convert_elements l.
Proof. done. Qed.
Lemma convert_obj members : convert (JObj members) = (λ ms, JObj (obj_of ms)) <$> convert_members members.
Proof. done. Qed.

(** A well-formed value is what its document means. *)
Lemma convert_id v d : jwf v d → convert v = Some v.
Proof.
  revert d. induction v as [| |f| |l IH|fields IH] using jvalue_induct; intros d Hv; try done.
  - by destruct f.
  - apply shape_arr in Hv as [_ Hl]. rewrite convert_arr. assert (convert_elements l = Some l) as ->; [|done].
    induction IH as [|v l Hv _ IHl]; [done|]. apply Forall_cons in Hl as [Hwf Hl]. simpl.
    by rewrite (Hv _ Hwf), IHl.
  - apply shape_obj in Hv as (_ & Hs & Hf). rewrite convert_obj.
    assert (convert_members fields = Some fields) as ->; [|simpl; by rewrite obj_of_sorted].
    clear Hs. induction IH as [|[k v] fields Hv _ IHf]; [done|]. apply Forall_cons in Hf as [[_ Hwf] Hf]. simpl in *.
    by rewrite (Hv _ Hwf), IHf.
Qed.

(** What a document means is well formed. *)
Lemma convert_wf v d v' : written v d → convert v = Some v' → jwf v' d.
Proof.
  revert d v'. induction v as [| |f| |l IH|fields IH] using jvalue_induct; intros d v' Hv; try (by intros [= <-]).
  - destruct Hv as [Hv|[sign ->]]; [|done]. by destruct f; try done; intros [= <-].
  - rewrite convert_arr. apply shape_arr in Hv as [Hd Hl]. destruct (convert_elements l) as [l'|] eqn:E; [|done].
    intros [= <-]. apply shape_arr. split; [done|]. revert l' E.
    induction IH as [|v l Hv _ IHl]; intros l'; simpl; [by intros [= <-]|]. apply Forall_cons in Hl as [Hw Hl].
    destruct (convert v) as [v1|] eqn:Ev; [|done]. simpl. destruct (convert_elements l) as [l1|]; [|done].
    intros [= <-]. constructor; [by eapply Hv|by apply IHl].
  - rewrite convert_obj. apply shape_obj in Hv as (Hd & _ & Hf).
    destruct (convert_members fields) as [ms|] eqn:E; [|done]. intros [= <-].
    apply shape_obj. split; [done|]. apply obj_add_wf; [constructor|constructor|]. revert ms E.
    induction IH as [|[k v] fields Hv _ IHf]; intros ms; simpl; [by intros [= <-]; constructor|].
    apply Forall_cons in Hf as [[Hk Hw] Hf]. simpl in *.
    destruct (convert v) as [v1|] eqn:Ev; [|done]. simpl. destruct (convert_members fields) as [ms1|]; [|done].
    intros [= <-]. constructor; [split; [done|by eapply Hv]|by apply IHf].
Qed.

(** ** The parser has enough fuel *)

Lemma skip_space_length s : String.length (skip_space s) ≤ String.length s.
Proof. induction s as [|c s IH]; simpl; [done|]. case_match; simpl; lia. Qed.

Lemma expect_length c s rest : expect c s = Some rest → String.length rest < String.length s.
Proof.
  unfold expect. pose proof (skip_space_length s) as H. destruct (skip_space s) as [|c' s']; [done|].
  case_match; [|done]. intros [= <-]. simpl in H. lia.
Qed.

Lemma read_chars_length s t rest : read_chars s = Some (t, rest) → String.length rest < String.length s.
Proof.
  revert t rest. induction s as [s IH] using (well_founded_induction (well_founded_ltof _ String.length)).
  unfold ltof in IH. destruct s as [|c s1]; [done|]. intros t rest.
  assert (∀ pre s', String.length s' ≤ String.length s1 → prepend pre (read_chars s') = Some (t, rest) →
    String.length rest < S (String.length s1)) as Hnext.
  { intros pre s' Hlen (t' & Hr & ->)%prepend_inv. apply IH in Hr; simpl; lia. }
  cbn [read_chars String.length]. destruct (_ =? 34); [intros [= _ <-]; lia|].
  destruct (_ =? 92).
  - destruct s1 as [|e s2]; [done|]. destruct (simple_escape e); [apply Hnext; simpl; lia|].
    destruct (negb _); [done|]. destruct s2 as [|h1 [|h2 [|h3 [|h4 s3]]]]; try done.
    destruct (hex4 h1 h2 h3 h4) as [r|]; [|done]. destruct (is_surrogate r); simpl; [|apply Hnext; simpl; lia].
    assert (prepend replacement (read_chars s3) = Some (t, rest) → _) as Hrepl by (apply Hnext; simpl; lia).
    destruct s3 as [|b [|u [|g1 [|g2 [|g3 [|g4 s4]]]]]]; try done.
    destruct (_ && _); [|done]. destruct (r2 ← _; _); [apply Hnext; simpl; lia|done].
  - destruct (_ <? 32); [done|].
    assert (prepend replacement (read_chars s1) = Some (t, rest) → _) as Hrepl by (apply Hnext; lia).
    pose proof (utf8_len_cases c s1) as Hc. destruct (utf8_len (String c s1)) as [|[|[|[|[|]]]]]; try done.
    + apply Hnext. lia.
    + destruct Hc as (c1 & s' & -> & _). apply Hnext. simpl. lia.
    + destruct Hc as (c1 & c2 & s' & -> & _). apply Hnext. simpl. lia.
    + destruct Hc as (c1 & c2 & c3 & s' & -> & _). apply Hnext. simpl. lia.
Qed.

Lemma take_digits_length s : String.length (take_digits s).2 + length (take_digits s).1 = String.length s.
Proof.
  induction s as [|c s IH]; simpl; [done|]. destruct (digit_val c); [|simpl; lia].
  destruct (take_digits s). simpl in *. lia.
Qed.

Ltac by_digits :=
  match goal with H : take_digits ?x = _ |- _ =>
    let Hl := fresh in pose proof (take_digits_length x) as Hl; rewrite H in Hl; cbn [fst snd length String.length] in *; lia
  end.

Lemma parse_number_length s f rest : parse_number s = Some (f, rest) → String.length rest < String.length s.
Proof.
  assert (∀ s l r, match take_digits s with ([], _) => None | (l, rest) => Some (l, rest) end = Some (l, r) →
    String.length r < String.length s) as Hdig.
  { intros s0 l r H. pose proof (take_digits_length s0) as Hl. destruct (take_digits s0) as [[|x l'] r']; [done|].
    simplify_eq. simpl in Hl. lia. }
  assert (∀ sign s e r, parse_exp_digits sign s = Some (e, r) → String.length r < String.length s) as Hexp.
  { intros sign s0 e r H. apply (Hdig s0 (take_digits s0).1). unfold parse_exp_digits in H.
    destruct (take_digits s0) as [[|x l] r']; [done|]. by simplify_eq. }
  assert (∀ sign s f rest, parse_unsigned sign s = Some (f, rest) → String.length rest < String.length s) as H.
  { clear s f rest. intros sign s f rest. unfold parse_unsigned.
    destruct (parse_int s) as [[int s1]|] eqn:Hi; [|done]. cbn.
    destruct (parse_frac s1) as [[frac s2]|] eqn:Hf; [|done]. cbn. destruct (parse_exp s2) as [[e s3]|] eqn:He; [|done]. cbn.
    intros [= _ <-].
    assert (String.length s1 < String.length s).
    { unfold parse_int in Hi. repeat case_match; simplify_eq; first [by_digits | simpl; lia]. }
    assert (String.length s2 ≤ String.length s1).
    { unfold parse_frac in Hf. repeat case_match; simplify_eq; first [by_digits | lia]. }
    assert (String.length s3 ≤ String.length s2).
    { unfold parse_exp in He. repeat case_match; simplify_eq; try lia; apply Hexp in He; cbn [String.length] in *; lia. }
    lia. }
  unfold parse_number. repeat case_match; intros Hp%H; simpl in *; lia.
Qed.

Lemma literal_length word v s x rest : literal word v s = Some (x, rest) → String.length rest ≤ String.length s.
Proof.
  revert s. induction word as [|c word IH]; intros [|c' s]; simpl; try done; try (by intros [= _ <-]).
  case_match; [|done]. intros Hl%IH. lia.
Qed.

(** A value takes at least one character. *)
Lemma parse_length fuel :
  (∀ d s v rest, parse_value fuel d s = Some (v, rest) → String.length rest < String.length s)
  ∧ (∀ d s l rest, parse_elements fuel d s = Some (l, rest) → String.length rest < String.length s)
  ∧ (∀ d s ms rest, parse_object fuel d s = Some (ms, rest) → String.length rest < String.length s)
  ∧ (∀ d s ms rest, parse_members fuel d s = Some (ms, rest) → String.length rest < String.length s).
Proof.
  induction fuel as [|fuel (IHv & IHe & IHo & IHm)]; [done|]. split_and!; intros d s x rest.
  - cbn [parse_value]. pose proof (skip_space_length s) as Hs. destruct (skip_space s) as [|c s1]; [done|].
    cbn [String.length] in Hs. destruct (_ =? 123).
    { destruct (parse_object fuel d s1) as [[ms r]|] eqn:E; [|done]. apply IHo in E. intros [= _ <-]. lia. }
    destruct (_ =? 91).
    { destruct (max_depth <=? d)%Z; [done|]. destruct (expect "]" s1) eqn:E; [apply expect_length in E; intros [= _ <-]; lia|].
      destruct (parse_elements fuel (d + 1) s1) as [[l r]|] eqn:El; [|done]. apply IHe in El. intros [= _ <-]. lia. }
    destruct (_ =? 34).
    { destruct (read_chars s1) as [[t r]|] eqn:E; [|done]. apply read_chars_length in E. intros [= _ <-]. lia. }
    repeat (destruct (_ =? _); [intros E%literal_length; lia|]).
    destruct (parse_number (String c s1)) as [[f r]|] eqn:E; [|done]. apply parse_number_length in E. intros [= _ <-].
    cbn [String.length] in E. lia.
  - cbn [parse_elements]. destruct (parse_value fuel d s) as [[v s1]|] eqn:E; [|done]. apply IHv in E.
    cbn [mbind option_bind]. destruct (expect "," s1) as [s2|] eqn:E2.
    + apply expect_length in E2. destruct (parse_elements fuel d s2) as [[l r]|] eqn:El; [|done]. apply IHe in El.
      intros [= _ <-]. lia.
    + destruct (expect "]" s1) eqn:E3; [|done]. apply expect_length in E3. intros [= _ <-]. lia.
  - cbn [parse_object]. destruct (max_depth <=? d)%Z; [done|].
    destruct (expect "}" s) eqn:E; [apply expect_length in E; intros [= _ <-]; lia|]. apply IHm.
  - cbn [parse_members]. destruct (expect dquote s) as [s1|] eqn:E1; [|done]. apply expect_length in E1. cbn [mbind option_bind].
    destruct (read_chars s1) as [[k s2]|] eqn:Ek; [|done]. apply read_chars_length in Ek. cbn [mbind option_bind].
    destruct (expect ":" s2) as [s3|] eqn:E3; [|done]. apply expect_length in E3. cbn [mbind option_bind].
    destruct (parse_value fuel d s3) as [[v s4]|] eqn:E; [|done]. apply IHv in E. cbn [mbind option_bind].
    destruct (expect "," s4) as [s5|] eqn:E5.
    + apply expect_length in E5. destruct (parse_members fuel d s5) as [[l r]|] eqn:El; [|done]. apply IHm in El.
      intros [= _ <-]. lia.
    + destruct (expect "}" s4) eqn:E6; [|done]. apply expect_length in E6. intros [= _ <-]. lia.
Qed.

(** The parser takes at most three calls for a character: with that much fuel the
    result does not depend on it. *)
Lemma parse_fuel fuel : ∀ fuel',
  (∀ d s, 3 * String.length s + 1 ≤ fuel → 3 * String.length s + 1 ≤ fuel' →
     parse_value fuel d s = parse_value fuel' d s)
  ∧ (∀ d s, 3 * String.length s + 2 ≤ fuel → 3 * String.length s + 2 ≤ fuel' →
     parse_elements fuel d s = parse_elements fuel' d s)
  ∧ (∀ d s, 3 * String.length s + 2 ≤ fuel → 3 * String.length s + 2 ≤ fuel' →
     parse_object fuel d s = parse_object fuel' d s)
  ∧ (∀ d s, 3 * String.length s + 1 ≤ fuel → 3 * String.length s + 1 ≤ fuel' →
     parse_members fuel d s = parse_members fuel' d s).
Proof.
  induction fuel as [|fuel IH]; intros fuel'; [split_and!; intros; lia|].
  destruct fuel' as [|fuel']; [split_and!; intros; lia|].
  destruct (IH fuel') as (IHv & IHe & IHo & IHm). clear IH.
  split_and!; intros d s Hf Hf'.
  - cbn [parse_value]. pose proof (skip_space_length s) as Hs. destruct (skip_space s) as [|c s1]; [done|].
    cbn [String.length] in Hs. rewrite (IHo d s1), (IHe (d + 1)%Z s1) by lia. done.
  - cbn [parse_elements]. rewrite (IHv d s) by lia. destruct (parse_value fuel' d s) as [[v s1]|] eqn:E; [|done].
    apply parse_length in E. cbn [mbind option_bind]. destruct (expect "," s1) as [s2|] eqn:E2; [|done].
    apply expect_length in E2. by rewrite (IHe d s2) by lia.
  - cbn [parse_object]. by rewrite (IHm (d + 1)%Z s) by lia.
  - cbn [parse_members]. destruct (expect dquote s) as [s1|] eqn:E1; [|done]. apply expect_length in E1. cbn [mbind option_bind].
    destruct (read_chars s1) as [[k s2]|] eqn:Ek; [|done]. apply read_chars_length in Ek. cbn [mbind option_bind].
    destruct (expect ":" s2) as [s3|] eqn:E3; [|done]. apply expect_length in E3. cbn [mbind option_bind].
    rewrite (IHv d s3) by lia. destruct (parse_value fuel' d s3) as [[v s4]|] eqn:E; [|done]. apply parse_length in E.
    cbn [mbind option_bind]. destruct (expect "," s4) as [s5|] eqn:E5; [|done]. apply expect_length in E5.
    by rewrite (IHm d s5) by lia.
Qed.

(** So [fuel_for] decides every text. *)
Theorem parse_value_fuel_enough s fuel d :
  fuel_for s ≤ fuel → parse_value fuel d s = parse_value (fuel_for s) d s.
Proof. unfold fuel_for. intros Hf. apply parse_fuel; lia. Qed.

(** ** Payloads and events *)

Lemma string_app_nil_r (a : string) : a +:+ "" = a.
Proof. induction a as [|c a IH]; [done|]. by rewrite string_app_cons, IH. Qed.

(** What a payload and an event are that came out of a document. *)
Definition payload_wf (d : Z) (p : payload) : Prop :=
  match p with None => True | Some fields => jwf (JObj fields) d end.

Record event_wf (ev : Event) : Prop := {
  ew_id : utf8_valid (Event_ID ev) = true;
  ew_type : utf8_valid (Event_Type ev) = true;
  ew_request : utf8_valid (Event_RequestID ev) = true;
  ew_payload : payload_wf 1 (Event_Payload ev);
}.

Section Codec.
Context (json_error_text : string → string).

Lemma unmarshal_any_text v s : text_of 0 v s → whole (parse_value (fuel_for s) 0 s) = Some v.
Proof.
  intros [_ Hs]. pose proof (Hs (fuel_for s) "" ltac:(unfold fuel_for; lia) I) as H.
  rewrite string_app_nil_r in H. by rewrite H.
Qed.

Lemma payload_roundtrip p :
  payload_wf 0 p → ∃ s, json_marshal (JsonCodec := json_codec json_error_text) p = inr s
    ∧ json_unmarshal (JsonCodec := json_codec json_error_text) s = inr p.
Proof.
  intros Hp. destruct p as [fields|]; [|by exists "null"].
  destruct (encode_text _ _ Hp) as (s & Hs & Ht). exists s. split; [exact Hs|].
  change (or_error json_error_text s (v ← whole (parse_value (fuel_for s) 0 s); v ← convert v; payload_of v)
    = inr (Some fields)).
  rewrite (unmarshal_any_text _ _ Ht). cbn [mbind option_bind]. by rewrite (convert_id _ _ Hp).
Qed.

(** The codec of the Go library keeps the promise the store relies on. *)
#[export] Instance json_codec_ok : JsonCodecOk (json_codec json_error_text) := {|
  JsonPayload := payload_wf 0;
  json_roundtrip := payload_roundtrip;
|}.

Lemma event_members_wf ev : event_wf ev → members_wf 1 (event_members ev).
Proof.
  intros [Hi Ht Hr Hp]. unfold event_members, members_shape. repeat apply Forall_app_2.
  - by repeat constructor.
  - case_bool_decide; by repeat constructor.
  - constructor; [|constructor]. split; [done|]. by destruct (Event_Payload ev).
Qed.

Lemma set_event_members ev : event_wf ev → set_fields zero_event (event_members ev) = Some ev.
Proof.
  intros [_ _ _ Hp]. destruct ev as [id type requestId p]. unfold event_members. simpl in *.
  assert (set_fields (mkEvent id type requestId None) [("payload", match p with None => JNull | Some fields => JObj fields end)]
    = Some (mkEvent id type requestId p)) as Hlast.
  { destruct p as [fields|]; [|done]. pose proof (convert_id _ _ Hp) as Hc. apply shape_obj in Hp as (_ & Hs & _).
    unfold set_fields, set_field. rewrite Hc. simpl. by rewrite (obj_add_sorted [] fields Hs). }
  case_bool_decide as Hr; [subst requestId|]; exact Hlast.
Qed.

(** An event is read back from the message that carries it. *)
Lemma event_roundtrip ev :
  event_wf ev → ∃ s, marshal_event ev = inr s ∧ unmarshal_event s = Some ev.
Proof.
  intros Hwf. pose proof (event_members_wf ev Hwf) as Hm.
  destruct (parse_object_text 0 (event_members ev)) as (s & Hs & Hp); [done|done| |].
  { unfold members_shape in Hm. rewrite Forall_forall in *. intros kv Hkv. apply encode_text. by apply Hm. }
  exists (String "{" s). split; [exact Hs|]. unfold unmarshal_event, parse_event. rewrite expect_char by done.
  pose proof (Hp (fuel_for (String "{" s)) "" ltac:(unfold fuel_for; simpl; lia)) as E. rewrite string_app_nil_r in E.
  rewrite E. cbn [mbind option_bind]. by rewrite set_event_members.
Qed.

(** A decoded event is well formed. *)
Lemma set_field_wf ev kv ev' :
  event_wf ev → utf8_valid kv.1 = true ∧ written kv.2 1 → set_field ev kv = Some ev' → event_wf ev'.
Proof.
  destruct ev as [id type requestId p], kv as [k v]. intros [Hi Ht Hr Hp] [_ Hv]. simpl in *.
  assert (∀ old new, utf8_valid old = true → string_of old v = Some new → utf8_valid new = true) as Hstr.
  { intros old new Ho. destruct v; simpl in *; intros; by simplify_eq. }
  case_bool_decide; [|case_bool_decide; [|case_bool_decide; [|case_bool_decide; [|by intros [= <-]]]]].
  - destruct (string_of id v) eqn:E; [|done]. intros [= <-]. split; [exact (Hstr _ _ Hi E)|done..].
  - destruct (string_of type v) eqn:E; [|done]. intros [= <-]. split; [done|exact (Hstr _ _ Ht E)|done..].
  - destruct (string_of requestId v) eqn:E; [|done]. intros [= <-]. split; [done|done|exact (Hstr _ _ Hr E)|done].
  - destruct (convert v) as [v'|] eqn:Ec; [|done]. apply (convert_wf _ 1) in Ec as Hv'; [|done]. clear Hv. simpl.
    destruct v' as [| | | | |fields]; try done; intros [= <-]; [by split|]. split; [done..|]. rename Hv' into Hv.
    apply shape_obj in Hv as (Hd & _ & Hf). apply shape_obj. split; [done|].
    apply obj_add_wf; [..|done]; destruct p as [old|]; [|constructor| |constructor];
      apply shape_obj in Hp as (_ & ? & ?); done.
Qed.

Lemma parse_event_wf s ev rest : parse_event s = Some (ev, rest) → event_wf ev.
Proof.
  assert (event_wf zero_event) as Hz by done.
  unfold parse_event. destruct (expect "{" s) as [s1|].
  - destruct (parse_object _ 0 s1) as [[ms r]|] eqn:E; [|done]. apply parse_wf in E as [_ Hm].
    cbn [mbind option_bind]. destruct (set_fields zero_event ms) as [ev'|] eqn:Es; [|done]. intros [= <- _].
    revert Hz Es. generalize zero_event. induction Hm as [|kv ms Hkv _ IH]; intros ev0 Hz; simpl; [by intros [= <-]|].
    destruct (set_field ev0 kv) as [ev1|] eqn:E1; [|done]. simpl. apply IH. by eapply set_field_wf.
  - destruct (parse_value _ 0 s) as [[v r]|]; [|done]. destruct v; try done. by intros [= <- _].
Qed.

(** The payload of a decoded event is one the store can keep. *)
Lemma decoded_event_wf body ev : decode_event body = Some ev → event_wf ev.
Proof.
  unfold decode_event. destruct (parse_event body) as [[ev' rest]|] eqn:E; [|done]. intros [= ->].
  by eapply parse_event_wf.
Qed.

Lemma decoded_payload body ev :
  decode_event body = Some ev → JsonPayload (JsonCodecOk := json_codec_ok) (Event_Payload ev).
Proof.
  intros Hp%decoded_event_wf%ew_payload. simpl. destruct (Event_Payload ev); [|done]. eapply jwf_mono; [done|lia].
Qed.

(** C20: an event that was accepted survives every encoding on its way.  What the
    HTTP handler decodes from a body, whatever the body, can be encoded for the
    tables and for the broker; decoding the stored payload gives the payload,
    and decoding the message gives the event. *)
Theorem decoded_event_survives body ev :
  decode_event body = Some ev →
  (∃ p, json_marshal (JsonCodec := json_codec json_error_text) (Event_Payload ev) = inr p
    ∧ json_unmarshal (JsonCodec := json_codec json_error_text) p = inr (Event_Payload ev))
  ∧ ∃ m, marshal_event ev = inr m ∧ unmarshal_event m = Some ev.
Proof.
  intros Hdec. split; [|by apply event_roundtrip, (decoded_event_wf body)].
  by apply payload_roundtrip, (decoded_payload body).
Qed.

End Codec.

(** ** On a concrete body *)

(** A body with an unknown member whose number is out of range. *)
Definition sample_body : string :=
  " {" +:+ quote_string "ID" +:+ " :" +:+ quote_string "evt-1" +:+ "," +:+ quote_string "x" +:+ ":1e400," +:+ quote_string "payload" +:+ ": {"
  +:+ quote_string "b" +:+ ":[1e2, -0.50, null]," +:+ quote_string "a<" +:+ ":{}}} trailing".

Definition sample_event : Event :=
  mkEvent "evt-1" "" "" (Some
    [("a<", JObj []);
     ("b", JArr [JNum (S754_finite false 7036874417766400 (-46)); JNum (S754_finite true 4503599627370496 (-53)); JNull])]).

(** In the payload such a number is an error, also when the member is repeated. *)
Example payload_out_of_range :
  decode_event ("{" +:+ quote_string "payload" +:+ ":{" +:+ quote_string "a" +:+ ":1e400,"
    +:+ quote_string "a" +:+ ":1}}") = None.
Proof. vm_compute. reflexivity. Qed.

Lemma decoded_event_survives_witness :
  decode_event sample_body = Some sample_event
  ∧ ∃ m, marshal_event sample_event = inr m ∧ unmarshal_event m = Some sample_event.
Proof.
  assert (decode_event sample_body = Some sample_event) as H by (vm_compute; reflexivity).
  exact (conj H (proj2 (decoded_event_survives (λ _, "invalid character") sample_body sample_event H))).
Defined.
