(* ===== verification/Metrics.v ===== *)
(** * metrics.go, latency-metrics.go: counters and the latency maximum

    Each [atomic.Int64] is a 64-bit integer that wraps around.  The compare
    and swap loop of ObserveEventProcessingDuration is modelled twice: as the
    function one goroutine computes when it runs alone, and as a step relation
    in which any number of goroutines interleave their atomic operations. *)

From stdpp Require Import base gmap strings list relations.
From Stdlib Require Import ZArith Lia.
From S2P Require Import Prelude GoLib.

Record ProcessingLatency := mkLatency {
  count : Z;
  sumNS : Z;
  maxNS : Z;
}.

Record Metrics := mkMetrics {
  eventsQueued : Z;
  eventsRejected : Z;
  eventsDuplicated : Z;
  eventsSkippedDuplicate : Z;
  eventsProcessed : Z;
  eventsFailedPermanent : Z;
  eventRetries : Z;
  deadLetterReplays : Z;
  deadLetterReplayRejected : Z;
  deadLetterAutoRetries : Z;
  deadLetterAutoRetryFailed : Z;
  processingLatency : ProcessingLatency;
}.

(** The counters, in the order of the struct. *)
Inductive Counter :=
| EventsQueued | EventsRejected | EventsDuplicated | EventsSkippedDuplicate
| EventsProcessed | EventsFailedPermanent | EventRetries | DeadLetterReplays
| DeadLetterReplayRejected | DeadLetterAutoRetries | DeadLetterAutoRetryFailed.

#[export] Instance Counter_eq_dec : EqDecision Counter.
Proof. solve_decision. Defined.

Definition NewMetrics : Metrics :=
  mkMetrics 0 0 0 0 0 0 0 0 0 0 0 (mkLatency 0 0 0).

(** [metrics.<counter>.Load()]. *)
Definition load (c : Counter) (m : Metrics) : Z :=
  match c with
  | EventsQueued => eventsQueued m
  | EventsRejected => eventsRejected m
  | EventsDuplicated => eventsDuplicated m
  | EventsSkippedDuplicate => eventsSkippedDuplicate m
  | EventsProcessed => eventsProcessed m
  | EventsFailedPermanent => eventsFailedPermanent m
  | EventRetries => eventRetries m
  | DeadLetterReplays => deadLetterReplays m
  | DeadLetterReplayRejected => deadLetterReplayRejected m
  | DeadLetterAutoRetries => deadLetterAutoRetries m
  | DeadLetterAutoRetryFailed => deadLetterAutoRetryFailed m
  end.

(** The Inc methods: [metrics.<counter>.Add(1)]. *)
Definition inc (c : Counter) (m : Metrics) : Metrics :=
  let '(mkMetrics q r d s p f t y j a b l) := m in
  let up z := wrap64 (z + 1) in
  match c with
  | EventsQueued => mkMetrics (up q) r d s p f t y j a b l
  | EventsRejected => mkMetrics q (up r) d s p f t y j a b l
  | EventsDuplicated => mkMetrics q r (up d) s p f t y j a b l
  | EventsSkippedDuplicate => mkMetrics q r d (up s) p f t y j a b l
  | EventsProcessed => mkMetrics q r d s (up p) f t y j a b l
  | EventsFailedPermanent => mkMetrics q r d s p (up f) t y j a b l
  | EventRetries => mkMetrics q r d s p f (up t) y j a b l
  | DeadLetterReplays => mkMetrics q r d s p f t (up y) j a b l
  | DeadLetterReplayRejected => mkMetrics q r d s p f t y (up j) a b l
  | DeadLetterAutoRetries => mkMetrics q r d s p f t y j (up a) b l
  | DeadLetterAutoRetryFailed => mkMetrics q r d s p f t y j a (up b) l
  end.

(** ObserveEventProcessingDuration run without interference. *)
Definition observe (nanoseconds : Z) (m : Metrics) : Metrics :=
  let '(mkMetrics q r d s p f t y j a b (mkLatency n sum mx)) := m in
  mkMetrics q r d s p f t y j a b
    (mkLatency (wrap64 (n + 1)) (wrap64 (sum + nanoseconds))
       (if (mx <? nanoseconds)%Z then nanoseconds else mx)).

Record MetricsResponse := mkMetricsResponse {
  MR_EventsQueued : Z;
  MR_EventsRejected : Z;
  MR_EventsDuplicated : Z;
  MR_EventsSkippedDuplicate : Z;
  MR_EventsProcessed : Z;
  MR_EventsFailedPermanent : Z;
  MR_EventRetries : Z;
  MR_DeadLetterReplays : Z;
  MR_DeadLetterReplayRejected : Z;
  MR_DeadLetterAutoRetries : Z;
  MR_DeadLetterAutoRetryFailed : Z;
  MR_QueueLength : Z;
  MR_QueueCapacity : Z;
}.

Definition Snapshot (m : Metrics) (queueLength queueCapacity : Z) : MetricsResponse := {|
  MR_EventsQueued := eventsQueued m;
  MR_EventsRejected := eventsRejected m;
  MR_EventsDuplicated := eventsDuplicated m;
  MR_EventsSkippedDuplicate := eventsSkippedDuplicate m;
  MR_EventsProcessed := eventsProcessed m;
  MR_EventsFailedPermanent := eventsFailedPermanent m;
  MR_EventRetries := eventRetries m;
  MR_DeadLetterReplays := deadLetterReplays m;
  MR_DeadLetterReplayRejected := deadLetterReplayRejected m;
  MR_DeadLetterAutoRetries := deadLetterAutoRetries m;
  MR_DeadLetterAutoRetryFailed := deadLetterAutoRetryFailed m;
  MR_QueueLength := queueLength;
  MR_QueueCapacity := queueCapacity;
|}.

Lemma load_inc c c' m :
  load c (inc c' m) = if decide (c = c') then wrap64 (load c m + 1) else load c m.
Proof. destruct m, c, c'; reflexivity. Qed.

Lemma latency_inc c m : processingLatency (inc c m) = processingLatency m.
Proof. destruct m, c; reflexivity. Qed.

Lemma load_observe c d m : load c (observe d m) = load c m.
Proof. destruct m as [?????????? ? []], c; reflexivity. Qed.

#[export] Hint Rewrite load_inc latency_inc load_observe : webhook.

(** ** The compare-and-swap loop under interference

    [Observer d] is a goroutine inside ObserveEventProcessingDuration with the
    duration [d]; its program counter says which atomic operation comes next. *)
Module Latency.

Inductive pc :=
| PAddCount            (* before count.Add(1) *)
| PAddSum              (* before sumNS.Add(nanoseconds) *)
| PLoad                (* before maxNS.Load() *)
| PTest (current : Z)  (* the loop test, then the CompareAndSwap *)
| PDone.

Record observer := mkObserver { duration : Z; at_pc : pc }.

Record state := mkState {
  latency : ProcessingLatency;
  threads : gmap nat observer;
}.

(** The next atomic operation of one observer. *)
Definition advance (l : ProcessingLatency) (o : observer)
    : option (ProcessingLatency * observer) :=
  let d := duration o in
  match at_pc o with
  | PAddCount => Some (mkLatency (wrap64 (count l + 1)) (sumNS l) (maxNS l), mkObserver d PAddSum)
  | PAddSum => Some (mkLatency (count l) (wrap64 (sumNS l + d)) (maxNS l), mkObserver d PLoad)
  | PLoad => Some (l, mkObserver d (PTest (maxNS l)))
  | PTest current =>
      if (current <? d)%Z then
        if (maxNS l =? current)%Z
        then Some (mkLatency (count l) (sumNS l) d, mkObserver d PDone)
        else Some (l, mkObserver d PLoad)
      else Some (l, mkObserver d PDone)
  | PDone => None
  end.

(** Either a new goroutine enters the method or one already inside moves. *)
Inductive step : state → state → Prop :=
| step_enter s tid d :
    threads s !! tid = None →
    step s (mkState (latency s) (<[tid := mkObserver d PAddCount]> (threads s)))
| step_advance s tid o l' o' :
    threads s !! tid = Some o →
    advance (latency s) o = Some (l', o') →
    step s (mkState l' (<[tid := o']> (threads s))).

Definition initial : state := mkState (mkLatency 0 0 0) ∅.

(** Sum of a measure over the observers of a state. *)
Definition total (f : observer → Z) (t : gmap nat observer) : Z :=
  map_fold (λ _ o n, f o + n)%Z 0%Z t.

(** What an observer has added to the count and to the sum so far. *)
Definition counted (o : observer) : Z :=
  match at_pc o with PAddCount => 0 | _ => 1 end.
Definition summed (o : observer) : Z :=
  match at_pc o with PAddCount | PAddSum => 0 | _ => duration o end.
Definition finished (o : observer) : bool :=
  match at_pc o with PDone => true | _ => false end.

(** The maximum is 0 or a duration observed, and bounds every observer that is
    done as well as every value one has loaded. *)
Record inv (s : state) : Prop := {
  inv_max_origin : maxNS (latency s) = 0%Z ∨
    ∃ tid o, threads s !! tid = Some o ∧ duration o = maxNS (latency s);
  inv_bound : ∀ tid o, threads s !! tid = Some o →
    match at_pc o with
    | PDone => (duration o ≤ maxNS (latency s))%Z
    | PTest c => (c ≤ maxNS (latency s))%Z
    | _ => True
    end;
  inv_max_nonneg : (0 ≤ maxNS (latency s))%Z;
  inv_count : count (latency s) = wrap64 (total counted (threads s));
  inv_sum : sumNS (latency s) = wrap64 (total summed (threads s));
}.

Lemma total_insert_new f t tid o :
  t !! tid = None → total f (<[tid:=o]> t) = (f o + total f t)%Z.
Proof. intros. unfold total. apply (map_fold_insert_L (λ _ o n, f o + n)%Z); [lia|done]. Qed.

Lemma total_insert f t tid o o' :
  t !! tid = Some o → total f (<[tid:=o']> t) = (total f t - f o + f o')%Z.
Proof.
  intros Ht. rewrite <- (insert_delete_id t tid o Ht) at 2.
  rewrite <- insert_delete_eq, !total_insert_new by apply lookup_delete_eq. lia.
Qed.

(** One atomic operation changes the maximum upwards only, and its counters
    by what the observer contributes. *)
Lemma advance_effect l o l' o' :
  advance l o = Some (l', o') →
  duration o' = duration o
  ∧ (maxNS l ≤ maxNS l')%Z ∧ (maxNS l' = maxNS l ∨ maxNS l' = duration o)
  ∧ (∀ c, count l = wrap64 c → count l' = wrap64 (c - counted o + counted o'))
  ∧ (∀ c, sumNS l = wrap64 c → sumNS l' = wrap64 (c - summed o + summed o'))
  ∧ match at_pc o' with
    | PDone => match at_pc o with PTest c => (c ≤ maxNS l → duration o ≤ maxNS l')%Z | _ => False end
    | PTest c => (c ≤ maxNS l')%Z
    | _ => True
    end.
Proof.
  destruct o as [d p], l as [n sm mx]. unfold advance, counted, summed.
  intros H. destruct p as [| | |c|]; simplify_eq/=.
  all: try (destruct (Z.ltb_spec c d), (Z.eqb_spec mx c)); simplify_eq/=.
  all: split_and!; try lia; intros ? ->; rewrite ?wrap64_add_l; f_equal; lia.
Qed.

Lemma inv_initial : inv initial.
Proof. constructor; simpl; try done; try lia; by left. Qed.

Lemma inv_step s s' : step s s' → inv s → inv s'.
Proof.
  intros Hst [Ho Hb Hn Hc Hs]. destruct Hst as [s tid d Hnew|s tid o l' o' Ht Ha].
  - constructor; simpl; [| |done|..].
    + destruct Ho as [?|(tid' & o & Hl & ?)]; [by left|right].
      exists tid', o. rewrite lookup_insert_ne; naive_solver.
    + intros tid' o. destruct (decide (tid = tid')) as [<-|]; intros; simplify_map_eq; [done|by eapply Hb].
    + by rewrite total_insert_new, Hc.
    + by rewrite total_insert_new, Hs.
  - destruct (advance_effect _ _ _ _ Ha) as (Hd & Hle & Hmax & Hcnt & Hsum & Hpc).
    constructor; simpl.
    + destruct Hmax as [Hmax|Hmax]; rewrite Hmax.
      * destruct Ho as [?|(tid' & o0 & Hl & ?)]; [by left|right].
        destruct (decide (tid = tid')) as [<-|].
        -- exists tid, o'. rewrite lookup_insert_eq. split; [done|congruence].
        -- exists tid', o0. by rewrite lookup_insert_ne.
      * right. exists tid, o'. rewrite lookup_insert_eq. eauto.
    + intros tid' o1. destruct (decide (tid = tid')) as [<-|]; intros Hl; simplify_map_eq.
      * specialize (Hb _ _ Ht). destruct (at_pc o1); [done..|].
        destruct (at_pc o); try done. rewrite Hd. auto.
      * specialize (Hb _ _ Hl). destruct (at_pc o1); try done; lia.
    + lia.
    + rewrite (total_insert _ _ _ o) by done. auto.
    + rewrite (total_insert _ _ _ o) by done. auto.
Qed.

Lemma inv_reachable s : rtc step initial s → inv s.
Proof.
  intros H. assert (inv initial → inv s) as Hi; [|auto using inv_initial].
  induction H; eauto using inv_step.
Qed.

(** An observer left to run alone is done after at most four operations. *)
Fixpoint run_alone (fuel : nat) (l : ProcessingLatency) (o : observer)
    : ProcessingLatency * observer :=
  match fuel with
  | O => (l, o)
  | S fuel =>
      match advance l o with
      | Some (l', o') => run_alone fuel l' o'
      | None => (l, o)
      end
  end.

Lemma total_pointwise f g t :
  (∀ tid o, t !! tid = Some o → f o = g o) → total f t = total g t.
Proof.
  induction t as [|tid o t Hnew IH] using map_ind; intros Heq; [done|].
  rewrite !total_insert_new by done. rewrite (Heq tid o) by apply lookup_insert_eq.
  rewrite IH; [done|]. intros tid' o' Hl. apply (Heq tid').
  rewrite lookup_insert_ne; naive_solver.
Qed.

(** C34: in every interleaving of any number of concurrent calls of
    ObserveEventProcessingDuration, whenever all calls made so far have
    returned, the count is their number, the sum is the sum of their
    durations (both modulo the 64-bit width), and the maximum is an upper
    bound of the durations that is one of them or the initial 0: no update is
    lost by the compare-and-swap loop. *)
Theorem observe_quiescent s :
  rtc step initial s →
  (∀ tid o, threads s !! tid = Some o → finished o = true) →
  count (latency s) = wrap64 (total (λ _, 1%Z) (threads s))
  ∧ sumNS (latency s) = wrap64 (total duration (threads s))
  ∧ (∀ tid o, threads s !! tid = Some o → (duration o ≤ maxNS (latency s))%Z)
  ∧ (maxNS (latency s) = 0%Z ∨
     ∃ tid o, threads s !! tid = Some o ∧ duration o = maxNS (latency s)).
Proof.
  intros [Ho Hb _ Hc Hs]%inv_reachable Hfin.
  assert (∀ tid o, threads s !! tid = Some o → at_pc o = PDone) as Hdone.
  { intros tid o Hl. specialize (Hfin _ _ Hl). unfold finished in Hfin.
    by destruct (at_pc o). }
  split_and!; [| | |done].
  - rewrite Hc. f_equal. apply total_pointwise. intros ?? Hl. unfold counted. by erewrite Hdone.
  - rewrite Hs. f_equal. apply total_pointwise. intros ?? Hl. unfold summed. by erewrite Hdone.
  - intros tid o Hl. specialize (Hb _ _ Hl). by erewrite Hdone in Hb.
Qed.

#[local] Arguments advance l !o /.

(** The loop terminates without interference: from any point of the
    method an observer that runs alone is done after at most four atomic
    operations, and a whole call then leaves exactly the latency record that
    [observe] computes. *)
Theorem observe_alone_terminates l o :
  finished (run_alone 4 l o).2 = true
  ∧ ∀ m, processingLatency m = l →
     (run_alone 4 l (mkObserver (duration o) PAddCount)).1
     = processingLatency (observe (duration o) m).
Proof.
  destruct l as [n sm mx], o as [d p]. split.
  - destruct p as [| | |c|]; simpl; repeat (simpl; rewrite ?Z.eqb_refl; try case_goal); done.
  - intros [?????????? ? []] ?; simplify_eq/=.
    repeat (simpl; rewrite ?Z.eqb_refl; try case_goal); done.
Qed.

(** Two concurrent observers, 3 and 5: both load the maximum 0, the second
    swaps first, so the swap of the first fails and it reads 5 again. *)
Definition two_observers : list (nat * option Z) :=
  [(0, Some 3%Z); (1, Some 5%Z); (0, None); (0, None); (0, None);
   (1, None); (1, None); (1, None); (1, None); (0, None); (0, None); (0, None)].

(** Run a schedule: [Some d] enters, [None] advances. *)
Fixpoint run_schedule (sched : list (nat * option Z)) (s : state) : option state :=
  match sched with
  | [] => Some s
  | (tid, Some d) :: rest =>
      match threads s !! tid with
      | None => run_schedule rest
          (mkState (latency s) (<[tid := mkObserver d PAddCount]> (threads s)))
      | Some _ => None
      end
  | (tid, None) :: rest =>
      match threads s !! tid with
      | Some o =>
          match advance (latency s) o with
          | Some (l', o') => run_schedule rest (mkState l' (<[tid := o']> (threads s)))
          | None => None
          end
      | None => None
      end
  end.

Lemma run_schedule_sound sched s s' : run_schedule sched s = Some s' → rtc step s s'.
Proof.
  revert s. induction sched as [|[tid [d|]] rest IH]; intros s; simpl.
  - intros [= ->]. apply rtc_refl.
  - destruct (threads s !! tid) eqn:E; [done|]. intros H.
    eapply rtc_l; [by apply step_enter|]. by apply IH.
  - destruct (threads s !! tid) as [o|] eqn:E; [|done].
    destruct (advance (latency s) o) as [[l' o']|] eqn:Ea; [|done].
    intros H. eapply rtc_l; [by eapply step_advance|]. by apply IH.
Qed.

Definition two_observers_end : state :=
  default initial (run_schedule two_observers initial).

Lemma observe_quiescent_witness :
  rtc step initial two_observers_end
  ∧ maxNS (latency two_observers_end) = 5%Z
  ∧ count (latency two_observers_end) = wrap64 (total (λ _, 1%Z) (threads two_observers_end)).
Proof.
  assert (rtc step initial two_observers_end) as Hr.
  { apply (run_schedule_sound two_observers). vm_compute. reflexivity. }
  split; [exact Hr|]. split; [vm_compute; reflexivity|].
  apply (observe_quiescent two_observers_end Hr).
  assert (map_Forall (λ _ o, finished o = true) (threads two_observers_end)) as Hf.
  { apply (bool_decide_unpack _). vm_compute. exact I. }
  exact Hf.
Defined.

End Latency.
