(* ===== verification/Sql.v ===== *)
(** * The fragment of SQL the statements of event_store.go use

    A table is a finite map from its primary key to its row.  [update_where]
    is [UPDATE .. SET .. WHERE ..] ([None]: a value of the SET clause does not
    fit its column and the statement fails without effect), [select_where] is
    [SELECT .. WHERE ..] with the rows in an unspecified order. *)

From stdpp Require Import base gmap strings list.
From Stdlib Require Import ZArith Lia.
From S2P Require Import Prelude GoLib.

(** [TIMESTAMPTZ]: PostgreSQL keeps microseconds; Go's instants are in
    nanoseconds. *)
Definition timestamptz (t : Z) : Z := (t / 1000)%Z.

(** [column <= value], which is not true when the column is NULL. *)
Definition null_le (column : option Z) (value : Z) : bool :=
  match column with Some c => (c <=? value)%Z | None => false end.

Definition is_null {A} (column : option A) : bool :=
  match column with Some _ => false | None => true end.

(** [column = value] on a nullable text column. *)
Definition null_eq (column : option string) (value : string) : bool :=
  match column with Some c => bool_decide (c = value) | None => false end.

Lemma timestamptz_mono a b : (a ≤ b)%Z → (timestamptz a ≤ timestamptz b)%Z.
Proof. unfold timestamptz. intros. apply Z.div_le_mono; lia. Qed.

Section Table.
Context {K R : Type} `{Countable K}.
Implicit Types t : gmap K R.
Implicit Types P : K → R → bool.

Definition select_where P t : list (K * R) :=
  filter (λ kr, P kr.1 kr.2 = true) (map_to_list t).

(** The rows an update changes, and their new values. *)
Definition set_where P (f : R → R) t : gmap K R :=
  map_imap (λ k r, Some (if P k r then f r else r)) t.

Definition rows_matching P t : Z := Z.of_nat (length (select_where P t)).

Definition update_where P (f : R → option R) t : option (Z * gmap K R) :=
  if forallb (λ kr, bool_decide (is_Some (f kr.2))) (select_where P t)
  then Some (rows_matching P t, set_where P (λ r, default r (f r)) t)
  else None.

Lemma elem_of_select_where P t k r :
  (k, r) ∈ select_where P t ↔ t !! k = Some r ∧ P k r = true.
Proof. unfold select_where. rewrite list_elem_of_filter, elem_of_map_to_list. naive_solver. Qed.

Lemma NoDup_select_where P t : NoDup (select_where P t).*1.
Proof.
  unfold select_where. apply (sublist_NoDup _ (map_to_list t).*1).
  - apply NoDup_fst_map_to_list.
  - apply fmap_sublist. apply sublist_filter.
Qed.

Lemma lookup_set_where P f t k :
  set_where P f t !! k = (λ r, if P k r then f r else r) <$> t !! k.
Proof. unfold set_where. rewrite map_lookup_imap. by destruct (t !! k). Qed.

Lemma dom_set_where P f t : dom (set_where P f t) = dom t.
Proof.
  apply set_eq. intros k. rewrite !elem_of_dom, lookup_set_where, fmap_is_Some. done.
Qed.

Lemma set_where_none P f t : (∀ k r, t !! k = Some r → P k r = false) → set_where P f t = t.
Proof.
  intros HP. apply map_eq. intros k. rewrite lookup_set_where.
  destruct (t !! k) as [r|] eqn:E; [|done]. simpl. by rewrite HP.
Qed.

Lemma rows_matching_0 P t :
  rows_matching P t = 0%Z ↔ ∀ k r, t !! k = Some r → P k r = false.
Proof.
  unfold rows_matching. split.
  - intros Hz k r Hk. apply not_true_iff_false. intros HP.
    assert ((k, r) ∈ select_where P t) as Hin by by apply elem_of_select_where.
    destruct (select_where P t); [by apply not_elem_of_nil in Hin|simpl in Hz; lia].
  - intros HP. destruct (select_where P t) as [|[k r] l] eqn:E; [done|].
    assert ((k, r) ∈ select_where P t) as [Hk Ht]%elem_of_select_where by (rewrite E; left).
    by rewrite (HP k r) in Ht.
Qed.

Lemma rows_matching_nonneg P t : (0 ≤ rows_matching P t)%Z.
Proof. unfold rows_matching. lia. Qed.

(** A condition that pins the primary key matches at most one row. *)
Lemma rows_matching_key P t k0 :
  (∀ k r, P k r = true → k = k0) →
  rows_matching P t =
    match t !! k0 with Some r => if P k0 r then 1 else 0 | None => 0 end%Z.
Proof.
  intros Hk0.
  assert (rows_matching P t = 0 ∨ rows_matching P t = 1)%Z as Hle.
  { unfold rows_matching. pose proof (NoDup_select_where P t) as Hnd.
    assert (∀ kr, kr ∈ select_where P t → kr.1 = k0) as Hall.
    { intros [k r] [_ ?]%elem_of_select_where. eauto. }
    destruct (select_where P t) as [|[k1 r1] [|[k2 r2] l]]; simpl; [lia..|].
    exfalso. pose proof (Hall (k1, r1) ltac:(left)). pose proof (Hall (k2, r2) ltac:(right; left)).
    simpl in *. subst. apply NoDup_cons in Hnd as [Hnd _]. apply Hnd. left. }
  destruct (decide (rows_matching P t = 0)%Z) as [Hz|Hz].
  - rewrite Hz. pose proof (proj1 (rows_matching_0 P t) Hz) as HP.
    destruct (t !! k0) as [r|] eqn:E; [|done]. by rewrite (HP k0 r).
  - destruct Hle as [?|H1]; [done|]. rewrite H1.
    destruct (t !! k0) as [r|] eqn:E.
    + destruct (P k0 r) eqn:EP; [done|]. destruct Hz. apply rows_matching_0.
      intros k r' Hk. apply not_true_iff_false. intros HP.
      assert (k = k0) as -> by eauto. congruence.
    + destruct Hz. apply rows_matching_0. intros k r' Hk.
      apply not_true_iff_false. intros HP.
      assert (k = k0) as -> by eauto. congruence.
Qed.

Lemma update_where_total P f t :
  update_where P (λ r, Some (f r)) t = Some (rows_matching P t, set_where P f t).
Proof.
  unfold update_where. replace (forallb _ _) with true; [done|].
  symmetry. apply forallb_forall. intros [k r] _. by apply bool_decide_eq_true.
Qed.

Lemma update_where_some P f t n t' :
  update_where P f t = Some (n, t') →
  n = rows_matching P t ∧ t' = set_where P (λ r, default r (f r)) t
  ∧ ∀ k r, t !! k = Some r → P k r = true → is_Some (f r).
Proof.
  unfold update_where. intros Hu. case_match eqn:E; simplify_eq. split_and!; [done..|].
  intros k r Hk HP. rewrite forallb_forall in E.
  specialize (E (k, r)). rewrite bool_decide_eq_true in E. apply E.
  apply list_elem_of_In. by apply elem_of_select_where.
Qed.

Lemma update_where_none P f t :
  (∀ k r, t !! k = Some r → P k r = false) → update_where P f t = Some (0%Z, t).
Proof.
  intros HP. unfold update_where. rewrite (proj2 (rows_matching_0 _ _) HP), set_where_none by done.
  apply (proj2 (rows_matching_0 _ _)) in HP. unfold rows_matching in HP.
  by destruct (select_where P t).
Qed.

Lemma set_where_key P f t k0 r0 :
  (∀ k r, P k r = true → k = k0) → t !! k0 = Some r0 → P k0 r0 = true →
  set_where P f t = <[k0 := f r0]> t.
Proof.
  intros Hkey Hr HP. apply map_eq. intros k. rewrite lookup_set_where.
  destruct (decide (k = k0)) as [->|Hne].
  - rewrite lookup_insert_eq, Hr. simpl. by rewrite HP.
  - rewrite lookup_insert_ne by done. destruct (t !! k) as [s|]; [|done]. simpl.
    destruct (P k s) eqn:Es; [by apply Hkey in Es|done].
Qed.

(** An update whose condition pins the primary key. *)
Lemma update_where_key P f t k0 :
  (∀ k r, P k r = true → k = k0) →
  update_where P f t =
    match t !! k0 with
    | Some r => if P k0 r then (λ r', (1%Z, <[k0 := r']> t)) <$> f r else Some (0%Z, t)
    | None => Some (0%Z, t)
    end.
Proof.
  intros Hkey. destruct (t !! k0) as [r0|] eqn:Er; last first.
  { apply update_where_none. intros k r Hk. apply not_true_iff_false. intros ?%Hkey. congruence. }
  destruct (P k0 r0) eqn:EP; last first.
  { apply update_where_none. intros k r Hk. apply not_true_iff_false. intros HP.
    pose proof (Hkey _ _ HP). congruence. }
  unfold update_where. destruct (f r0) as [r'|] eqn:Ef; simpl.
  - replace (forallb _ _) with true.
    + rewrite (rows_matching_key P t k0 Hkey), Er, EP, (set_where_key P _ t k0 r0), Ef by done. done.
    + symmetry. apply forallb_forall. intros [k r] Hin.
      apply list_elem_of_In, elem_of_select_where in Hin as [Hk HP]. pose proof (Hkey _ _ HP).
      simplify_eq. simpl. rewrite Ef. by apply bool_decide_eq_true.
  - replace (forallb _ _) with false; [done|]. symmetry. apply not_true_iff_false.
    rewrite forallb_forall. intros Hall. specialize (Hall (k0, r0)). simpl in Hall.
    rewrite Ef, bool_decide_eq_true in Hall. destruct Hall as [? ?]; [|done].
    apply list_elem_of_In. by apply elem_of_select_where.
Qed.

End Table.

#[export] Hint Rewrite @lookup_set_where @update_where_total @dom_set_where : webhook.
