(* ===== verification/Database.v ===== *)
(** * The PostgreSQL schema and every SQL statement of the program

    The tables of migrations/ (all five versions applied) and, for each
    statement event_store.go, dlq_backoff_store.go and operational_metrics.go
    send, the function from the tables to its answer and the new tables.
    A statement answers [None] when the server rejects it (a constraint, a
    value out of the range of its column, a negative LIMIT).  What SQL leaves
    open is an argument: the rows other transactions hold locked
    ([SKIP LOCKED]), the order of RETURNING rows and of ties ([order]), the
    rank of a text under the collation. *)

From stdpp Require Import base gmap strings list.
From Stdlib Require Import ZArith Lia.
From S2P Require Import Prelude GoLib Models Sql.

(** ** Tables *)

Record EventRow := mkEventRow {
  e_type : string;
  e_payload : string;
  e_status : string;
  e_error : string;
  e_attempts : Z;
  e_created_at : Z;
  e_updated_at : Z;
  e_processing_started_at : option Z;
  e_request_id : string;
}.

Record OutboxRow := mkOutboxRow {
  o_event_id : string;
  o_event_type : string;
  o_payload : string;
  o_attempts : Z;
  o_last_error : string;
  o_created_at : Z;
  o_published_at : option Z;
  o_dispatch_token : option string;
  o_dispatching_at : option Z;
  o_request_id : string;
}.

Record DeadLetterRow := mkDeadLetterRow {
  d_event_type : string;
  d_payload : string;
  d_error : string;
  d_attempts : Z;
  d_failed_at : Z;
  d_replayed_at : option Z;
  d_request_id : string;
  d_replay_attempts : Z;
  d_next_retry_at : option Z;
  d_last_retry_error : string;
}.

(** [outbox_seq] is the next value of the BIGSERIAL sequence. *)
Record Database := mkDatabase {
  events : gmap string EventRow;
  outbox : gmap Z OutboxRow;
  dead_letters : gmap string DeadLetterRow;
  outbox_seq : Z;
}.

Definition empty_database : Database := mkDatabase ∅ ∅ ∅ 1.

Definition EventStatusQueued : string := "queued".
Definition EventStatusProcessing : string := "processing".
Definition EventStatusProcessed : string := "processed".
Definition EventStatusFailed : string := "failed".

(** ** Statements *)

Definition Stmt (A : Type) : Type := Database → option A * Database.

Definition set_events (t : gmap string EventRow) (db : Database) : Database :=
  mkDatabase t (outbox db) (dead_letters db) (outbox_seq db).
Definition set_outbox (t : gmap Z OutboxRow) (db : Database) : Database :=
  mkDatabase (events db) t (dead_letters db) (outbox_seq db).
Definition set_dead_letters (t : gmap string DeadLetterRow) (db : Database) : Database :=
  mkDatabase (events db) (outbox db) t (outbox_seq db).

(** [UPDATE events / outbox / dead_letters]; the answer is the number of rows. *)
Definition update_events P f : Stmt Z := λ db,
  match update_where P f (events db) with
  | Some (n, t) => (Some n, set_events t db)
  | None => (None, db)
  end.
Definition update_outbox P f : Stmt Z := λ db,
  match update_where P f (outbox db) with
  | Some (n, t) => (Some n, set_outbox t db)
  | None => (None, db)
  end.
Definition update_dead_letters P f : Stmt Z := λ db,
  match update_where P f (dead_letters db) with
  | Some (n, t) => (Some n, set_dead_letters t db)
  | None => (None, db)
  end.

(** *** SaveQueuedWithOutbox *)

(** [INSERT INTO events ... ON CONFLICT(id) DO NOTHING]. *)
Definition sql_insert_event (id type request_id payload : string) (now : Z) : Stmt Z := λ db,
  match events db !! id with
  | Some _ => (Some 0%Z, db)
  | None =>
      let row := {| e_type := type; e_payload := payload; e_status := EventStatusQueued;
                    e_error := ""; e_attempts := 0;
                    e_created_at := timestamptz now; e_updated_at := timestamptz now;
                    e_processing_started_at := None; e_request_id := request_id |} in
      (Some 1%Z, set_events (<[id := row]> (events db)) db)
  end.

(** The rows of one event: the target of the UNIQUE constraint. *)
Definition outbox_of (event_id : string) (db : Database) : list (Z * OutboxRow) :=
  select_where (λ _ r, bool_decide (o_event_id r = event_id)) (outbox db).

(** [INSERT INTO outbox (event_id, event_type, request_id, payload, attempts,
    created_at)]: the sequence advances even when a constraint rejects the row. *)
Definition sql_insert_outbox (event_id event_type request_id payload : string) (now : Z)
    : Stmt Z := λ db,
  let id := outbox_seq db in
  let db1 := mkDatabase (events db) (outbox db) (dead_letters db) (id + 1) in
  match outbox_of event_id db, events db !! event_id with
  | [], Some _ =>
      let row := {| o_event_id := event_id; o_event_type := event_type;
                    o_payload := payload; o_attempts := 0; o_last_error := "";
                    o_created_at := timestamptz now; o_published_at := None;
                    o_dispatch_token := None; o_dispatching_at := None;
                    o_request_id := request_id |} in
      (Some 1%Z, set_outbox (<[id := row]> (outbox db)) db1)
  | _, _ => (None, db1)
  end.

(** *** The outbox *)

(** [published_at IS NULL AND (dispatching_at IS NULL OR dispatching_at <= ?)]. *)
Definition claimable (expiredBefore : Z) (r : OutboxRow) : bool :=
  is_null (o_published_at r) &&
  (is_null (o_dispatching_at r) || null_le (o_dispatching_at r) expiredBefore).

(** The candidates of the claim: the first [limit] rows by id that are
    claimable and that no other transaction has locked. *)
Definition outbox_candidates (expiredBefore limit : Z) (locked : Z → bool) (db : Database)
    : list (Z * OutboxRow) :=
  take (Z.to_nat limit)
    (sort_on (λ ir, (ir.1, 0%Z))
       (select_where (λ id r, claimable expiredBefore r && negb (locked id)) (outbox db))).

Definition claim_row (token : string) (now : Z) (r : OutboxRow) : OutboxRow :=
  mkOutboxRow (o_event_id r) (o_event_type r) (o_payload r) (o_attempts r) (o_last_error r)
    (o_created_at r) (o_published_at r) (Some token) (Some now) (o_request_id r).

Definition sql_claim_outbox (expiredBefore limit : Z) (token : string) (now : Z)
    (locked : Z → bool) (order : nat → Z) : Stmt (list (Z * OutboxRow)) := λ db,
  if (limit <? 0)%Z then (None, db)
  else
    let ids := (outbox_candidates (timestamptz expiredBefore) limit locked db).*1 in
    let chosen := λ id (r : OutboxRow), bool_decide (id ∈ ids) in
    let t := set_where chosen (claim_row token (timestamptz now)) (outbox db) in
    (Some (shuffle order (select_where chosen t)), set_outbox t db).

Definition sql_list_pending_outbox (limit : Z) : Stmt (list (Z * OutboxRow)) := λ db,
  if (limit <? 0)%Z then (None, db)
  else (Some (take (Z.to_nat limit)
          (sort_on (λ ir, (ir.1, 0%Z))
             (select_where (λ _ r, is_null (o_published_at r)) (outbox db)))), db).

(** [id = ? AND published_at IS NULL AND dispatch_token = ?]. *)
Definition reserved (id : Z) (token : string) (id' : Z) (r : OutboxRow) : bool :=
  (id' =? id)%Z && is_null (o_published_at r) && null_eq (o_dispatch_token r) token.

Definition published_row (now : Z) (r : OutboxRow) : OutboxRow :=
  mkOutboxRow (o_event_id r) (o_event_type r) (o_payload r) (o_attempts r) ""
    (o_created_at r) (Some now) None None (o_request_id r).

Definition sql_mark_outbox_published (now : Z) (id : Z) (token : string) : Stmt Z :=
  update_outbox (reserved id token) (λ r, Some (published_row (timestamptz now) r)).

(** [attempts = attempts + 1] fails when the INTEGER column overflows. *)
Definition publish_failed_row (error : string) (r : OutboxRow) : option OutboxRow :=
  if in_int4 (o_attempts r + 1) then
    Some (mkOutboxRow (o_event_id r) (o_event_type r) (o_payload r) (o_attempts r + 1) error
            (o_created_at r) (o_published_at r) None None (o_request_id r))
  else None.

Definition sql_mark_outbox_failed (error : string) (id : Z) (token : string) : Stmt Z :=
  update_outbox (reserved id token) (publish_failed_row error).

(** *** Processing *)

(** [id = ? AND (status = 'queued' OR (status = 'processing' AND
    processing_started_at <= ?))]. *)
Definition processable (eventID : string) (leaseExpiredBefore : Z)
    (id : string) (r : EventRow) : bool :=
  bool_decide (id = eventID) &&
  (bool_decide (e_status r = EventStatusQueued)
   || (bool_decide (e_status r = EventStatusProcessing)
       && null_le (e_processing_started_at r) leaseExpiredBefore)).

Definition processing_row (now : Z) (r : EventRow) : EventRow :=
  mkEventRow (e_type r) (e_payload r) EventStatusProcessing (e_error r) (e_attempts r)
    (e_created_at r) now (Some now) (e_request_id r).

Definition sql_claim_processing (now : Z) (eventID : string) (leaseExpiredBefore : Z) : Stmt Z :=
  update_events (processable eventID (timestamptz leaseExpiredBefore))
    (λ r, Some (processing_row (timestamptz now) r)).

Definition sql_select_status (eventID : string) : Stmt (option string) := λ db,
  (Some (e_status <$> events db !! eventID), db).

Definition final_row (status error : string) (attempts now : Z) (r : EventRow) : EventRow :=
  mkEventRow (e_type r) (e_payload r) status error attempts
    (e_created_at r) now None (e_request_id r).

(** A terminal state; [attempts] must fit the INTEGER column. *)
Definition sql_mark_final (status error : string) (attempts now : Z) (eventID : string)
    : Stmt Z := λ db,
  if in_int4 attempts then
    update_events (λ id _, bool_decide (id = eventID))
      (λ r, Some (final_row status error attempts (timestamptz now) r)) db
  else (None, db).

Definition sql_mark_processed (attempts now : Z) (eventID : string) : Stmt Z :=
  sql_mark_final EventStatusProcessed "" attempts now eventID.
Definition sql_mark_failed (error : string) (attempts now : Z) (eventID : string) : Stmt Z :=
  sql_mark_final EventStatusFailed error attempts now eventID.

Definition sql_list_events (limit : Z) (order : nat → Z)
    : Stmt (list (string * EventRow)) := λ db,
  if (limit <? 0)%Z then (None, db)
  else (Some (take (Z.to_nat limit)
          (sort_on (λ ir, (- e_created_at ir.2, 0)%Z)
             (shuffle order (map_to_list (events db))))), db).

(** *** Dead letters *)

(** [INSERT INTO dead_letters ... ON CONFLICT(event_id) DO UPDATE]: the first
    clock reading is the failure time, the second the retry time of a new row;
    an existing row takes the server's clock, and keeps its type, payload,
    request id and replay count. *)
Definition sql_save_dead_letter (event_id event_type request_id payload error : string)
    (attempts now1 now2 dbnow : Z) : Stmt Z := λ db,
  if in_int4 attempts then
    let row :=
      match dead_letters db !! event_id with
      | None => {| d_event_type := event_type; d_payload := payload; d_error := error;
                   d_attempts := attempts; d_failed_at := timestamptz now1;
                   d_replayed_at := None; d_request_id := request_id;
                   d_replay_attempts := 0; d_next_retry_at := Some (timestamptz now2);
                   d_last_retry_error := error |}
      | Some r => {| d_event_type := d_event_type r; d_payload := d_payload r; d_error := error;
                     d_attempts := attempts; d_failed_at := timestamptz now1;
                     d_replayed_at := None; d_request_id := d_request_id r;
                     d_replay_attempts := d_replay_attempts r;
                     d_next_retry_at := Some dbnow; d_last_retry_error := error |}
      end in
    (Some 1%Z, set_dead_letters (<[event_id := row]> (dead_letters db)) db)
  else (None, db).

(** The join of ReplayDeadLetter: status, type, request id and payload. *)
Definition sql_select_replay (eventID : string)
    : Stmt (option (string * string * string * string)) := λ db,
  (Some (match events db !! eventID, dead_letters db !! eventID with
         | Some e, Some _ => Some (e_status e, e_type e, e_request_id e, e_payload e)
         | _, _ => None
         end), db).

Definition requeued_row (now : Z) (r : EventRow) : EventRow :=
  mkEventRow (e_type r) (e_payload r) EventStatusQueued "" 0
    (e_created_at r) now None (e_request_id r).

Definition sql_reset_event (now : Z) (eventID : string) : Stmt Z :=
  update_events
    (λ id r, bool_decide (id = eventID) && bool_decide (e_status r = EventStatusFailed))
    (λ r, Some (requeued_row (timestamptz now) r)).

Definition reopened_row (r : OutboxRow) : OutboxRow :=
  mkOutboxRow (o_event_id r) (o_event_type r) (o_payload r) 0 ""
    (o_created_at r) None (o_dispatch_token r) (o_dispatching_at r) (o_request_id r).

Definition sql_reopen_outbox (eventID : string) : Stmt Z :=
  update_outbox (λ _ r, bool_decide (o_event_id r = eventID)) (λ r, Some (reopened_row r)).

Definition replayed_row (now : Z) (r : DeadLetterRow) : DeadLetterRow :=
  mkDeadLetterRow (d_event_type r) (d_payload r) (d_error r) (d_attempts r) (d_failed_at r)
    (Some now) (d_request_id r) (d_replay_attempts r) (d_next_retry_at r) (d_last_retry_error r).

Definition sql_mark_replayed (now : Z) (eventID : string) : Stmt Z :=
  update_dead_letters (λ id _, bool_decide (id = eventID))
    (λ r, Some (replayed_row (timestamptz now) r)).

(** [replayed_at IS NULL AND next_retry_at IS NOT NULL AND next_retry_at <= ?
    AND replay_attempts < ?]. *)
Definition retryable (now maxAttempts : Z) (r : DeadLetterRow) : bool :=
  is_null (d_replayed_at r) && null_le (d_next_retry_at r) now
  && (d_replay_attempts r <? maxAttempts)%Z.

Definition retried_row (r : DeadLetterRow) : DeadLetterRow :=
  mkDeadLetterRow (d_event_type r) (d_payload r) (d_error r) (d_attempts r) (d_failed_at r)
    (d_replayed_at r) (d_request_id r) (d_replay_attempts r + 1) None (d_last_retry_error r).

(** [ORDER BY next_retry_at ASC, event_id ASC ... LIMIT ?]. *)
Definition retry_candidates (now maxAttempts limit : Z) (locked : string → bool)
    (collate : string → Z) (order : nat → Z) (db : Database) : list (string * DeadLetterRow) :=
  take (Z.to_nat limit)
    (sort_on (λ ir, (default 0%Z (d_next_retry_at ir.2), collate ir.1))
       (shuffle order
          (select_where (λ id r, retryable now maxAttempts r && negb (locked id))
                        (dead_letters db)))).

Definition sql_claim_dead_letters (now maxAttempts limit : Z) (locked : string → bool)
    (collate : string → Z) (order order' : nat → Z) : Stmt (list (string * DeadLetterRow)) := λ db,
  if (limit <? 0)%Z || negb (in_int4 maxAttempts) then (None, db)
  else
    let ids := (retry_candidates (timestamptz now) maxAttempts limit locked collate order db).*1 in
    let chosen := λ id (r : DeadLetterRow), bool_decide (id ∈ ids) in
    let t := set_where chosen retried_row (dead_letters db) in
    (Some (shuffle order' (select_where chosen t)), set_dead_letters t db).

Definition rescheduled_row (next : Z) (error : string) (r : DeadLetterRow) : DeadLetterRow :=
  mkDeadLetterRow (d_event_type r) (d_payload r) (d_error r) (d_attempts r) (d_failed_at r)
    (d_replayed_at r) (d_request_id r) (d_replay_attempts r) (Some next) error.

Definition sql_reschedule (next : Z) (error eventID : string) : Stmt Z :=
  update_dead_letters
    (λ id r, bool_decide (id = eventID) && is_null (d_replayed_at r))
    (λ r, Some (rescheduled_row (timestamptz next) error r)).

Definition sql_list_dead_letters (limit : Z) (order : nat → Z)
    : Stmt (list (string * DeadLetterRow)) := λ db,
  if (limit <? 0)%Z then (None, db)
  else (Some (take (Z.to_nat limit)
          (sort_on (λ ir, (- d_failed_at ir.2, 0)%Z)
             (shuffle order (map_to_list (dead_letters db))))), db).

(** The two counts of operational_metrics.go. *)
Definition sql_operational_metrics : Stmt (Z * Z) := λ db,
  (Some (rows_matching (λ _ r, is_null (o_published_at r)) (outbox db),
         rows_matching (λ _ r, is_null (d_replayed_at r)) (dead_letters db)), db).
