(* ===== verification/DbInvariant.v ===== *)
(** * Well-formed tables

    The invariant of the database: the constraints of the schema (the foreign
    key and the unique event of an outbox row, fresh sequence values, column
    ranges), and what the program maintains on top of them (the four statuses,
    a processing start exactly while processing, a dispatch token exactly while
    dispatching, an outbox row that carries the content of its event).  Every
    statement preserves it. *)

From stdpp Require Import base gmap strings list.
From Stdlib Require Import ZArith Lia.
From S2P Require Import Prelude GoLib Models Sql Database.

(** The content an outbox row copies from its event. *)
Definition e_content (e : EventRow) : string * string * string :=
  (e_type e, e_request_id e, e_payload e).
Definition o_content (r : OutboxRow) : string * string * string :=
  (o_event_type r, o_request_id r, o_payload r).

Record event_row_ok (e : EventRow) : Prop := {
  ok_status : e_status e ∈ [EventStatusQueued; EventStatusProcessing;
                            EventStatusProcessed; EventStatusFailed];
  ok_started : is_Some (e_processing_started_at e) ↔ e_status e = EventStatusProcessing;
  ok_e_attempts : in_int4 (e_attempts e) = true;
}.

Record outbox_row_ok (r : OutboxRow) : Prop := {
  ok_token : is_Some (o_dispatch_token r) ↔ is_Some (o_dispatching_at r);
  ok_published : is_Some (o_published_at r) → o_dispatch_token r = None;
  ok_o_attempts : (0 ≤ o_attempts r ≤ int4_max)%Z;
}.

Record dead_letter_row_ok (d : DeadLetterRow) : Prop := {
  ok_replay_attempts : (0 ≤ d_replay_attempts d ≤ int4_max)%Z;
  ok_d_attempts : in_int4 (d_attempts d) = true;
}.

Record db_wf (db : Database) : Prop := {
  wf_events : map_Forall (λ _ e, event_row_ok e) (events db);
  wf_outbox : map_Forall (λ _ r, outbox_row_ok r) (outbox db);
  wf_dead : map_Forall (λ _ d, dead_letter_row_ok d) (dead_letters db);
  wf_seq : (1 ≤ outbox_seq db)%Z;
  wf_ids : map_Forall (λ id _, 1 ≤ id < outbox_seq db)%Z (outbox db);
  wf_unique : ∀ i j r s, outbox db !! i = Some r → outbox db !! j = Some s →
    o_event_id r = o_event_id s → i = j;
  wf_mirror : ∀ i r, outbox db !! i = Some r →
    ∃ e, events db !! o_event_id r = Some e ∧ e_content e = o_content r;
}.

(** Every event has its outbox row: the publication intent. *)
Definition outbox_complete (db : Database) : Prop :=
  ∀ id, is_Some (events db !! id) → ∃ i r, outbox db !! i = Some r ∧ o_event_id r = id.

Lemma empty_database_wf : db_wf empty_database ∧ outbox_complete empty_database.
Proof.
  split; [|by intros ? []]. constructor; simpl;
    first [lia | apply map_Forall_empty | intros *; rewrite lookup_empty; done].
Qed.

(** ** Row invariants survive the updates *)

Create HintDb rows discriminated.

Ltac solve_status := apply (bool_decide_unpack _); vm_compute; exact I.

Lemma processing_row_ok now e : event_row_ok e → event_row_ok (processing_row now e).
Proof. intros []. constructor; simpl; [solve_status|naive_solver|done]. Qed.

Lemma requeued_row_ok now e : event_row_ok e → event_row_ok (requeued_row now e).
Proof.
  intros []. constructor; simpl; [solve_status| |done].
  split; [by intros []|discriminate].
Qed.

Lemma final_row_ok status error attempts now e :
  status = EventStatusProcessed ∨ status = EventStatusFailed → in_int4 attempts = true →
  event_row_ok (final_row status error attempts now e).
Proof.
  intros Hs Ha. constructor; simpl; [| |done].
  - destruct Hs as [->| ->]; solve_status.
  - split; [by intros []|]. destruct Hs as [->| ->]; discriminate.
Qed.

Lemma claim_row_ok token now r :
  o_published_at r = None → outbox_row_ok r → outbox_row_ok (claim_row token now r).
Proof. intros Hp []. constructor; simpl; [by split; eauto|rewrite Hp; by intros []|done]. Qed.

Lemma published_row_ok now r : outbox_row_ok r → outbox_row_ok (published_row now r).
Proof. intros []. constructor; simpl; [split; by intros []|done|done]. Qed.

Lemma publish_failed_row_ok error r r' :
  publish_failed_row error r = Some r' → outbox_row_ok r → outbox_row_ok r'.
Proof.
  unfold publish_failed_row, in_int4. intros H []. case_match eqn:E; simplify_eq/=.
  rewrite andb_true_iff, !Z.leb_le in E. unfold int4_max in *.
  constructor; simpl; [split; by intros []|done|unfold int4_max; lia].
Qed.

Lemma reopened_row_ok r : outbox_row_ok r → outbox_row_ok (reopened_row r).
Proof. intros []. constructor; simpl; [done|by intros []|unfold int4_max; lia]. Qed.

Lemma retried_row_ok now m d :
  retryable now m d = true → in_int4 m = true →
  dead_letter_row_ok d → dead_letter_row_ok (retried_row d).
Proof.
  unfold retryable, in_int4. rewrite !andb_true_iff, Z.ltb_lt, !Z.leb_le.
  intros [_ ?] [_ ?] []. constructor; simpl; [lia|done].
Qed.

(** ** Generic preservation *)

Lemma update_events_wf P f db :
  (∀ k r r', P k r = true → f r = Some r' → event_row_ok r →
             event_row_ok r' ∧ e_content r' = e_content r) →
  db_wf db → db_wf (update_events P f db).2.
Proof.
  intros Hf Hwf. unfold update_events.
  destruct (update_where P f (events db)) as [[n t]|] eqn:E; [|done].
  apply update_where_some in E as (_ & -> & Hdef). destruct Hwf. constructor; simpl; try done.
  - intros k e. rewrite lookup_set_where. destruct (events db !! k) as [r|] eqn:Ek; [|done].
    intros [= <-]. destruct (P k r) eqn:EP; [|by eapply wf_events0].
    destruct (Hdef _ _ Ek EP) as [r' Hr']. rewrite Hr'. simpl.
    eapply Hf; [done..|by eapply wf_events0].
  - intros i o Ho. destruct (wf_mirror0 _ _ Ho) as (e & He & Hc).
    rewrite lookup_set_where, He. simpl. eexists. split; [done|].
    destruct (P (o_event_id o) e) eqn:EP; [|done].
    destruct (Hdef _ _ He EP) as [r' Hr']. rewrite Hr'. simpl. rewrite <- Hc.
    eapply Hf; [done..|by eapply wf_events0].
Qed.

(** A table transformation that keeps the keys, the events and the content of
    the outbox rows, and the row invariant. *)
Lemma set_outbox_where_wf P f db :
  (∀ k r, P k r = true → outbox db !! k = Some r → outbox_row_ok r →
          outbox_row_ok (f r) ∧ o_event_id (f r) = o_event_id r ∧ o_content (f r) = o_content r) →
  db_wf db → db_wf (set_outbox (set_where P f (outbox db)) db).
Proof.
  intros Hf Hwf. destruct Hwf.
  assert (∀ k r', set_where P f (outbox db) !! k = Some r' →
    ∃ r, outbox db !! k = Some r ∧ outbox_row_ok r' ∧ o_event_id r' = o_event_id r
         ∧ o_content r' = o_content r) as Hrow.
  { intros k r'. rewrite lookup_set_where. destruct (outbox db !! k) as [r|] eqn:Ek; [|done].
    intros [= <-]. exists r. split; [done|].
    pose proof (wf_outbox0 _ _ Ek). destruct (P k r) eqn:EP; [|done]. by apply (Hf k). }
  constructor; simpl; try done.
  - intros k r' (r & ? & ? & _)%Hrow. done.
  - intros k r' (r & Hk & _)%Hrow. by eapply wf_ids0.
  - intros i j r s (r0 & Hi & _ & Hr & _)%Hrow (s0 & Hj & _ & Hs & _)%Hrow Heq.
    eapply wf_unique0; [done..|congruence].
  - intros k r' (r & Hk & _ & -> & ->)%Hrow. by eapply wf_mirror0.
Qed.

Lemma update_outbox_wf P f db :
  (∀ k r r', P k r = true → f r = Some r' → outbox_row_ok r →
             outbox_row_ok r' ∧ o_event_id r' = o_event_id r ∧ o_content r' = o_content r) →
  db_wf db → db_wf (update_outbox P f db).2.
Proof.
  intros Hf Hwf. unfold update_outbox.
  destruct (update_where P f (outbox db)) as [[n t]|] eqn:E; [|done].
  apply update_where_some in E as (_ & -> & Hdef). apply set_outbox_where_wf; [|done].
  intros k r HP Hk Hok. destruct (Hdef _ _ Hk HP) as [r' Hr']. rewrite Hr'. by eapply Hf.
Qed.

Lemma set_dead_letters_wf t db :
  map_Forall (λ _ d, dead_letter_row_ok d) t → db_wf db → db_wf (set_dead_letters t db).
Proof. intros Ht []. by constructor. Qed.

Lemma set_dead_letters_where_ok P f db :
  (∀ k d, P k d = true → dead_letters db !! k = Some d →
          dead_letter_row_ok d → dead_letter_row_ok (f d)) →
  db_wf db → map_Forall (λ _ d, dead_letter_row_ok d) (set_where P f (dead_letters db)).
Proof.
  intros Hf [] k d'. rewrite lookup_set_where.
  destruct (dead_letters db !! k) as [d|] eqn:Ek; [|done]. intros [= <-].
  pose proof (wf_dead0 _ _ Ek). destruct (P k d) eqn:EP; [|done]. by apply (Hf k).
Qed.

Lemma update_dead_letters_wf P f db :
  (∀ k d d', P k d = true → f d = Some d' → dead_letter_row_ok d → dead_letter_row_ok d') →
  db_wf db → db_wf (update_dead_letters P f db).2.
Proof.
  intros Hf Hwf. unfold update_dead_letters.
  destruct (update_where P f (dead_letters db)) as [[n t]|] eqn:E; [|done].
  apply update_where_some in E as (_ & -> & Hdef). apply set_dead_letters_wf; [|done].
  apply set_dead_letters_where_ok; [|done]. intros k d HP Hk Hok.
  destruct (Hdef _ _ Hk HP) as [d' Hd']. rewrite Hd'. by eapply Hf.
Qed.

(** ** Statement by statement *)

Lemma sql_insert_event_wf id ty rid p now db :
  db_wf db → db_wf (sql_insert_event id ty rid p now db).2.
Proof.
  unfold sql_insert_event. destruct (events db !! id) as [e|] eqn:E; [done|].
  intros []. constructor; simpl; try done.
  - apply map_Forall_insert_2; [|done]. constructor; simpl; [solve_status| |done].
    split; [by intros []|discriminate].
  - intros i r Hr. destruct (wf_mirror0 _ _ Hr) as (e & He & ?). exists e.
    rewrite lookup_insert_ne; naive_solver.
Qed.

(** The insert of an outbox row with the content of its event. *)
Lemma sql_insert_outbox_wf id ty rid p now db :
  (∀ e, events db !! id = Some e → e_content e = (ty, rid, p)) →
  db_wf db → db_wf (sql_insert_outbox id ty rid p now db).2.
Proof.
  intros Hc Hwf. unfold sql_insert_outbox.
  assert (db_wf (mkDatabase (events db) (outbox db) (dead_letters db) (outbox_seq db + 1))) as Hwf1.
  { destruct Hwf. constructor; simpl; try done; [lia|].
    intros i r Hr. specialize (wf_ids0 _ _ Hr). simpl in *. lia. }
  destruct (outbox_of id db) as [|x l] eqn:Eo; [|done].
  destruct (events db !! id) as [e|] eqn:Ee; [|done].
  assert (∀ i r, outbox db !! i = Some r → o_event_id r ≠ id) as Hnone.
  { intros i r Hr Heq. assert ((i, r) ∈ outbox_of id db) as Hin.
    { apply elem_of_select_where. by rewrite bool_decide_eq_true. }
    rewrite Eo in Hin. by apply not_elem_of_nil in Hin. }
  assert (outbox db !! outbox_seq db = None) as Hfresh.
  { destruct (outbox db !! outbox_seq db) as [r|] eqn:Er; [|done].
    apply (wf_ids _ Hwf) in Er. lia. }
  destruct Hwf1. constructor; simpl in *; try done.
  - apply map_Forall_insert_2; [|done].
    constructor; simpl; [by split; intros []|done|unfold int4_max; lia].
  - apply map_Forall_insert_2; [|done]. pose proof (wf_seq _ Hwf). lia.
  - intros i j r s. rewrite !lookup_insert. repeat case_decide; simplify_eq/=; try done.
    + intros ? ? Heq. simplify_eq/=. by edestruct Hnone.
    + intros ? ? Heq. simplify_eq/=. by edestruct Hnone.
    + by eauto.
  - intros i r. rewrite lookup_insert. case_decide; [|by eauto].
    intros ?; simplify_eq/=. exists e. by rewrite Hc by done.
Qed.

Lemma elem_of_outbox_candidates x y locked db i r :
  (i, r) ∈ outbox_candidates x y locked db →
  outbox db !! i = Some r ∧ claimable x r = true ∧ locked i = false.
Proof.
  unfold outbox_candidates. intros Hin%elem_of_take_sub.
  rewrite elem_of_sort_on, elem_of_select_where in Hin.
  rewrite andb_true_iff, negb_true_iff in Hin. naive_solver.
Qed.

Lemma claimable_unpublished x r : claimable x r = true → o_published_at r = None.
Proof. unfold claimable. by destruct (o_published_at r). Qed.

Lemma candidate_id_row x y locked db i r :
  i ∈ (outbox_candidates x y locked db).*1 → outbox db !! i = Some r →
  claimable x r = true ∧ locked i = false.
Proof.
  intros [[i' r'] [-> Hin]]%list_elem_of_fmap Hr.
  apply elem_of_outbox_candidates in Hin as (Hr' & ? & ?). simpl in *. by simplify_eq.
Qed.

Lemma sql_claim_outbox_wf x y tok now locked order db :
  db_wf db → db_wf (sql_claim_outbox x y tok now locked order db).2.
Proof.
  intros Hwf. unfold sql_claim_outbox. case_match; [done|].
  apply set_outbox_where_wf; [|done]. intros k r HP Hk Hok.
  apply bool_decide_eq_true in HP. split; [|done].
  apply claim_row_ok; [|done]. eapply claimable_unpublished.
  by eapply candidate_id_row.
Qed.

Lemma sql_mark_outbox_published_wf now id tok db :
  db_wf db → db_wf (sql_mark_outbox_published now id tok db).2.
Proof.
  apply update_outbox_wf. intros k r r' _ [= <-] ?. split; [by apply published_row_ok|done].
Qed.

Lemma sql_mark_outbox_failed_wf err id tok db :
  db_wf db → db_wf (sql_mark_outbox_failed err id tok db).2.
Proof.
  apply update_outbox_wf. intros k r r' _ Hf ?. split; [by eapply publish_failed_row_ok|].
  unfold publish_failed_row in Hf. by case_match; simplify_eq.
Qed.

Lemma sql_claim_processing_wf now id lease db :
  db_wf db → db_wf (sql_claim_processing now id lease db).2.
Proof.
  apply update_events_wf. intros k r r' _ [= <-] ?. split; [by apply processing_row_ok|done].
Qed.

Lemma sql_mark_final_wf status err n now id db :
  status = EventStatusProcessed ∨ status = EventStatusFailed →
  db_wf db → db_wf (sql_mark_final status err n now id db).2.
Proof.
  intros Hs Hwf. unfold sql_mark_final. case_match eqn:E; [|done].
  apply update_events_wf; [|done]. intros k r r' _ [= <-] ?. split; [by apply final_row_ok|done].
Qed.

Lemma sql_save_dead_letter_wf id ty rid p err n a b c db :
  db_wf db → db_wf (sql_save_dead_letter id ty rid p err n a b c db).2.
Proof.
  intros Hwf. unfold sql_save_dead_letter. case_match eqn:E; [|done].
  apply set_dead_letters_wf; [|done]. apply map_Forall_insert_2; [|apply Hwf].
  destruct (dead_letters db !! id) as [d|] eqn:Ed; constructor; simpl; try done.
  by apply (wf_dead _ Hwf _ _ Ed).
Qed.

Lemma sql_reset_event_wf now id db : db_wf db → db_wf (sql_reset_event now id db).2.
Proof.
  apply update_events_wf. intros k r r' _ [= <-] ?. split; [by apply requeued_row_ok|done].
Qed.

Lemma sql_reopen_outbox_wf id db : db_wf db → db_wf (sql_reopen_outbox id db).2.
Proof.
  apply update_outbox_wf. intros k r r' _ [= <-] ?. split; [by apply reopened_row_ok|done].
Qed.

Lemma sql_mark_replayed_wf now id db : db_wf db → db_wf (sql_mark_replayed now id db).2.
Proof. apply update_dead_letters_wf. intros k r r' _ [= <-] []. by constructor. Qed.

Lemma retry_candidate_row x m y locked coll order db i d :
  i ∈ (retry_candidates x m y locked coll order db).*1 → dead_letters db !! i = Some d →
  retryable x m d = true ∧ locked i = false.
Proof.
  unfold retry_candidates. intros [[i' d'] [-> Hin]]%list_elem_of_fmap Hd.
  apply elem_of_take_sub in Hin.
  rewrite elem_of_sort_on, elem_of_shuffle, elem_of_select_where in Hin.
  rewrite andb_true_iff, negb_true_iff in Hin. simpl in *. naive_solver.
Qed.

Lemma sql_claim_dead_letters_wf now m y locked coll o1 o2 db :
  db_wf db → db_wf (sql_claim_dead_letters now m y locked coll o1 o2 db).2.
Proof.
  intros Hwf. unfold sql_claim_dead_letters. case_match eqn:E; [done|].
  apply orb_false_iff in E as [_ E]. apply negb_false_iff in E.
  apply set_dead_letters_wf; [|done]. apply set_dead_letters_where_ok; [|done].
  intros k d HP Hk Hok. apply bool_decide_eq_true in HP.
  eapply retried_row_ok; [|done..]. by eapply retry_candidate_row.
Qed.

Lemma sql_reschedule_wf next err id db : db_wf db → db_wf (sql_reschedule next err id db).2.
Proof. apply update_dead_letters_wf. intros k r r' _ [= <-] []. by constructor. Qed.

#[export] Hint Resolve sql_insert_event_wf sql_claim_outbox_wf sql_mark_outbox_published_wf
  sql_mark_outbox_failed_wf sql_claim_processing_wf sql_mark_final_wf sql_save_dead_letter_wf
  sql_reset_event_wf sql_reopen_outbox_wf sql_mark_replayed_wf sql_claim_dead_letters_wf
  sql_reschedule_wf : dbwf.
