(* ===== verification/World.v ===== *)
(** * The state and the environment of the running service

    Every Go function that touches the database, the clock, the broker or the
    metrics is a state transformer [M A := World → A * World].  What the
    environment decides (the clock, the outcome of each database call, row
    locks, random bytes) is the class [Env], an oracle indexed by a counter
    that each interaction advances; theorems quantify over all environments.

    A database call can fail before or after the server has applied it: the
    second case is a connection lost after the statement or the commit took
    effect, which the caller cannot tell from the first. *)

From stdpp Require Import base gmap strings list.
From Stdlib Require Import ZArith Lia Ascii.
From S2P Require Import Prelude GoLib Models Metrics Sql Database.

(** The outcome of one database call. *)
Inductive DbOutcome :=
| DbOk
| DbErr (applied : bool) (e : GoError).

(** [context.Background()] (or [WithoutCancel]) and a context that shutdown
    or the client can cancel. *)
Inductive Ctx := Background | Cancellable.

Class Env := {
  env_clock : nat → Z;                  (* time.Now(), nanoseconds *)
  env_dbclock : nat → Z;                (* CURRENT_TIMESTAMP, microseconds *)
  env_db : nat → option (bool * string); (* failure of a database call: was it
                                            applied, and the driver's message *)
  env_cancelled : nat → bool;           (* ctx.Err() != nil *)
  env_locked_outbox : nat → Z → bool;   (* rows other transactions have locked *)
  env_locked_dead : nat → string → bool;
  env_order : nat → nat → Z;            (* unspecified row order *)
  env_order' : nat → nat → Z;
  env_collate : string → Z;             (* rank of a text under the collation *)
  env_rand : nat → option (list ascii); (* rand.Read of 16 bytes, or its error *)
  env_int63 : nat → Z;                  (* the draw of rand.Int63n *)
}.

(** The calls of main.go, logger.go, db_pool.go, migrations.go and openEventStore
    to the libraries they set up; at most one [sql.DB] is open at a time. *)
Inductive LogHandler := TextHandler | JSONHandler.

Inductive HostCall :=
| SetDefaultLogger (handler : LogHandler)
| PrintStderr (text : string)
| SqlOpen (url : string)
| SqlPing
| SqlClose
| SetMaxOpenConns (n : Z)
| SetMaxIdleConns (n : Z)
| SetConnMaxLifetime (d : Z)
| SetConnMaxIdleTime (d : Z)
| FilepathAbs (path : string)
| PgxWithInstance
| MigrateNew (sourceURL : string)
| MigrateUp
| MigrateClose.

(** What the program does outside its own state, newest last. *)
Inductive Effect :=
| EffHost (c : HostCall)
| EffPublish (ev : Event) (err : option GoError)
| EffProcess (workerID : Z) (ev : Event)
| EffSleep (d : Z)
| EffAck (eventID : string)
| EffNack (eventID : string) (requeue : bool).

(** [amqp.Publishing], with the fields the program sets. *)
Record AmqpPublishing := mkAmqpPublishing {
  ContentType : string;
  DeliveryMode : Z;
  MessageId : string;
  Timestamp : Z;
  Body : string;
}.

Definition amqp_Persistent : Z := 2.

(** The calls of the AMQP client with the arguments that are not constants of
    the program, and the error they answered ([None] is nil); connections and
    channels are numbered. *)
Inductive AmqpCall :=
| CallDial (conn : Z)
| CallChannel (conn chan : Z)
| CallDeclare (chan : Z) (queue : string) (durable : bool) (answer : option string)
| CallConfirm (chan : Z) (answer : option string)
| CallQos (chan prefetch : Z) (answer : option string)
| CallConsume (chan : Z) (queue : string) (autoAck : bool) (answer : option string)
| CallPublish (chan : Z) (exchange key : string) (message : AmqpPublishing) (answer : option string)
| CallCloseChannel (chan : Z)
| CallCloseConnection (conn : Z)
| SawClosedChannel (chan : Z)
| SawClosedConnection (conn : Z).

(** The connections RabbitMQEventQueue holds ([None] is nil), and the calls it
    has made. *)
Record Broker := mkBroker {
  publishConn : option Z;
  publishChannel : option Z;
  consumerConn : option Z;
  consumerChannel : option Z;
  b_log : list AmqpCall;
}.

Definition no_broker : Broker := mkBroker None None None None [].

(** [w_tx] is the open transaction. *)
Record World := mkWorld {
  w_tick : nat;
  w_db : Database;
  w_tx : option Database;
  w_metrics : Metrics;
  w_broker : Broker;
  w_trace : list Effect;
}.

Definition set_db (db : Database) (w : World) : World :=
  mkWorld (w_tick w) db (w_tx w) (w_metrics w) (w_broker w) (w_trace w).
Definition set_tx (tx : option Database) (w : World) : World :=
  mkWorld (w_tick w) (w_db w) tx (w_metrics w) (w_broker w) (w_trace w).
Definition tick (w : World) : World :=
  mkWorld (S (w_tick w)) (w_db w) (w_tx w) (w_metrics w) (w_broker w) (w_trace w).
Definition set_metrics (m : Metrics) (w : World) : World :=
  mkWorld (w_tick w) (w_db w) (w_tx w) m (w_broker w) (w_trace w).
Definition add_trace (e : Effect) (w : World) : World :=
  mkWorld (w_tick w) (w_db w) (w_tx w) (w_metrics w) (w_broker w) (w_trace w ++ [e]).

Definition set_broker (b : Broker) (w : World) : World :=
  mkWorld (w_tick w) (w_db w) (w_tx w) (w_metrics w) b (w_trace w).

(** ** The monad *)

Definition M (A : Type) : Type := World → A * World.

#[export] Instance M_ret : MRet M := λ A a w, (a, w).
#[export] Instance M_bind : MBind M := λ A B k m w, let '(a, w') := m w in k a w'.

Lemma M_bind_run {A B} (k : A → M B) (m : M A) w :
  mbind (M := M) k m w = k (m w).1 (m w).2.
Proof. unfold mbind, M_bind. by destruct (m w). Qed.

Lemma M_ret_run {A} (a : A) w : mret (M := M) a w = (a, w).
Proof. done. Qed.

#[export] Hint Rewrite @M_bind_run @M_ret_run : webhook.

(** Go's [if err != nil { return ... }]: continue with the value, or leave
    through the handler. *)
Definition M_try {A B} (m : M (result A)) (h : GoError → M B) (k : A → M B) : M B :=
  r ← m; match r with Ok a => k a | Err e => h e end.
Definition M_check {B} (m : M (option GoError)) (h : GoError → M B) (k : M B) : M B :=
  r ← m; match r with None => k | Some e => h e end.

Declare Scope go_scope.
Delimit Scope go_scope with go.
Notation "x '←!' m 'orelse' h ; k" := (M_try m h (λ x, k))
  (at level 20, m at level 100, h at level 100, k at level 200, only parsing) : go_scope.
Notation "'check' m 'orelse' h ; k" := (M_check m h k)
  (at level 20, m at level 100, h at level 100, k at level 200, only parsing) : go_scope.

(** ** Primitive actions *)

Definition emit (e : Effect) : M unit := λ w, (tt, add_trace e w).

Definition inc_metric (c : Counter) : M unit := λ w, (tt, set_metrics (inc c (w_metrics w)) w).

Definition observe_duration (d : Z) : M unit := λ w,
  (tt, set_metrics (observe d (w_metrics w)) w).

Section Primitives.
Context `{E : Env}.

(** [time.Now().UTC()]. *)
Definition time_now : M Z := λ w, (env_clock (w_tick w), tick w).

Definition driver_outcome (n : nat) : DbOutcome :=
  match env_db n with
  | None => DbOk
  | Some (applied, msg) => DbErr applied (ErrMsg msg)
  end.

Definition db_outcome (ctx : Ctx) (n : nat) : DbOutcome :=
  match ctx with
  | Background => driver_outcome n
  | Cancellable => if env_cancelled n then DbErr false ErrCanceled else driver_outcome n
  end.

(** No database call fails and no context is cancelled. *)
Definition no_faults : Prop :=
  (∀ n, env_db n = None) ∧ (∀ n, env_cancelled n = false).

(** [ctx.Err() != nil]. *)
Definition ctx_cancelled (ctx : Ctx) : M bool := λ w,
  (match ctx with Background => false | Cancellable => env_cancelled (w_tick w) end, tick w).

(** The error of a statement the server rejects. *)
Definition sql_error : GoError := ErrMsg "statement rejected by the server".

(** A statement outside a transaction: it commits by itself.  The statement
    may depend on the environment at the time it runs. *)
Definition db_call {A} (ctx : Ctx) (s : nat → Stmt A) : M (result A) := λ w,
  let n := w_tick w in
  let '(answer, db') := s n (w_db w) in
  match db_outcome ctx n with
  | DbOk =>
      (match answer with Some a => Ok a | None => Err sql_error end, set_db db' (tick w))
  | DbErr applied e => (Err e, if applied then set_db db' (tick w) else tick w)
  end.

(** [store.db.BeginTx]. *)
Definition begin_tx (ctx : Ctx) : M (option GoError) := λ w,
  match db_outcome ctx (w_tick w) with
  | DbOk => (None, set_tx (Some (w_db w)) (tick w))
  | DbErr _ e => (Some e, tick w)
  end.

(** A statement inside the transaction. *)
Definition tx_call {A} (ctx : Ctx) (s : nat → Stmt A) : M (result A) := λ w,
  let n := w_tick w in
  match w_tx w with
  | None => (Err (ErrMsg "sql: transaction has already been committed or rolled back"), tick w)
  | Some tx =>
      match db_outcome ctx n with
      | DbOk =>
          let '(answer, tx') := s n tx in
          (match answer with Some a => Ok a | None => Err sql_error end,
           set_tx (Some tx') (tick w))
      | DbErr _ e => (Err e, tick w)
      end
  end.

(** A rolled back transaction leaves nothing but the sequence values it drew. *)
Definition discard (tx db : Database) : Database :=
  mkDatabase (events db) (outbox db) (dead_letters db) (outbox_seq tx).

(** [defer tx.Rollback()], run when the method returns. *)
Definition rollback : M unit := λ w,
  match w_tx w with
  | None => (tt, w)
  | Some tx => (tt, set_tx None (set_db (discard tx (w_db w)) w))
  end.

(** [tx.Commit()]. *)
Definition commit (ctx : Ctx) : M (option GoError) := λ w,
  match w_tx w with
  | None => (Some (ErrMsg "sql: transaction has already been committed or rolled back"), tick w)
  | Some tx =>
      match db_outcome ctx (w_tick w) with
      | DbOk => (None, set_tx None (set_db tx (tick w)))
      | DbErr true e => (Some e, set_tx None (set_db tx (tick w)))
      | DbErr false e => (Some e, set_tx None (set_db (discard tx (w_db w)) (tick w)))
      end
  end.

(** [result.RowsAffected()]. *)
Definition rows_affected (n : Z) : M (result Z) := λ w,
  match driver_outcome (w_tick w) with
  | DbOk => (Ok n, tick w)
  | DbErr _ e => (Err e, tick w)
  end.

(** [rows.Next()] until it is false, then [rows.Err()]: the rows received and
    the error that cut the stream short. *)
Definition read_rows {A} (rows : list A) : M (list A * option GoError) := λ w,
  match driver_outcome (w_tick w) with
  | DbOk => ((rows, None), tick w)
  | DbErr _ e => ((take (Z.to_nat (env_int63 (w_tick w))) rows, Some e), tick w)
  end.

(** [rand.Read] of a fresh 16-byte buffer. *)
Definition rand_read : M (result (list ascii)) := λ w,
  (match env_rand (w_tick w) with
   | Some bytes => Ok bytes
   | None => Err (ErrMsg "crypto/rand: read failed")
   end, tick w).

End Primitives.
