(* ===== verification/Scenario.v ===== *)
(** * A concrete environment

    A calm environment (no failures, no locked rows, a clock of one second per
    interaction) and a codec for the payloads [null] and [{}], to evaluate the
    model on concrete inputs. *)

From stdpp Require Import base gmap strings list.
From Stdlib Require Import ZArith Lia Ascii SpecFloat.
From S2P Require Import Prelude GoLib Models Json JsonProps Metrics Sql Database World.

Definition sixteen_zeros : list ascii := replicate 16 zero.

(** The clock reads [start + n] seconds at the n-th interaction. *)
Definition calm_env (start : Z) : Env := {|
  env_clock := λ n, ((start + Z.of_nat n) * 1000000000)%Z;
  env_dbclock := λ n, ((start + Z.of_nat n) * 1000000)%Z;
  env_db := λ _, None;
  env_cancelled := λ _, false;
  env_locked_outbox := λ _ _, false;
  env_locked_dead := λ _ _, false;
  env_order := λ _ i, Z.of_nat i;
  env_order' := λ _ i, Z.of_nat i;
  env_collate := λ s, Z.of_nat (String.length s);
  env_rand := λ _, Some sixteen_zeros;
  env_int63 := λ _, 0%Z;
|}.

Lemma calm_env_no_faults start : @no_faults (calm_env start).
Proof. by split. Qed.

Definition simple_codec : JsonCodec := json_codec (λ _, "invalid character").

#[export] Instance simple_codec_ok : JsonCodecOk simple_codec := json_codec_ok _.

Definition empty_world : World := mkWorld 0 empty_database None NewMetrics no_broker [].

(** The message of an event. *)
Definition body_of (ev : Event) : string := match marshal_event ev with inr body => body | inl _ => "" end.

Definition event_1 : Event := mkEvent "evt-001" "payment.created" "req-1" None.
Definition event_2 : Event := mkEvent "evt-002" "payment.created" "req-2" 
  (Some [("amount", JNum (S754_finite false 7036874417766400 (-49))); ("items", JArr [JStr "a"; JNull])]).

Lemma event_2_payload_wf : payload_wf 0 (Event_Payload event_2).
Proof.
  repeat (split || constructor); try done; try lia; vm_compute; intuition congruence.
Qed.
