(* ===== verification/EventStore.v ===== *)
(** * event_store.go, dlq_backoff_store.go, operational_metrics.go

    The methods of EventStore, statement by statement: which error each call
    returns, where a transaction begins, commits or is rolled back.  The SQL
    itself is in Database.v. *)

From stdpp Require Import base gmap strings list pretty.
From Stdlib Require Import ZArith Lia Ascii.
From S2P Require Import Prelude GoLib Models Metrics Sql Database DbInvariant World.

Open Scope go_scope.

Inductive EventClaimResult :=
| EventClaimed
| EventClaimInProgress
| EventClaimFinal
| EventClaimMissing.

#[export] Instance EventClaimResult_eq_dec : EqDecision EventClaimResult.
Proof. solve_decision. Defined.

(** [bind]: each question mark becomes the next numbered placeholder. *)
Fixpoint bind_from (placeholder : Z) (query : string) : string :=
  match query with
  | EmptyString => EmptyString
  | String character rest =>
      if bool_decide (character = "?"%char)
      then "$" +:+ pretty placeholder +:+ bind_from (placeholder + 1) rest
      else String character (bind_from placeholder rest)
  end.

Definition bind (query : string) : string := bind_from 1 query.

Section Store.
Context `{E : Env} `{C : JsonCodec}.

(** A method that returns only an error. *)
Definition fail (pre : string) (e : GoError) : M (option GoError) :=
  mret (Some (errorf pre e)).
Definition fail_with {A} (pre : string) (e : GoError) : M (result A) :=
  mret (Err (errorf pre e)).

(** ** Accepting an event *)

Definition SaveQueuedWithOutbox (ctx : Ctx) (event : Event) : M (option GoError) :=
  match json_marshal (Event_Payload event) with
  | inl e => fail "marshal event payload: " (ErrMsg e)
  | inr payload =>
      check begin_tx ctx orelse fail "begin event transaction: ";
      result ← (
        now ← time_now;
        n ←! tx_call ctx (λ _, sql_insert_event (Event_ID event) (Event_Type event)
                                 (Event_RequestID event) payload now)
          orelse fail "save queued event: ";
        rowsAffected ←! rows_affected n orelse fail "check saved event: ";
        if (rowsAffected =? 0)%Z then mret (Some ErrEventAlreadyExists)
        else
          _ ←! tx_call ctx (λ _, sql_insert_outbox (Event_ID event) (Event_Type event)
                                   (Event_RequestID event) payload now)
            orelse fail "save outbox message: ";
          check commit ctx orelse fail "commit event transaction: ";
          mret None);
      rollback;;
      mret result
  end.

(** ** The outbox *)

Definition newOutboxDispatchToken : M (result string) :=
  bytes ←! rand_read orelse fail_with "generate outbox dispatch token: ";
  mret (Ok (EncodeToString bytes)).

(** The scan of one row and the decoding of its payload. *)
Definition decode_message (with_token : bool) (scan decode : string) (ir : Z * OutboxRow)
    : result OutboxMessage :=
  let '(id, r) := ir in
  match (if with_token then o_dispatch_token r else Some "") with
  | None => Err (errorf scan (ErrMsg "cannot scan NULL into *string"))
  | Some token =>
      match json_unmarshal (o_payload r) with
      | inl e => Err (errorf (decode +:+ pretty id +:+ " payload: ") (ErrMsg e))
      | inr p =>
          Ok (mkOutboxMessage id
                (mkEvent (o_event_id r) (o_event_type r) (o_request_id r) p)
                (o_attempts r) token)
      end
  end.

(** The loop over the rows: it stops at the first row it cannot decode. *)
Fixpoint collect {A B} (f : A → result B) (rows : list A) : result (list B) :=
  match rows with
  | [] => Ok []
  | r :: rows =>
      match f r with
      | Err e => Err e
      | Ok x => match collect f rows with Err e => Err e | Ok xs => Ok (x :: xs) end
      end
  end.

(** Rows, then [rows.Err()]. *)
Definition scan_rows {A B} (f : A → result B) (iterate : string) (rows : list A)
    : M (result (list B)) :=
  received ← read_rows rows;
  match collect f (fst received) with
  | Err e => mret (Err e)
  | Ok items =>
      match snd received with
      | Some e => fail_with iterate e
      | None => mret (Ok items)
      end
  end.

Definition ClaimPendingOutbox (ctx : Ctx) (limit leaseDuration : Z)
    : M (result (list OutboxMessage)) :=
  dispatchToken ←! newOutboxDispatchToken orelse (λ e, mret (Err e));
  now ← time_now;
  rows ←! db_call ctx (λ n, sql_claim_outbox (now + wrap64 (- leaseDuration)) limit dispatchToken now
                              (env_locked_outbox n) (env_order n))
    orelse fail_with "claim pending outbox messages: ";
  scan_rows (decode_message true "scan claimed outbox message: "
               "decode claimed outbox message ")
    "iterate claimed outbox messages: " rows.

Definition ListPendingOutbox (ctx : Ctx) (limit : Z) : M (result (list OutboxMessage)) :=
  rows ←! db_call ctx (λ _, sql_list_pending_outbox limit)
    orelse fail_with "list pending outbox messages: ";
  scan_rows (decode_message false "scan outbox message: " "decode outbox message ")
    "iterate outbox messages: " rows.

Definition reservation_expired (message : OutboxMessage) : GoError :=
  ErrMsg ("outbox message " +:+ pretty (Message_ID message) +:+ " reservation expired").

Definition MarkOutboxPublished (ctx : Ctx) (message : OutboxMessage) : M (option GoError) :=
  now ← time_now;
  n ←! db_call ctx (λ _, sql_mark_outbox_published now (Message_ID message)
                           (Message_DispatchToken message))
    orelse fail "mark outbox message published: ";
  rowsAffected ←! rows_affected n orelse fail "check published outbox message: ";
  if (rowsAffected =? 0)%Z then mret (Some (reservation_expired message)) else mret None.

Definition MarkOutboxFailed (ctx : Ctx) (message : OutboxMessage) (publishError : GoError)
    : M (option GoError) :=
  n ←! db_call ctx (λ _, sql_mark_outbox_failed (error_string publishError)
                           (Message_ID message) (Message_DispatchToken message))
    orelse fail "mark outbox message failed: ";
  rowsAffected ←! rows_affected n orelse fail "check failed outbox message: ";
  if (rowsAffected =? 0)%Z then mret (Some (reservation_expired message)) else mret None.

(** ** Processing *)

Definition ClaimForProcessing (ctx : Ctx) (eventID : string) (leaseDuration : Z)
    : M (EventClaimResult * option GoError) :=
  let missing pre e := mret (EventClaimMissing, Some (errorf pre e)) in
  now ← time_now;
  n ←! db_call ctx (λ _, sql_claim_processing now eventID (now + wrap64 (- leaseDuration)))
    orelse missing "claim event for processing: ";
  rowsAffected ←! rows_affected n orelse missing "check claimed event: ";
  if (rowsAffected =? 1)%Z then mret (EventClaimed, None)
  else
    row ←! db_call ctx (λ _, sql_select_status eventID)
      orelse missing "read event claim status: ";
    match row with
    | None => mret (EventClaimMissing, None)
    | Some status =>
        if bool_decide (status = EventStatusProcessed)
           || bool_decide (status = EventStatusFailed) then mret (EventClaimFinal, None)
        else if bool_decide (status = EventStatusProcessing)
        then mret (EventClaimInProgress, None)
        else mret (EventClaimInProgress, None)
    end.

Definition MarkProcessed (ctx : Ctx) (eventID : string) (attempts : Z) : M (option GoError) :=
  now ← time_now;
  _ ←! db_call ctx (λ _, sql_mark_processed attempts now eventID)
    orelse fail "mark event processed: ";
  mret None.

Definition MarkFailed (ctx : Ctx) (eventID : string) (attempts : Z) (processingError : GoError)
    : M (option GoError) :=
  now ← time_now;
  _ ←! db_call ctx (λ _, sql_mark_failed (error_string processingError) attempts now eventID)
    orelse fail "mark event failed: ";
  mret None.

Definition stored_event (ir : string * EventRow) : StoredEvent :=
  let '(id, r) := ir in
  mkStoredEvent id (e_type r)
    (match json_unmarshal_any (e_payload r) with inr v => v | inl _ => JStr (e_payload r) end)
    (e_status r) (e_error r) (e_attempts r) (e_created_at r * 1000) (e_updated_at r * 1000).

Definition List_ (ctx : Ctx) (limit : Z) : M (result (list StoredEvent)) :=
  rows ←! db_call ctx (λ n, sql_list_events limit (env_order n)) orelse fail_with "list events: ";
  scan_rows (λ ir, Ok (stored_event ir)) "iterate events: " rows.

(** ** Dead letters *)

Definition SaveDeadLetter (ctx : Ctx) (event : Event) (processingError : GoError) (attempts : Z)
    : M (option GoError) :=
  match json_marshal (Event_Payload event) with
  | inl e => fail "marshal dead letter payload: " (ErrMsg e)
  | inr payload =>
      now1 ← time_now;
      now2 ← time_now;
      _ ←! db_call ctx (λ n, sql_save_dead_letter (Event_ID event) (Event_Type event)
                               (Event_RequestID event) payload (error_string processingError)
                               attempts now1 now2 (env_dbclock n))
        orelse fail "save dead letter: ";
      mret None
  end.

Definition ReplayDeadLetter (ctx : Ctx) (eventID : string) : M (option GoError) :=
  check begin_tx ctx orelse fail "begin dead letter replay: ";
  result ← (
    row ←! tx_call ctx (λ _, sql_select_replay eventID)
      orelse fail "read event for dead letter replay: ";
    match row with
    | None => mret (Some ErrDeadLetterNotFound)
    | Some (status, eventType, requestID, payload) =>
        if negb (bool_decide (status = EventStatusFailed)) then
          mret (Some (ErrWrap "" ErrDeadLetterNotFailed (": current status is " +:+ status)))
        else
          now ← time_now;
          _ ←! tx_call ctx (λ _, sql_reset_event now eventID)
            orelse fail "reset event for dead letter replay: ";
          n ←! tx_call ctx (λ _, sql_reopen_outbox eventID)
            orelse fail "reopen outbox message: ";
          rowsAffected ←! rows_affected n orelse fail "check reopened outbox message: ";
          _ ←! (if (rowsAffected =? 0)%Z
                then tx_call ctx (λ _, sql_insert_outbox eventID eventType requestID payload now)
                else mret (Ok 0%Z))
            orelse fail "create outbox message for replay: ";
          _ ←! tx_call ctx (λ _, sql_mark_replayed now eventID)
            orelse fail "mark dead letter replayed: ";
          check commit ctx orelse fail "commit dead letter replay: ";
          mret None
    end);
  rollback;;
  mret result.

Definition ClaimRetryableDeadLetters (ctx : Ctx) (limit maxAttempts : Z)
    : M (result (list string)) :=
  now ← time_now;
  rows ←! db_call ctx (λ n, sql_claim_dead_letters now maxAttempts limit
                              (env_locked_dead n) env_collate (env_order n) (env_order' n))
    orelse fail_with "claim retryable dead letters: ";
  scan_rows (λ ir, Ok (fst ir)) "iterate retryable dead letters: " rows.

Definition ClaimRetryableDeadLetterDetails (ctx : Ctx) (limit maxAttempts : Z)
    : M (result (list RetryableDeadLetterDetail)) :=
  now ← time_now;
  rows ←! db_call ctx (λ n, sql_claim_dead_letters now maxAttempts limit
                              (env_locked_dead n) env_collate (env_order n) (env_order' n))
    orelse fail_with "claim retryable dead letter details: ";
  scan_rows (λ ir, Ok (mkRetryable (fst ir) (d_replay_attempts (snd ir))))
    "iterate retryable dead letter details: " rows.

Definition RescheduleDeadLetterRetry (ctx : Ctx) (eventID : string) (retryError : GoError)
    : M (option GoError) :=
  now ← time_now;
  _ ←! db_call ctx (λ _, sql_reschedule now (error_string retryError) eventID)
    orelse fail "reschedule dead letter retry: ";
  mret None.

Definition RescheduleDeadLetterRetryWithDelay (ctx : Ctx) (eventID : string)
    (retryError : GoError) (delay : Z) : M (option GoError) :=
  now ← time_now;
  _ ←! db_call ctx (λ _, sql_reschedule (now + delay) (error_string retryError) eventID)
    orelse fail "reschedule dead letter retry with delay: ";
  mret None.

Definition decode_dead_letter (ir : string * DeadLetterRow) : result DeadLetter :=
  let '(id, r) := ir in
  match json_unmarshal (d_payload r) with
  | inl e => Err (errorf ("decode dead letter " +:+ id +:+ " payload: ") (ErrMsg e))
  | inr p =>
      Ok (mkDeadLetter (mkEvent id (d_event_type r) (d_request_id r) p)
            (d_error r) (d_attempts r) (d_failed_at r * 1000)
            (Z.mul 1000 <$> d_replayed_at r))
  end.

Definition ListDeadLetters (ctx : Ctx) (limit : Z) : M (result (list DeadLetter)) :=
  rows ←! db_call ctx (λ n, sql_list_dead_letters limit (env_order n))
    orelse fail_with "list dead letters: ";
  scan_rows decode_dead_letter "iterate dead letters: " rows.

(** OperationalMetrics: the pending outbox rows and dead letters. *)
Definition OperationalMetrics (ctx : Ctx) : M (result (Z * Z)) :=
  counts ←! db_call ctx (λ _, sql_operational_metrics)
    orelse fail_with "read operational metrics: ";
  mret (Ok counts).

End Store.
