(* ===== verification/StoreLogic.v ===== *)
(** * Reasoning about store methods

    [evolves R m]: the action [m], started outside a transaction, ends outside
    one and changes the tables along the preorder [R].  The lemmas follow the
    shape of the methods, so a method built of autocommit statements is
    discharged by [solve_evolves] from one fact per statement.  The two
    transactions of the program are characterised outcome by outcome. *)

From stdpp Require Import base gmap strings list.
From Stdlib Require Import ZArith Lia Ascii.
From S2P Require Import Prelude GoLib Models Metrics Sql Database DbInvariant World EventStore.

Definition evolves {A} (R : Database → Database → Prop) (m : M A) : Prop :=
  ∀ w, w_tx w = None → w_tx (m w).2 = None ∧ R (w_db w) (w_db (m w).2).

Section Combinators.
Context (R : Database → Database → Prop) `{!PreOrder R}.

Lemma evolves_ret {A} (a : A) : evolves R (mret a).
Proof. intros w Hw. by split. Qed.

Lemma evolves_bind {A B} (k : A → M B) (m : M A) :
  evolves R m → (∀ a, evolves R (k a)) → evolves R (mbind (M := M) k m).
Proof.
  intros Hm Hk w Hw. rewrite M_bind_run.
  destruct (Hm w Hw) as [H1 H2]. destruct (Hk (m w).1 (m w).2 H1) as [H3 H4].
  split; [done|]. by etrans.
Qed.

Lemma evolves_try {A B} (m : M (result A)) (h : GoError → M B) (k : A → M B) :
  evolves R m → (∀ e, evolves R (h e)) → (∀ a, evolves R (k a)) → evolves R (M_try m h k).
Proof. intros Hm Hh Hk. apply evolves_bind; [done|]. by intros []. Qed.

Lemma evolves_check {B} (m : M (option GoError)) (h : GoError → M B) (k : M B) :
  evolves R m → (∀ e, evolves R (h e)) → evolves R k → evolves R (M_check m h k).
Proof. intros Hm Hh Hk. apply evolves_bind; [done|]. by intros []. Qed.

Lemma evolves_inc c : evolves R (inc_metric c).
Proof. intros w Hw. by split. Qed.

Lemma evolves_observe d : evolves R (observe_duration d).
Proof. intros w Hw. by split. Qed.

Lemma evolves_emit e : evolves R (emit e).
Proof. intros w Hw. by split. Qed.

Context `{E : Env}.

Lemma evolves_time_now : evolves R time_now.
Proof. intros w Hw. by split. Qed.

Lemma evolves_ctx_cancelled ctx : evolves R (ctx_cancelled ctx).
Proof. intros w Hw. by split. Qed.

Lemma evolves_rand_read : evolves R rand_read.
Proof. intros w Hw. by split. Qed.

Lemma evolves_rows_affected n : evolves R (rows_affected n).
Proof. intros w Hw. unfold rows_affected. by case_match. Qed.

Lemma evolves_read_rows {A} (rows : list A) : evolves R (read_rows rows).
Proof. intros w Hw. unfold read_rows. by case_match. Qed.

Lemma evolves_db_call {A} ctx (s : nat → Stmt A) :
  (∀ n db, R db (s n db).2) → evolves R (db_call ctx s).
Proof.
  intros Hs w Hw. unfold db_call. specialize (Hs (w_tick w) (w_db w)).
  destruct (s (w_tick w) (w_db w)) as [answer db']. repeat case_match; by split.
Qed.

End Combinators.

#[export] Hint Resolve evolves_ret evolves_bind evolves_try evolves_check evolves_inc
  evolves_observe evolves_emit evolves_time_now evolves_ctx_cancelled evolves_rand_read
  evolves_rows_affected evolves_read_rows : webhook.

(** Descend through a method down to its statements. *)
Ltac solve_evolves :=
  repeat first
    [ apply evolves_ret; [apply _]
    | apply evolves_bind; [apply _| |intros ?]
    | apply evolves_try; [apply _| |intros ?|intros ?]
    | apply evolves_check; [apply _| |intros ?|]
    | apply evolves_inc; apply _
    | apply evolves_observe; apply _
    | apply evolves_emit; apply _
    | apply evolves_time_now; apply _
    | apply evolves_ctx_cancelled; apply _
    | apply evolves_rand_read; apply _
    | apply evolves_rows_affected; apply _
    | apply evolves_read_rows; apply _
    | apply evolves_db_call; [apply _|intros ? ?]
    | progress unfold fail, fail_with, scan_rows
    | case_match ].

(** ** Actions that leave something alone

    [respects R m]: the action changes the state along the preorder [R]. *)

Definition respects {A} (R : World → World → Prop) (m : M A) : Prop := ∀ w, R w (m w).2.

Section Respects.
Context (R : World → World → Prop) `{!PreOrder R}.

Lemma respects_ret {A} (a : A) : respects R (mret a).
Proof. by intros w. Qed.

Lemma respects_bind {A B} (k : A → M B) (m : M A) :
  respects R m → (∀ a, respects R (k a)) → respects R (mbind (M := M) k m).
Proof. intros Hm Hk w. rewrite M_bind_run. etrans; [apply Hm|apply Hk]. Qed.

Lemma respects_try {A B} (m : M (result A)) (h : GoError → M B) (k : A → M B) :
  respects R m → (∀ e, respects R (h e)) → (∀ a, respects R (k a)) → respects R (M_try m h k).
Proof. intros Hm Hh Hk. apply respects_bind; [done|]. by intros []. Qed.

Lemma respects_check {B} (m : M (option GoError)) (h : GoError → M B) (k : M B) :
  respects R m → (∀ e, respects R (h e)) → respects R k → respects R (M_check m h k).
Proof. intros Hm Hh Hk. apply respects_bind; [done|]. by intros []. Qed.

End Respects.

(** Metrics and trace stay the same: what every store method guarantees. *)
Definition quiet (w w' : World) : Prop :=
  w_metrics w' = w_metrics w ∧ w_trace w' = w_trace w.

#[export] Instance quiet_preorder : PreOrder quiet.
Proof. split; [by intros w|]. intros w1 w2 w3 [] []. split; congruence. Qed.

Abbreviation silent m := (respects quiet m).

Section Quiet.
Context `{E : Env}.

Lemma silent_time_now : silent time_now.
Proof. by intros w. Qed.

Lemma silent_ctx_cancelled ctx : silent (ctx_cancelled ctx).
Proof. by intros w. Qed.

Lemma silent_rand_read : silent rand_read.
Proof. by intros w. Qed.

Lemma silent_rows_affected n : silent (rows_affected n).
Proof. intros w. unfold rows_affected. by case_match. Qed.

Lemma silent_read_rows {A} (rows : list A) : silent (read_rows rows).
Proof. intros w. unfold read_rows. by case_match. Qed.

Lemma silent_db_call {A} ctx (s : nat → Stmt A) : silent (db_call ctx s).
Proof. intros w. unfold db_call. destruct (s _ _). by repeat case_match. Qed.

Lemma silent_begin_tx ctx : silent (begin_tx ctx).
Proof. intros w. unfold begin_tx. by case_match. Qed.

Lemma silent_tx_call {A} ctx (s : nat → Stmt A) : silent (tx_call ctx s).
Proof. intros w. unfold tx_call. case_match; [|done]. destruct (s _ _). by case_match. Qed.

Lemma silent_commit ctx : silent (commit ctx).
Proof. intros w. unfold commit. by repeat case_match. Qed.

Lemma silent_rollback : silent rollback.
Proof. intros w. unfold rollback. by case_match. Qed.

End Quiet.

Ltac solve_silent :=
  repeat first
    [ apply respects_ret; apply _
    | apply respects_bind; [apply _| |intros ?]
    | apply respects_try; [apply _| |intros ?|intros ?]
    | apply respects_check; [apply _| |intros ?|]
    | apply silent_time_now | apply silent_ctx_cancelled | apply silent_rand_read
    | apply silent_rows_affected | apply silent_read_rows | apply silent_db_call
    | apply silent_begin_tx | apply silent_tx_call | apply silent_commit | apply silent_rollback
    | progress unfold fail, fail_with, scan_rows
    | case_match ].

(** ** Weakest preconditions

    [wp m Q w]: run from [w], the action [m] ends with a result and a state
    that satisfy [Q]. *)

Definition wp {A} (m : M A) (Q : A → World → Prop) (w : World) : Prop := Q (m w).1 (m w).2.

Section Wp.
Context `{E : Env}.

Lemma wp_ret {A} (a : A) Q w : Q a w → wp (mret a) Q w.
Proof. done. Qed.

Lemma wp_bind {A B} (k : A → M B) (m : M A) Q w :
  wp m (λ a w', wp (k a) Q w') w → wp (mbind (M := M) k m) Q w.
Proof. unfold wp. by rewrite M_bind_run. Qed.

Lemma wp_try {A B} (m : M (result A)) (h : GoError → M B) (k : A → M B) Q w :
  wp m (λ r w', match r with Ok a => wp (k a) Q w' | Err e => wp (h e) Q w' end) w →
  wp (M_try m h k) Q w.
Proof. unfold wp, M_try. rewrite M_bind_run. by destruct (m w).1. Qed.

Lemma wp_check {B} (m : M (option GoError)) (h : GoError → M B) (k : M B) Q w :
  wp m (λ r w', match r with None => wp k Q w' | Some e => wp (h e) Q w' end) w →
  wp (M_check m h k) Q w.
Proof. unfold wp, M_check. rewrite M_bind_run. by destruct (m w).1. Qed.

Lemma wp_wand {A} (m : M A) (P Q : A → World → Prop) w :
  wp m P w → (∀ a w', P a w' → Q a w') → wp m Q w.
Proof. unfold wp. auto. Qed.

Lemma wp_time_now Q w : Q (env_clock (w_tick w)) (tick w) → wp time_now Q w.
Proof. done. Qed.

Lemma wp_emit e Q w : Q tt (add_trace e w) → wp (emit e) Q w.
Proof. done. Qed.

Lemma wp_inc c Q w : Q tt (set_metrics (inc c (w_metrics w)) w) → wp (inc_metric c) Q w.
Proof. done. Qed.

Lemma wp_observe d Q w :
  Q tt (set_metrics (observe d (w_metrics w)) w) → wp (observe_duration d) Q w.
Proof. done. Qed.

Lemma wp_rows_affected n Q w :
  (driver_outcome (w_tick w) = DbOk → Q (Ok n) (tick w)) →
  (∀ b e, driver_outcome (w_tick w) = DbErr b e → Q (Err e) (tick w)) →
  wp (rows_affected n) Q w.
Proof. unfold wp, rows_affected. intros. case_match; simpl; eauto. Qed.

Lemma wp_read_rows {A} (rows : list A) Q w :
  (driver_outcome (w_tick w) = DbOk → Q (rows, None) (tick w)) →
  (∀ b e k, driver_outcome (w_tick w) = DbErr b e → Q (take k rows, Some e) (tick w)) →
  wp (read_rows rows) Q w.
Proof. unfold wp, read_rows. intros. case_match; simpl; eauto. Qed.

Lemma wp_rand_read Q w :
  (∀ bytes, env_rand (w_tick w) = Some bytes → Q (Ok bytes) (tick w)) →
  (∀ m, env_rand (w_tick w) = None → Q (Err (ErrMsg m)) (tick w)) →
  wp rand_read Q w.
Proof. unfold wp, rand_read. intros. simpl. case_match; eauto. Qed.

Lemma wp_db_call {A} ctx (s : nat → Stmt A) Q w :
  (∀ a db', s (w_tick w) (w_db w) = (Some a, db') → db_outcome ctx (w_tick w) = DbOk →
    Q (Ok a) (set_db db' (tick w))) →
  (∀ db', s (w_tick w) (w_db w) = (None, db') → db_outcome ctx (w_tick w) = DbOk →
    Q (Err sql_error) (set_db db' (tick w))) →
  (∀ e, db_outcome ctx (w_tick w) = DbErr false e → Q (Err e) (tick w)) →
  (∀ e ans db', s (w_tick w) (w_db w) = (ans, db') → db_outcome ctx (w_tick w) = DbErr true e →
    Q (Err e) (set_db db' (tick w))) →
  wp (db_call ctx s) Q w.
Proof.
  unfold wp, db_call. intros H1 H2 H3 H4. destruct (s (w_tick w) (w_db w)) as [[a|] db'];
    destruct (db_outcome ctx (w_tick w)) as [|[] e]; simpl; eauto.
Qed.

Lemma wp_begin_tx ctx Q w :
  (db_outcome ctx (w_tick w) = DbOk → Q None (set_tx (Some (w_db w)) (tick w))) →
  (∀ b e, db_outcome ctx (w_tick w) = DbErr b e → Q (Some e) (tick w)) →
  wp (begin_tx ctx) Q w.
Proof. unfold wp, begin_tx. intros. case_match; simpl; eauto. Qed.

Lemma wp_tx_call {A} ctx (s : nat → Stmt A) tx Q w :
  w_tx w = Some tx →
  (∀ a tx', s (w_tick w) tx = (Some a, tx') → db_outcome ctx (w_tick w) = DbOk →
    Q (Ok a) (set_tx (Some tx') (tick w))) →
  (∀ tx', s (w_tick w) tx = (None, tx') → db_outcome ctx (w_tick w) = DbOk →
    Q (Err sql_error) (set_tx (Some tx') (tick w))) →
  (∀ b e, db_outcome ctx (w_tick w) = DbErr b e → Q (Err e) (tick w)) →
  wp (tx_call ctx s) Q w.
Proof.
  unfold wp, tx_call. intros -> H1 H2 H3.
  destruct (s (w_tick w) tx) as [[a|] tx'];
    destruct (db_outcome ctx (w_tick w)); simpl; eauto.
Qed.

Lemma wp_commit ctx tx Q w :
  w_tx w = Some tx →
  (db_outcome ctx (w_tick w) = DbOk → Q None (set_tx None (set_db tx (tick w)))) →
  (∀ e, db_outcome ctx (w_tick w) = DbErr true e →
    Q (Some e) (set_tx None (set_db tx (tick w)))) →
  (∀ e, db_outcome ctx (w_tick w) = DbErr false e →
    Q (Some e) (set_tx None (set_db (discard tx (w_db w)) (tick w)))) →
  wp (commit ctx) Q w.
Proof. unfold wp, commit. intros -> H1 H2 H3. repeat case_match; simpl; eauto. Qed.

Lemma wp_rollback_open tx Q w :
  w_tx w = Some tx → Q tt (set_tx None (set_db (discard tx (w_db w)) w)) → wp rollback Q w.
Proof. unfold wp, rollback. by intros ->. Qed.

Lemma wp_rollback_done Q w : w_tx w = None → Q tt w → wp rollback Q w.
Proof. unfold wp, rollback. by intros ->. Qed.

End Wp.

(** Step through the next action of a method; the tables of a statement stay
    folded in an equation. *)
Ltac wp_step :=
  lazymatch goal with
  | |- wp (M_try _ _ _) _ _ => apply wp_try
  | |- wp (M_check _ _ _) _ _ => apply wp_check
  | |- wp (mbind _ _) _ _ => apply wp_bind
  | |- wp (mret _) _ _ => apply wp_ret
  | |- wp time_now _ _ => apply wp_time_now
  | |- wp (emit _) _ _ => apply wp_emit
  | |- wp (inc_metric _) _ _ => apply wp_inc
  | |- wp (observe_duration _) _ _ => apply wp_observe
  | |- wp (rows_affected _) _ _ => apply wp_rows_affected; [intros ?|intros ???]
  | |- wp (read_rows _) _ _ => apply wp_read_rows; [intros ?|intros ????]
  | |- wp rand_read _ _ => apply wp_rand_read; [intros ??|intros ??]
  | |- wp (db_call _ _) _ _ =>
      apply wp_db_call; [intros ????|intros ???|intros ??|intros ?????]
  | |- wp (begin_tx _) _ _ => apply wp_begin_tx; [intros ?|intros ???]
  | |- wp (tx_call _ _) _ _ =>
      eapply wp_tx_call; [reflexivity|intros ????|intros ???|intros ???]
  | |- wp (commit _) _ _ => eapply wp_commit; [reflexivity|intros ?|intros ??|intros ??]
  | |- wp rollback _ _ =>
      first [eapply wp_rollback_open; [reflexivity|]
            |eapply wp_rollback_done; [first [reflexivity|assumption]|]]
  | |- wp (fail _ _) _ _ => apply wp_ret
  | |- wp (fail_with _ _) _ _ => apply wp_ret
  end; simpl.

Ltac wp_steps := repeat wp_step.

(** Replace the statement of a recorded equation by its known answer. *)
Ltac known_stmt Heq :=
  repeat match goal with
  | H : _ = (_, _) |- _ =>
      assert_fails (constr_eq H Heq); cbn [w_db w_tx tick set_db set_tx] in H;
      rewrite Heq in H; simplify_eq
  end; simpl.

(** ** The transaction of SaveQueuedWithOutbox *)

Definition with_seq (seq : Z) (db : Database) : Database :=
  mkDatabase (events db) (outbox db) (dead_letters db) seq.

(** The tables after the commit: the event and its outbox row. *)
Definition saved (ev : Event) (payload : string) (now : Z) (db : Database) : Database :=
  (sql_insert_outbox (Event_ID ev) (Event_Type ev) (Event_RequestID ev) payload now
     (sql_insert_event (Event_ID ev) (Event_Type ev) (Event_RequestID ev) payload now db).2).2.

(** The outcomes of the method, with the error it returns and the tables it
    leaves. *)
Inductive save_outcome `{Env} `{JsonCodec} (ev : Event) (db : Database)
    : option GoError → Database → Prop :=
| save_committed payload now :
    json_marshal (Event_Payload ev) = inr payload →
    events db !! Event_ID ev = None →
    save_outcome ev db None (saved ev payload now db)
| save_commit_unknown payload now e :
    json_marshal (Event_Payload ev) = inr payload →
    events db !! Event_ID ev = None →
    errors_is e ErrEventAlreadyExists = false → ¬ no_faults →
    (∃ cause, e = errorf "commit event transaction: " cause) →
    save_outcome ev db (Some e) (saved ev payload now db)
| save_duplicate :
    is_Some (events db !! Event_ID ev) →
    save_outcome ev db (Some ErrEventAlreadyExists) db
| save_rolled_back e seq :
    errors_is e ErrEventAlreadyExists = false →
    (no_faults → ∃ msg, json_marshal (Event_Payload ev) = inl msg) →
    (outbox_seq db ≤ seq)%Z →
    save_outcome ev db (Some e) (with_seq seq db).

Lemma outcome_error `{Env} ctx n b e :
  db_outcome ctx n = DbErr b e → e = ErrCanceled ∨ ∃ m, e = ErrMsg m.
Proof.
  unfold db_outcome, driver_outcome. destruct ctx; repeat case_match; intros; simplify_eq; eauto.
Qed.

Lemma driver_error `{Env} n b e : driver_outcome n = DbErr b e → ∃ m, e = ErrMsg m.
Proof. unfold driver_outcome. repeat case_match; intros; simplify_eq; eauto. Qed.

(** An error of the database is none of the program's sentinels. *)
Lemma outcome_not_sentinel `{Env} ctx n b e t :
  db_outcome ctx n = DbErr b e → t ∈ [ErrEventAlreadyExists; ErrDeadLetterNotFound; ErrDeadLetterNotFailed] →
  errors_is e t = false.
Proof.
  intros [->|[m ->]]%outcome_error Ht; simpl; rewrite orb_false_r;
    apply bool_decide_eq_false; intros <-; set_solver.
Qed.

(** Wrapping keeps it so. *)
Lemma errorf_not_sentinel pre e t :
  t ∈ [ErrEventAlreadyExists; ErrDeadLetterNotFound; ErrDeadLetterNotFailed] →
  errors_is e t = false → errors_is (errorf pre e) t = false.
Proof.
  intros Ht He. unfold errorf. rewrite errors_is_wrap; [done|]. set_solver.
Qed.

Lemma driver_not_sentinel `{Env} n b e t :
  driver_outcome n = DbErr b e →
  t ∈ [ErrEventAlreadyExists; ErrDeadLetterNotFound; ErrDeadLetterNotFailed] →
  errors_is e t = false.
Proof. apply (outcome_not_sentinel Background). Qed.

(** An error of the database, or of the server, wrapped or not. *)
Ltac not_sentinel :=
  try (apply errorf_not_sentinel; [set_solver|]);
  first [ eapply outcome_not_sentinel; [eassumption|set_solver]
        | eapply driver_not_sentinel; [eassumption|set_solver]
        | reflexivity ].

(** A failed call is a fault of the environment. *)
Lemma outcome_fault `{Env} ctx n b e : db_outcome ctx n = DbErr b e → ¬ no_faults.
Proof.
  intros Ho [Hd Hc]. unfold db_outcome, driver_outcome in Ho. rewrite Hd, Hc in Ho.
  by destruct ctx.
Qed.

Lemma driver_fault `{Env} n b e : driver_outcome n = DbErr b e → ¬ no_faults.
Proof. apply (outcome_fault Background). Qed.

Ltac faulty :=
  first [ eapply outcome_fault; eassumption
        | eapply driver_fault; eassumption
        | intros ?; exfalso; eapply outcome_fault; eassumption
        | intros ?; exfalso; eapply driver_fault; eassumption ].

(** The outbox insert of a new event succeeds. *)
Lemma saved_insert_ok ev payload now db :
  db_wf db → events db !! Event_ID ev = None →
  let db1 := (sql_insert_event (Event_ID ev) (Event_Type ev) (Event_RequestID ev) payload now db).2 in
  (sql_insert_outbox (Event_ID ev) (Event_Type ev) (Event_RequestID ev) payload now db1).1 = Some 1%Z.
Proof.
  intros Hwf Hnew. unfold sql_insert_event. rewrite Hnew. simpl.
  unfold sql_insert_outbox. simpl. rewrite lookup_insert_eq.
  destruct (outbox_of _ _) as [|[i r] l] eqn:Eo; [done|].
  assert ((i, r) ∈ outbox_of (Event_ID ev) db) as [Hr Heq]%elem_of_select_where
    by (unfold outbox_of in *; simpl in Eo; rewrite Eo; left).
  apply bool_decide_eq_true in Heq. destruct (wf_mirror _ Hwf _ _ Hr) as (e & He & _). congruence.
Qed.

Lemma with_seq_id db : with_seq (outbox_seq db) db = db.
Proof. by destruct db. Qed.

Lemma save_unchanged `{Env} `{JsonCodec} ev db e :
  errors_is e ErrEventAlreadyExists = false →
  (no_faults → ∃ msg, json_marshal (Event_Payload ev) = inl msg) →
  save_outcome ev db (Some e) db.
Proof.
  intros. rewrite <- (with_seq_id db) at 2. apply save_rolled_back; [done|done|lia].
Qed.

Lemma save_discard `{Env} `{JsonCodec} ev tx db e :
  errors_is e ErrEventAlreadyExists = false → ¬ no_faults → (outbox_seq db ≤ outbox_seq tx)%Z →
  save_outcome ev db (Some e) (discard tx db).
Proof. intros ? Hf ?. apply save_rolled_back; [done|by intros ?%Hf|done]. Qed.

Lemma sql_insert_event_seq id ty rid p now db :
  outbox_seq (sql_insert_event id ty rid p now db).2 = outbox_seq db.
Proof. unfold sql_insert_event. by case_match. Qed.

Lemma sql_insert_outbox_seq id ty rid p now db :
  outbox_seq (sql_insert_outbox id ty rid p now db).2 = (outbox_seq db + 1)%Z.
Proof. unfold sql_insert_outbox. by repeat case_match. Qed.

Lemma discard_same db : discard db db = db.
Proof. by destruct db. Qed.

Lemma SaveQueuedWithOutbox_outcome `{Env} `{JsonCodec} ctx ev w :
  w_tx w = None → db_wf (w_db w) →
  wp (SaveQueuedWithOutbox ctx ev)
     (λ r w', w_tx w' = None ∧ save_outcome ev (w_db w) r (w_db w')) w.
Proof.
  intros Htx Hwf. unfold SaveQueuedWithOutbox.
  destruct (json_marshal (Event_Payload ev)) as [em|payload] eqn:Ej.
  { wp_step. split; [done|]. apply save_unchanged; [done|eauto]. }
  do 2 wp_step; [|wp_step; split; [done|]; apply save_unchanged; [not_sentinel|faulty]].
  do 3 wp_step. generalize (env_clock (S (w_tick w))) as now. intros now.
  destruct (events (w_db w) !! Event_ID ev) as [e0|] eqn:Enew.
  - assert (∀ ty rid p t, sql_insert_event (Event_ID ev) ty rid p t (w_db w)
                          = (Some 0%Z, w_db w)) as Hins.
    { intros. unfold sql_insert_event. by rewrite Enew. }
    repeat (wp_step; known_stmt Hins).
    all: split; [done|]; try (apply save_discard; [not_sentinel|faulty|lia]).
    rewrite discard_same. by apply save_duplicate.
  - pose proof (saved_insert_ok ev payload now _ Hwf Enew) as Hout. simpl in Hout.
    destruct (sql_insert_event (Event_ID ev) (Event_Type ev) (Event_RequestID ev)
                payload now (w_db w)) as [a1 db1] eqn:Ei.
    assert (a1 = Some 1%Z ∧ outbox_seq db1 = outbox_seq (w_db w)) as [-> Hseq1].
    { unfold sql_insert_event in Ei. rewrite Enew in Ei. by simplify_eq/=. }
    simpl in Hout.
    destruct (sql_insert_outbox (Event_ID ev) (Event_Type ev) (Event_RequestID ev)
                payload now db1) as [a2 db2] eqn:Eo. simpl in Hout. subst a2.
    assert (outbox_seq db2 = outbox_seq (w_db w) + 1)%Z as Hseq2.
    { rewrite <- Hseq1. pose proof (sql_insert_outbox_seq (Event_ID ev) (Event_Type ev)
        (Event_RequestID ev) payload now db1) as Hs. by rewrite Eo in Hs. }
    assert (db2 = saved ev payload now (w_db w)) as ->.
    { unfold saved. rewrite Ei. simpl. by rewrite Eo. }
    repeat (wp_step; known_stmt Ei; known_stmt Eo).
    all: split; [done|]; try (apply save_discard; [not_sentinel|faulty|lia]).
    + by apply save_committed.
    + apply save_commit_unknown; [done..|not_sentinel|faulty|by eexists].
Qed.

(** ** The transaction of ReplayDeadLetter *)

(** The outbox after the replay: the row reopened, or a new one. *)
Definition reopened (id : string) (e : EventRow) (now : Z) (db : Database) : Database :=
  let '(n, db1) := sql_reopen_outbox id db in
  if bool_decide (n = Some 0%Z)
  then (sql_insert_outbox id (e_type e) (e_request_id e) (e_payload e) now db1).2
  else db1.

Definition replayed (id : string) (e : EventRow) (now : Z) (db : Database) : Database :=
  (sql_mark_replayed now id (reopened id e now (sql_reset_event now id db).2)).2.

Inductive replay_outcome `{Env} (id : string) (db : Database) : option GoError → Database → Prop :=
| replay_committed now e d :
    events db !! id = Some e → dead_letters db !! id = Some d →
    e_status e = EventStatusFailed →
    replay_outcome id db None (replayed id e now db)
| replay_commit_unknown now e d err :
    events db !! id = Some e → dead_letters db !! id = Some d →
    e_status e = EventStatusFailed →
    errors_is err ErrDeadLetterNotFound = false →
    errors_is err ErrDeadLetterNotFailed = false → ¬ no_faults →
    replay_outcome id db (Some err) (replayed id e now db)
| replay_not_found :
    events db !! id = None ∨ dead_letters db !! id = None →
    replay_outcome id db (Some ErrDeadLetterNotFound) db
| replay_not_failed e d :
    events db !! id = Some e → dead_letters db !! id = Some d →
    e_status e ≠ EventStatusFailed →
    replay_outcome id db
      (Some (ErrWrap "" ErrDeadLetterNotFailed (": current status is " +:+ e_status e))) db
| replay_rolled_back err seq :
    errors_is err ErrDeadLetterNotFound = false →
    errors_is err ErrDeadLetterNotFailed = false → ¬ no_faults →
    (outbox_seq db ≤ seq)%Z →
    replay_outcome id db (Some err) (with_seq seq db).

Lemma replay_discard `{Env} id tx db e :
  errors_is e ErrDeadLetterNotFound = false → errors_is e ErrDeadLetterNotFailed = false →
  ¬ no_faults →
  (outbox_seq db ≤ outbox_seq tx)%Z → replay_outcome id db (Some e) (discard tx db).
Proof. apply replay_rolled_back. Qed.

Lemma update_events_total P f db :
  update_events P (λ r, Some (f r)) db
  = (Some (rows_matching P (events db)), set_events (set_where P f (events db)) db).
Proof. unfold update_events. by rewrite update_where_total. Qed.

Lemma update_outbox_total P f db :
  update_outbox P (λ r, Some (f r)) db
  = (Some (rows_matching P (outbox db)), set_outbox (set_where P f (outbox db)) db).
Proof. unfold update_outbox. by rewrite update_where_total. Qed.

Lemma update_dead_letters_total P f db :
  update_dead_letters P (λ r, Some (f r)) db
  = (Some (rows_matching P (dead_letters db)),
     set_dead_letters (set_where P f (dead_letters db)) db).
Proof. unfold update_dead_letters. by rewrite update_where_total. Qed.

Lemma sql_reset_event_eval now id db : ∃ n t,
  sql_reset_event now id db = (Some n, set_events t db) ∧ dom t = dom (events db).
Proof.
  unfold sql_reset_event. rewrite update_events_total.
  eexists _, _. split; [done|]. apply dom_set_where.
Qed.

Lemma sql_mark_replayed_eval now id db : ∃ n t,
  sql_mark_replayed now id db = (Some n, set_dead_letters t db).
Proof. unfold sql_mark_replayed. rewrite update_dead_letters_total. by eexists _, _. Qed.

(** The insert of the replay happens only when the event has no outbox row,
    and then it succeeds. *)
Lemma replay_insert_ok id ty rid p now db n db1 :
  is_Some (events db !! id) → sql_reopen_outbox id db = (Some n, db1) → n = 0%Z →
  (sql_insert_outbox id ty rid p now db1).1 = Some 1%Z ∧ db1 = db.
Proof.
  intros [e He] Hr ->. unfold sql_reopen_outbox in Hr. rewrite update_outbox_total in Hr.
  injection Hr as Hn <-. pose proof (proj1 (rows_matching_0 _ _) Hn) as Hnone.
  rewrite set_where_none by done.
  assert (set_outbox (outbox db) db = db) as -> by by destruct db.
  split; [|done]. unfold sql_insert_outbox. rewrite He.
  destruct (outbox_of id db) as [|[i r] l] eqn:Eo; [done|].
  assert ((i, r) ∈ outbox_of id db) as [Hi Ht]%elem_of_select_where by (rewrite Eo; left).
  by rewrite (Hnone i r) in Ht.
Qed.

Lemma reopened_seq id e now db :
  (outbox_seq db ≤ outbox_seq (reopened id e now db))%Z.
Proof.
  unfold reopened, sql_reopen_outbox. rewrite update_outbox_total.
  case_bool_decide; simpl; [|lia]. rewrite sql_insert_outbox_seq. simpl. lia.
Qed.

Lemma ReplayDeadLetter_outcome `{Env} ctx id w :
  w_tx w = None →
  wp (ReplayDeadLetter ctx id)
     (λ r w', w_tx w' = None ∧ replay_outcome id (w_db w) r (w_db w')) w.
Proof.
  intros Htx. unfold ReplayDeadLetter.
  assert (∀ err, errors_is err ErrDeadLetterNotFound = false →
    errors_is err ErrDeadLetterNotFailed = false → ¬ no_faults →
    replay_outcome id (w_db w) (Some err) (w_db w)) as Hunch.
  { intros. rewrite <- (with_seq_id (w_db w)) at 2. apply replay_rolled_back; [done..|lia]. }
  do 2 wp_step; [|wp_step; split; [done|]; apply Hunch; [not_sentinel|not_sentinel|faulty]].
  destruct (events (w_db w) !! id) as [e|] eqn:Ee, (dead_letters (w_db w) !! id) as [d|] eqn:Ed.
  2-4: assert (sql_select_replay id (w_db w) = (Some None, w_db w)) as Hsel
         by (unfold sql_select_replay; by rewrite Ee, ?Ed).
  2-4: repeat (wp_step; known_stmt Hsel); (split; [done|]); rewrite discard_same;
         first [apply replay_not_found; tauto | apply Hunch; [not_sentinel|not_sentinel|faulty]].
  assert (sql_select_replay id (w_db w)
          = (Some (Some (e_status e, e_type e, e_request_id e, e_payload e)), w_db w)) as Hsel
    by (unfold sql_select_replay; by rewrite Ee, Ed).
  do 3 wp_step; known_stmt Hsel; [|wp_steps; split; [done|]; rewrite discard_same;
    apply Hunch; [not_sentinel|not_sentinel|faulty]].
  case_bool_decide as Hst; simpl; last first.
  { wp_steps. split; [done|]. rewrite discard_same. by eapply replay_not_failed. }
  do 2 wp_step. generalize (env_clock (S (S (w_tick w)))) as now. intros now.
  destruct (sql_reset_event_eval now id (w_db w)) as (n1 & t1 & Hreset & Hdom).
  assert (is_Some (t1 !! id)) as Hid by (apply elem_of_dom; rewrite Hdom; by apply elem_of_dom_2 in Ee).
  destruct (sql_reopen_outbox id (set_events t1 (w_db w))) as [[n2|] db2] eqn:Hreopen;
    [|unfold sql_reopen_outbox in Hreopen; by rewrite update_outbox_total in Hreopen].
  assert (outbox_seq db2 = outbox_seq (w_db w)) as Hseq2
    by (unfold sql_reopen_outbox in Hreopen; rewrite update_outbox_total in Hreopen; by simplify_eq/=).
  set (db3 := reopened id e now (set_events t1 (w_db w))).
  assert (replayed id e now (w_db w) = (sql_mark_replayed now id db3).2) as Hfin
    by (unfold replayed; by rewrite Hreset).
  destruct (sql_mark_replayed_eval now id db3) as (n4 & t4 & Hmark). rewrite Hmark in Hfin. simpl in Hfin.
  assert (outbox_seq (w_db w) ≤ outbox_seq db3)%Z as Hseq3
    by (etrans; [|apply reopened_seq]; done).
  destruct (Z.eqb_spec n2 0) as [Hn2|Hn2].
  - destruct (replay_insert_ok _ (e_type e) (e_request_id e) (e_payload e) now
                (set_events t1 (w_db w)) _ _ Hid Hreopen Hn2)
      as [Hins _]. subst n2.
    destruct (sql_insert_outbox id (e_type e) (e_request_id e) (e_payload e) now db2)
      as [a3 db3'] eqn:Eins. simpl in Hins. subst a3.
    assert (db3' = db3) as -> by (unfold db3, reopened; by rewrite Hreopen, Eins).
    repeat (wp_step; known_stmt Hreset; known_stmt Hreopen; known_stmt Eins; known_stmt Hmark).
    all: split; [done|]; try (apply replay_discard; [not_sentinel|not_sentinel|faulty|simpl; lia]).
    + rewrite <- Hfin. by eapply replay_committed.
    + rewrite <- Hfin. eapply replay_commit_unknown; [done..|not_sentinel|not_sentinel|faulty].
  - assert (db2 = db3) as ->
      by (unfold db3, reopened; rewrite Hreopen, bool_decide_eq_false_2 by naive_solver; done).
    apply Z.eqb_neq in Hn2.
    repeat (wp_step; known_stmt Hreset; known_stmt Hreopen; rewrite ?Hn2; known_stmt Hmark).
    all: split; [done|]; try (apply replay_discard; [not_sentinel|not_sentinel|faulty|simpl; lia]).
    + rewrite <- Hfin. by eapply replay_committed.
    + rewrite <- Hfin. eapply replay_commit_unknown; [done..|not_sentinel|not_sentinel|faulty].
Qed.

(** ** The tables after the two transactions, row by row *)

Definition new_event_row (ev : Event) (payload : string) (now : Z) : EventRow :=
  mkEventRow (Event_Type ev) payload EventStatusQueued "" 0 (timestamptz now) (timestamptz now)
    None (Event_RequestID ev).

Definition new_outbox_row (ev : Event) (payload : string) (now : Z) : OutboxRow :=
  mkOutboxRow (Event_ID ev) (Event_Type ev) payload 0 "" (timestamptz now) None None None
    (Event_RequestID ev).

Lemma saved_eval ev payload now db :
  db_wf db → events db !! Event_ID ev = None →
  saved ev payload now db =
    mkDatabase (<[Event_ID ev := new_event_row ev payload now]> (events db))
      (<[outbox_seq db := new_outbox_row ev payload now]> (outbox db))
      (dead_letters db) (outbox_seq db + 1).
Proof.
  intros Hwf Hnew. pose proof (saved_insert_ok ev payload now db Hwf Hnew) as Hok.
  unfold saved, sql_insert_event in *. rewrite Hnew in *. simpl in *.
  unfold sql_insert_outbox in *. simpl in *. rewrite lookup_insert_eq in *.
  by destruct (outbox_of _ _).
Qed.

(** A sequence value lost to a rollback does not hurt. *)
Lemma with_seq_wf seq db : (outbox_seq db ≤ seq)%Z → db_wf db → db_wf (with_seq seq db).
Proof.
  intros Hs Hwf. constructor; simpl; try apply Hwf.
  - pose proof (wf_seq _ Hwf). lia.
  - intros i r Hr. apply (wf_ids _ Hwf) in Hr. lia.
Qed.

Lemma saved_wf ev payload now db :
  db_wf db → events db !! Event_ID ev = None → db_wf (saved ev payload now db).
Proof.
  intros Hwf Hnew. unfold saved. apply sql_insert_outbox_wf; [|by apply sql_insert_event_wf].
  unfold sql_insert_event. rewrite Hnew. simpl. intros e. rewrite lookup_insert_eq.
  by intros [= <-].
Qed.

Lemma saved_complete ev payload now db :
  db_wf db → events db !! Event_ID ev = None → outbox_complete db →
  outbox_complete (saved ev payload now db).
Proof.
  intros Hwf Hnew Hc id. rewrite saved_eval by done. simpl. intros Hid.
  destruct (decide (Event_ID ev = id)) as [<-|Hne].
  - exists (outbox_seq db), (new_outbox_row ev payload now). by rewrite lookup_insert_eq.
  - rewrite lookup_insert_ne in Hid by done. destruct (Hc id Hid) as (i & r & Hr & Hid').
    exists i, r. split; [|done]. rewrite lookup_insert_ne; [done|].
    apply (wf_ids _ Hwf) in Hr. lia.
Qed.

Lemma reopened_wf id e now db :
  (∀ e', events db !! id = Some e' → e_content e' = e_content e) →
  db_wf db → db_wf (reopened id e now db).
Proof.
  intros He Hwf. unfold reopened.
  destruct (sql_reopen_outbox id db) as [n db1] eqn:Er.
  assert (db_wf db1) as Hwf1 by (pose proof (sql_reopen_outbox_wf id db Hwf) as H; by rewrite Er in H).
  case_bool_decide; [|done]. apply sql_insert_outbox_wf; [|done].
  unfold sql_reopen_outbox in Er. rewrite update_outbox_total in Er. by simplify_eq/=.
Qed.

Lemma replayed_wf id e now db :
  events db !! id = Some e → db_wf db → db_wf (replayed id e now db).
Proof.
  intros He Hwf. unfold replayed. apply sql_mark_replayed_wf, reopened_wf;
    [|by apply sql_reset_event_wf].
  intros e'. unfold sql_reset_event. rewrite update_events_total. simpl.
  rewrite lookup_set_where, He. simpl. intros [= <-]. by case_match.
Qed.

(** Outbox rows never disappear and stay with their event. *)
Definition outbox_grows (db db' : Database) : Prop :=
  ∀ i r, outbox db !! i = Some r → ∃ r', outbox db' !! i = Some r' ∧ o_event_id r' = o_event_id r.

#[export] Instance outbox_grows_preorder : PreOrder outbox_grows.
Proof.
  split; [intros db i r; eauto|]. intros a b c Hab Hbc i r Hr.
  destruct (Hab _ _ Hr) as (r1 & H1 & <-). destruct (Hbc _ _ H1) as (r2 & H2 & <-). eauto.
Qed.

Lemma set_where_grows P f db :
  (∀ r, o_event_id (f r) = o_event_id r) →
  outbox_grows db (set_outbox (set_where P f (outbox db)) db).
Proof.
  intros Hf i r Hr. simpl. rewrite lookup_set_where, Hr. simpl. eexists. split; [done|].
  by case_match.
Qed.

(** Same events, more outbox rows: the publication intents remain. *)
Lemma grows_complete db db' :
  outbox_grows db db' → dom (events db') = dom (events db) →
  outbox_complete db → outbox_complete db'.
Proof.
  intros Hg Hd Hc id Hid. destruct (Hc id) as (i & r & Hr & <-).
  - apply elem_of_dom. rewrite <- Hd. by apply elem_of_dom.
  - destruct (Hg _ _ Hr) as (r' & ? & ?). eauto.
Qed.

(** ** Store methods touch neither the metrics nor the broker *)

Section SilentStore.
Context `{E : Env} `{C : JsonCodec}.

Lemma silent_SaveQueuedWithOutbox ctx ev : silent (SaveQueuedWithOutbox ctx ev).
Proof. unfold SaveQueuedWithOutbox. solve_silent. Qed.

Lemma silent_ClaimPendingOutbox ctx limit lease : silent (ClaimPendingOutbox ctx limit lease).
Proof. unfold ClaimPendingOutbox, newOutboxDispatchToken. solve_silent. Qed.

Lemma silent_MarkOutboxPublished ctx m : silent (MarkOutboxPublished ctx m).
Proof. unfold MarkOutboxPublished. solve_silent. Qed.

Lemma silent_MarkOutboxFailed ctx m e : silent (MarkOutboxFailed ctx m e).
Proof. unfold MarkOutboxFailed. solve_silent. Qed.

Lemma silent_ClaimForProcessing ctx id lease : silent (ClaimForProcessing ctx id lease).
Proof. unfold ClaimForProcessing. solve_silent. Qed.

Lemma silent_MarkProcessed ctx id n : silent (MarkProcessed ctx id n).
Proof. unfold MarkProcessed. solve_silent. Qed.

Lemma silent_MarkFailed ctx id n e : silent (MarkFailed ctx id n e).
Proof. unfold MarkFailed. solve_silent. Qed.

Lemma silent_SaveDeadLetter ctx ev e n : silent (SaveDeadLetter ctx ev e n).
Proof. unfold SaveDeadLetter. solve_silent. Qed.

Lemma silent_ReplayDeadLetter ctx id : silent (ReplayDeadLetter ctx id).
Proof. unfold ReplayDeadLetter. solve_silent. Qed.

Lemma silent_ClaimDetails ctx limit n : silent (ClaimRetryableDeadLetterDetails ctx limit n).
Proof. unfold ClaimRetryableDeadLetterDetails. solve_silent. Qed.

Lemma silent_RescheduleWithDelay ctx id e d : silent (RescheduleDeadLetterRetryWithDelay ctx id e d).
Proof. unfold RescheduleDeadLetterRetryWithDelay. solve_silent. Qed.

Lemma silent_ListDeadLetters ctx limit : silent (ListDeadLetters ctx limit).
Proof. unfold ListDeadLetters. solve_silent. Qed.

Lemma silent_OperationalMetrics ctx : silent (OperationalMetrics ctx).
Proof. unfold OperationalMetrics. solve_silent. Qed.

End SilentStore.

#[export] Hint Resolve silent_SaveQueuedWithOutbox silent_ClaimPendingOutbox
  silent_MarkOutboxPublished silent_MarkOutboxFailed silent_ClaimForProcessing
  silent_MarkProcessed silent_MarkFailed silent_SaveDeadLetter silent_ReplayDeadLetter
  silent_ClaimDetails silent_RescheduleWithDelay silent_ListDeadLetters
  silent_OperationalMetrics : webhook.
