(* ===== verification/StoreProps.v ===== *)
(** * What the event store promises

    The invariant of the tables under any sequence of calls and any failures,
    and the atomicity of accepting an event. *)

From stdpp Require Import base gmap strings list pretty.
From Stdlib Require Import ZArith Lia Ascii.
From S2P Require Import Prelude GoLib Models Metrics Sql Database DbInvariant World Scenario.
From S2P Require Import EventStore StoreLogic.

Open Scope go_scope.

(** ** Sequences of calls *)

(** A call of a store method with its arguments. *)
Inductive StoreOp :=
| OpSave (ctx : Ctx) (ev : Event)
| OpClaimOutbox (ctx : Ctx) (limit lease : Z)
| OpListPending (ctx : Ctx) (limit : Z)
| OpMarkPublished (ctx : Ctx) (m : OutboxMessage)
| OpMarkOutboxFailed (ctx : Ctx) (m : OutboxMessage) (e : GoError)
| OpClaimProcessing (ctx : Ctx) (id : string) (lease : Z)
| OpMarkProcessed (ctx : Ctx) (id : string) (attempts : Z)
| OpMarkFailed (ctx : Ctx) (id : string) (attempts : Z) (e : GoError)
| OpList (ctx : Ctx) (limit : Z)
| OpSaveDeadLetter (ctx : Ctx) (ev : Event) (e : GoError) (attempts : Z)
| OpReplay (ctx : Ctx) (id : string)
| OpClaimDead (ctx : Ctx) (limit maxAttempts : Z)
| OpClaimDeadDetails (ctx : Ctx) (limit maxAttempts : Z)
| OpReschedule (ctx : Ctx) (id : string) (e : GoError)
| OpRescheduleDelay (ctx : Ctx) (id : string) (e : GoError) (delay : Z)
| OpListDead (ctx : Ctx) (limit : Z)
| OpOperational (ctx : Ctx).

Definition void {A} (m : M A) : M unit := _ ← m; mret tt.

Section Ops.
Context `{E : Env} `{C : JsonCodec}.

Definition run_op (op : StoreOp) : M unit :=
  match op with
  | OpSave ctx ev => void (SaveQueuedWithOutbox ctx ev)
  | OpClaimOutbox ctx limit lease => void (ClaimPendingOutbox ctx limit lease)
  | OpListPending ctx limit => void (ListPendingOutbox ctx limit)
  | OpMarkPublished ctx m => void (MarkOutboxPublished ctx m)
  | OpMarkOutboxFailed ctx m e => void (MarkOutboxFailed ctx m e)
  | OpClaimProcessing ctx id lease => void (ClaimForProcessing ctx id lease)
  | OpMarkProcessed ctx id n => void (MarkProcessed ctx id n)
  | OpMarkFailed ctx id n e => void (MarkFailed ctx id n e)
  | OpList ctx limit => void (List_ ctx limit)
  | OpSaveDeadLetter ctx ev e n => void (SaveDeadLetter ctx ev e n)
  | OpReplay ctx id => void (ReplayDeadLetter ctx id)
  | OpClaimDead ctx limit m => void (ClaimRetryableDeadLetters ctx limit m)
  | OpClaimDeadDetails ctx limit m => void (ClaimRetryableDeadLetterDetails ctx limit m)
  | OpReschedule ctx id e => void (RescheduleDeadLetterRetry ctx id e)
  | OpRescheduleDelay ctx id e d => void (RescheduleDeadLetterRetryWithDelay ctx id e d)
  | OpListDead ctx limit => void (ListDeadLetters ctx limit)
  | OpOperational ctx => void (OperationalMetrics ctx)
  end.

Fixpoint run_ops (ops : list StoreOp) (w : World) : World :=
  match ops with
  | [] => w
  | op :: ops => run_ops ops (run_op op w).2
  end.

End Ops.

(** What the calls of a run may do: the expiry limits an outbox claim may use,
    the rows and tokens a publication result may name, the events and expiry
    limits of processing claims, the events that may reach a terminal state,
    the attempt limits of dead letter claims. *)
Record Policy := mkPolicy {
  may_claim : Z → Prop;
  may_mark : Z → string → Prop;
  may_process : string → Z → Prop;
  may_finish : string → Prop;
  may_retry : Z → Prop;
}.

(** No restriction. *)
Definition any_call : Policy :=
  mkPolicy (λ _, True) (λ _ _, True) (λ _ _, True) (λ _, True) (λ _, True).

(** A property of the tables that both transactions and every statement
    allowed by the policy keep. *)
Class TableInvariant (pol : Policy) (Q : Database → Prop) : Prop := {
  ti_wf : ∀ db, Q db → db_wf db;
  ti_seq : ∀ db seq, Q db → (outbox_seq db ≤ seq)%Z → Q (with_seq seq db);
  ti_saved : ∀ ev p now db, Q db → events db !! Event_ID ev = None → Q (saved ev p now db);
  ti_replayed : ∀ id e now db, Q db → events db !! id = Some e →
    e_status e = EventStatusFailed → Q (replayed id e now db);
  ti_claim_outbox : ∀ x y tok now locked order db, may_claim pol x → Q db →
    Q (sql_claim_outbox x y tok now locked order db).2;
  ti_published : ∀ now id tok db, may_mark pol id tok → Q db →
    Q (sql_mark_outbox_published now id tok db).2;
  ti_outbox_failed : ∀ err id tok db, may_mark pol id tok → Q db →
    Q (sql_mark_outbox_failed err id tok db).2;
  ti_claim_processing : ∀ now id x db, may_process pol id x → Q db →
    Q (sql_claim_processing now id x db).2;
  ti_final : ∀ status err n now id db,
    status = EventStatusProcessed ∨ status = EventStatusFailed → may_finish pol id → Q db →
    Q (sql_mark_final status err n now id db).2;
  ti_dead_letter : ∀ id ty rid p err n a b c db, Q db →
    Q (sql_save_dead_letter id ty rid p err n a b c db).2;
  ti_claim_dead : ∀ now m y locked coll o1 o2 db, may_retry pol m → Q db →
    Q (sql_claim_dead_letters now m y locked coll o1 o2 db).2;
  ti_reschedule : ∀ next err id db, Q db → Q (sql_reschedule next err id db).2;
}.

(** The call is allowed when it starts at the [n]-th interaction. *)
Definition op_ok `{Env} (pol : Policy) (op : StoreOp) (n : nat) : Prop :=
  match op with
  | OpClaimOutbox _ _ lease => may_claim pol (env_clock (S n) + wrap64 (- lease))
  | OpMarkPublished _ m | OpMarkOutboxFailed _ m _ =>
      may_mark pol (Message_ID m) (Message_DispatchToken m)
  | OpClaimProcessing _ id lease => may_process pol id (env_clock n + wrap64 (- lease))
  | OpMarkProcessed _ id _ | OpMarkFailed _ id _ _ => may_finish pol id
  | OpClaimDead _ _ m | OpClaimDeadDetails _ _ m => may_retry pol m
  | _ => True
  end.

(** Every call of the run is allowed when its turn comes. *)
Fixpoint ops_ok `{Env} `{JsonCodec} (pol : Policy) (ops : list StoreOp) (w : World) : Prop :=
  match ops with
  | [] => True
  | op :: ops => op_ok pol op (w_tick w) ∧ ops_ok pol ops (run_op op w).2
  end.

Definition keeps (Q : Database → Prop) (db db' : Database) : Prop := Q db → Q db'.

#[export] Instance keeps_preorder Q : PreOrder (keeps Q).
Proof. split; unfold keeps; [intros ?|intros ???]; auto. Qed.

(** A method that ends with its deferred rollback leaves no transaction open. *)
Lemma rollback_closes `{Env} {A} (body : M A) w :
  wp (r ← body; rollback;; mret r) (λ _ w', w_tx w' = None) w.
Proof.
  wp_step. apply (wp_wand _ (λ _ _, True)); [done|]. intros r w1 _. wp_step.
  destruct (w_tx w1) eqn:Et; [eapply wp_rollback_open; [done|]|apply wp_rollback_done; [done|]];
    by wp_step.
Qed.

Section Invariants.
Context `{E : Env} `{C : JsonCodec}.
Context (pol : Policy) (Q : Database → Prop) {HI : TableInvariant pol Q}.

Lemma Save_keeps ctx ev : evolves (keeps Q) (SaveQueuedWithOutbox ctx ev).
Proof.
  intros w Hw. split.
  - unfold SaveQueuedWithOutbox. case_match; [done|].
    apply (wp_check _ _ _ (λ _ w', w_tx w' = None)).
    wp_step; [apply rollback_closes|by wp_step].
  - intros HQ. pose proof (SaveQueuedWithOutbox_outcome ctx ev w Hw (ti_wf _ HQ)) as [_ Ho].
    destruct HI. inversion Ho; simplify_eq; eauto.
Qed.

Lemma Replay_keeps ctx id : evolves (keeps Q) (ReplayDeadLetter ctx id).
Proof.
  intros w Hw. pose proof (ReplayDeadLetter_outcome ctx id w Hw) as [Htx Ho].
  split; [done|]. intros HQ. destruct HI. inversion Ho; simplify_eq; eauto.
Qed.

(** A statement whose effect keeps [Q] in the current state. *)
Lemma db_call_keeps {A B} ctx (s : nat → Stmt A) (h : GoError → M B) (k : A → M B) w :
  w_tx w = None → (Q (w_db w) → Q (s (w_tick w) (w_db w)).2) →
  (∀ e, evolves (keeps Q) (h e)) → (∀ a, evolves (keeps Q) (k a)) →
  wp (M_try (db_call ctx s) h k) (λ _ w', w_tx w' = None ∧ keeps Q (w_db w) (w_db w')) w.
Proof.
  intros Hw Hs Hh Hk. apply wp_try. unfold keeps.
  assert (∀ w', w_tx w' = None → (Q (w_db w) → Q (w_db w')) → ∀ m : M B, evolves (keeps Q) m →
    wp m (λ _ w'', w_tx w'' = None ∧ (Q (w_db w) → Q (w_db w''))) w') as Hm.
  { intros w' Hw' HQ m Hev. destruct (Hev w' Hw') as [? Hq]. split; [done|]. auto. }
  wp_step; (apply Hm; simpl; [done| |done]); [| |done|]; intros HQ%Hs;
    by match goal with H : s _ _ = _ |- _ => rewrite H in HQ end.
Qed.

Lemma ClaimPendingOutbox_keeps ctx limit lease w :
  w_tx w = None → may_claim pol (env_clock (S (w_tick w)) + wrap64 (- lease)) →
  wp (ClaimPendingOutbox ctx limit lease) (λ _ w', w_tx w' = None ∧ keeps Q (w_db w) (w_db w')) w.
Proof.
  intros Hw Hp. unfold ClaimPendingOutbox, newOutboxDispatchToken. do 3 wp_step; [|by wp_steps].
  wp_step. do 2 wp_step. apply (db_call_keeps _ _ _ _ (tick (tick w))); [done| |intros e|intros a].
  - intros HQ. by apply (ti_claim_outbox _ _ _ _ _ _ _ Hp).
  - solve_evolves.
  - solve_evolves.
Qed.

Lemma ClaimForProcessing_keeps ctx id lease w :
  w_tx w = None → may_process pol id (env_clock (w_tick w) + wrap64 (- lease)) →
  wp (ClaimForProcessing ctx id lease) (λ _ w', w_tx w' = None ∧ keeps Q (w_db w) (w_db w')) w.
Proof.
  intros Hw Hp. unfold ClaimForProcessing. do 2 wp_step.
  apply (db_call_keeps _ _ _ _ (tick w)); [done| |intros e|intros a].
  - intros HQ. by apply (ti_claim_processing _ _ _ _ Hp).
  - solve_evolves.
  - solve_evolves. by intros HQ.
Qed.

Lemma run_op_keeps op w :
  w_tx w = None → op_ok pol op (w_tick w) →
  w_tx (run_op op w).2 = None ∧ keeps Q (w_db w) (w_db (run_op op w).2).
Proof.
  intros Hw Hok. destruct op; simpl in *; unfold void; rewrite M_bind_run; simpl.
  2: by apply ClaimPendingOutbox_keeps.
  5: by apply ClaimForProcessing_keeps.
  1: by apply Save_keeps.
  8: by apply Replay_keeps.
  all: match goal with x : World |- context [(?m ?x).2] =>
    let H := fresh in assert (evolves (keeps Q) m) as H; [|by apply H] end.
  all: unfold ListPendingOutbox, MarkOutboxPublished,
    MarkOutboxFailed, MarkProcessed, MarkFailed, List_, SaveDeadLetter,
    ClaimRetryableDeadLetters, ClaimRetryableDeadLetterDetails, RescheduleDeadLetterRetry,
    RescheduleDeadLetterRetryWithDelay, ListDeadLetters, OperationalMetrics.
  all: try case_match; solve_evolves; intros HQ.
  all: unfold sql_mark_processed, sql_mark_failed; destruct HI; eauto.
  all: unfold sql_list_pending_outbox, sql_list_events, sql_list_dead_letters; by case_match.
Qed.

Lemma run_ops_keeps ops w :
  ops_ok pol ops w → w_tx w = None → Q (w_db w) →
  w_tx (run_ops ops w) = None ∧ Q (w_db (run_ops ops w)).
Proof.
  revert w. induction ops as [|op ops IH]; intros w Hok Hw HQ; [done|].
  destruct Hok as [Hop Hok]. simpl. destruct (run_op_keeps op w Hw Hop) as [Hw' HQ'].
  by apply IH; [| |apply HQ'].
Qed.

End Invariants.

Lemma any_call_ok `{Env} `{JsonCodec} ops w : ops_ok any_call ops w.
Proof. revert w. induction ops as [|[] ops IH]; intros w; simpl; auto. Qed.

(** ** The invariant of the tables *)

Definition db_inv (db : Database) : Prop := db_wf db ∧ outbox_complete db.

Lemma reopened_effect id e now db :
  db_wf db → events (reopened id e now db) = events db
  ∧ dead_letters (reopened id e now db) = dead_letters db
  ∧ outbox_grows db (reopened id e now db).
Proof.
  intros Hwf. unfold reopened, sql_reopen_outbox. rewrite update_outbox_total.
  case_bool_decide as Hz; last first.
  { split_and!; [done..|]. by apply set_where_grows. }
  split_and!.
  1,2: unfold sql_insert_outbox; by repeat case_match.
  etrans; [by apply (set_where_grows (λ _ r, bool_decide (o_event_id r = id)) reopened_row)|].
  intros i r Hr. exists r. unfold sql_insert_outbox.
  repeat case_match; simpl in *; try (by split). split; [|done].
  rewrite lookup_insert_ne; [done|]. intros <-. simpl in Hr.
  rewrite lookup_set_where in Hr. destruct (outbox db !! outbox_seq db) eqn:Eq; [|done].
  apply (wf_ids _ Hwf) in Eq. lia.
Qed.

Lemma replayed_complete id e now db :
  db_wf db → outbox_complete db → outbox_complete (replayed id e now db).
Proof.
  intros Hwf. unfold replayed, sql_mark_replayed. rewrite update_dead_letters_total.
  destruct (reopened_effect id e now (sql_reset_event now id db).2) as (He & _ & Hg);
    [by apply sql_reset_event_wf|].
  apply grows_complete; simpl; rewrite ?He.
  - etrans; [|exact Hg]. unfold sql_reset_event. rewrite update_events_total. intros i r Hr. eauto.
  - unfold sql_reset_event. rewrite update_events_total. simpl. apply dom_set_where.
Qed.

(** An update of the events alone, or of the dead letters alone, keeps every
    publication intent; so does one of the outbox that keeps the event ids. *)
Lemma update_events_complete P f db :
  outbox_complete db → outbox_complete (update_events P f db).2.
Proof.
  unfold update_events. destruct (update_where P f (events db)) as [[n t]|] eqn:Eu; [|done].
  apply update_where_some in Eu as (_ & -> & _). apply grows_complete; simpl.
  - intros i r Hr. eauto.
  - apply dom_set_where.
Qed.

Lemma update_outbox_complete P f db :
  (∀ r r', f r = Some r' → o_event_id r' = o_event_id r) →
  outbox_complete db → outbox_complete (update_outbox P f db).2.
Proof.
  intros Hf. unfold update_outbox.
  destruct (update_where P f (outbox db)) as [[n t]|] eqn:Eu; [|done].
  apply update_where_some in Eu as (_ & -> & _). apply grows_complete; [|done].
  apply set_where_grows. intros r. destruct (f r) eqn:Ef; [by eapply Hf|done].
Qed.

Lemma set_dead_letters_complete t db : outbox_complete db → outbox_complete (set_dead_letters t db).
Proof. done. Qed.

Lemma update_dead_letters_complete P f db :
  outbox_complete db → outbox_complete (update_dead_letters P f db).2.
Proof. unfold update_dead_letters. by destruct (update_where _ _ _) as [[n t]|]. Qed.

#[export] Instance db_inv_invariant : TableInvariant any_call db_inv.
Proof.
  constructor; unfold db_inv.
  - by intros db [].
  - intros db seq [] ?. split; [by apply with_seq_wf|done].
  - intros ev p now db [] ?. split; [by apply saved_wf|by apply saved_complete].
  - intros id e now db [] ??. split; [by apply replayed_wf|by apply replayed_complete].
  - intros x y tok now locked order db _ [Hw Hc]. split; [by apply sql_claim_outbox_wf|].
    unfold sql_claim_outbox. case_match; [done|]. revert Hc. apply grows_complete; [|done].
    by apply set_where_grows.
  - intros now id tok db _ []. split; [by apply sql_mark_outbox_published_wf|].
    apply update_outbox_complete; [|done]. by intros r r' [= <-].
  - intros err id tok db _ []. split; [by apply sql_mark_outbox_failed_wf|].
    apply update_outbox_complete; [|done]. unfold publish_failed_row.
    intros r r' Hr. by case_match; simplify_eq.
  - intros now id lease db _ []. split; [by apply sql_claim_processing_wf|].
    by apply update_events_complete.
  - intros status err n now id db Hs _ []. split; [by apply sql_mark_final_wf|].
    unfold sql_mark_final. case_match; [by apply update_events_complete|done].
  - intros. split; [by apply sql_save_dead_letter_wf, H|]. unfold sql_save_dead_letter.
    case_match; [|by apply H]. by apply set_dead_letters_complete, H.
  - intros. split; [by apply sql_claim_dead_letters_wf, H0|]. unfold sql_claim_dead_letters.
    case_match; [by apply H0|]. by apply set_dead_letters_complete, H0.
  - intros next err id db []. split; [by apply sql_reschedule_wf|].
    by apply update_dead_letters_complete.
Qed.

(** C5: from an empty database, after any sequence of store calls, under any
    clock, row locks, row orders and database failures (applied or not), the
    tables are well formed: statuses are the four declared ones, an event has a
    processing start exactly while it is processing, outbox ids come from the
    sequence, each outbox row belongs to exactly one existing event and carries
    its content, tokens and dispatch times go together and are gone once
    published; and every accepted event has its outbox row. *)
Theorem store_calls_keep_tables_wf `{Env} `{JsonCodec} ops w :
  w_tx w = None → w_db w = empty_database →
  db_wf (w_db (run_ops ops w)) ∧ outbox_complete (w_db (run_ops ops w)).
Proof.
  intros Htx Hdb. apply (run_ops_keeps any_call db_inv); [apply any_call_ok|done|].
  rewrite Hdb. apply empty_database_wf.
Qed.

Lemma store_calls_keep_tables_wf_witness :
  let H := calm_env 1000 in let H0 := simple_codec in
  let ops := [OpSave Background event_1; OpClaimOutbox Background 10 30;
              OpMarkFailed Background "evt-001" 4 (ErrMsg "boom")] in
  db_wf (w_db (run_ops ops empty_world)) ∧ outbox_complete (w_db (run_ops ops empty_world)).
Proof.
  intros H H0 ops. apply (store_calls_keep_tables_wf ops empty_world); reflexivity.
Defined.

(** ** Accepting an event *)

Section Save.
Context `{E : Env} `{C : JsonCodec}.

(** C1: SaveQueuedWithOutbox is atomic under every failure, a commit whose
    outcome is unknown included: either all three tables are as before and the
    call reports an error, or the event did not exist and both its queued row
    and its unpublished outbox row (with the same type, request id and encoded
    payload) have been added.  The result tells which, except for a failed commit:
    nil is returned in the second case only; every error other than the wrapped
    error of the commit is returned in the first only, ErrEventAlreadyExists
    for an event that existed; a commit error can be returned in both. *)
Theorem SaveQueuedWithOutbox_atomic ctx ev w :
  w_tx w = None → db_wf (w_db w) →
  let r := (SaveQueuedWithOutbox ctx ev w).1 in
  let db := w_db w in
  let db' := w_db (SaveQueuedWithOutbox ctx ev w).2 in
  (events db' = events db ∧ outbox db' = outbox db ∧ dead_letters db' = dead_letters db
   ∧ ∃ e, r = Some e
     ∧ (errors_is e ErrEventAlreadyExists = true → is_Some (events db !! Event_ID ev)))
  ∨ (events db !! Event_ID ev = None
     ∧ (∀ e, r = Some e → errors_is e ErrEventAlreadyExists = false
          ∧ ∃ cause, e = errorf "commit event transaction: " cause)
     ∧ ∃ payload now i,
         json_marshal (Event_Payload ev) = inr payload ∧ outbox db !! i = None
         ∧ events db' = <[Event_ID ev := new_event_row ev payload now]> (events db)
         ∧ outbox db' = <[i := new_outbox_row ev payload now]> (outbox db)
         ∧ dead_letters db' = dead_letters db).
Proof.
  intros Htx Hwf r db db'.
  destruct (SaveQueuedWithOutbox_outcome ctx ev w Htx Hwf) as [_ Ho].
  fold r db db' in Ho. clearbody r db'. fold db in Hwf.
  assert (outbox db !! outbox_seq db = None) as Hfresh.
  { destruct (outbox db !! outbox_seq db) as [o|] eqn:Eo; [|done].
    apply (wf_ids _ Hwf) in Eo. lia. }
  inversion Ho; subst.
  - right. rewrite saved_eval by done. split_and!; [done..|]. naive_solver.
  - right. rewrite saved_eval by done. split_and!; [done|naive_solver|]. naive_solver.
  - left. naive_solver.
  - left. split_and!; [done..|]. eexists. split; [done|congruence].
Qed.

(** Without failures, saving an event whose id is taken returns
    ErrEventAlreadyExists and changes no table; saving a new event whose
    payload encodes returns nil. *)
Theorem SaveQueuedWithOutbox_result ctx ev payload w :
  no_faults → w_tx w = None → db_wf (w_db w) →
  json_marshal (Event_Payload ev) = inr payload →
  let r := (SaveQueuedWithOutbox ctx ev w).1 in
  let db' := w_db (SaveQueuedWithOutbox ctx ev w).2 in
  (is_Some (events (w_db w) !! Event_ID ev) → r = Some ErrEventAlreadyExists ∧ db' = w_db w)
  ∧ (events (w_db w) !! Event_ID ev = None → r = None).
Proof.
  intros Hnf Htx Hwf Hj r db'.
  destruct (SaveQueuedWithOutbox_outcome ctx ev w Htx Hwf) as [_ Ho].
  fold r db' in Ho. clearbody r db'.
  inversion Ho as [? ? ? Hnew|? ? ? ? ? ? Hf|Hdup|? ? ? Hf]; subst; [|done| |].
  - split; [|done]. intros []. congruence.
  - split; [done|]. intros Hnew. rewrite Hnew in Hdup. by destruct Hdup.
  - destruct (Hf Hnf). congruence.
Qed.

End Save.

(** The world after event_1 has been accepted in the calm environment. *)
Definition world_saved : World :=
  (@SaveQueuedWithOutbox (calm_env 1000) simple_codec Background event_1 empty_world).2.

Lemma world_saved_inv : w_tx world_saved = None ∧ db_inv (w_db world_saved).
Proof.
  destruct (Save_keeps (E := calm_env 1000) (C := simple_codec) any_call db_inv Background
    event_1 empty_world eq_refl) as [Htx Hk].
  split; [done|]. apply Hk, empty_database_wf.
Qed.

Lemma SaveQueuedWithOutbox_atomic_witness :
  ∃ payload now i,
    events (w_db world_saved) = <["evt-001" := new_event_row event_1 payload now]> ∅
    ∧ outbox (w_db world_saved) = <[i := new_outbox_row event_1 payload now]> ∅.
Proof.
  destruct (SaveQueuedWithOutbox_atomic (E := calm_env 1000) (C := simple_codec) Background
    event_1 empty_world eq_refl (proj1 empty_database_wf)) as [(_ & _ & _ & e & He & _)|(_ & _ & H)].
  - vm_compute in He. discriminate.
  - destruct H as (payload & now & i & _ & _ & He & Ho & _). exists payload, now, i. by split.
Defined.

Lemma SaveQueuedWithOutbox_result_witness :
  (@SaveQueuedWithOutbox (calm_env 1000) simple_codec Background event_1 empty_world).1 = None
  ∧ (@SaveQueuedWithOutbox (calm_env 2000) simple_codec Cancellable event_1 world_saved).1
    = Some ErrEventAlreadyExists.
Proof.
  split.
  - refine (proj2 (SaveQueuedWithOutbox_result (E := calm_env 1000) (C := simple_codec) Background
      event_1 "null" empty_world (calm_env_no_faults _) eq_refl (proj1 empty_database_wf) eq_refl) eq_refl).
  - refine (proj1 (proj1 (SaveQueuedWithOutbox_result (E := calm_env 2000) (C := simple_codec)
      Cancellable event_1 "null" world_saved (calm_env_no_faults _) (proj1 world_saved_inv)
      (proj1 (proj2 world_saved_inv)) eq_refl) _)).
    vm_compute. eauto.
Defined.

