(* ===== verification/StoreOutbox.v ===== *)
(** * The reservation protocol of the outbox

    A claim reserves the oldest unpublished rows under a fresh token for the
    duration of a lease; only the holder of the token can record the result of
    the publication.  Which rows a claim takes, that reservations exclude each
    other within the lease, and that a stale token changes nothing. *)

From stdpp Require Import base gmap strings list pretty.
From Stdlib Require Import ZArith Lia Ascii.
From S2P Require Import Prelude GoLib Models Metrics Sql Database DbInvariant World Scenario.
From S2P Require Import EventStore StoreLogic StoreProps.

Open Scope go_scope.

(** ** The reservation protocol of the outbox *)

Section Outbox.
Context `{E : Env} `{C : JsonCodec}.

Lemma collect_ok {A B} (f : A → result B) rows items :
  collect f rows = Ok items ↔ Forall2 (λ r x, f r = Ok x) rows items.
Proof.
  revert items. induction rows as [|r rows IH]; intros items; simpl.
  - split; [intros [= <-]; constructor|by inversion 1].
  - destruct (f r) as [x|e] eqn:Ef; [|split; [done|by inversion 1; congruence]].
    destruct (collect f rows) as [xs|e] eqn:Ec.
    + split; [intros [= <-]; constructor; [done|by apply IH]|].
      inversion 1 as [|? ? ? items' Hx Hr]; subst. apply IH in Hr. congruence.
    + split; [done|]. inversion 1 as [|? ? ? items' Hx Hr]; subst. by apply IH in Hr.
Qed.

(** The message made of a claimed row. *)
Lemma decode_message_ok scan dec i r m :
  decode_message true scan dec (i, r) = Ok m →
  Message_ID m = i ∧ o_dispatch_token r = Some (Message_DispatchToken m)
  ∧ Event_ID (Message_Event m) = o_event_id r
  ∧ Event_Type (Message_Event m) = o_event_type r
  ∧ Event_RequestID (Message_Event m) = o_request_id r
  ∧ json_unmarshal (o_payload r) = inr (Event_Payload (Message_Event m))
  ∧ Message_Attempts m = o_attempts r.
Proof.
  unfold decode_message. destruct (o_dispatch_token r); [|done].
  destruct (json_unmarshal (o_payload r)) eqn:Ej; [done|]. intros [= <-]. done.
Qed.

Lemma NoDup_outbox_candidates x y locked db : NoDup (outbox_candidates x y locked db).*1.
Proof.
  unfold outbox_candidates.
  apply (sublist_NoDup _ (sort_on (λ ir, (ir.1, 0%Z)) (select_where
    (λ id r, claimable x r && negb (locked id)) (outbox db))).*1).
  - rewrite sort_on_perm. apply NoDup_select_where.
  - apply fmap_sublist, sublist_take.
Qed.

(** The rows a claim returns are the candidates with the new token. *)
Lemma claimed_rows x y tok now locked order db rows db' :
  sql_claim_outbox x y tok now locked order db = (Some rows, db') →
  let ids := (outbox_candidates (timestamptz x) y locked db).*1 in
  outbox db' = set_where (λ id _, bool_decide (id ∈ ids)) (claim_row tok (timestamptz now)) (outbox db)
  ∧ events db' = events db ∧ dead_letters db' = dead_letters db
  ∧ rows.*1 ≡ₚ ids
  ∧ ∀ i r', (i, r') ∈ rows → ∃ r, outbox db !! i = Some r ∧ claimable (timestamptz x) r = true
      ∧ locked i = false ∧ r' = claim_row tok (timestamptz now) r.
Proof.
  unfold sql_claim_outbox. case_match; [done|].
  set (ids := (outbox_candidates _ _ _ _).*1). intros ?; simplify_eq/=.
  split_and!; [done..| |].
  - rewrite shuffle_perm. apply NoDup_Permutation.
    + apply NoDup_select_where.
    + by apply NoDup_outbox_candidates.
    + intros i. rewrite list_elem_of_fmap. split.
      * intros ([i' r'] & -> & [_ Hb]%elem_of_select_where). by apply bool_decide_eq_true in Hb.
      * intros Hi. pose proof Hi as Hi'. unfold ids in Hi'.
        apply list_elem_of_fmap in Hi' as ([i' r] & -> & (Hr & _)%elem_of_outbox_candidates).
        simpl in *. exists (i', claim_row tok (timestamptz now) r). split; [done|].
        rewrite elem_of_select_where, lookup_set_where, Hr, bool_decide_eq_true. simpl.
        by rewrite bool_decide_eq_true_2.
  - intros i r'. rewrite elem_of_shuffle, elem_of_select_where, lookup_set_where.
    intros [Hr Hb]. apply bool_decide_eq_true in Hb as Hi.
    destruct (outbox db !! i) as [r|] eqn:Er; [|done].
    simpl in Hr. rewrite Hb in Hr. exists r.
    destruct (candidate_id_row _ _ _ _ _ _ Hi Er). naive_solver.
Qed.

(** The oldest first: a claimable row left out is younger than all those taken,
    and it is left out because the batch is full. *)
Lemma candidates_oldest x y locked db i r :
  outbox db !! i = Some r → claimable x r = true → locked i = false →
  i ∉ (outbox_candidates x y locked db).*1 →
  length (outbox_candidates x y locked db) = Z.to_nat y
  ∧ ∀ j, j ∈ (outbox_candidates x y locked db).*1 → (j < i)%Z.
Proof.
  intros Hr Hc Hl Hout. unfold outbox_candidates in *.
  set (l := sort_on _ _) in *. set (n := Z.to_nat y) in *.
  assert ((i, r) ∈ l) as Hin.
  { unfold l. rewrite elem_of_sort_on, elem_of_select_where. by rewrite Hc, Hl. }
  assert ((i, r) ∈ drop n l) as Hdrop.
  { rewrite <- (take_drop n l), elem_of_app in Hin. destruct Hin as [Hin|]; [|done].
    destruct Hout. apply list_elem_of_fmap. by exists (i, r). }
  split.
  - apply length_take_le. destruct (decide (n ≤ length l)) as [|Hn]; [done|].
    rewrite drop_ge in Hdrop by lia. by apply not_elem_of_nil in Hdrop.
  - intros j Hj. assert (j ≠ i) by naive_solver.
    apply list_elem_of_fmap in Hj as ([j' s] & -> & Hj). simpl in *.
    pose proof (sorted_take_le _ n l (j', s) (i, r) (sort_on_sorted _ _) Hj Hdrop) as Hle.
    unfold lexle in Hle. simpl in Hle. lia.
Qed.

(** What a successful claim has done, in terms of the outbox before and after:
    the specification the dispatcher relies on. *)
Record outbox_claimed (limit expired : Z) (tok : string) (now : Z) (locked : Z → bool)
    (db db' : Database) (msgs : list OutboxMessage) : Prop := {
  oc_limit : (Z.of_nat (length msgs) ≤ limit)%Z;
  oc_distinct : NoDup (Message_ID <$> msgs);
  oc_row : ∀ m, m ∈ msgs → ∃ r,
    outbox db !! Message_ID m = Some r ∧ claimable (timestamptz expired) r = true
    ∧ locked (Message_ID m) = false
    ∧ outbox db' !! Message_ID m = Some (claim_row tok (timestamptz now) r)
    ∧ Message_DispatchToken m = tok ∧ Message_Attempts m = o_attempts r
    ∧ Event_ID (Message_Event m) = o_event_id r ∧ Event_Type (Message_Event m) = o_event_type r
    ∧ Event_RequestID (Message_Event m) = o_request_id r
    ∧ json_unmarshal (o_payload r) = inr (Event_Payload (Message_Event m));
  oc_oldest : ∀ i r, outbox db !! i = Some r → claimable (timestamptz expired) r = true →
    locked i = false → i ∉ (Message_ID <$> msgs) →
    Z.of_nat (length msgs) = limit ∧ ∀ m, m ∈ msgs → (Message_ID m < i)%Z;
  oc_rest : ∀ i, i ∉ (Message_ID <$> msgs) → outbox db' !! i = outbox db !! i;
  oc_events : events db' = events db;
  oc_dead : dead_letters db' = dead_letters db;
}.

Lemma decoded_ids scan dec rows msgs :
  Forall2 (λ r m, decode_message true scan dec r = Ok m) rows msgs → Message_ID <$> msgs = rows.*1.
Proof.
  induction 1 as [|[i r] m rows msgs Hm _ IH]; [done|]. simpl.
  apply decode_message_ok in Hm as [-> _]. by f_equal.
Qed.

Lemma claim_specified x y tok now locked order db rows db' msgs :
  sql_claim_outbox x y tok now locked order db = (Some rows, db') →
  collect (decode_message true "scan claimed outbox message: " "decode claimed outbox message ")
    rows = Ok msgs →
  outbox_claimed y x tok now locked db db' msgs.
Proof.
  intros Hs Hm%collect_ok. pose proof (decoded_ids _ _ _ _ Hm) as Hids.
  assert (0 ≤ y)%Z as Hy by (unfold sql_claim_outbox in Hs; destruct (y <? 0)%Z eqn:Ey; [done|lia]).
  pose proof (claimed_rows _ _ _ _ _ _ _ _ _ Hs) as (Ht & Hev & Hd & Hperm & Hrow).
  set (cand := outbox_candidates (timestamptz x) y locked db) in *.
  assert (∀ i, i ∈ Message_ID <$> msgs ↔ i ∈ cand.*1) as Hin by (intros i; by rewrite Hids, Hperm).
  assert (length msgs = length cand) as Hlen.
  { rewrite <- (length_fmap Message_ID), Hids, Hperm. apply length_fmap. }
  constructor; try done.
  - rewrite Hlen. unfold cand, outbox_candidates. rewrite length_take. lia.
  - rewrite Hids, Hperm. apply NoDup_outbox_candidates.
  - intros m Hmem. assert (∃ ir, ir ∈ rows ∧
      decode_message true "scan claimed outbox message: " "decode claimed outbox message " ir = Ok m)
      as ([i r'] & Hir & Hdec).
    { apply list_elem_of_lookup in Hmem as [k Hk].
      destruct (Forall2_lookup_r _ _ _ _ _ Hm Hk) as (ir & Hk' & ?).
      exists ir. split; [by eapply list_elem_of_lookup_2|done]. }
    destruct (Hrow _ _ Hir) as (r & Hr & Hc & Hl & ->).
    apply decode_message_ok in Hdec as (-> & Htok & ? & ? & ? & ? & ?). simpl in *.
    exists r. split_and!; try done; [|by simplify_eq].
    rewrite Ht, lookup_set_where, Hr. simpl. rewrite bool_decide_eq_true_2; [done|].
    rewrite <- Hperm. apply list_elem_of_fmap. by eexists (_, _).
  - intros i r Hr Hc Hl Hout. rewrite Hin in Hout.
    destruct (candidates_oldest _ y _ _ _ _ Hr Hc Hl Hout) as [Hfull Hlt].
    split; [rewrite Hlen; unfold cand; rewrite Hfull; lia|].
    intros m Hmem. apply Hlt, Hin. by apply list_elem_of_fmap_2.
  - intros i Hout. rewrite Ht, lookup_set_where.
    destruct (outbox db !! i) as [r|] eqn:Er; [|done]. simpl.
    rewrite bool_decide_eq_false_2; [done|]. by rewrite <- Hin.
Qed.

(** The state a successful claim leaves, whatever the environment did. *)
Lemma ClaimPendingOutbox_spec ctx limit lease w :
  wp (ClaimPendingOutbox ctx limit lease) (λ r w', ∀ msgs, r = Ok msgs →
    ∃ bytes, env_rand (w_tick w) = Some bytes ∧
      let now := env_clock (S (w_tick w)) in
      outbox_claimed limit (now + wrap64 (- lease)) (EncodeToString bytes) now
        (env_locked_outbox (S (S (w_tick w)))) (w_db w) (w_db w') msgs) w.
Proof.
  unfold ClaimPendingOutbox, newOutboxDispatchToken. do 3 wp_step; [|by wp_steps].
  do 5 wp_step; [|by wp_steps..]. unfold scan_rows. do 2 wp_step.
  - destruct (collect _ _) as [msgs|e] eqn:Ec; wp_step; [|done]. intros ? [= <-].
    eexists. split; [done|]. by eapply claim_specified.
  - destruct (collect _ _) as [msgs'|e'] eqn:Ec; by wp_steps.
Qed.

End Outbox.

(** ** Reservations are stable *)

(** Row [i] is reserved under [tok] since [t]. *)
Definition held (i : Z) (tok : string) (t : Z) (db : Database) : Prop :=
  ∃ r, outbox db !! i = Some r ∧ o_dispatch_token r = Some tok ∧ o_dispatching_at r = Some t.

(** The reservation of row [i] is the same in both states. *)
Definition same_reservation (i : Z) (db db' : Database) : Prop :=
  ∀ r, outbox db !! i = Some r → ∃ r', outbox db' !! i = Some r'
    ∧ o_dispatch_token r' = o_dispatch_token r ∧ o_dispatching_at r' = o_dispatching_at r.

Lemma same_reservation_held i tok t db db' :
  same_reservation i db db' → held i tok t db → held i tok t db'.
Proof. intros Hs (r & Hr & ? & ?). destruct (Hs r Hr) as (r' & ? & ? & ?). exists r'. split_and!; congruence. Qed.

Lemma same_outbox_reservation i db db' : outbox db' = outbox db → same_reservation i db db'.
Proof. intros Ho r Hr. exists r. by rewrite Ho. Qed.

Lemma update_where_reservation i P f db :
  (∀ r r', outbox db !! i = Some r → P i r = true → f r = Some r' →
     o_dispatch_token r' = o_dispatch_token r ∧ o_dispatching_at r' = o_dispatching_at r) →
  same_reservation i db (update_outbox P f db).2.
Proof.
  intros Hf r Hr. unfold update_outbox.
  destruct (update_where P f (outbox db)) as [[n t]|] eqn:Eu; simpl; [|by exists r].
  apply update_where_some in Eu as (_ & -> & Hdef). rewrite lookup_set_where, Hr. simpl.
  destruct (P i r) eqn:EP; [|by exists r]. destruct (Hdef _ _ Hr EP) as [r' Hr'].
  rewrite Hr'. exists r'. split; [done|]. by eapply Hf.
Qed.

Lemma update_events_outbox P f db : outbox (update_events P f db).2 = outbox db.
Proof. unfold update_events. by repeat case_match. Qed.

Lemma update_dead_letters_outbox P f db : outbox (update_dead_letters P f db).2 = outbox db.
Proof. unfold update_dead_letters. by repeat case_match. Qed.

Lemma insert_outbox_reservation i id ty rid p now db :
  db_wf db → same_reservation i db (sql_insert_outbox id ty rid p now db).2.
Proof.
  intros Hwf r Hr. exists r. split; [|done]. unfold sql_insert_outbox.
  repeat case_match; simpl; try done. rewrite lookup_insert_ne; [done|].
  apply (wf_ids _ Hwf) in Hr. lia.
Qed.

Lemma same_reservation_trans i db1 db2 db3 :
  same_reservation i db1 db2 → same_reservation i db2 db3 → same_reservation i db1 db3.
Proof.
  intros H12 H23 r Hr. destruct (H12 r Hr) as (r2 & H2 & Ht & Hd).
  destruct (H23 r2 H2) as (r3 & H3 & ? & ?). exists r3. by rewrite <- Ht, <- Hd.
Qed.

Lemma replayed_reservation i id e now db :
  db_wf db → same_reservation i db (replayed id e now db).
Proof.
  intros Hwf. unfold replayed, sql_mark_replayed.
  apply (same_reservation_trans _ _ (reopened id e now (sql_reset_event now id db).2));
    [|apply same_outbox_reservation, update_dead_letters_outbox].
  apply (same_reservation_trans _ _ (sql_reset_event now id db).2);
    [apply same_outbox_reservation, update_events_outbox|].
  apply (sql_reset_event_wf now id) in Hwf. revert Hwf. generalize (sql_reset_event now id db).2.
  clear db. intros db Hwf. unfold reopened.
  assert (same_reservation i db (sql_reopen_outbox id db).2) as Hro.
  { apply update_where_reservation. by intros r r' _ _ [= <-]. }
  pose proof (sql_reopen_outbox_wf id db Hwf) as Hwf1.
  destruct (sql_reopen_outbox id db) as [n db1]. simpl in *. case_bool_decide; [|done].
  eapply same_reservation_trans; [done|]. by apply insert_outbox_reservation.
Qed.

(** The calls of everybody but the holder, while the lease runs. *)
Definition lease_running (i : Z) (tok : string) (t : Z) : Policy :=
  mkPolicy (λ x, (timestamptz x < t)%Z) (λ j tok', j ≠ i ∨ tok' ≠ tok)
    (λ _ _, True) (λ _, True) (λ _, True).

Lemma held_not_claimable i tok t x y locked db :
  held i tok t db → (x < t)%Z → i ∉ (outbox_candidates x y locked db).*1.
Proof.
  intros (r & Hr & _ & Hd) Hx Hin. destruct (candidate_id_row _ _ _ _ _ _ Hin Hr) as [Hc _].
  unfold claimable in Hc. rewrite Hd in Hc. simpl in Hc.
  apply andb_true_iff in Hc as [_ Hc%Z.leb_le]. lia.
Qed.

Lemma reserved_other i tok j tok' r :
  j ≠ i ∨ tok' ≠ tok → o_dispatch_token r = Some tok → reserved j tok' i r = false.
Proof.
  intros Hne Ht. unfold reserved, null_eq. rewrite Ht. apply not_true_iff_false.
  rewrite !andb_true_iff, Z.eqb_eq, bool_decide_eq_true. naive_solver.
Qed.

Lemma reserved_reservation i tok t j tok' f db :
  j ≠ i ∨ tok' ≠ tok → held i tok t db →
  same_reservation i db (update_outbox (reserved j tok') f db).2.
Proof.
  intros Hne (r0 & Hr0 & Ht & _). apply update_where_reservation.
  intros r r' Hr HP. simplify_eq. by rewrite (reserved_other i tok) in HP.
Qed.

(** Leave only the reservation of the held row to check. *)
Ltac keep_held :=
  split; [by apply db_inv_invariant|];
  match goal with H : held _ _ _ _ |- _ => eapply same_reservation_held; [|exact H] end.

#[export] Instance held_invariant i tok t :
  TableInvariant (lease_running i tok t) (λ db, db_inv db ∧ held i tok t db).
Proof.
  constructor; simpl.
  - by intros db [[]].
  - intros db seq [Hi Hh] ?. keep_held. by apply same_outbox_reservation.
  - intros ev p now db [Hi Hh] Hnew. keep_held. unfold saved.
    eapply same_reservation_trans; [|apply insert_outbox_reservation, sql_insert_event_wf, Hi].
    apply same_outbox_reservation. unfold sql_insert_event. by case_match.
  - intros id e now db [Hi Hh] He Hs. keep_held. apply replayed_reservation, Hi.
  - intros x y tok' now locked order db Hx [Hi Hh]. keep_held. unfold sql_claim_outbox.
    case_match; [by apply same_outbox_reservation|].
    intros r Hr. simpl. rewrite lookup_set_where, Hr. simpl.
    rewrite bool_decide_eq_false_2; [by eauto|]. by eapply held_not_claimable.
  - intros now id tok' db Hm [Hi Hh]. keep_held. by eapply reserved_reservation.
  - intros err id tok' db Hm [Hi Hh]. keep_held. by eapply reserved_reservation.
  - intros now id x db _ [Hi Hh]. keep_held. apply same_outbox_reservation, update_events_outbox.
  - intros status err n now id db Hs _ [Hi Hh]. keep_held. apply same_outbox_reservation.
    unfold sql_mark_final. case_match; [apply update_events_outbox|done].
  - intros id ty rid p err n a b c db [Hi Hh]. keep_held. apply same_outbox_reservation.
    unfold sql_save_dead_letter. by case_match.
  - intros now m y locked coll o1 o2 db _ [Hi Hh]. keep_held. apply same_outbox_reservation.
    unfold sql_claim_dead_letters. by case_match.
  - intros next err id db [Hi Hh]. keep_held.
    apply same_outbox_reservation, update_dead_letters_outbox.
Qed.


(** ** The fence: recording the result of a publication *)

(** The row a message's token still reserves. *)
Definition reserved_row (id : Z) (tok : string) (db : Database) : option OutboxRow :=
  match outbox db !! id with
  | Some r => if reserved id tok id r then Some r else None
  | None => None
  end.

Definition put_outbox (id : Z) (r : OutboxRow) (db : Database) : Database :=
  set_outbox (<[id := r]> (outbox db)) db.

Lemma set_outbox_id db : set_outbox (outbox db) db = db.
Proof. by destruct db. Qed.

Lemma reserved_update id tok f db :
  update_outbox (reserved id tok) f db =
    match reserved_row id tok db with
    | Some r => match f r with
                | Some r' => (Some 1%Z, put_outbox id r' db)
                | None => (None, db)
                end
    | None => (Some 0%Z, db)
    end.
Proof.
  unfold update_outbox, reserved_row. rewrite (update_where_key _ _ _ id).
  - repeat case_match; simplify_eq/=; rewrite ?set_outbox_id; try done;
      destruct (f _); simplify_eq/=; done.
  - intros k r. unfold reserved. rewrite !andb_true_iff, Z.eqb_eq. tauto.
Qed.

Lemma held_reserved i tok t db :
  db_wf db → held i tok t db → ∃ r, reserved_row i tok db = Some r.
Proof.
  intros Hwf (r & Hr & Ht & _). exists r. unfold reserved_row, reserved.
  rewrite Hr, Ht, Z.eqb_refl. simpl. rewrite bool_decide_eq_true_2 by done.
  destruct (o_published_at r) eqn:Ep; [|done].
  rewrite (ok_published _ (wf_outbox _ Hwf _ _ Hr)) in Ht; [done|by rewrite Ep].
Qed.

Section Fence.
Context `{E : Env} `{C : JsonCodec}.

(** The result of a publication, recorded: the row of the reservation becomes
    [f row], or the statement is refused ([f row = None]); nothing else
    happens. *)
Definition recorded (m : OutboxMessage) (f : OutboxRow → option OutboxRow)
    (db : Database) (r : option GoError) (db' : Database) : Prop :=
  match reserved_row (Message_ID m) (Message_DispatchToken m) db with
  | Some row =>
      match f row with
      | Some row' =>
          (r = None → db' = put_outbox (Message_ID m) row' db)
          ∧ (db' = db ∨ db' = put_outbox (Message_ID m) row' db)
          ∧ (no_faults → r = None)
      | None => is_Some r ∧ db' = db
      end
  | None => is_Some r ∧ db' = db
  end.

Lemma recorded_update m f ctx w (pre1 pre2 : string) :
  wp (M_try (db_call ctx (λ _, update_outbox (reserved (Message_ID m) (Message_DispatchToken m)) f))
        (fail pre1) (λ n, M_try (rows_affected n) (fail pre2) (λ n',
          if (n' =? 0)%Z then mret (Some (reservation_expired m)) else mret None)))
     (λ r w', recorded m f (w_db w) r (w_db w')) w.
Proof.
  pose proof (reserved_update (Message_ID m) (Message_DispatchToken m) f (w_db w)) as Hu.
  unfold recorded.
  destruct (reserved_row _ _ (w_db w)) as [row|]; [destruct (f row) as [row'|]|].
  all: wp_step; wp_step; known_stmt Hu; wp_steps.
  all: try case_match; wp_steps; simplify_eq.
  all: split_and?; try done; eauto; faulty.
Qed.

Lemma MarkOutboxPublished_recorded ctx m w :
  recorded m (λ row, Some (published_row (timestamptz (env_clock (w_tick w))) row))
    (w_db w) (MarkOutboxPublished ctx m w).1 (w_db (MarkOutboxPublished ctx m w).2).
Proof.
  exact (recorded_update m (λ row, Some (published_row (timestamptz (env_clock (w_tick w))) row))
    ctx (tick w) "mark outbox message published: " "check published outbox message: ").
Qed.

Lemma MarkOutboxFailed_recorded ctx m e w :
  recorded m (publish_failed_row (error_string e))
    (w_db w) (MarkOutboxFailed ctx m e w).1 (w_db (MarkOutboxFailed ctx m e w).2).
Proof.
  exact (recorded_update m (publish_failed_row (error_string e)) ctx w
    "mark outbox message failed: " "check failed outbox message: ").
Qed.

(** C22: a publication result is recorded only under a live reservation.
    MarkOutboxPublished under a token that no longer reserves the unpublished
    row returns an error and changes nothing; under a live one it can only
    turn that row into a published row without token, has done so when it
    returns nil, and without failures returns nil.  MarkOutboxFailed is the
    same with the failure counted, the error kept and the token released, and
    is refused without effect when the attempt counter would overflow its
    column. *)
Theorem outbox_results_are_fenced ctx m e w :
  recorded m (λ row, Some (published_row (timestamptz (env_clock (w_tick w))) row))
    (w_db w) (MarkOutboxPublished ctx m w).1 (w_db (MarkOutboxPublished ctx m w).2)
  ∧ recorded m (publish_failed_row (error_string e))
      (w_db w) (MarkOutboxFailed ctx m e w).1 (w_db (MarkOutboxFailed ctx m e w).2).
Proof. split; [apply MarkOutboxPublished_recorded|apply MarkOutboxFailed_recorded]. Qed.

(** C18: a successful ClaimPendingOutbox reserves exactly the right rows: at
    most [limit] of them, all distinct, each one unpublished and either free or
    reserved for longer than the lease and not locked by another transaction;
    each is returned with the event stored in it and with the fresh token that
    is now in the row beside the claim time; a row that could have been claimed
    and was not is younger than all of them and was left out because the batch
    is full; every other row and table is untouched. *)
Theorem ClaimPendingOutbox_exact ctx limit lease w msgs :
  (ClaimPendingOutbox ctx limit lease w).1 = Ok msgs →
  ∃ bytes, env_rand (w_tick w) = Some bytes ∧
    let now := env_clock (S (w_tick w)) in
    outbox_claimed limit (now + wrap64 (- lease)) (EncodeToString bytes) now
      (env_locked_outbox (S (S (w_tick w))))
      (w_db w) (w_db (ClaimPendingOutbox ctx limit lease w).2) msgs.
Proof. apply (ClaimPendingOutbox_spec ctx limit lease w). Qed.

(** C6: a reservation excludes every other dispatcher for the lease: after a
    claim has returned a message, and after any further store calls by anybody
    in which no claim treats reservations of that age as expired and nobody
    else presents its token, no such claim returns that message again, and
    (without failures) its holder can still record the publication. *)
Theorem reservation_exclusive ctx limit lease w msgs m ops :
  w_tx w = None → db_inv (w_db w) →
  (ClaimPendingOutbox ctx limit lease w).1 = Ok msgs → m ∈ msgs →
  let w1 := (ClaimPendingOutbox ctx limit lease w).2 in
  let t := timestamptz (env_clock (S (w_tick w))) in
  ops_ok (lease_running (Message_ID m) (Message_DispatchToken m) t) ops w1 →
  let w2 := run_ops ops w1 in
  (∀ ctx' limit' lease' msgs',
     (timestamptz (env_clock (S (w_tick w2)) + wrap64 (- lease')) < t)%Z →
     (ClaimPendingOutbox ctx' limit' lease' w2).1 = Ok msgs' →
     Message_ID m ∉ (Message_ID <$> msgs'))
  ∧ (no_faults → ∀ ctx', (MarkOutboxPublished ctx' m w2).1 = None).
Proof.
  intros Htx Hinv Hok Hm w1 t Hops w2.
  destruct (ClaimPendingOutbox_spec ctx limit lease w msgs Hok) as (bytes & _ & Hc).
  destruct (oc_row _ _ _ _ _ _ _ _ Hc m Hm) as (r & _ & _ & _ & Hr & Htok & _).
  destruct (ClaimPendingOutbox_keeps any_call db_inv ctx limit lease w Htx I) as [Htx1 Hinv1].
  assert (held (Message_ID m) (Message_DispatchToken m) t (w_db w1)) as Hheld.
  { exists (claim_row (EncodeToString bytes) t r). split; [done|]. by rewrite Htok. }
  destruct (run_ops_keeps _ (λ db, db_inv db ∧ held (Message_ID m) (Message_DispatchToken m) t db)
    ops w1 Hops Htx1 (conj (Hinv1 Hinv) Hheld)) as [_ [Hinv2 Hheld2]]. fold w2 in Hinv2, Hheld2.
  split.
  - intros ctx' limit' lease' msgs' Hlt Hok' Hin.
    destruct (ClaimPendingOutbox_spec ctx' limit' lease' w2 msgs' Hok') as (bytes' & _ & Hc').
    apply list_elem_of_fmap in Hin as (m' & Heq & Hm').
    destruct (oc_row _ _ _ _ _ _ _ _ Hc' m' Hm') as (r' & Hr' & Hcl & _). rewrite <- Heq in Hr'.
    destruct Hheld2 as (r2 & Hr2 & _ & Hd2). simplify_eq. unfold claimable in Hcl.
    rewrite Hd2 in Hcl. simpl in Hcl. apply andb_true_iff in Hcl as [_ Hcl%Z.leb_le]. lia.
  - intros Hnf ctx'. destruct (held_reserved _ _ _ _ (proj1 Hinv2) Hheld2) as [row Hrow].
    pose proof (MarkOutboxPublished_recorded ctx' m w2) as Hrec.
    unfold recorded in Hrec. rewrite Hrow in Hrec. by apply Hrec.
Qed.

End Fence.

(** ** From acceptance to the dispatcher *)

(** The rows that are still to be published, whoever has reserved them; every
    payload in them can be decoded. *)
Definition pending (db : Database) : gmap Z OutboxRow :=
  filter (λ ir, o_published_at ir.2 = None) (outbox db).
Definition decodable `{C : JsonCodec} (db : Database) : Prop :=
  map_Forall (λ _ r, ∃ p, json_unmarshal (o_payload r) = inr p) (pending db).

Lemma pending_some db i r : pending db !! i = Some r ↔ outbox db !! i = Some r ∧ o_published_at r = None.
Proof. unfold pending. by rewrite map_lookup_filter_Some. Qed.

(** A row written unpublished is one more pending row at most. *)
Lemma pending_insert db db' i r :
  outbox db' = <[i := r]> (outbox db) → o_published_at r = None →
  pending db' = <[i := r]> (pending db) ∧ size (pending db') ≤ S (size (pending db)).
Proof.
  intros Ho Hr. assert (pending db' = <[i := r]> (pending db)) as Heq.
  { unfold pending. by rewrite Ho, map_filter_insert_True. }
  split; [done|]. rewrite Heq, map_size_insert. case_match; simpl; lia.
Qed.

Section Roundtrip.
Context `{E : Env} `{C : JsonCodec}.

Lemma collect_total {A B} (f : A → result B) rows :
  (∀ r, r ∈ rows → ∃ x, f r = Ok x) → ∃ xs, collect f rows = Ok xs.
Proof.
  induction rows as [|r rows IH]; intros Hf; simpl; [by eexists|].
  destruct (Hf r) as [x ->]; [left|]. destruct IH as [xs ->]; [intros; apply Hf; by right|].
  by eexists.
Qed.

(** Without failures and with entropy, a claim over decodable rows succeeds. *)
Lemma ClaimPendingOutbox_total ctx limit lease w :
  no_faults → is_Some (env_rand (w_tick w)) → (0 ≤ limit)%Z → decodable (w_db w) →
  wp (ClaimPendingOutbox ctx limit lease) (λ r _, ∃ msgs, r = Ok msgs) w.
Proof.
  intros Hnf [bytes Hrand] Hlim Hdec. unfold ClaimPendingOutbox, newOutboxDispatchToken.
  do 3 wp_step; [|congruence]. do 5 wp_step; [|exfalso|exfalso; by faulty..]; last first.
  { unfold sql_claim_outbox in *. destruct (limit <? 0)%Z eqn:El; [lia|done]. }
  unfold scan_rows. do 2 wp_step; [|exfalso; by faulty].
  edestruct (collect_total (A := Z * OutboxRow) (B := OutboxMessage)) as [msgs ->];
    [|wp_step; by eexists].
  intros [i r] Hin. eapply claimed_rows in Hin as (r0 & Hr0 & Hcl & _ & ->); [|eassumption].
  apply claimable_unpublished in Hcl. destruct (Hdec i r0) as [p Hp]; [by apply pending_some|]. simpl. rewrite Hp. by eexists.
Qed.

(** A batch with room for the pending rows takes every claimable row. *)
Lemma claim_takes_all limit x tok now locked db db' msgs i r :
  outbox_claimed limit x tok now locked db db' msgs →
  (Z.of_nat (size (pending db)) ≤ limit)%Z →
  outbox db !! i = Some r → claimable (timestamptz x) r = true → locked i = false →
  i ∈ Message_ID <$> msgs.
Proof.
  intros Hc Hlim Hr Hcl Hl. destruct (decide (i ∈ Message_ID <$> msgs)) as [|Hout]; [done|].
  destruct (oc_oldest _ _ _ _ _ _ _ _ Hc i r Hr Hcl Hl Hout) as [Hfull _].
  assert (NoDup (i :: (Message_ID <$> msgs))) as Hnd
    by (constructor; [done|apply (oc_distinct _ _ _ _ _ _ _ _ Hc)]).
  assert (size (list_to_set (i :: (Message_ID <$> msgs)) : gset Z) ≤ size (dom (pending db))) as Hsz.
  { apply subseteq_size. intros j. rewrite elem_of_list_to_set, elem_of_cons, elem_of_dom.
    intros [->|(m & -> & Hm)%list_elem_of_fmap].
    - exists r. apply pending_some. split; [done|]. by eapply claimable_unpublished.
    - destruct (oc_row _ _ _ _ _ _ _ _ Hc m Hm) as (s & Hs & Hcs & _). exists s. apply pending_some.
      split; [done|]. by eapply claimable_unpublished. }
  rewrite size_list_to_set, size_dom in Hsz by done. simpl in Hsz. rewrite length_fmap in Hsz. lia.
Qed.

(** An accepted event reaches the dispatcher as it was sent.  Without
    failures and with no row locked elsewhere, after SaveQueuedWithOutbox has
    accepted a new event whose payload came from JSON, a claim whose limit
    exceeds the rows pending before, all decodable, succeeds and returns a
    message carrying exactly that event (id, type, request id and payload),
    never attempted before. *)
Theorem accepted_event_is_claimed `{!JsonCodecOk C} ctx ctx' ev limit lease w :
  no_faults → (∀ n i, env_locked_outbox n i = false) → (∀ n, is_Some (env_rand n)) →
  w_tx w = None → db_wf (w_db w) → decodable (w_db w) →
  JsonPayload (Event_Payload ev) → events (w_db w) !! Event_ID ev = None →
  (Z.of_nat (size (pending (w_db w))) < limit)%Z →
  let w1 := (SaveQueuedWithOutbox ctx ev w).2 in
  ∃ msgs m, (ClaimPendingOutbox ctx' limit lease w1).1 = Ok msgs ∧ m ∈ msgs
    ∧ Message_Event m = ev ∧ Message_Attempts m = 0%Z.
Proof.
  intros Hnf Hlock Hrand Htx Hwf Hdec Hj Hnew Hlim w1.
  destruct (json_roundtrip _ Hj) as (s & Henc & Hback).
  destruct (SaveQueuedWithOutbox_outcome ctx ev w Htx Hwf) as [_ Ho]. fold w1 in Ho.
  assert (∃ now, w_db w1 = saved ev s now (w_db w)) as [now Hdb].
  { inversion Ho as [s' now Hs' _ Hr|? ? ? ? ? ? Hf|Hdup|? ? ? Hf]; subst; simplify_eq.
    - exists now. congruence.
    - done.
    - rewrite Hnew in Hdup. by destruct Hdup.
    - destruct (Hf Hnf). congruence. }
  rewrite saved_eval in Hdb by done.
  destruct (pending_insert (w_db w) (w_db w1) (outbox_seq (w_db w)) (new_outbox_row ev s now))
    as [Hpend Hsize]; [by rewrite Hdb|done|].
  assert (decodable (w_db w1)) as Hdec1.
  { unfold decodable. rewrite Hpend. apply map_Forall_insert_2; [by exists (Event_Payload ev)|done]. }
  destruct (ClaimPendingOutbox_total ctx' limit lease w1 Hnf (Hrand _) ltac:(lia) Hdec1) as [msgs Hok].
  destruct (ClaimPendingOutbox_spec ctx' limit lease w1 msgs Hok) as (bytes & _ & Hc).
  assert (outbox (w_db w1) !! outbox_seq (w_db w) = Some (new_outbox_row ev s now)) as Hrow
    by (rewrite Hdb; apply lookup_insert_eq).
  assert (outbox_seq (w_db w) ∈ Message_ID <$> msgs) as Hin.
  { eapply claim_takes_all; [exact Hc|lia|exact Hrow|done|apply Hlock]. }
  apply list_elem_of_fmap in Hin as (m & Hid & Hm). exists msgs, m.
  destruct (oc_row _ _ _ _ _ _ _ _ Hc m Hm) as (r & Hr & _ & _ & _ & _ & Ha & Hi & Ht & Hq & Hp).
  rewrite <- Hid, Hrow in Hr. simplify_eq/=. rewrite Hback in Hp.
  split_and!; [done..| |done]. destruct ev, (Message_Event m); by simplify_eq/=.
Qed.

End Roundtrip.

(** ** On a concrete run *)

Definition claim_saved : result (list OutboxMessage) * World :=
  @ClaimPendingOutbox (calm_env 1000) simple_codec Cancellable 10 30000000000 world_saved.

Definition message_1 : OutboxMessage :=
  mkOutboxMessage 1 event_1 0 "00000000000000000000000000000000".

Lemma ClaimPendingOutbox_exact_witness :
  claim_saved.1 = Ok [message_1] ∧ ∃ bytes, EncodeToString bytes = Message_DispatchToken message_1.
Proof.
  split; [vm_compute; reflexivity|].
  destruct (ClaimPendingOutbox_exact (E := calm_env 1000) (C := simple_codec) Cancellable 10
    30000000000 world_saved [message_1] ltac:(vm_compute; reflexivity)) as (bytes & _ & Hc).
  exists bytes. destruct (oc_row _ _ _ _ _ _ _ _ Hc message_1 ltac:(left)) as (r & _ & _ & _ & _ & Ht & _).
  symmetry. exact Ht.
Defined.

(** The dispatcher that claimed at 1007s publishes after a second dispatcher
    has tried with the same 30 second lease. *)
Lemma reservation_exclusive_witness :
  let _ := calm_env 1000 in let _ := simple_codec in
  let ops := [OpClaimOutbox Background 10 30000000000; OpReplay Background "evt-001"] in
  (MarkOutboxPublished Cancellable message_1 (run_ops ops claim_saved.2)).1 = None.
Proof.
  intros E C ops.
  refine (proj2 (reservation_exclusive (E := E) (C := C) Cancellable 10 30000000000 world_saved
    [message_1] message_1 ops (proj1 world_saved_inv) (proj2 world_saved_inv) _ _ _)
    (calm_env_no_faults _) Cancellable).
  - vm_compute. reflexivity.
  - left.
  - split; [vm_compute; reflexivity|by split].
Defined.

Lemma world_saved_decodable : decodable (C := simple_codec) (w_db world_saved).
Proof.
  unfold decodable. replace (pending (w_db world_saved))
    with (<[1%Z := new_outbox_row event_1 "null" 1001000000000]> (∅ : gmap Z OutboxRow))
    by (vm_compute; reflexivity).
  apply map_Forall_insert_2; [eexists; reflexivity|apply map_Forall_empty].
Qed.

Lemma accepted_event_is_claimed_witness :
  let _ := calm_env 1000 in let _ := simple_codec in
  ∃ msgs m, (ClaimPendingOutbox Background 10 30
      (SaveQueuedWithOutbox Background event_2 world_saved).2).1 = Ok msgs
    ∧ m ∈ msgs ∧ Message_Event m = event_2 ∧ Message_Attempts m = 0%Z.
Proof.
  intros E C. apply (accepted_event_is_claimed (E := E) (C := C)).
  - apply calm_env_no_faults.
  - reflexivity.
  - intros n. eexists. reflexivity.
  - apply world_saved_inv.
  - apply world_saved_inv.
  - apply world_saved_decodable.
  - apply event_2_payload_wf.
  - reflexivity.
  - reflexivity.
Defined.
