(* ===== verification/StoreProcessing.v ===== *)
(** * The processing claim and the terminal states

    ClaimForProcessing as a lease on the event row: its result on every state
    of the row, the exclusion of other workers for the lease, and the terminal
    states MarkProcessed and MarkFailed write. *)

From stdpp Require Import base gmap strings list pretty.
From Stdlib Require Import ZArith Lia Ascii.
From S2P Require Import Prelude GoLib Models Metrics Sql Database DbInvariant World Scenario.
From S2P Require Import EventStore StoreLogic StoreProps.

Open Scope go_scope.

Definition put_event (id : string) (e : EventRow) (db : Database) : Database :=
  set_events (<[id := e]> (events db)) db.

Lemma set_events_id db : set_events (events db) db = db.
Proof. by destruct db. Qed.

(** An update of the row of one event. *)
Lemma event_update P f id db :
  (∀ k r, P k r = true → k = id) →
  update_events P (λ r, Some (f r)) db =
    match events db !! id with
    | Some e => if P id e then (Some 1%Z, put_event id (f e) db) else (Some 0%Z, db)
    | None => (Some 0%Z, db)
    end.
Proof.
  intros Hkey. unfold update_events. rewrite (update_where_key _ _ _ id Hkey).
  repeat case_match; simplify_eq/=; by rewrite ?set_events_id.
Qed.

Lemma processable_key id x k r : processable id x k r = true → k = id.
Proof. unfold processable. rewrite andb_true_iff, bool_decide_eq_true. tauto. Qed.

(** The four answers of a claim, from the row of the event. *)
Definition claim_answer (row : option EventRow) (id : string) (x : Z) : EventClaimResult :=
  match row with
  | None => EventClaimMissing
  | Some e =>
      if processable id x id e then EventClaimed
      else if bool_decide (e_status e ∈ [EventStatusProcessed; EventStatusFailed])
      then EventClaimFinal else EventClaimInProgress
  end.

(** The row after a claim. *)
Definition claimed_db (id : string) (x now : Z) (db : Database) : Database :=
  match events db !! id with
  | Some e => if processable id x id e then put_event id (processing_row now e) db else db
  | None => db
  end.

Section Processing.
Context `{E : Env} `{C : JsonCodec}.

(** What a call has done: an answer without error is the one of the row, and
    the claim has been written exactly when it is [EventClaimed]; an error
    comes with [EventClaimMissing] and leaves the claim undone or done. *)
Definition claim_outcome (id : string) (x now : Z) (db : Database)
    (r : EventClaimResult * option GoError) (db' : Database) : Prop :=
  match r with
  | (c, None) => c = claim_answer (events db !! id) id x ∧ db' = claimed_db id x now db
  | (c, Some _) => c = EventClaimMissing ∧ ¬ no_faults
                   ∧ (db' = db ∨ db' = claimed_db id x now db)
  end.

Lemma ClaimForProcessing_outcome ctx id lease w :
  let now := env_clock (w_tick w) in
  wp (ClaimForProcessing ctx id lease) (λ r w',
    claim_outcome id (timestamptz (now + wrap64 (- lease))) (timestamptz now) (w_db w) r (w_db w')) w.
Proof.
  intros now. unfold ClaimForProcessing. do 2 wp_step. fold now. set (x := (now + _)%Z).
  pose proof (event_update (processable id (timestamptz x)) (processing_row (timestamptz now)) id (w_db w)
    (processable_key _ _)) as Hu. fold (sql_claim_processing now id x (w_db w)) in Hu.
  unfold claim_outcome, claimed_db, claim_answer.
  assert (sql_select_status id (w_db w) = (Some (e_status <$> events (w_db w) !! id), w_db w))
    as Hsel by done.
  destruct (events (w_db w) !! id) as [e|] eqn:Ee; [destruct (processable _ _ _ _)|].
  all: wp_step; wp_step; known_stmt Hu; wp_steps; try (split_and!; [done|faulty|by eauto]); try by split.
  all: known_stmt Hsel; wp_steps; try (split_and!; [done|faulty|by eauto]); try by split.
  rewrite <- bool_decide_or.
  assert (e_status e ∈ [EventStatusProcessed; EventStatusFailed] ↔
    e_status e = EventStatusProcessed ∨ e_status e = EventStatusFailed) as Hin by set_solver.
  rewrite (bool_decide_ext _ _ Hin). repeat case_match; wp_steps; by split.
Qed.

End Processing.

(** ** The lease on an event *)

(** The event is being processed since [t]. *)
Definition in_progress (id : string) (t : Z) (db : Database) : Prop :=
  ∃ e, events db !! id = Some e ∧ e_status e = EventStatusProcessing
       ∧ e_processing_started_at e = Some t.

(** The calls of everybody else while the lease runs: claims of the event do
    not treat the claim as expired, and nobody finishes it. *)
Definition worker_alone (id : string) (t : Z) : Policy :=
  mkPolicy (λ _, True) (λ _ _, True) (λ id' x, id' = id → (timestamptz x < t)%Z)
    (λ id', id' ≠ id) (λ _, True).

Lemma same_event_in_progress id t db db' :
  events db' !! id = events db !! id → in_progress id t db → in_progress id t db'.
Proof. intros Heq (e & He & ? & ?). exists e. by rewrite Heq. Qed.

Lemma update_outbox_events P f db : events (update_outbox P f db).2 = events db.
Proof. unfold update_outbox. by repeat case_match. Qed.

Lemma update_dead_letters_events P f db : events (update_dead_letters P f db).2 = events db.
Proof. unfold update_dead_letters. by repeat case_match. Qed.

(** An update that leaves the row of the event alone. *)
Lemma update_events_other P f id db :
  (∀ e, events db !! id = Some e → P id e = false) →
  events (update_events P f db).2 !! id = events db !! id.
Proof.
  intros HP. unfold update_events. destruct (update_where P f (events db)) as [[n t]|] eqn:Eu; [|done].
  apply update_where_some in Eu as (_ & -> & _). simpl. rewrite lookup_set_where.
  destruct (events db !! id) as [e|]; [|done]. simpl. by rewrite HP.
Qed.

Lemma insert_outbox_events id ty rid p now db :
  events (sql_insert_outbox id ty rid p now db).2 = events db.
Proof. unfold sql_insert_outbox. by repeat case_match. Qed.

(** The only event a replay touches is its own. *)
Lemma replayed_events id e now db :
  events (replayed id e now db) = events (sql_reset_event now id db).2.
Proof.
  unfold replayed, sql_mark_replayed, reopened. rewrite update_dead_letters_events.
  destruct (sql_reopen_outbox id _) as [n db1] eqn:Er.
  assert (events db1 = events (sql_reset_event now id db).2) as <-.
  { replace db1 with (sql_reopen_outbox id (sql_reset_event now id db).2).2 by by rewrite Er.
    apply update_outbox_events. }
  case_bool_decide; [apply insert_outbox_events|done].
Qed.

(** Leave only the row of the event to check. *)
Ltac keep_progress :=
  split; [by apply db_inv_invariant|];
  match goal with H : in_progress _ _ _ |- _ => eapply same_event_in_progress; [|exact H] end.

#[export] Instance in_progress_invariant id t :
  TableInvariant (worker_alone id t) (λ db, db_inv db ∧ in_progress id t db).
Proof.
  constructor; simpl.
  - by intros db [[]].
  - intros db seq [Hi Hp] ?. by keep_progress.
  - intros ev p now db [Hi Hp] Hnew. keep_progress. unfold saved. rewrite insert_outbox_events.
    unfold sql_insert_event. rewrite Hnew. simpl. apply lookup_insert_ne.
    intros Heq. destruct Hp as (e & He & _). congruence.
  - intros id' e now db [Hi Hp] He Hs. keep_progress. rewrite replayed_events.
    apply update_events_other. intros e' He'. destruct Hp as (e0 & He0 & Hst & _). simplify_eq.
    apply andb_false_iff. right. apply bool_decide_eq_false. by rewrite Hst.
  - intros x y tok now locked order db _ [Hi Hp]. keep_progress.
    unfold sql_claim_outbox. by case_match.
  - intros now i tok db _ [Hi Hp]. keep_progress. by unfold sql_mark_outbox_published;
      rewrite update_outbox_events.
  - intros err i tok db _ [Hi Hp]. keep_progress. by unfold sql_mark_outbox_failed;
      rewrite update_outbox_events.
  - intros now id' x db Hx [Hi Hp]. keep_progress. apply update_events_other.
    intros e He. destruct Hp as (e0 & He0 & Hst & Hd). simplify_eq.
    apply not_true_iff_false. intros HP. pose proof (processable_key _ _ _ _ HP) as <-.
    unfold processable in HP. rewrite Hst, Hd, andb_true_iff, orb_true_iff, andb_true_iff in HP.
    destruct HP as [_ [HP|[_ HP]]]; [by apply bool_decide_eq_true in HP|].
    apply Z.leb_le in HP. specialize (Hx eq_refl). lia.
  - intros status err n now id' db Hs Hne [Hi Hp]. keep_progress. unfold sql_mark_final.
    case_match; [|done]. apply update_events_other. intros. by apply bool_decide_eq_false.
  - intros id' ty rid p err n a b c db [Hi Hp]. keep_progress. unfold sql_save_dead_letter.
    by case_match.
  - intros now m y locked coll o1 o2 db _ [Hi Hp]. keep_progress. unfold sql_claim_dead_letters.
    by case_match.
  - intros next err id' db [Hi Hp]. keep_progress. by unfold sql_reschedule;
      rewrite update_dead_letters_events.
Qed.

Section Lease.
Context `{E : Env} `{C : JsonCodec}.

(** The event waits for a worker, or the worker that has claimed it is late. *)
Definition claim_free (x : Z) (e : EventRow) : Prop :=
  e_status e = EventStatusQueued
  ∨ (e_status e = EventStatusProcessing ∧ ∃ started, e_processing_started_at e = Some started ∧ (started ≤ x)%Z).

Lemma processable_free id x e : processable id x id e = true ↔ claim_free x e.
Proof.
  unfold processable, claim_free. rewrite andb_true_iff, orb_true_iff, andb_true_iff, !bool_decide_eq_true.
  assert (null_le (e_processing_started_at e) x = true
    ↔ ∃ started, e_processing_started_at e = Some started ∧ (started ≤ x)%Z) as ->; [|tauto].
  destruct (e_processing_started_at e); simpl; rewrite ?Z.leb_le; naive_solver.
Qed.

(** C12: the answer of ClaimForProcessing, on every state of the event and
    under every failure.  Without an error it is EventClaimed exactly when the
    event is queued or its claim is older than the lease, and then its row, and
    nothing else, has become a processing row that started now; otherwise
    nothing has changed and the answer is EventClaimMissing when there is no such
    event, EventClaimFinal when it has been processed or has failed, and
    EventClaimInProgress in the remaining case.  With an error the answer is
    EventClaimMissing, some database call has failed, and the claim has been
    written or not, never for an event that was not free. *)
Theorem ClaimForProcessing_answer ctx id lease w :
  let now := env_clock (w_tick w) in
  let x := timestamptz (now + wrap64 (- lease)) in
  let db := w_db w in
  let db' := w_db (ClaimForProcessing ctx id lease w).2 in
  let claimed := ∃ e, events db !! id = Some e ∧ claim_free x e
                   ∧ db' = put_event id (processing_row (timestamptz now) e) db in
  match (ClaimForProcessing ctx id lease w).1 with
  | (EventClaimed, None) => claimed
  | (EventClaimMissing, None) => events db !! id = None ∧ db' = db
  | (EventClaimFinal, None) => db' = db ∧ ∃ e, events db !! id = Some e
      ∧ (e_status e = EventStatusProcessed ∨ e_status e = EventStatusFailed)
  | (EventClaimInProgress, None) => db' = db ∧ ∃ e, events db !! id = Some e ∧ ¬ claim_free x e
      ∧ e_status e ≠ EventStatusProcessed ∧ e_status e ≠ EventStatusFailed
  | (c, Some _) => c = EventClaimMissing ∧ ¬ no_faults ∧ (db' = db ∨ claimed)
  end.
Proof.
  intros now x db db' claimed. pose proof (ClaimForProcessing_outcome ctx id lease w) as Ho.
  unfold wp in Ho. fold now db db' in Ho. cbv zeta in Ho. fold x in Ho.
  assert (db' = claimed_db id x (timestamptz now) db → db' = db ∨ claimed) as Hdone.
  { unfold claimed_db. destruct (events db !! id) as [e|] eqn:He; [|by left].
    destruct (processable id x id e) eqn:Hp; [|by left]. right. exists e. by rewrite <- (processable_free id). }
  destruct (ClaimForProcessing ctx id lease w).1 as [c [err|]].
  - destruct Ho as (-> & Hf & Hdb). split_and!; [done|done|]. destruct Hdb; [by left|by apply Hdone].
  - destruct Ho as [-> Hdb]. unfold claim_answer, claimed_db in *.
    destruct (events db !! id) as [e|] eqn:He; [|done].
    destruct (processable id x id e) eqn:Hp.
    + exists e. by rewrite <- (processable_free id).
    + case_bool_decide as Hs; rewrite !elem_of_cons, elem_of_nil in Hs;
        (split; [done|]; exists e; split; [done|]); rewrite <- ?(processable_free id), ?Hp; intuition congruence.
Qed.

(** C7: one worker at a time.  After ClaimForProcessing has answered
    EventClaimed, and after any further store calls in which no claim of the
    event treats this claim as expired and nobody records a terminal state for
    it, the event is still being processed under this claim, and a further
    claim within the lease is answered EventClaimInProgress. *)
Theorem processing_exclusive ctx id lease w ops :
  w_tx w = None → db_inv (w_db w) →
  (ClaimForProcessing ctx id lease w).1 = (EventClaimed, None) →
  let w1 := (ClaimForProcessing ctx id lease w).2 in
  let t := timestamptz (env_clock (w_tick w)) in
  ops_ok (worker_alone id t) ops w1 →
  let w2 := run_ops ops w1 in
  in_progress id t (w_db w2)
  ∧ ∀ ctx' lease' c, (timestamptz (env_clock (w_tick w2) + wrap64 (- lease')) < t)%Z →
      (ClaimForProcessing ctx' id lease' w2).1 = (c, None) → c = EventClaimInProgress.
Proof.
  intros Htx Hinv Hc w1 t Hops w2.
  pose proof (ClaimForProcessing_outcome ctx id lease w) as Ho. simpl in Ho. unfold wp in Ho.
  rewrite Hc in Ho. destruct Ho as [Ha Hdb]. fold w1 t in Hdb.
  destruct (ClaimForProcessing_keeps any_call db_inv ctx id lease w Htx I) as [Htx1 Hinv1].
  assert (in_progress id t (w_db w1)) as Hp1.
  { rewrite Hdb. unfold claimed_db. unfold claim_answer in Ha.
    destruct (events (w_db w) !! id) as [e|]; [|done]. destruct (processable _ _ _ _); [|by case_match].
    exists (processing_row t e). simpl. by rewrite lookup_insert_eq. }
  destruct (run_ops_keeps _ (λ db, db_inv db ∧ in_progress id t db)
    ops w1 Hops Htx1 (conj (Hinv1 Hinv) Hp1)) as [_ [_ Hp2]]. fold w2 in Hp2.
  split; [done|]. intros ctx' lease' c Hlt Hc'.
  pose proof (ClaimForProcessing_outcome ctx' id lease' w2) as Ho. simpl in Ho. unfold wp in Ho.
  rewrite Hc' in Ho. destruct Ho as [-> _]. destruct Hp2 as (e & -> & Hst & Hd). unfold claim_answer.
  replace (processable _ _ _ _) with false; [by rewrite Hst|].
  unfold processable. rewrite Hst, Hd, bool_decide_eq_true_2 by done. simpl. symmetry. apply Z.leb_gt. lia.
Qed.

(** A terminal state, written: nil means that the row holds it, and without
    failures an attempt count the column can hold gives nil. *)
Lemma mark_final_outcome ctx status msg n now id e w (pre : string) :
  events (w_db w) !! id = Some e →
  wp (M_try (db_call ctx (λ _, sql_mark_final status msg n now id)) (fail pre) (λ _, mret None))
    (λ r w', (r = None → w_db w' = put_event id (final_row status msg n (timestamptz now) e) (w_db w))
             ∧ (no_faults → in_int4 n = true → r = None)) w.
Proof.
  intros He. assert (sql_mark_final status msg n now id (w_db w) =
    if in_int4 n then (Some 1%Z, put_event id (final_row status msg n (timestamptz now) e) (w_db w))
    else (None, w_db w)) as Hs.
  { unfold sql_mark_final. case_match; [|done]. rewrite (event_update _ _ id), He.
    - by rewrite bool_decide_eq_true_2.
    - intros k r. by rewrite bool_decide_eq_true. }
  destruct (in_int4 n); wp_step; wp_step; known_stmt Hs; wp_steps; split; try done;
    intros ?; exfalso; faulty.
Qed.

(** The terminal states.  Without failures, and for an attempt count the
    column can hold, MarkProcessed and MarkFailed return nil and turn the row
    of an existing event, whatever its status and whoever claimed it, into
    [processed] without error or [failed] with the text of the error, with the
    attempts, the time, and no processing start; no other row changes. *)
Theorem terminal_states ctx id n err w e :
  no_faults → in_int4 n = true → events (w_db w) !! id = Some e →
  let now := timestamptz (env_clock (w_tick w)) in
  (MarkProcessed ctx id n w).1 = None
  ∧ w_db (MarkProcessed ctx id n w).2
    = put_event id (final_row EventStatusProcessed "" n now e) (w_db w)
  ∧ (MarkFailed ctx id n err w).1 = None
  ∧ w_db (MarkFailed ctx id n err w).2
    = put_event id (final_row EventStatusFailed (error_string err) n now e) (w_db w).
Proof.
  intros Hnf Hn He now.
  destruct (mark_final_outcome ctx EventStatusProcessed "" n (env_clock (w_tick w)) id e (tick w)
    "mark event processed: " He) as [H1 H2].
  destruct (mark_final_outcome ctx EventStatusFailed (error_string err) n (env_clock (w_tick w)) id e
    (tick w) "mark event failed: " He) as [H3 H4].
  split_and!; [by apply H2|by apply H1, H2|by apply H4|by apply H3, H4].
Qed.

Lemma MarkProcessed_outcome ctx id n w e :
  events (w_db w) !! id = Some e →
  wp (MarkProcessed ctx id n) (λ r w',
    (r = None → ∃ now, w_db w' = put_event id (final_row EventStatusProcessed "" n now e) (w_db w))
    ∧ (no_faults → in_int4 n = true → r = None)) w.
Proof.
  intros He. unfold MarkProcessed. do 2 wp_step.
  eapply wp_wand; [by apply mark_final_outcome|]. intros r w' [Hdb Hok]. split; [|done].
  intros Hr. eexists. by apply Hdb.
Qed.

Lemma MarkFailed_outcome ctx id n err w e :
  events (w_db w) !! id = Some e →
  wp (MarkFailed ctx id n err) (λ r w',
    (r = None → ∃ now,
       w_db w' = put_event id (final_row EventStatusFailed (error_string err) n now e) (w_db w))
    ∧ (no_faults → in_int4 n = true → r = None)) w.
Proof.
  intros He. unfold MarkFailed. do 2 wp_step.
  eapply wp_wand; [by apply mark_final_outcome|]. intros r w' [Hdb Hok]. split; [|done].
  intros Hr. eexists. by apply Hdb.
Qed.

Lemma MarkProcessed_closes ctx id n : evolves (λ _ _, True) (MarkProcessed ctx id n).
Proof. unfold MarkProcessed. assert (PreOrder (λ _ _ : Database, True)) by by split. by solve_evolves. Qed.

Lemma MarkFailed_closes ctx id n err : evolves (λ _ _, True) (MarkFailed ctx id n err).
Proof. unfold MarkFailed. assert (PreOrder (λ _ _ : Database, True)) by by split. by solve_evolves. Qed.

End Lease.

(** ** On a concrete run *)

Definition claim_event_1 : (EventClaimResult * option GoError) * World :=
  @ClaimForProcessing (calm_env 1000) Background "evt-001" 300000000000 world_saved.

Lemma processing_exclusive_witness :
  let _ := calm_env 1000 in let _ := simple_codec in
  let ops := [OpReplay Background "evt-001"; OpClaimProcessing Background "evt-001" 300000000000;
              OpMarkProcessed Background "evt-002" 1] in
  claim_event_1.1 = (EventClaimed, None)
  ∧ in_progress "evt-001" 1006000000 (w_db (run_ops ops claim_event_1.2)).
Proof.
  intros E C ops. split; [vm_compute; reflexivity|].
  refine (proj1 (processing_exclusive (E := E) (C := C) Background "evt-001" 300000000000 world_saved
    ops (proj1 world_saved_inv) (proj2 world_saved_inv) _ _)).
  - vm_compute. reflexivity.
  - split; [done|]. split; [intros _; vm_compute; reflexivity|]. split; [discriminate|done].
Defined.

Lemma terminal_states_witness :
  let _ := calm_env 1000 in
  (MarkProcessed Background "evt-001" 1 world_saved).1 = None
  ∧ (MarkFailed Background "evt-001" 4 (ErrMsg "boom") world_saved).1 = None.
Proof.
  intros E. assert (∃ e, events (w_db world_saved) !! "evt-001" = Some e) as [e He]
    by (vm_compute; eauto).
  split.
  - exact (proj1 (terminal_states (E := E) Background "evt-001" 1 (ErrMsg "boom") world_saved e
      (calm_env_no_faults _) eq_refl He)).
  - exact (proj1 (proj2 (proj2 (terminal_states (E := E) Background "evt-001" 4 (ErrMsg "boom")
      world_saved e (calm_env_no_faults _) eq_refl He)))).
Defined.
