(* ===== verification/StoreDead.v ===== *)
(** * Dead letters: replay and automatic retry

    The replay transaction row by row, the bound on automatic replays, and
    which dead letters a claim of the retry scheduler takes. *)

From stdpp Require Import base gmap strings list pretty.
From Stdlib Require Import ZArith Lia Ascii.
From S2P Require Import Prelude GoLib Models Metrics Sql Database DbInvariant World Scenario.
From S2P Require Import EventStore StoreLogic StoreProps StoreProcessing.

Open Scope go_scope.

(** ** The replay transaction *)

(** The outbox row of an event: there is exactly one. *)
Lemma outbox_row_of db id :
  db_inv db → is_Some (events db !! id) →
  ∃ i r, outbox db !! i = Some r ∧ o_event_id r = id
    ∧ ∀ j s, outbox db !! j = Some s → o_event_id s = id → j = i.
Proof.
  intros [Hwf Hc] Hid. destruct (Hc id Hid) as (i & r & Hr & Heq). exists i, r.
  split_and!; [done..|]. intros j s Hs Heq'. eapply (wf_unique _ Hwf); [done..|congruence].
Qed.

(** Updating the rows of one event, whose row is [i]. *)
Lemma set_where_unique {R} (key : R → string) (f : R → R) (t : gmap Z R) i r :
  t !! i = Some r → (∀ j s, t !! j = Some s → key s = key r → j = i) →
  set_where (λ _ s, bool_decide (key s = key r)) f t = <[i := f r]> t.
Proof.
  intros Hr Huniq. apply map_eq. intros j. rewrite lookup_set_where.
  destruct (decide (j = i)) as [->|Hne].
  - rewrite lookup_insert_eq, Hr. simpl. by rewrite bool_decide_eq_true_2.
  - rewrite lookup_insert_ne by done. destruct (t !! j) as [s|] eqn:Es; [|done]. simpl.
    rewrite bool_decide_eq_false_2; [done|]. intros Heq. by apply Hne, (Huniq j s).
Qed.

(** The tables after a replay: three rows have changed. *)
Lemma replayed_eval id e d now db :
  db_inv db → events db !! id = Some e → e_status e = EventStatusFailed →
  dead_letters db !! id = Some d →
  ∃ i r, outbox db !! i = Some r ∧ o_event_id r = id ∧ o_content r = e_content e
    ∧ replayed id e now db =
      mkDatabase (<[id := requeued_row (timestamptz now) e]> (events db))
        (<[i := reopened_row r]> (outbox db))
        (<[id := replayed_row (timestamptz now) d]> (dead_letters db)) (outbox_seq db).
Proof.
  intros Hinv He Hs Hd. destruct (outbox_row_of db id Hinv) as (i & r & Hr & Heq & Huniq); [by eexists|].
  exists i, r. split_and!; [done..| |].
  { destruct (wf_mirror _ (proj1 Hinv) _ _ Hr) as (e' & He' & Hc). congruence. }
  subst id. unfold replayed, sql_mark_replayed, reopened, sql_reopen_outbox, sql_reset_event.
  rewrite !update_events_total, update_outbox_total. simpl.
  rewrite bool_decide_eq_false_2; last first.
  { intros [= Hz]. rewrite rows_matching_0 in Hz. specialize (Hz i r Hr).
    by rewrite bool_decide_eq_true_2 in Hz. }
  rewrite update_dead_letters_total. simpl. unfold set_dead_letters. simpl. f_equal.
  - apply set_where_key; [|done|by rewrite Hs, !bool_decide_eq_true_2].
    intros k r'. rewrite andb_true_iff, bool_decide_eq_true. tauto.
  - apply (set_where_unique o_event_id); [done|]. intros j s Hj Hk. by eapply Huniq.
  - apply set_where_key; [|done|by rewrite bool_decide_eq_true_2].
    intros k d'. by rewrite bool_decide_eq_true.
Qed.

Section Replay.
Context `{E : Env} `{C : JsonCodec}.

(** C8: ReplayDeadLetter is all or nothing, under every failure.  Either no
    row of any table changes and an error is returned, or the event had failed
    and had a dead letter, and at once: the event is queued again with no
    error, no attempts and no processing start, its outbox row (the one with
    its content) is unpublished again with its attempts reset, and the dead
    letter carries the replay time.  nil is returned only in the second case;
    the error is ErrDeadLetterNotFound only when the event or its dead letter
    is missing, and ErrDeadLetterNotFailed only when the event is in another
    state. *)
Theorem ReplayDeadLetter_atomic ctx id w :
  w_tx w = None → db_inv (w_db w) →
  let r := (ReplayDeadLetter ctx id w).1 in
  let db := w_db w in
  let db' := w_db (ReplayDeadLetter ctx id w).2 in
  (events db' = events db ∧ outbox db' = outbox db ∧ dead_letters db' = dead_letters db
   ∧ ∃ err, r = Some err
     ∧ (errors_is err ErrDeadLetterNotFound = true →
          events db !! id = None ∨ dead_letters db !! id = None)
     ∧ (errors_is err ErrDeadLetterNotFailed = true →
          ∃ e, events db !! id = Some e ∧ e_status e ≠ EventStatusFailed))
  ∨ ∃ e d i row now,
      events db !! id = Some e ∧ e_status e = EventStatusFailed ∧ dead_letters db !! id = Some d
      ∧ outbox db !! i = Some row ∧ o_event_id row = id ∧ o_content row = e_content e
      ∧ events db' = <[id := requeued_row now e]> (events db)
      ∧ outbox db' = <[i := reopened_row row]> (outbox db)
      ∧ dead_letters db' = <[id := replayed_row now d]> (dead_letters db).
Proof.
  intros Htx Hinv r db db'. destruct (ReplayDeadLetter_outcome ctx id w Htx) as [_ Ho].
  fold r db db' in Ho. clearbody r db'. fold db in Hinv.
  inversion Ho as [now e d He Hd Hs|now e d err He Hd Hs|Hnf|e d He Hd Hs|err seq H1 H2]; subst.
  1,2: right; destruct (replayed_eval id e d now db Hinv He Hs Hd) as (i & row & Hr & Hid & Hc & ->);
    by exists e, d, i, row, (timestamptz now).
  - left. split_and!; [done..|]. eexists. by split_and!.
  - left. split_and!; [done..|]. eexists. split; [done|]. split; [|by eauto].
    by rewrite errors_is_wrap.
  - left. split_and!; [done..|]. eexists. split_and!; [done|congruence..].
Qed.

(** The answer of ReplayDeadLetter without failures: nil for a failed
    event with a dead letter, ErrDeadLetterNotFound when either is missing,
    and otherwise an error that wraps ErrDeadLetterNotFailed and names the
    current status. *)
Theorem ReplayDeadLetter_answer ctx id w :
  no_faults → w_tx w = None →
  (ReplayDeadLetter ctx id w).1 =
    match events (w_db w) !! id, dead_letters (w_db w) !! id with
    | Some e, Some _ =>
        if bool_decide (e_status e = EventStatusFailed) then None
        else Some (ErrWrap "" ErrDeadLetterNotFailed (": current status is " +:+ e_status e))
    | _, _ => Some ErrDeadLetterNotFound
    end.
Proof.
  intros Hnf Htx. destruct (ReplayDeadLetter_outcome ctx id w Htx) as [_ Ho].
  destruct (ReplayDeadLetter ctx id w) as [r w']. simpl in *.
  inversion Ho as [now e d He Hd Hs|now e d err He Hd Hs|Hn|e d He Hd Hs|err seq H1 H2]; subst; try done.
  - by rewrite He, Hd, bool_decide_eq_true_2.
  - destruct Hn as [-> | ->]; [done|]. by destruct (events _ !! id).
  - by rewrite He, Hd, bool_decide_eq_false_2.
Qed.

End Replay.

(** ** The bound on automatic replays *)

Definition retries_capped (cap : Z) : Policy :=
  mkPolicy (λ _, True) (λ _ _, True) (λ _ _, True) (λ _, True) (λ m, (m ≤ cap)%Z).

Definition replays_bounded (cap : Z) (db : Database) : Prop :=
  map_Forall (λ _ d, (d_replay_attempts d ≤ cap)%Z) (dead_letters db).

Lemma update_outbox_dead P f db : dead_letters (update_outbox P f db).2 = dead_letters db.
Proof. unfold update_outbox. by repeat case_match. Qed.

Lemma update_events_dead P f db : dead_letters (update_events P f db).2 = dead_letters db.
Proof. unfold update_events. by repeat case_match. Qed.

Lemma insert_outbox_dead id ty rid p now db :
  dead_letters (sql_insert_outbox id ty rid p now db).2 = dead_letters db.
Proof. unfold sql_insert_outbox. by repeat case_match. Qed.

Lemma set_where_bounded cap P f t :
  (∀ k d, t !! k = Some d → P k d = true → (d_replay_attempts d ≤ cap)%Z →
     (d_replay_attempts (f d) ≤ cap)%Z) →
  map_Forall (λ (_ : string) d, (d_replay_attempts d ≤ cap)%Z) t →
  map_Forall (λ _ d, (d_replay_attempts d ≤ cap)%Z) (set_where P f t).
Proof.
  intros Hf Ht k d'. rewrite lookup_set_where. destruct (t !! k) as [d|] eqn:Ek; [|done].
  intros [= <-]. specialize (Ht _ _ Ek). destruct (P k d) eqn:EP; [by eapply Hf|done].
Qed.

Lemma replayed_dead id e now db :
  dead_letters (replayed id e now db)
  = set_where (λ id' _, bool_decide (id' = id)) (replayed_row (timestamptz now)) (dead_letters db).
Proof.
  unfold replayed, sql_mark_replayed. rewrite update_dead_letters_total. simpl. f_equal.
  unfold reopened. destruct (sql_reopen_outbox id _) as [n db1] eqn:Er.
  assert (dead_letters db1 = dead_letters db) as Hd.
  { replace db1 with (sql_reopen_outbox id (sql_reset_event now id db).2).2 by by rewrite Er.
    unfold sql_reopen_outbox. rewrite update_outbox_dead. apply update_events_dead. }
  case_bool_decide; [by rewrite insert_outbox_dead|done].
Qed.

Ltac keep_bound :=
  split; [by apply db_inv_invariant|];
  match goal with H : replays_bounded _ _ |- _ => unfold replays_bounded in *; revert H end.

#[export] Instance replays_bounded_invariant cap :
  (0 ≤ cap)%Z → TableInvariant (retries_capped cap) (λ db, db_inv db ∧ replays_bounded cap db).
Proof.
  intros Hcap. constructor; simpl.
  - by intros db [[]].
  - intros db seq [Hi Hb] ?. by keep_bound.
  - intros ev p now db [Hi Hb] Hnew. keep_bound. unfold saved. rewrite insert_outbox_dead.
    unfold sql_insert_event. by rewrite Hnew.
  - intros id e now db [Hi Hb] He Hs. keep_bound. rewrite replayed_dead. by apply set_where_bounded.
  - intros x y tok now locked order db _ [Hi Hb]. keep_bound. unfold sql_claim_outbox. by case_match.
  - intros now i tok db _ [Hi Hb]. keep_bound. unfold sql_mark_outbox_published.
    by rewrite update_outbox_dead.
  - intros err i tok db _ [Hi Hb]. keep_bound. unfold sql_mark_outbox_failed.
    by rewrite update_outbox_dead.
  - intros now id x db _ [Hi Hb]. keep_bound. unfold sql_claim_processing. by rewrite update_events_dead.
  - intros status err n now id db Hs _ [Hi Hb]. keep_bound. unfold sql_mark_final.
    case_match; [by rewrite update_events_dead|done].
  - intros id ty rid p err n a b c db [Hi Hb]. keep_bound. unfold sql_save_dead_letter.
    case_match; [|done]. simpl. intros Hb. apply map_Forall_insert_2; [|done].
    destruct (dead_letters db !! id) as [d|] eqn:Ed; [by apply (Hb _ _ Ed)|done].
  - intros now m y locked coll o1 o2 db Hm [Hi Hb]. keep_bound. unfold sql_claim_dead_letters.
    case_match; [done|]. simpl. apply set_where_bounded. intros k d Hk Hin _.
    apply bool_decide_eq_true in Hin. destruct (retry_candidate_row _ _ _ _ _ _ _ _ _ Hin Hk) as [Hr _].
    unfold retryable in Hr. rewrite !andb_true_iff, Z.ltb_lt in Hr. simpl. lia.
  - intros next err id db [Hi Hb]. keep_bound. unfold sql_reschedule.
    rewrite update_dead_letters_total. by apply set_where_bounded.
Qed.

(** C30: automatic replays are bounded: from an empty database, over any
    sequence of store calls and any failures in which dead letter claims pass
    at most [cap] attempts, no dead letter is ever counted more than [cap]
    automatic attempts, saving it again included. *)
Theorem automatic_replays_bounded `{Env} `{JsonCodec} cap ops w :
  (0 ≤ cap)%Z → w_tx w = None → w_db w = empty_database → ops_ok (retries_capped cap) ops w →
  ∀ id d, dead_letters (w_db (run_ops ops w)) !! id = Some d → (d_replay_attempts d ≤ cap)%Z.
Proof.
  intros Hcap Htx Hdb Hops. pose proof (replays_bounded_invariant cap Hcap).
  destruct (run_ops_keeps (retries_capped cap) (λ db, db_inv db ∧ replays_bounded cap db) ops w Hops Htx)
    as [_ [_ Hb]]; [|exact Hb].
  rewrite Hdb. split; [apply empty_database_wf|apply map_Forall_empty].
Qed.

(** ** What the retry scheduler claims *)

(** What a successful claim has done: the specification the scheduler relies
    on. *)
Record dead_letters_claimed (limit now cap : Z) (locked : string → bool)
    (db db' : Database) (items : list RetryableDeadLetterDetail) : Prop := {
  dc_limit : (Z.of_nat (length items) ≤ limit)%Z;
  dc_distinct : NoDup (RD_EventID <$> items);
  dc_row : ∀ x, x ∈ items → ∃ d,
    dead_letters db !! RD_EventID x = Some d ∧ retryable now cap d = true
    ∧ locked (RD_EventID x) = false
    ∧ dead_letters db' !! RD_EventID x = Some (retried_row d)
    ∧ RD_ReplayAttempt x = (d_replay_attempts d + 1)%Z;
  dc_soonest : ∀ id d, dead_letters db !! id = Some d → retryable now cap d = true →
    locked id = false → id ∉ (RD_EventID <$> items) →
    Z.of_nat (length items) = limit
    ∧ ∀ x d', x ∈ items → dead_letters db !! RD_EventID x = Some d' →
        (default 0 (d_next_retry_at d') ≤ default 0 (d_next_retry_at d))%Z;
  dc_rest : ∀ id, id ∉ (RD_EventID <$> items) → dead_letters db' !! id = dead_letters db !! id;
  dc_events : events db' = events db;
  dc_outbox : outbox db' = outbox db;
}.

Lemma elem_of_retry_candidates now cap limit locked coll order db id d :
  (id, d) ∈ retry_candidates now cap limit locked coll order db →
  dead_letters db !! id = Some d.
Proof.
  unfold retry_candidates. intros Hin%elem_of_take_sub.
  rewrite elem_of_sort_on, elem_of_shuffle, elem_of_select_where in Hin. naive_solver.
Qed.

Lemma NoDup_retry_candidates now cap limit locked coll order db :
  NoDup (retry_candidates now cap limit locked coll order db).*1.
Proof.
  unfold retry_candidates. eapply sublist_NoDup; [|apply fmap_sublist, sublist_take].
  rewrite sort_on_perm, shuffle_perm. apply NoDup_select_where.
Qed.

Lemma retry_candidates_soonest now cap limit locked coll order db id d :
  dead_letters db !! id = Some d → retryable now cap d = true → locked id = false →
  id ∉ (retry_candidates now cap limit locked coll order db).*1 →
  length (retry_candidates now cap limit locked coll order db) = Z.to_nat limit
  ∧ ∀ id' d', (id', d') ∈ retry_candidates now cap limit locked coll order db →
      (default 0 (d_next_retry_at d') ≤ default 0 (d_next_retry_at d))%Z.
Proof.
  intros Hd Hr Hl Hout. unfold retry_candidates in *.
  set (l := sort_on _ _) in *. set (n := Z.to_nat limit) in *.
  assert ((id, d) ∈ l) as Hin.
  { unfold l. rewrite elem_of_sort_on, elem_of_shuffle, elem_of_select_where. by rewrite Hr, Hl. }
  assert ((id, d) ∈ drop n l) as Hdrop.
  { rewrite <- (take_drop n l), elem_of_app in Hin. destruct Hin as [Hin|]; [|done].
    destruct Hout. apply list_elem_of_fmap. by exists (id, d). }
  split.
  - apply length_take_le. destruct (decide (n ≤ length l)) as [|Hn]; [done|].
    rewrite drop_ge in Hdrop by lia. by apply not_elem_of_nil in Hdrop.
  - intros id' d' Hin'.
    pose proof (sorted_take_le _ n l (id', d') (id, d) (sort_on_sorted _ _) Hin' Hdrop) as Hle.
    unfold lexle in Hle. simpl in Hle. lia.
Qed.

(** The rows the statement returns: the candidates after the update. *)
Lemma claimed_dead_rows now cap limit locked coll o1 o2 db rows db' :
  sql_claim_dead_letters now cap limit locked coll o1 o2 db = (Some rows, db') →
  let cand := retry_candidates (timestamptz now) cap limit locked coll o1 db in
  (0 ≤ limit)%Z
  ∧ db' = set_dead_letters (set_where (λ id _, bool_decide (id ∈ cand.*1)) retried_row
            (dead_letters db)) db
  ∧ rows.*1 ≡ₚ cand.*1
  ∧ ∀ id d', (id, d') ∈ rows → ∃ d, (id, d) ∈ cand ∧ d' = retried_row d.
Proof.
  unfold sql_claim_dead_letters. case_match eqn:El; [done|]. apply orb_false_iff in El as [El _].
  set (cand := retry_candidates _ _ _ _ _ _ _). intros ?; simplify_eq/=.
  assert (∀ id d', (id, d') ∈ select_where (λ id (_ : DeadLetterRow), bool_decide (id ∈ cand.*1))
    (set_where (λ id _, bool_decide (id ∈ cand.*1)) retried_row (dead_letters db)) ↔
    ∃ d, (id, d) ∈ cand ∧ d' = retried_row d) as Hrow.
  { intros id d'. rewrite elem_of_select_where, lookup_set_where, bool_decide_eq_true. split.
    - intros [Hd' Hid]. rewrite bool_decide_eq_true_2 in Hd' by done.
      apply list_elem_of_fmap in Hid as ([id0 d] & -> & Hin). exists d. split; [done|].
      simpl in Hd'. rewrite (elem_of_retry_candidates _ _ _ _ _ _ _ _ _ Hin) in Hd'. by simplify_eq/=.
    - intros (d & Hin & ->). assert (id ∈ cand.*1) as Hid
        by (apply list_elem_of_fmap; by exists (id, d)).
      rewrite (elem_of_retry_candidates _ _ _ _ _ _ _ _ _ Hin). simpl.
      by rewrite bool_decide_eq_true_2. }
  split_and!; [lia|done| |].
  - rewrite shuffle_perm. apply NoDup_Permutation; [apply NoDup_select_where|apply NoDup_retry_candidates|].
    intros id. rewrite !list_elem_of_fmap. split.
    + intros ([id0 d'] & -> & (d & Hin & _)%Hrow). by exists (id0, d).
    + intros ([id0 d] & -> & Hin). exists (id0, retried_row d). split; [done|]. apply Hrow. eauto.
  - intros id d'. rewrite elem_of_shuffle. apply Hrow.
Qed.

Definition retry_item (ir : string * DeadLetterRow) : RetryableDeadLetterDetail :=
  mkRetryable ir.1 (d_replay_attempts ir.2).

Lemma claim_dead_specified now cap limit locked coll o1 o2 db rows db' :
  sql_claim_dead_letters now cap limit locked coll o1 o2 db = (Some rows, db') →
  dead_letters_claimed limit (timestamptz now) cap locked db db' (retry_item <$> rows).
Proof.
  intros (Hlim & -> & Hperm & Hrow)%claimed_dead_rows.
  set (cand := retry_candidates _ _ _ _ _ _ _) in *.
  assert (RD_EventID <$> (retry_item <$> rows) = rows.*1) as Hids.
  { rewrite <- list_fmap_compose. by apply list_fmap_ext. }
  assert (∀ id, id ∈ RD_EventID <$> (retry_item <$> rows) ↔ id ∈ cand.*1) as Hin
    by (intros; by rewrite Hids, Hperm).
  assert (length (retry_item <$> rows) = length cand) as Hlen.
  { rewrite length_fmap, <- (length_fmap fst rows), Hperm. apply length_fmap. }
  constructor; try done.
  - rewrite Hlen. unfold cand, retry_candidates. rewrite length_take. lia.
  - rewrite Hids, Hperm. apply NoDup_retry_candidates.
  - intros x ([id d'] & -> & (d & Hc & ->)%Hrow)%list_elem_of_fmap. exists d. simpl.
    pose proof (elem_of_retry_candidates _ _ _ _ _ _ _ _ _ Hc) as Hd.
    assert (id ∈ cand.*1) as Hid by (apply list_elem_of_fmap; by exists (id, d)).
    destruct (retry_candidate_row _ _ _ _ _ _ _ _ _ Hid Hd).
    split_and!; try done. rewrite lookup_set_where, Hd. simpl. by rewrite bool_decide_eq_true_2.
  - intros id d Hd Hr Hl Hout. rewrite Hin in Hout.
    destruct (retry_candidates_soonest _ _ limit _ coll o1 _ _ _ Hd Hr Hl Hout) as [Hfull Hle].
    split; [rewrite Hlen; unfold cand; rewrite Hfull; lia|].
    intros x d' ([id' d1] & -> & (d0 & Hc & ->)%Hrow)%list_elem_of_fmap Hd'. simpl in Hd'.
    rewrite (elem_of_retry_candidates _ _ _ _ _ _ _ _ _ Hc) in Hd'. simplify_eq. by eapply Hle.
  - intros id Hout. simpl. rewrite lookup_set_where.
    destruct (dead_letters db !! id) as [d|]; [|done]. simpl.
    rewrite bool_decide_eq_false_2; [done|]. by rewrite <- Hin.
Qed.

Lemma collect_pure {A B} (f : A → B) rows : collect (λ r, Ok (f r)) rows = Ok (f <$> rows).
Proof. induction rows as [|r rows IH]; simpl; [done|]. by rewrite IH. Qed.

Section Claim.
Context `{E : Env}.

Lemma ClaimRetryableDeadLetterDetails_spec ctx limit cap w :
  wp (ClaimRetryableDeadLetterDetails ctx limit cap) (λ r w', ∀ items, r = Ok items →
    dead_letters_claimed limit (timestamptz (env_clock (w_tick w))) cap
      (env_locked_dead (S (w_tick w))) (w_db w) (w_db w') items) w.
Proof.
  unfold ClaimRetryableDeadLetterDetails. do 4 wp_step; [|by wp_steps..].
  unfold scan_rows. do 2 wp_step; rewrite collect_pure; wp_step; [|done].
  intros items [= <-]. by eapply claim_dead_specified.
Qed.

(** C31: a successful ClaimRetryableDeadLetterDetails takes exactly the dead
    letters that are due: at most [limit], all distinct, each unreplayed, with
    its retry time reached, fewer than [maxAttempts] automatic attempts and not
    locked elsewhere; each has its attempt counted (the number returned) and
    its retry time cleared, so that it is not due any more; one that was due
    and was not taken is scheduled no earlier than those taken, and was left
    because the batch is full; all other rows and tables are untouched. *)
Theorem ClaimRetryableDeadLetterDetails_exact ctx limit maxAttempts w items :
  (ClaimRetryableDeadLetterDetails ctx limit maxAttempts w).1 = Ok items →
  dead_letters_claimed limit (timestamptz (env_clock (w_tick w))) maxAttempts
    (env_locked_dead (S (w_tick w))) (w_db w)
    (w_db (ClaimRetryableDeadLetterDetails ctx limit maxAttempts w).2) items.
Proof. apply (ClaimRetryableDeadLetterDetails_spec ctx limit maxAttempts w). Qed.

End Claim.

(** ** On a concrete run *)

(** event_1 has failed for good and is in the dead letters. *)
Definition world_dead : World :=
  @run_ops (calm_env 1000) simple_codec
    [OpSaveDeadLetter Background event_1 (ErrMsg "boom") 4;
     OpMarkFailed Background "evt-001" 4 (ErrMsg "boom")] world_saved.

Lemma world_dead_inv : w_tx world_dead = None ∧ db_inv (w_db world_dead).
Proof.
  destruct world_saved_inv. apply (run_ops_keeps (E := calm_env 1000) (C := simple_codec) any_call db_inv);
    [apply any_call_ok|done..].
Qed.

Lemma ReplayDeadLetter_atomic_witness :
  let _ := calm_env 2000 in
  ∃ e i row now,
    events (w_db (ReplayDeadLetter Background "evt-001" world_dead).2)
      = <["evt-001" := requeued_row now e]> (events (w_db world_dead))
    ∧ outbox (w_db (ReplayDeadLetter Background "evt-001" world_dead).2)
      = <[i := reopened_row row]> (outbox (w_db world_dead)).
Proof.
  intros E. destruct (ReplayDeadLetter_atomic (E := E) Background "evt-001" world_dead
    (proj1 world_dead_inv) (proj2 world_dead_inv))
    as [(_ & _ & _ & err & Herr & _)|(e & d & i & row & now & _ & _ & _ & _ & _ & _ & He & Ho & _)].
  - vm_compute in Herr. discriminate.
  - exists e, i, row, now. by split.
Defined.

Lemma ReplayDeadLetter_answer_witness :
  let _ := calm_env 2000 in
  (ReplayDeadLetter Background "evt-001" world_dead).1 = None
  ∧ (ReplayDeadLetter Background "evt-002" world_dead).1 = Some ErrDeadLetterNotFound.
Proof.
  intros E. split.
  - exact (ReplayDeadLetter_answer (E := E) Background "evt-001" world_dead
      (calm_env_no_faults _) (proj1 world_dead_inv)).
  - exact (ReplayDeadLetter_answer (E := E) Background "evt-002" world_dead
      (calm_env_no_faults _) (proj1 world_dead_inv)).
Defined.

Lemma automatic_replays_bounded_witness :
  let _ := calm_env 1000 in let _ := simple_codec in
  let ops := [OpSaveDeadLetter Background event_1 (ErrMsg "boom") 4; OpClaimDeadDetails Background 10 3] in
  ∃ d, dead_letters (w_db (run_ops ops empty_world)) !! "evt-001" = Some d
       ∧ (d_replay_attempts d ≤ 3)%Z.
Proof.
  intros E C ops.
  assert (∃ d, dead_letters (w_db (run_ops ops empty_world)) !! "evt-001" = Some d) as [d Hd]
    by (vm_compute; eauto).
  exists d. split; [done|].
  apply (automatic_replays_bounded (H := E) (H0 := C) 3 ops empty_world) with "evt-001";
    [lia|reflexivity|reflexivity|by repeat split|done].
Defined.

Lemma ClaimRetryableDeadLetterDetails_exact_witness :
  let _ := calm_env 2000 in
  ∃ d, dead_letters (w_db world_dead) !! "evt-001" = Some d ∧ d_replay_attempts d = 0%Z
    ∧ dead_letters (w_db (ClaimRetryableDeadLetterDetails Background 10 3 world_dead).2) !! "evt-001"
      = Some (retried_row d).
Proof.
  intros E. pose proof (ClaimRetryableDeadLetterDetails_exact (E := E) Background 10 3 world_dead
    [mkRetryable "evt-001" 1] ltac:(vm_compute; reflexivity)) as Hc.
  destruct (dc_row _ _ _ _ _ _ _ Hc (mkRetryable "evt-001" 1)) as (d & Hd & _ & _ & Hd' & Ha); [left|].
  exists d. split_and!; [done| |done]. simpl in Ha. lia.
Defined.
