(* ===== verification/Recovery.v ===== *)
(** * From the dead letters back to the dispatcher

    What a replay means for the dispatchers: the event is claimed again, with
    the content it was accepted with, provided that no dispatcher still holds a
    reservation of its outbox row; and what happens when one does. *)

From stdpp Require Import base gmap strings list pretty.
From Stdlib Require Import ZArith Lia Ascii.
From S2P Require Import Prelude GoLib Models Metrics Sql Database DbInvariant World Scenario.
From S2P Require Import EventStore StoreLogic StoreProps StoreOutbox StoreProcessing StoreDead.

Open Scope go_scope.

(** An event that has failed for good and can be replayed. *)
Definition replayable (id : string) (db : Database) : Prop :=
  (∃ e, events db !! id = Some e ∧ e_status e = EventStatusFailed) ∧ is_Some (dead_letters db !! id).

(** No dispatcher is at work on the event. *)
Definition undispatched (id : string) (db : Database) : Prop :=
  map_Forall (λ _ r, o_event_id r = id → o_dispatching_at r = None) (outbox db).

Section Recovery.
Context `{E : Env} `{C : JsonCodec}.

(** Without failures, the replay of a replayable event succeeds. *)
Lemma replay_succeeds ctx id w :
  no_faults → w_tx w = None → db_inv (w_db w) → replayable id (w_db w) →
  let w1 := (ReplayDeadLetter ctx id w).2 in
  (ReplayDeadLetter ctx id w).1 = None ∧ w_tx w1 = None
  ∧ ∃ e d i r now, events (w_db w) !! id = Some e ∧ dead_letters (w_db w) !! id = Some d
    ∧ outbox (w_db w) !! i = Some r ∧ o_event_id r = id ∧ o_content r = e_content e
    ∧ w_db w1 = mkDatabase (<[id := requeued_row now e]> (events (w_db w)))
        (<[i := reopened_row r]> (outbox (w_db w)))
        (<[id := replayed_row now d]> (dead_letters (w_db w))) (outbox_seq (w_db w)).
Proof.
  intros Hnf Htx Hinv [(e & He & Hs) [d Hd]] w1.
  destruct (ReplayDeadLetter_outcome ctx id w Htx) as [Htx1 Ho]. fold w1 in Htx1, Ho.
  inversion Ho as [now e' d' He' Hd' Hs' Hr Hdb|? ? ? ? ? ? ? ? ? Hf|Hn|e' d' He' Hd' Hs'|? ? ? ? Hf];
    simplify_eq; [|done| |done].
  - split_and!; [done|done|]. symmetry in Hdb.
    destruct (replayed_eval id e d now (w_db w) Hinv He Hs Hd) as (i & r & Hi & Hid & Hc & Heq).
    exists e, d, i, r, (timestamptz now). split_and!; [done..|]. congruence.
  - destruct Hn; congruence.
Qed.

(** C21: a replayed event reaches the dispatcher again as it was accepted, when
    no dispatcher has reserved its outbox row.  Suppose that the database does not
    fail, no outbox row is locked elsewhere, random bytes can be had, and the
    payloads of the pending rows and of the event can be decoded.  When the event
    has failed for good and has a dead letter, and its row carries no reservation,
    ReplayDeadLetter succeeds, and a claim whose limit exceeds the number of rows
    that were pending succeeds and returns a message with the id, the type, the
    request id and the payload stored for the event, counted as never attempted.
    (With a reservation left on the row the event can be lost: see
    late_result_hides_replay.) *)
Theorem replayed_event_is_claimed ctx ctx' id limit lease w :
  no_faults → (∀ n i, env_locked_outbox n i = false) → (∀ n, is_Some (env_rand n)) →
  w_tx w = None → db_inv (w_db w) → decodable (w_db w) →
  (∀ e, events (w_db w) !! id = Some e → ∃ p, json_unmarshal (e_payload e) = inr p) →
  replayable id (w_db w) → undispatched id (w_db w) →
  (Z.of_nat (size (pending (w_db w))) < limit)%Z →
  let w1 := (ReplayDeadLetter ctx id w).2 in
  (ReplayDeadLetter ctx id w).1 = None
  ∧ ∃ e msgs m, events (w_db w) !! id = Some e
    ∧ (ClaimPendingOutbox ctx' limit lease w1).1 = Ok msgs ∧ m ∈ msgs
    ∧ Event_ID (Message_Event m) = id ∧ Event_Type (Message_Event m) = e_type e
    ∧ Event_RequestID (Message_Event m) = e_request_id e
    ∧ json_unmarshal (e_payload e) = inr (Event_Payload (Message_Event m))
    ∧ Message_Attempts m = 0%Z.
Proof.
  intros Hnf Hlock Hrand Htx Hinv Hdec Hpay Hrep Hfree Hlim w1.
  destruct (replay_succeeds ctx id w Hnf Htx Hinv Hrep)
    as (Hok & Htx1 & e & d & i & r & now & He & Hd & Hr & Hid & Hc & Hdb).
  fold w1 in Htx1, Hdb. split; [done|].
  destruct (pending_insert (w_db w) (w_db w1) i (reopened_row r)) as [Hpend Hsize]; [by rewrite Hdb|done|].
  assert (decodable (w_db w1)) as Hdec1.
  { unfold decodable. rewrite Hpend. apply map_Forall_insert_2; [|done]. simpl.
    unfold o_content, e_content in Hc. replace (o_payload r) with (e_payload e) by congruence. by apply Hpay. }
  assert (0 ≤ limit)%Z as Hlim0 by lia.
  destruct (ClaimPendingOutbox_total ctx' limit lease w1 Hnf (Hrand _) Hlim0 Hdec1) as [msgs Hmsgs].
  destruct (ClaimPendingOutbox_spec ctx' limit lease w1 msgs Hmsgs) as (bytes & _ & Hcl).
  assert (outbox (w_db w1) !! i = Some (reopened_row r)) as Hrow
    by (rewrite Hdb; apply lookup_insert_eq).
  assert (i ∈ Message_ID <$> msgs) as Hin.
  { eapply claim_takes_all; [exact Hcl|lia|exact Hrow| |apply Hlock].
    unfold claimable. simpl. by rewrite (Hfree _ _ Hr Hid). }
  apply list_elem_of_fmap in Hin as (m & Him & Hm). exists e, msgs, m.
  destruct (oc_row _ _ _ _ _ _ _ _ Hcl m Hm) as (r' & Hr' & _ & _ & _ & _ & Ha & Hi & Ht & Hq & Hp).
  rewrite <- Him, Hrow in Hr'. unfold o_content, e_content in Hc. simplify_eq/=.
  split_and!; congruence.
Qed.

(** C37: the reservation of a dispatcher survives a replay.  When the outbox row
    of a failed event is still reserved under a token (its publication is out,
    its result not recorded yet) and the event is replayed, the replay succeeds,
    and the late MarkOutboxPublished under that token then also succeeds: the
    event is queued and its dead letter counts as replayed, but its outbox row is
    published, so that no later claim can return it. *)
Theorem late_result_hides_replay ctx ctx' id m r w :
  no_faults → w_tx w = None → db_inv (w_db w) → replayable id (w_db w) →
  outbox (w_db w) !! Message_ID m = Some r → o_event_id r = id →
  o_dispatch_token r = Some (Message_DispatchToken m) →
  let w1 := (ReplayDeadLetter ctx id w).2 in
  let w2 := (MarkOutboxPublished ctx' m w1).2 in
  (ReplayDeadLetter ctx id w).1 = None ∧ (MarkOutboxPublished ctx' m w1).1 = None
  ∧ (e_status <$> events (w_db w2) !! id) = Some EventStatusQueued
  ∧ (∃ d, dead_letters (w_db w2) !! id = Some d ∧ is_Some (d_replayed_at d))
  ∧ ∃ r2, outbox (w_db w2) !! Message_ID m = Some r2 ∧ ∀ x, claimable x r2 = false.
Proof.
  intros Hnf Htx Hinv Hrep Hm Hid Htok w1 w2.
  destruct (replay_succeeds ctx id w Hnf Htx Hinv Hrep)
    as (Hok & _ & e & d & i & r' & now & He & Hd & Hr & Hid' & _ & Hdb). fold w1 in Hdb.
  assert (i = Message_ID m) as -> by (eapply (wf_unique _ (proj1 Hinv)); [done..|congruence]).
  simplify_eq. split; [done|].
  assert (outbox (w_db w1) !! Message_ID m = Some (reopened_row r)) as Hrow
    by (rewrite Hdb; apply lookup_insert_eq).
  pose proof (MarkOutboxPublished_recorded ctx' m w1) as Hrec. fold w2 in Hrec.
  unfold recorded, reserved_row in Hrec. rewrite Hrow in Hrec. simpl in Hrec.
  unfold reserved in Hrec. simpl in Hrec. rewrite Htok in Hrec.
  rewrite Z.eqb_refl in Hrec. unfold null_eq in Hrec. rewrite bool_decide_eq_true_2 in Hrec by done.
  simpl in Hrec. destruct Hrec as (Hdb2 & _ & Hnil). specialize (Hnil Hnf). specialize (Hdb2 Hnil).
  split; [done|]. rewrite Hdb2, Hdb. simpl. rewrite !lookup_insert_eq. simpl.
  split; [done|]. split; [by eexists|]. by eexists.
Qed.

End Recovery.

(** ** On a concrete run *)

Lemma replayable_evt_001 w :
  (e_status <$> events (w_db w) !! "evt-001") = Some EventStatusFailed →
  is_Some (dead_letters (w_db w) !! "evt-001") → replayable "evt-001" (w_db w).
Proof.
  intros He Hd. split; [|done]. destruct (events (w_db w) !! "evt-001") as [e|]; [|done].
  exists e. by simplify_eq/=.
Qed.

(** The outbox of world_dead: the row of event_1, as it was saved. *)
Lemma world_dead_outbox :
  outbox (w_db world_dead)
  = <[1%Z := new_outbox_row event_1 "null" 1001000000000]> (∅ : gmap Z OutboxRow).
Proof. vm_compute. reflexivity. Qed.

Lemma replayed_event_is_claimed_witness :
  let _ := calm_env 2000 in let _ := simple_codec in
  ∃ msgs m, (ClaimPendingOutbox Background 10 30
      (ReplayDeadLetter Background "evt-001" world_dead).2).1 = Ok msgs
    ∧ m ∈ msgs ∧ Event_ID (Message_Event m) = "evt-001" ∧ Message_Attempts m = 0%Z.
Proof.
  intros E C. assert (db_inv (w_db world_dead)) as Hinv by apply world_dead_inv.
  destruct (replayed_event_is_claimed (E := E) (C := C) Background Background "evt-001" 10 30 world_dead)
    as (_ & e & msgs & m & _ & Hok & Hm & Hid & _ & _ & _ & Ha).
  - apply calm_env_no_faults.
  - reflexivity.
  - intros n. eexists. reflexivity.
  - apply world_dead_inv.
  - exact Hinv.
  - apply map_Forall_lookup_2. intros i r [Hr _]%pending_some. revert i r Hr. apply map_Forall_lookup.
    rewrite world_dead_outbox. apply map_Forall_insert_2; [eexists; reflexivity|apply map_Forall_empty].
  - intros e He. assert (e_payload <$> events (w_db world_dead) !! "evt-001" = Some "null") as Hp
      by (vm_compute; reflexivity).
    rewrite He in Hp. injection Hp as ->. eexists. reflexivity.
  - apply replayable_evt_001; vm_compute; eauto.
  - unfold undispatched. rewrite world_dead_outbox.
    apply map_Forall_insert_2; [reflexivity|apply map_Forall_empty].
  - vm_compute. reflexivity.
  - exists msgs, m. by split_and!.
Defined.

(** event_1 is claimed by a dispatcher, then fails for good in a worker. *)
Definition world_in_flight : World :=
  @run_ops (calm_env 1000) simple_codec
    [OpSaveDeadLetter Background event_1 (ErrMsg "boom") 4;
     OpMarkFailed Background "evt-001" 4 (ErrMsg "boom")] claim_saved.2.

Lemma world_in_flight_inv : w_tx world_in_flight = None ∧ db_inv (w_db world_in_flight).
Proof.
  destruct world_saved_inv.
  apply (run_ops_keeps (E := calm_env 1000) (C := simple_codec) any_call db_inv
    [OpClaimOutbox Cancellable 10 30000000000; OpSaveDeadLetter Background event_1 (ErrMsg "boom") 4;
     OpMarkFailed Background "evt-001" 4 (ErrMsg "boom")] world_saved); [apply any_call_ok|done..].
Qed.

Lemma late_result_hides_replay_witness :
  let _ := calm_env 2000 in let _ := simple_codec in
  let w1 := (ReplayDeadLetter Background "evt-001" world_in_flight).2 in
  (MarkOutboxPublished Background message_1 w1).1 = None
  ∧ (e_status <$> events (w_db (MarkOutboxPublished Background message_1 w1).2) !! "evt-001")
    = Some EventStatusQueued.
Proof.
  intros E C w1.
  assert (∃ r, outbox (w_db world_in_flight) !! 1%Z = Some r ∧ o_event_id r = "evt-001"
    ∧ o_dispatch_token r = Some (Message_DispatchToken message_1)) as (r & Hr & Hid & Htok)
    by (vm_compute; eauto).
  destruct (late_result_hides_replay (E := E) Background Background "evt-001" message_1 r world_in_flight
    (calm_env_no_faults _) (proj1 world_in_flight_inv) (proj2 world_in_flight_inv)) as (_ & H1 & H2 & _);
    [apply replayable_evt_001; vm_compute; eauto|exact Hr|exact Hid|exact Htok|]. by split.
Defined.
