(* ===== verification/Outbox.v ===== *)
(** * outbox.go: the dispatcher

    EventPublisher (queue.go) as an interface with its law, OutboxDispatcher
    and DispatchPending.  A row is only ever marked published after the broker
    confirmed its event; a batch without database failures ends with the
    published prefix marked, the failing message released and the rest still
    reserved. *)

From stdpp Require Import base gmap strings list pretty.
From Stdlib Require Import ZArith Lia Ascii.
From S2P Require Import Prelude GoLib Config Models Metrics Sql Database DbInvariant World Scenario.
From S2P Require Import EventStore StoreLogic StoreProps StoreOutbox.

Open Scope go_scope.

(** The interface [EventPublisher]. *)
Class EventPublisher := { Publish : Ctx → Event → M (option GoError) }.

(** What it promises the dispatcher: one publication attempt, recorded with the
    error that is returned (nil only when the broker has confirmed), and
    nothing else. *)
Class EventPublisherOk (P : EventPublisher) : Prop := {
  publish_tables : ∀ ctx ev w, w_db (Publish ctx ev w).2 = w_db w ∧ w_tx (Publish ctx ev w).2 = w_tx w;
  publish_metrics : ∀ ctx ev w, w_metrics (Publish ctx ev w).2 = w_metrics w;
  publish_trace : ∀ ctx ev w,
    w_trace (Publish ctx ev w).2 = w_trace w ++ [EffPublish ev (Publish ctx ev w).1];
}.

(** The fields of OutboxDispatcher besides the store, the publisher and the
    metrics. *)
Record OutboxDispatcher := mkOutboxDispatcher {
  pollInterval : Z;
  batchSize : Z;
  dispatchLease : Z;
}.

Definition NewOutboxDispatcher (config : Config) : OutboxDispatcher :=
  mkOutboxDispatcher (OutboxPollInterval config) (OutboxBatchSize config)
    (OutboxDispatchLease config).

(** The outcome of the [select] of the loop. *)
Inductive Wakeup := Ticked | Stopped.

#[export] Instance Wakeup_eq_dec : EqDecision Wakeup.
Proof. solve_decision. Defined.

Section Dispatcher.
Context `{E : Env} `{C : JsonCodec} `{P : EventPublisher}.

(** The loop over the claimed messages: [break] and [return] leave it. *)
Fixpoint dispatch_messages (ctx : Ctx) (messages : list OutboxMessage) : M (option GoError) :=
  match messages with
  | [] => mret None
  | message :: messages =>
      err ← Publish ctx (Message_Event message);
      match err with
      | Some err =>
          _ ← MarkOutboxFailed Background message err;
          mret None
      | None =>
          check MarkOutboxPublished ctx message orelse (λ e, mret (Some e));
          inc_metric EventsQueued;;
          dispatch_messages ctx messages
      end
  end.

Definition DispatchPending (dispatcher : OutboxDispatcher) (ctx : Ctx) : M (option GoError) :=
  messages ←! ClaimPendingOutbox ctx (batchSize dispatcher) (dispatchLease dispatcher)
    orelse (λ e, mret (Some e));
  dispatch_messages ctx messages.

(** [run], for the wake-ups received so far: whether the loop has ended. *)
Fixpoint dispatcher_run (dispatcher : OutboxDispatcher) (ctx : Ctx) (wakeups : list Wakeup)
    : M bool :=
  _ ← DispatchPending dispatcher ctx;
  match wakeups with
  | [] => mret false
  | Stopped :: _ => mret true
  | Ticked :: wakeups => dispatcher_run dispatcher ctx wakeups
  end.

(** [run] from its start: time.NewTicker panics unless its argument is positive. *)
Definition dispatcher_start (dispatcher : OutboxDispatcher) (ctx : Ctx) (wakeups : list Wakeup)
    : M (option bool) :=
  if (pollInterval dispatcher <=? 0)%Z then mret None
  else
    ended ← dispatcher_run dispatcher ctx wakeups;
    mret (Some ended).

End Dispatcher.

(** ** Published means confirmed *)

(** Since [w], the trace has grown, outbox rows are still there with their
    event, and a row that has become published has had its event confirmed. *)
Definition confirmed (w w' : World) : Prop :=
  outbox_grows (w_db w) (w_db w')
  ∧ ∃ l, w_trace w' = w_trace w ++ l
    ∧ ∀ i r', outbox (w_db w') !! i = Some r' → is_Some (o_published_at r') →
        (∃ r, outbox (w_db w) !! i = Some r ∧ is_Some (o_published_at r))
        ∨ ∃ ev, EffPublish ev None ∈ l ∧ Event_ID ev = o_event_id r'.

#[export] Instance confirmed_preorder : PreOrder confirmed.
Proof.
  split.
  - intros w. split; [done|]. exists []. rewrite app_nil_r. split; [done|]. eauto.
  - intros w1 w2 w3 [Hg1 (l1 & Ht1 & Hp1)] [Hg2 (l2 & Ht2 & Hp2)]. split; [by etrans|].
    exists (l1 ++ l2). split; [by rewrite Ht2, Ht1, app_assoc|]. intros i r3 Hr3 Hpub.
    destruct (Hp2 i r3 Hr3 Hpub) as [(r2 & Hr2 & Hpub2)|(ev & Hin & Hid)].
    + destruct (Hp1 i r2 Hr2 Hpub2) as [?|(ev & Hin & Hid)]; [by left|]. right. exists ev.
      split; [set_solver|]. destruct (Hg2 _ _ Hr2) as (r3' & Hr3' & Heq). congruence.
    + right. exists ev. split; [set_solver|done].
Qed.

(** A step that keeps trace and publication states. *)
Lemma confirmed_quiet w w' :
  w_trace w' = w_trace w → outbox_grows (w_db w) (w_db w') →
  (∀ i r', outbox (w_db w') !! i = Some r' → is_Some (o_published_at r') →
     ∃ r, outbox (w_db w) !! i = Some r ∧ is_Some (o_published_at r)) →
  confirmed w w'.
Proof.
  intros Ht Hg Hp. split; [done|]. exists []. rewrite app_nil_r. split; [done|]. intros i r' Hr' Hpub.
  left. by eapply Hp.
Qed.

Lemma confirmed_same_outbox w w' :
  w_trace w' = w_trace w → outbox (w_db w') = outbox (w_db w) → confirmed w w'.
Proof.
  intros Ht Ho. apply confirmed_quiet; [done| |].
  - intros i r Hr. exists r. by rewrite Ho.
  - intros i r Hr Hp. exists r. by rewrite <- Ho.
Qed.

(** The same on the tables, for the store calls that confirm nothing. *)
Definition pub_stable (db db' : Database) : Prop :=
  outbox_grows db db'
  ∧ ∀ i r', outbox db' !! i = Some r' → is_Some (o_published_at r') →
      ∃ r, outbox db !! i = Some r ∧ is_Some (o_published_at r).

#[export] Instance pub_stable_preorder : PreOrder pub_stable.
Proof.
  split; [by split; eauto|]. intros a b c [Hg1 Hp1] [Hg2 Hp2]. split; [by etrans|].
  intros i r3 Hr3 Hp3. destruct (Hp2 _ _ Hr3 Hp3) as (r2 & Hr2 & Hpub2). eauto.
Qed.

Lemma set_where_stable P f db :
  (∀ r, o_event_id (f r) = o_event_id r ∧ o_published_at (f r) = o_published_at r) →
  pub_stable db (set_outbox (set_where P f (outbox db)) db).
Proof.
  intros Hf. split; [apply set_where_grows; apply Hf|]. intros i r'. simpl.
  rewrite lookup_set_where. destruct (outbox db !! i) as [r|]; [|done]. intros [= <-] Hp.
  exists r. split; [done|]. destruct (P i r); [|done]. by rewrite <- (proj2 (Hf r)).
Qed.

Section Confirmed.
Context `{E : Env} `{C : JsonCodec} `{P : EventPublisher} `{HP : !EventPublisherOk P}.

Lemma Claim_stable ctx limit lease : evolves pub_stable (ClaimPendingOutbox ctx limit lease).
Proof.
  unfold ClaimPendingOutbox, newOutboxDispatchToken. solve_evolves.
  unfold sql_claim_outbox. case_match; [done|]. by apply set_where_stable.
Qed.

Lemma MarkOutboxFailed_stable ctx m e : evolves pub_stable (MarkOutboxFailed ctx m e).
Proof.
  unfold MarkOutboxFailed. solve_evolves. unfold sql_mark_outbox_failed, update_outbox.
  destruct (update_where _ _ _) as [[k t]|] eqn:Eu; [|done].
  apply update_where_some in Eu as (_ & -> & _). apply set_where_stable.
  intros r. unfold publish_failed_row. by case_match.
Qed.

Lemma MarkOutboxPublished_closes ctx m : evolves (λ _ _, True) (MarkOutboxPublished ctx m).
Proof. unfold MarkOutboxPublished. assert (PreOrder (λ _ _ : Database, True)) by by split. by solve_evolves. Qed.

(** A store call that confirms nothing. *)
Lemma confirmed_store {A} (m : M A) w :
  silent m → evolves pub_stable m → w_tx w = None → w_tx (m w).2 = None ∧ confirmed w (m w).2.
Proof.
  intros Hs Hev Htx. destruct (Hev w Htx) as [Htx' [Hg Hp]]. destruct (Hs w) as [_ Ht].
  split; [done|]. by apply confirmed_quiet.
Qed.

(** The messages name rows that carry their events. *)
Definition messages_match (msgs : list OutboxMessage) (db : Database) : Prop :=
  ∀ m, m ∈ msgs → ∃ r, outbox db !! Message_ID m = Some r ∧ o_event_id r = Event_ID (Message_Event m).

Lemma messages_match_grows msgs db db' :
  outbox_grows db db' → messages_match msgs db → messages_match msgs db'.
Proof.
  intros Hg Hm m Hin. destruct (Hm m Hin) as (r & Hr & Heq).
  destruct (Hg _ _ Hr) as (r' & Hr' & Heq'). exists r'. by rewrite Heq'.
Qed.

(** Publish, then mark. *)
Lemma confirmed_mark ctx m w :
  messages_match [m] (w_db w) → (Publish ctx (Message_Event m) w).1 = None →
  confirmed w (MarkOutboxPublished ctx m (Publish ctx (Message_Event m) w).2).2.
Proof.
  intros Hmatch Hok. set (w1 := (Publish ctx (Message_Event m) w).2).
  assert (w_db w1 = w_db w) as Hdb by apply publish_tables.
  assert (w_trace w1 = w_trace w ++ [EffPublish (Message_Event m) None]) as Ht
    by (unfold w1; rewrite publish_trace, Hok; done).
  destruct (silent_MarkOutboxPublished ctx m w1) as [_ Ht2]. rewrite Ht in Ht2.
  destruct (Hmatch m) as (r & Hr & Hid); [left|].
  pose proof (MarkOutboxPublished_recorded ctx m w1) as Hrec. rewrite Hdb in Hrec.
  assert (w_db (MarkOutboxPublished ctx m w1).2 = w_db w
    ∨ ∃ now, w_db (MarkOutboxPublished ctx m w1).2
             = put_outbox (Message_ID m) (published_row now r) (w_db w)) as [Hsame|[now Hput]].
  { unfold recorded, reserved_row in Hrec. rewrite Hr in Hrec.
    destruct (reserved _ _ _ r); simpl in Hrec; naive_solver. }
  - split; [by rewrite Hsame|]. exists [EffPublish (Message_Event m) None]. split; [done|].
    rewrite Hsame. eauto.
  - split.
    + rewrite Hput. intros i s Hs. simpl. destruct (decide (i = Message_ID m)) as [->|Hne].
      * rewrite lookup_insert_eq. eexists. split; [done|]. by simplify_eq.
      * rewrite lookup_insert_ne by done. eauto.
    + exists [EffPublish (Message_Event m) None]. split; [done|]. rewrite Hput. simpl.
      intros i r'. destruct (decide (i = Message_ID m)) as [->|Hne].
      * rewrite lookup_insert_eq. intros [= <-] _. right. exists (Message_Event m).
        split; [set_solver|done].
      * rewrite lookup_insert_ne by done. eauto.
Qed.

Lemma dispatch_messages_confirmed ctx msgs w :
  w_tx w = None → messages_match msgs (w_db w) →
  wp (dispatch_messages ctx msgs) (λ _ w', w_tx w' = None ∧ confirmed w w') w.
Proof.
  revert w. induction msgs as [|m msgs IH]; intros w Htx Hmatch; simpl; [by wp_step|].
  wp_step. destruct (publish_tables ctx (Message_Event m) w) as [Hdb1 Htx1].
  pose proof (publish_trace ctx (Message_Event m) w) as Ht1. rewrite Htx in Htx1. unfold wp at 1.
  destruct (Publish ctx (Message_Event m) w).1 as [e|] eqn:Ep.
  - wp_step. set (w1 := (Publish ctx (Message_Event m) w).2) in *.
    destruct (confirmed_store (MarkOutboxFailed Background m e) w1) as [Htx2 Hc2];
      [auto with webhook|apply MarkOutboxFailed_stable|done|].
    apply (wp_wand _ (λ _ w', w_tx w' = None ∧ confirmed w1 w')); [done|]. intros _ w2 [? Hc].
    wp_step. split; [done|]. etrans; [|exact Hc]. split; [by rewrite Hdb1|].
    eexists. split; [exact Ht1|]. rewrite Hdb1. eauto.
  - pose proof (confirmed_mark ctx m w ltac:(intros x Hx; apply Hmatch; set_solver) Ep) as Hc1.
    set (w1 := (Publish ctx (Message_Event m) w).2) in *.
    destruct (MarkOutboxPublished_closes ctx m w1 Htx1) as [Htx2 _].
    apply wp_check. unfold wp at 1. set (w2 := (MarkOutboxPublished ctx m w1).2) in *.
    destruct (MarkOutboxPublished ctx m w1).1; wp_step; [done|].
    wp_step. eapply wp_wand; [apply IH|].
    + done.
    + eapply messages_match_grows; [apply Hc1|]. intros x Hx. apply Hmatch. set_solver.
    + intros _ w3 [Htx3 Hc3]. split; [done|]. etrans; [exact Hc1|]. etrans; [|exact Hc3].
      by apply confirmed_same_outbox.
Qed.

Lemma DispatchPending_confirmed d ctx w :
  w_tx w = None → wp (DispatchPending d ctx) (λ _ w', w_tx w' = None ∧ confirmed w w') w.
Proof.
  intros Htx. unfold DispatchPending. apply wp_try.
  pose proof (ClaimPendingOutbox_spec ctx (batchSize d) (dispatchLease d) w) as Hspec.
  destruct (confirmed_store (ClaimPendingOutbox ctx (batchSize d) (dispatchLease d)) w) as [Htx1 Hc1];
    [auto with webhook|apply Claim_stable|done|].
  unfold wp at 1. unfold wp in Hspec.
  destruct (ClaimPendingOutbox ctx (batchSize d) (dispatchLease d) w) as [[msgs|e] w1]; simpl in *;
    [|by wp_step].
  destruct (Hspec msgs eq_refl) as (bytes & _ & Hcl).
  eapply wp_wand; [apply dispatch_messages_confirmed; [done|]|].
  - intros m Hm. destruct (oc_row _ _ _ _ _ _ _ _ Hcl m Hm)
      as (r & _ & _ & _ & Hr & _ & _ & Hid & _). eexists. split; [exact Hr|done].
  - intros _ w2 [? Hc2]. split; [done|]. by etrans.
Qed.

(** C3: a row of the outbox is marked published only after the broker has
    confirmed its event: over any number of rounds of the dispatcher, under any
    failures of the database and any behaviour of the broker, every row that
    has become published belongs to an event for which a confirmed publication
    is in the trace of the run. *)
Theorem published_only_if_confirmed d ctx wakeups w i r' :
  w_tx w = None →
  let w' := (dispatcher_run d ctx wakeups w).2 in
  outbox (w_db w') !! i = Some r' → is_Some (o_published_at r') →
  (∃ r, outbox (w_db w) !! i = Some r ∧ is_Some (o_published_at r))
  ∨ ∃ l ev, w_trace w' = w_trace w ++ l ∧ EffPublish ev None ∈ l ∧ Event_ID ev = o_event_id r'.
Proof.
  intros Htx w'.
  assert (w_tx w' = None ∧ confirmed w w') as [_ [_ (l & Ht & Hp)]].
  { unfold w'. revert w Htx w'. induction wakeups as [|wk wakeups IH]; intros w Htx _; simpl;
      rewrite M_bind_run; pose proof (DispatchPending_confirmed d ctx w Htx) as [Htx1 Hc1];
      [done|destruct wk; [|done]].
    destruct (IH _ Htx1) as [Htx2 Hc2]. split; [done|]. by etrans. }
  intros Hr' Hpub. destruct (Hp i r' Hr' Hpub) as [?|(ev & ? & ?)]; [by left|]. right. eauto 6.
Qed.

End Confirmed.

(** ** A round without database failures *)

Definition confirmations (msgs : list OutboxMessage) : list Effect :=
  (λ m, EffPublish (Message_Event m) None) <$> msgs.

(** What a round does with the messages it has claimed under [tok] at [t]:
    [done] are published and marked, the first message of [rest] could not be
    published, the others have not been tried. *)
Record dispatched (tok : string) (t : Z) (msgs : list OutboxMessage) (w w' : World)
    (done rest : list OutboxMessage) : Prop := {
  dp_split : msgs = done ++ rest;
  dp_metrics : w_metrics w' = Nat.iter (length done) (inc EventsQueued) (w_metrics w);
  dp_done : ∀ m, m ∈ done → ∃ r now, outbox (w_db w) !! Message_ID m = Some r
    ∧ outbox (w_db w') !! Message_ID m = Some (published_row now r);
  dp_rest : match rest with
    | [] => w_trace w' = w_trace w ++ confirmations done
    | m :: later => ∃ e,
        w_trace w' = w_trace w ++ confirmations done ++ [EffPublish (Message_Event m) (Some e)]
        ∧ (∃ r, outbox (w_db w) !! Message_ID m = Some r
             ∧ outbox (w_db w') !! Message_ID m = Some (default r (publish_failed_row (error_string e) r)))
        ∧ ∀ m', m' ∈ later → held (Message_ID m') tok t (w_db w')
    end;
  dp_others : ∀ i, i ∉ (Message_ID <$> msgs) → outbox (w_db w') !! i = outbox (w_db w) !! i;
}.

Section Calm.
Context `{E : Env} `{C : JsonCodec} `{P : EventPublisher} `{HP : !EventPublisherOk P}.

Lemma held_row i tok t db : held i tok t db → db_wf db → ∃ r,
  outbox db !! i = Some r ∧ reserved_row i tok db = Some r.
Proof.
  intros Hh Hwf. destruct (held_reserved i tok t db Hwf Hh) as [r Hr]. exists r. split; [|done].
  unfold reserved_row in Hr. destruct (outbox db !! i); [|done]. by case_match; simplify_eq.
Qed.

Lemma held_same_row i tok t db db' :
  outbox db' !! i = outbox db !! i → held i tok t db → held i tok t db'.
Proof. intros Heq (r & Hr & ?). exists r. by rewrite Heq. Qed.

(** Marking the message of a held row, without failures. *)
Lemma MarkOutboxPublished_calm ctx m t w :
  no_faults → db_wf (w_db w) → held (Message_ID m) (Message_DispatchToken m) t (w_db w) →
  ∃ r now, outbox (w_db w) !! Message_ID m = Some r
    ∧ (MarkOutboxPublished ctx m w).1 = None
    ∧ w_db (MarkOutboxPublished ctx m w).2
      = put_outbox (Message_ID m) (published_row now r) (w_db w).
Proof.
  intros Hnf Hwf Hh. destruct (held_row _ _ _ _ Hh Hwf) as (r & Hr & Hres).
  pose proof (MarkOutboxPublished_recorded ctx m w) as Hrec. unfold recorded in Hrec.
  rewrite Hres in Hrec. destruct Hrec as (Hdb & _ & Hok). exists r.
  eexists. split_and!; [done|auto|auto].
Qed.

Lemma MarkOutboxFailed_calm ctx m e t w :
  no_faults → db_wf (w_db w) → held (Message_ID m) (Message_DispatchToken m) t (w_db w) →
  ∃ r, outbox (w_db w) !! Message_ID m = Some r
    ∧ w_db (MarkOutboxFailed ctx m e w).2
      = put_outbox (Message_ID m) (default r (publish_failed_row (error_string e) r)) (w_db w).
Proof.
  intros Hnf Hwf Hh. destruct (held_row _ _ _ _ Hh Hwf) as (r & Hr & Hres).
  pose proof (MarkOutboxFailed_recorded ctx m e w) as Hrec. unfold recorded in Hrec.
  rewrite Hres in Hrec. exists r. split; [done|].
  destruct (publish_failed_row (error_string e) r) as [r'|]; simpl.
  - destruct Hrec as (Hdb & _ & Hok). auto.
  - destruct Hrec as [_ ->]. unfold put_outbox. rewrite insert_id by done. by rewrite set_outbox_id.
Qed.

Lemma MarkOutboxPublished_wf ctx m : evolves (keeps db_wf) (MarkOutboxPublished ctx m).
Proof. unfold MarkOutboxPublished. solve_evolves. unfold keeps. auto with dbwf. Qed.

(** A confirmed and marked message, then the rest of the round. *)
Lemma dispatched_next tok t m msgs w w2 w3 done rest r now :
  outbox (w_db w) !! Message_ID m = Some r →
  w_db w2 = put_outbox (Message_ID m) (published_row now r) (w_db w) →
  w_trace w2 = w_trace w ++ [EffPublish (Message_Event m) None] →
  w_metrics w2 = inc EventsQueued (w_metrics w) →
  Message_ID m ∉ (Message_ID <$> msgs) →
  dispatched tok t msgs w2 w3 done rest → dispatched tok t (m :: msgs) w w3 (m :: done) rest.
Proof.
  intros Hr Hdb Ht Hme Hm Hd.
  assert (∀ m', m' ∈ msgs → outbox (w_db w2) !! Message_ID m' = outbox (w_db w) !! Message_ID m') as Hother.
  { intros m' Hm'. rewrite Hdb. simpl. rewrite lookup_insert_ne; [done|]. intros Heq. apply Hm.
    rewrite Heq. by apply list_elem_of_fmap_2. }
  pose proof (dp_split _ _ _ _ _ _ _ Hd) as ->. constructor; simpl.
  - done.
  - rewrite (dp_metrics _ _ _ _ _ _ _ Hd), Hme. symmetry. exact (Nat.iter_succ_r (length done) _ (inc EventsQueued) (w_metrics w)).
  - intros m' [->|Hm']%elem_of_cons.
    + exists r, now. split; [done|]. rewrite (dp_others _ _ _ _ _ _ _ Hd), Hdb by done.
      apply lookup_insert_eq.
    + rewrite <- Hother by set_solver. by apply (dp_done _ _ _ _ _ _ _ Hd).
  - pose proof (dp_rest _ _ _ _ _ _ _ Hd) as Hrest. destruct rest as [|m0 later].
    + by rewrite Hrest, Ht, <- app_assoc.
    + destruct Hrest as (e & Ht3 & (r0 & Hr0 & Hr0') & Hlater). exists e.
      rewrite Ht3, Ht, <- app_assoc. split; [done|]. split; [|done]. exists r0.
      rewrite <- Hother by set_solver. done.
  - intros i [Hi1 Hi2]%not_elem_of_cons. rewrite (dp_others _ _ _ _ _ _ _ Hd), Hdb by done. simpl.
    by apply lookup_insert_ne.
Qed.

(** The message that could not be published ends the round. *)
Lemma dispatched_stop tok t m msgs e w w2 r :
  outbox (w_db w) !! Message_ID m = Some r →
  w_db w2 = put_outbox (Message_ID m) (default r (publish_failed_row (error_string e) r)) (w_db w) →
  w_trace w2 = w_trace w ++ [EffPublish (Message_Event m) (Some e)] →
  w_metrics w2 = w_metrics w → Message_ID m ∉ (Message_ID <$> msgs) →
  (∀ m', m' ∈ msgs → held (Message_ID m') tok t (w_db w)) →
  dispatched tok t (m :: msgs) w w2 [] (m :: msgs).
Proof.
  intros Hr Hdb Ht Hme Hm Hheld. constructor; simpl; [done|done|set_solver| |].
  - exists e. split; [done|]. split; [exists r; rewrite Hdb; simpl; by rewrite lookup_insert_eq|].
    intros m' Hm'. eapply held_same_row; [|by apply Hheld]. rewrite Hdb. simpl.
    apply lookup_insert_ne. intros Heq. apply Hm. rewrite Heq. by apply list_elem_of_fmap_2.
  - intros i [Hi _]%not_elem_of_cons. rewrite Hdb. simpl. by apply lookup_insert_ne.
Qed.

Lemma dispatch_messages_calm ctx tok t msgs w :
  no_faults → w_tx w = None → db_wf (w_db w) → NoDup (Message_ID <$> msgs) →
  (∀ m, m ∈ msgs → Message_DispatchToken m = tok ∧ held (Message_ID m) tok t (w_db w)) →
  wp (dispatch_messages ctx msgs) (λ r w', r = None ∧
    ∃ done rest, dispatched tok t msgs w w' done rest) w.
Proof.
  intros Hnf. revert w. induction msgs as [|m msgs IH]; intros w Htx Hwf Hnd Hheld; simpl.
  { wp_step. split; [done|]. exists [], []. constructor; simpl; rewrite ?app_nil_r; set_solver. }
  simpl in Hnd. apply NoDup_cons in Hnd as [Hm Hnd].
  destruct (Hheld m) as [Htok Hh]; [left|].
  wp_step. destruct (publish_tables ctx (Message_Event m) w) as [Hdb1 Htx1].
  pose proof (publish_trace ctx (Message_Event m) w) as Ht1.
  pose proof (publish_metrics ctx (Message_Event m) w) as Hm1. rewrite Htx in Htx1. unfold wp at 1.
  set (w1 := (Publish ctx (Message_Event m) w).2) in *.
  assert (held (Message_ID m) (Message_DispatchToken m) t (w_db w1)) as Hh1 by by rewrite Hdb1, Htok.
  assert (db_wf (w_db w1)) as Hwf1 by by rewrite Hdb1.
  destruct (Publish ctx (Message_Event m) w).1 as [e|] eqn:Ep.
  - destruct (MarkOutboxFailed_calm Background m e t w1 Hnf Hwf1 Hh1) as (r & Hr & Hdb2).
    destruct (silent_MarkOutboxFailed Background m e w1) as [Hm2 Ht2]. rewrite Hdb1 in Hr, Hdb2.
    wp_step. unfold wp at 1. wp_step. split; [done|]. exists [], (m :: msgs).
    eapply dispatched_stop; [done|done|congruence|congruence|done|].
    intros m' Hm'. by apply Hheld; right.
  - destruct (MarkOutboxPublished_calm ctx m t w1 Hnf Hwf1 Hh1) as (r & now & Hr & Hok & Hdb2).
    destruct (silent_MarkOutboxPublished ctx m w1) as [Hm2 Ht2]. rewrite Hdb1 in Hr, Hdb2.
    destruct (MarkOutboxPublished_wf ctx m w1 Htx1) as [Htx2 Hwf2]. specialize (Hwf2 Hwf1).
    apply wp_check. unfold wp at 1. rewrite Hok. do 2 wp_step.
    eapply wp_wand; [apply IH|]; [done|done|done| |].
    + intros m' Hm'. destruct (Hheld m') as [? Hh']; [by right|]. split; [done|].
      eapply held_same_row; [|exact Hh']. simpl. rewrite Hdb2. simpl. apply lookup_insert_ne.
      intros Heq. apply Hm. rewrite Heq. by apply list_elem_of_fmap_2.
    + intros r' w3 [-> (done & rest & Hd)]. split; [reflexivity|]. exists (m :: done), rest.
      eapply (dispatched_next _ _ _ _ _ _ _ _ _ _ _ Hr); [| | |exact Hm|exact Hd]; simpl; [exact Hdb2|congruence..].
Qed.

(** C11: a round of the dispatcher without database failures returns nil and,
    for the messages it claimed in order: a prefix is published and marked
    published (counted one by one in eventsQueued); if a publication fails, its
    message is released with one more attempt and the broker's error (unless
    the attempt counter is exhausted), the round stops there, and the messages
    after it keep their reservation; no other row changes. *)
Theorem DispatchPending_round d ctx w msgs :
  no_faults → w_tx w = None → db_wf (w_db w) →
  let claim := ClaimPendingOutbox ctx (batchSize d) (dispatchLease d) w in
  claim.1 = Ok msgs →
  (DispatchPending d ctx w).1 = None
  ∧ ∃ tok done rest,
      dispatched tok (timestamptz (env_clock (S (w_tick w)))) msgs claim.2
        (DispatchPending d ctx w).2 done rest.
Proof.
  intros Hnf Htx Hwf claim Hok.
  destruct (ClaimPendingOutbox_spec ctx (batchSize d) (dispatchLease d) w msgs Hok) as (bytes & _ & Hcl).
  fold claim in Hcl.
  assert (w_tx claim.2 = None ∧ db_wf (w_db claim.2)) as [Htx1 Hwf1].
  { assert (evolves (keeps db_wf) (ClaimPendingOutbox ctx (batchSize d) (dispatchLease d))) as Hev.
    { unfold ClaimPendingOutbox, newOutboxDispatchToken. solve_evolves. unfold keeps. auto with dbwf. }
    destruct (Hev w Htx) as [? Hk]. split; [done|]. by apply Hk. }
  unfold DispatchPending, M_try. rewrite M_bind_run. fold claim. rewrite Hok.
  destruct (dispatch_messages_calm ctx (EncodeToString bytes) (timestamptz (env_clock (S (w_tick w))))
    msgs claim.2) as [Hr (sent & rest & Hd)]; [done..|apply (oc_distinct _ _ _ _ _ _ _ _ Hcl)| |].
  - intros m Hm. destruct (oc_row _ _ _ _ _ _ _ _ Hcl m Hm) as (r & _ & _ & _ & Hr & Htok & _).
    split; [done|]. by eexists.
  - split; [done|]. by exists (EncodeToString bytes), sent, rest.
Qed.

End Calm.

(** ** On a concrete run *)

(** A broker that refuses the events of one type. *)
Definition picky_publisher (refused : string) : EventPublisher := {|
  Publish := λ ctx ev,
    let err := if bool_decide (Event_Type ev = refused)
               then Some (ErrMsg "RabbitMQ rejected published event") else None in
    emit (EffPublish ev err);; mret err
|}.

#[export] Instance picky_publisher_ok refused : EventPublisherOk (picky_publisher refused).
Proof. by constructor. Qed.

Definition dispatcher_1 : OutboxDispatcher := mkOutboxDispatcher 500000000 100 30000000000.

(** event_1 published in the first round. *)
Lemma published_only_if_confirmed_witness :
  let _ := calm_env 1000 in let _ := simple_codec in let _ := picky_publisher "order.created" in
  let w' := (dispatcher_run dispatcher_1 Cancellable [Ticked; Stopped] world_saved).2 in
  ∃ l ev, w_trace w' = w_trace world_saved ++ l ∧ EffPublish ev None ∈ l ∧ Event_ID ev = "evt-001".
Proof.
  intros E C P w'.
  assert (∃ r', outbox (w_db w') !! 1%Z = Some r' ∧ is_Some (o_published_at r')
    ∧ o_event_id r' = "evt-001") as (r' & Hr' & Hp & Hid).
  { vm_compute. eexists. split; [reflexivity|]. split; [by eexists|reflexivity]. }
  destruct (published_only_if_confirmed (E := E) (C := C) (P := P) dispatcher_1 Cancellable [Ticked; Stopped]
    world_saved 1 r' (proj1 world_saved_inv) Hr' Hp) as [(r & Hr & Hpub)|Hok].
  - vm_compute in Hr. injection Hr as <-. vm_compute in Hpub. destruct Hpub; discriminate.
  - rewrite Hid in Hok. exact Hok.
Defined.

(** event_1 is refused: it is released with one attempt. *)
Lemma DispatchPending_round_witness :
  let _ := calm_env 1000 in let _ := simple_codec in let _ := picky_publisher "payment.created" in
  (DispatchPending dispatcher_1 Cancellable world_saved).1 = None
  ∧ (o_attempts <$> outbox (w_db (DispatchPending dispatcher_1 Cancellable world_saved).2) !! 1%Z)
    = Some 1%Z.
Proof.
  intros E C P. split; [|vm_compute; reflexivity].
  exact (proj1 (DispatchPending_round (E := E) (C := C) (P := P) dispatcher_1 Cancellable world_saved
    [message_1] (calm_env_no_faults _) (proj1 world_saved_inv) (proj1 (proj2 world_saved_inv))
    ltac:(vm_compute; reflexivity))).
Defined.
