(* ===== verification/DeadLetters.v ===== *)
(** * deadletter.go: the dead letter repositories

    The interface DeadLetterRepository with the laws its clients use, the
    bounded in-process DeadLetterStore, and PersistentDeadLetterStore on top of
    the event store. *)

From stdpp Require Import base gmap strings list sorting pretty.
From Stdlib Require Import ZArith Lia Ascii.
From S2P Require Import Prelude GoLib Config Models Metrics Sql Database DbInvariant World Scenario.
From S2P Require Import EventStore StoreLogic StoreProps StoreOutbox StoreDead.

Open Scope go_scope.

(** ** The in-process store *)

Module Memory.

Record DeadLetterStore := mkStore { capacity : Z; items : list DeadLetter }.

(** [make([]DeadLetter, 0, capacity)] panics ([None]) on a negative capacity. *)
Definition NewDeadLetterStore (capacity : Z) : option DeadLetterStore :=
  if (capacity <? 0)%Z then None else Some (mkStore capacity []).

(** [now] is the clock reading of the call; [store.items[1:]] panics when there
    is no item to drop. *)
Definition Add (now : Z) (event : Event) (processingError : GoError) (attempts : Z)
    (store : DeadLetterStore) : option DeadLetterStore :=
  kept ← (if (Z.of_nat (length (items store)) =? capacity store)%Z
          then match items store with [] => None | _ :: rest => Some rest end
          else Some (items store));
  Some (mkStore (capacity store)
          (kept ++ [mkDeadLetter event (error_string processingError) attempts now None])).

Definition Snapshot (store : DeadLetterStore) : DeadLetterResponse :=
  mkDeadLetterResponse (Z.of_nat (length (items store))) (items store).

(** One call of [Add]. *)
Record Failure := mkFailure { f_now : Z; f_event : Event; f_error : GoError; f_attempts : Z }.

Definition letter (f : Failure) : DeadLetter :=
  mkDeadLetter (f_event f) (error_string (f_error f)) (f_attempts f) (f_now f) None.

Fixpoint add_all (fs : list Failure) (store : DeadLetterStore) : option DeadLetterStore :=
  match fs with
  | [] => Some store
  | f :: fs => store' ← Add (f_now f) (f_event f) (f_error f) (f_attempts f) store; add_all fs store'
  end.

(** The abstract store: everything ever added, of which the last [n] remain. *)
Definition latest {A} (n : nat) (l : list A) : list A := drop (length l - n) l.

Lemma latest_snoc {A} n (l : list A) x :
  1 ≤ n →
  latest n (l ++ [x]) = (if decide (length (latest n l) = n) then drop 1 (latest n l) else latest n l) ++ [x].
Proof.
  intros Hn. unfold latest. rewrite length_app, length_drop. simpl. case_decide as Hd.
  - rewrite drop_drop, drop_app_le by lia. do 2 f_equal. lia.
  - rewrite drop_app_le by lia. do 2 f_equal. lia.
Qed.

Lemma Add_latest cap fs now ev err n :
  (1 ≤ cap)%Z →
  Add now ev err n (mkStore cap (letter <$> latest (Z.to_nat cap) fs))
  = Some (mkStore cap (letter <$> latest (Z.to_nat cap) (fs ++ [mkFailure now ev err n]))).
Proof.
  intros Hcap. unfold Add. simpl. rewrite latest_snoc, length_fmap by lia.
  set (l := latest (Z.to_nat cap) fs). case_decide as Hd.
  - rewrite (proj2 (Z.eqb_eq _ _)) by lia. destruct l as [|f l]; simpl in *; [lia|].
    by rewrite drop_0, fmap_app.
  - rewrite (proj2 (Z.eqb_neq _ _)) by lia. simpl. by rewrite fmap_app.
Qed.

Lemma add_all_latest cap fs gs :
  (1 ≤ cap)%Z →
  add_all gs (mkStore cap (letter <$> latest (Z.to_nat cap) fs))
  = Some (mkStore cap (letter <$> latest (Z.to_nat cap) (fs ++ gs))).
Proof.
  intros Hcap. revert fs. induction gs as [|g gs IH]; intros fs; simpl.
  - by rewrite app_nil_r.
  - rewrite Add_latest by done. simpl. rewrite IH, <- app_assoc. by destruct g.
Qed.

(** C36: the in-process store keeps the latest failures: created with a
    capacity of at least one, it never panics, and after any number of [Add]s
    its snapshot holds exactly the last [capacity] of them, oldest first, with
    their number as the count. *)
Theorem DeadLetterStore_keeps_latest cap fs :
  (1 ≤ cap)%Z →
  ∃ s0 s, NewDeadLetterStore cap = Some s0 ∧ add_all fs s0 = Some s
    ∧ DLR_Items (Snapshot s) = letter <$> latest (Z.to_nat cap) fs
    ∧ DLR_Count (Snapshot s) = Z.min cap (Z.of_nat (length fs)).
Proof.
  intros Hcap. unfold NewDeadLetterStore. destruct (cap <? 0)%Z eqn:Ec; [lia|].
  exists (mkStore cap []). pose proof (add_all_latest cap [] fs Hcap) as Hall. simpl in Hall.
  eexists. split_and!; [done|exact Hall|done|]. simpl. unfold latest.
  rewrite length_fmap, length_drop. lia.
Qed.

Lemma DeadLetterStore_keeps_latest_witness :
  ∃ s0 s, NewDeadLetterStore 1 = Some s0
    ∧ add_all [mkFailure 5 event_1 (ErrMsg "a") 4; mkFailure 6 event_2 (ErrMsg "b") 4] s0 = Some s
    ∧ (DL_FailedAt <$> DLR_Items (Snapshot s)) = [6%Z].
Proof.
  destruct (DeadLetterStore_keeps_latest 1
    [mkFailure 5 event_1 (ErrMsg "a") 4; mkFailure 6 event_2 (ErrMsg "b") 4] ltac:(lia))
    as (s0 & s & H0 & H1 & H2 & _).
  exists s0, s. split_and!; [done..|]. rewrite H2. reflexivity.
Defined.

(** With capacity zero the first [Add] panics. *)
Example zero_capacity_panics now ev err n :
  (NewDeadLetterStore 0 ≫= Add now ev err n) = None.
Proof. reflexivity. Qed.

End Memory.

(** ** The interface and the persistent store *)

Class DeadLetterRepository := {
  Repo_Add : Ctx → Event → GoError → Z → M (option GoError);
  Repo_Snapshot : Ctx → M (result DeadLetterResponse);
}.

(** Only dead letters change. *)
Definition dead_only (db db' : Database) : Prop := events db' = events db ∧ outbox db' = outbox db.

#[export] Instance dead_only_preorder : PreOrder dead_only.
Proof. split; [by intros db|]. intros a b c [] []. split; congruence. Qed.

(** What a repository promises the workers: adding touches nothing else, a nil
    result means that the failure is on record, and without failures an event
    that can be encoded is recorded. *)
Class DeadLetterRepositoryOk `{Env} `{JsonCodec} (R : DeadLetterRepository) := {
  on_record : Event → GoError → Z → Database → Prop;
  on_record_frame : ∀ ev e n db db', dead_letters db' = dead_letters db →
    on_record ev e n db → on_record ev e n db';
  add_silent : ∀ ctx ev e n, silent (Repo_Add ctx ev e n);
  add_dead_only : ∀ ctx ev e n, evolves dead_only (Repo_Add ctx ev e n);
  add_recorded : ∀ ctx ev e n w, (Repo_Add ctx ev e n w).1 = None →
    on_record ev e n (w_db (Repo_Add ctx ev e n w).2);
  add_succeeds : ∀ ctx ev e n w p, no_faults → in_int4 n = true →
    json_marshal (Event_Payload ev) = inr p → (Repo_Add ctx ev e n w).1 = None;
}.

Record PersistentDeadLetterStore := mkPersistent { p_capacity : Z }.

Definition NewPersistentDeadLetterStore (capacity : Z) : PersistentDeadLetterStore :=
  mkPersistent capacity.

Section Persistent.
Context `{E : Env} `{C : JsonCodec}.

Definition Persistent_Snapshot (store : PersistentDeadLetterStore) (ctx : Ctx)
    : M (result DeadLetterResponse) :=
  items ←! ListDeadLetters ctx (p_capacity store) orelse (λ e, mret (Err e));
  mret (Ok (mkDeadLetterResponse (Z.of_nat (length items)) items)).

#[export] Instance persistent_repository (store : PersistentDeadLetterStore) : DeadLetterRepository := {|
  Repo_Add := SaveDeadLetter;
  Repo_Snapshot := Persistent_Snapshot store;
|}.

(** The failure is in the row of the event, waiting for a replay. *)
Definition persistent_record (ev : Event) (e : GoError) (n : Z) (db : Database) : Prop :=
  ∃ d, dead_letters db !! Event_ID ev = Some d ∧ d_error d = error_string e
    ∧ d_attempts d = n ∧ d_replayed_at d = None ∧ is_Some (d_next_retry_at d).

Lemma sql_save_dead_letter_record id ty rid p err n a b c db :
  in_int4 n = true → ∃ d, sql_save_dead_letter id ty rid p err n a b c db
    = (Some 1%Z, set_dead_letters (<[id := d]> (dead_letters db)) db)
    ∧ d_error d = err ∧ d_attempts d = n ∧ d_replayed_at d = None ∧ is_Some (d_next_retry_at d).
Proof.
  intros Hn. unfold sql_save_dead_letter. rewrite Hn.
  destruct (dead_letters db !! id); (eexists; split; [done|]; simpl; by eauto).
Qed.

Lemma SaveDeadLetter_outcome ctx ev e n w :
  wp (SaveDeadLetter ctx ev e n) (λ r w',
    (r = None → persistent_record ev e n (w_db w'))
    ∧ ∀ p, no_faults → in_int4 n = true → json_marshal (Event_Payload ev) = inr p → r = None) w.
Proof.
  unfold SaveDeadLetter. destruct (json_marshal _) as [m|p]; [by wp_step|].
  do 6 wp_step.
  - wp_step. split; [|done]. intros _.
    destruct (in_int4 n) eqn:En; [|unfold sql_save_dead_letter in *; by rewrite En in *].
    match goal with H : sql_save_dead_letter _ _ _ _ _ _ _ _ _ ?db = _ |- _ =>
      edestruct (sql_save_dead_letter_record (Event_ID ev) (Event_Type ev) (Event_RequestID ev) p
        (error_string e) n) as (d & Hd & Hrec); [done|]; rewrite Hd in H end.
    simplify_eq/=. exists d. split; [|done]. simpl. by rewrite lookup_insert_eq.
  - wp_step. split; [done|]. intros ? _ Hn _. unfold sql_save_dead_letter in *. by rewrite Hn in *.
  - wp_step. split; [done|]. intros ? Hnf. exfalso. revert Hnf. faulty.
  - wp_step. split; [done|]. intros ? Hnf. exfalso. revert Hnf. faulty.
Qed.

#[export] Instance persistent_repository_ok store : DeadLetterRepositoryOk (persistent_repository store).
Proof.
  refine {| on_record := persistent_record |}.
  - intros ev e n db db' Heq (d & Hd & Hrec). exists d. by rewrite Heq.
  - intros. apply silent_SaveDeadLetter.
  - intros ctx ev e n. simpl. unfold SaveDeadLetter. case_match; solve_evolves.
    unfold sql_save_dead_letter. by case_match.
  - intros ctx ev e n w. apply SaveDeadLetter_outcome.
  - intros ctx ev e n w p ???. by eapply SaveDeadLetter_outcome.
Defined.

(** The page a listing returns: the rows, newest failure first. *)
Record newest_page (n : nat) (db : Database) (page : list (string * DeadLetterRow)) : Prop := {
  np_length : length page ≤ n;
  np_distinct : NoDup page.*1;
  np_rows : ∀ id d, (id, d) ∈ page → dead_letters db !! id = Some d;
  np_sorted : StronglySorted (λ x y, (d_failed_at y.2 ≤ d_failed_at x.2)%Z) page;
  np_newest : ∀ id d, dead_letters db !! id = Some d → (id, d) ∉ page →
    length page = n ∧ ∀ x, x ∈ page → (d_failed_at d ≤ d_failed_at x.2)%Z;
}.

Lemma listed_page limit order db rows db' :
  sql_list_dead_letters limit order db = (Some rows, db') →
  db' = db ∧ newest_page (Z.to_nat limit) db rows.
Proof.
  unfold sql_list_dead_letters. case_match; [done|]. set (n := Z.to_nat limit).
  set (key := λ ir : string * DeadLetterRow, ((- d_failed_at ir.2)%Z, 0%Z)).
  set (l := sort_on key _). intros ?; simplify_eq.
  assert (l ≡ₚ map_to_list (dead_letters db')) as Hperm by (unfold l; by rewrite sort_on_perm, shuffle_perm).
  pose proof (sort_on_sorted key (shuffle order (map_to_list (dead_letters db')))) as Hs. fold l in Hs.
  split; [done|]. constructor.
  - apply firstn_le_length.
  - apply (sublist_NoDup _ l.*1); [|apply fmap_sublist, sublist_take].
    rewrite Hperm. apply NoDup_fst_map_to_list.
  - intros id d Hin%elem_of_take_sub. rewrite Hperm in Hin. by apply elem_of_map_to_list.
  - apply StronglySorted_take. eapply StronglySorted_weaken; [|exact Hs].
    intros x y. unfold lexle, key. simpl. lia.
  - intros id d Hd Hout. assert ((id, d) ∈ drop n l) as Hdrop.
    { apply elem_of_map_to_list in Hd. rewrite <- Hperm, <- (take_drop n l), elem_of_app in Hd. tauto. }
    split.
    + apply length_take_le. destruct (decide (n ≤ length l)) as [|Hn]; [done|].
      rewrite drop_ge in Hdrop by lia. by apply not_elem_of_nil in Hdrop.
    + intros x Hx. pose proof (sorted_take_le _ n l x (id, d) Hs Hx Hdrop) as Hle.
      unfold lexle, key in Hle. simpl in Hle. lia.
Qed.

(** A successful snapshot of the persistent store is the page of the most
    recent failures: the rows decoded one by one, distinct, newest first, at
    most [capacity] of them and the count says how many; a dead letter that is
    not on the page failed no later than any on it, and is missing because the
    page is full.  Reading changes nothing. *)
Theorem PersistentSnapshot_newest store ctx w resp :
  (Persistent_Snapshot store ctx w).1 = Ok resp →
  w_db (Persistent_Snapshot store ctx w).2 = w_db w
  ∧ DLR_Count resp = Z.of_nat (length (DLR_Items resp))
  ∧ ∃ page, newest_page (Z.to_nat (p_capacity store)) (w_db w) page
      ∧ Forall2 (λ row item, decode_dead_letter row = Ok item) page (DLR_Items resp).
Proof.
  assert (wp (Persistent_Snapshot store ctx) (λ r w', ∀ resp, r = Ok resp → w_db w' = w_db w
    ∧ DLR_Count resp = Z.of_nat (length (DLR_Items resp))
    ∧ ∃ page, newest_page (Z.to_nat (p_capacity store)) (w_db w) page
      ∧ Forall2 (λ row item, decode_dead_letter row = Ok item) page (DLR_Items resp)) w) as Hwp;
    [|apply Hwp].
  unfold Persistent_Snapshot, ListDeadLetters. do 3 wp_step; [|by wp_steps..].
  unfold scan_rows. do 2 wp_step.
  - destruct (collect decode_dead_letter _) as [items|e] eqn:Ec; wp_step; [|by wp_steps].
    wp_step. intros ? [= <-]. simpl.
    match goal with H : sql_list_dead_letters _ _ _ = _ |- _ => apply listed_page in H as [-> Hpage] end.
    split_and!; [done..|]. eexists. split; [exact Hpage|]. by apply collect_ok.
  - destruct (collect decode_dead_letter _) as [items|e'] eqn:Ec; by wp_steps.
Qed.

End Persistent.

Lemma PersistentSnapshot_newest_witness :
  let _ := calm_env 2000 in let _ := simple_codec in
  ∃ resp page, (Persistent_Snapshot (NewPersistentDeadLetterStore 100) Cancellable world_dead).1 = Ok resp
    ∧ newest_page 100 (w_db world_dead) page ∧ length (DLR_Items resp) = 1.
Proof.
  intros E C.
  assert (∃ resp, (Persistent_Snapshot (NewPersistentDeadLetterStore 100) Cancellable world_dead).1
    = Ok resp ∧ length (DLR_Items resp) = 1) as (resp & Hok & Hlen)
    by (vm_compute; eexists; split; reflexivity).
  destruct (PersistentSnapshot_newest (E := E) (C := C) (NewPersistentDeadLetterStore 100) Cancellable
    world_dead resp Hok) as (_ & _ & page & Hpage & _).
  exists resp, page. by split_and!.
Defined.
