(* ===== verification/Worker.v ===== *)
(** * worker.go and the deliveries of queue.go

    handleDelivery and the retry loop, for any event processor; processEvent.
    Every delivery is settled exactly once, it is acknowledged only when the
    event has reached a terminal state in the database, and the retry loop
    makes at most MaxRetries + 1 attempts on the configured schedule. *)

From stdpp Require Import base gmap strings list pretty.
From Stdlib Require Import ZArith Lia Ascii.
From S2P Require Import Prelude GoLib Config Models Metrics Sql Database DbInvariant World Scenario.
From S2P Require Import EventStore StoreLogic StoreProps StoreProcessing DeadLetters.

Open Scope go_scope.

(** ** Deliveries *)

Record EventDelivery := mkDelivery {
  Delivery_Event : Event;
  delivery_ack : option (M (option GoError));
  delivery_nack : option (bool → M (option GoError));
}.

Definition Ack (delivery : EventDelivery) : M (option GoError) :=
  match delivery_ack delivery with None => mret None | Some ack => ack end.

Definition Nack (delivery : EventDelivery) (requeue : bool) : M (option GoError) :=
  match delivery_nack delivery with None => mret None | Some nack => nack requeue end.

(** The errors of [Ack] and [Nack] are only logged. *)
Definition ackDelivery (delivery : EventDelivery) : M unit := _ ← Ack delivery; mret tt.
Definition nackDelivery (delivery : EventDelivery) (requeue : bool) : M unit :=
  _ ← Nack delivery requeue; mret tt.

(** ** Processing *)

Definition eventProcessor : Type := Z → Event → M (option GoError).

Definition time_Sleep (d : Z) : M unit := emit (EffSleep d).

(** [value.(bool)]. *)
Definition shouldSimulateFailure (event : Event) : bool :=
  match payload_lookup (Event_Payload event) "simulateFailure" with
  | None => false
  | Some value => match value with JBool shouldFail => shouldFail | _ => false end
  end.

Definition processEvent : eventProcessor := λ workerID event,
  emit (EffProcess workerID event);;
  time_Sleep 2000000000;;
  if shouldSimulateFailure event then mret (Some (ErrMsg "simulated processing failure"))
  else mret None.

(** [time.Since]: the difference saturates. *)
Definition time_since (startedAt now : Z) : Z :=
  Z.max int64_min (Z.min int64_max (now - startedAt)).

Section Worker.
Context `{E : Env} `{C : JsonCodec} `{R : DeadLetterRepository}.
Context (workerID : Z) (config : Config) (processor : eventProcessor) (sleep : Z → M unit).

(** The loop of processEventWithRetry, from [attempt] on. *)
Fixpoint retry_loop (fuel : nat) (event : Event) (maxAttempts attempt : Z) : M (bool * bool) :=
  match fuel with
  | O => mret (false, false)
  | S fuel =>
      if (attempt <=? maxAttempts)%Z then
        startedAt ← time_now;
        err ← processor workerID event;
        now ← time_now;
        observe_duration (time_since startedAt now);;
        match err with
        | None =>
            inc_metric EventsProcessed;;
            check MarkProcessed Background (Event_ID event) attempt
              orelse (λ _, mret (true, false));
            mret (true, true)
        | Some err =>
            if (attempt =? maxAttempts)%Z then
              inc_metric EventsFailedPermanent;;
              check Repo_Add Background event err attempt orelse (λ _, mret (false, false));
              check MarkFailed Background (Event_ID event) attempt err
                orelse (λ _, mret (false, false));
              mret (false, true)
            else
              inc_metric EventRetries;;
              sleep (RetryBackoff config attempt);;
              retry_loop fuel event maxAttempts (wrap64 (attempt + 1))
        end
      else mret (false, false)
  end.

(** The fuel is one more than the attempts there can be. *)
Definition processEventWithRetry (event : Event) : M (bool * bool) :=
  let maxAttempts := wrap64 (MaxRetries config + 1) in
  retry_loop (S (Z.to_nat maxAttempts)) event maxAttempts 1.

Definition handleDelivery (delivery : EventDelivery) : M unit :=
  let event := Delivery_Event delivery in
  claim ← ClaimForProcessing Background (Event_ID event) (ProcessingLease config);
  match claim with
  | (_, Some _) => nackDelivery delivery true
  | (EventClaimFinal, None) =>
      inc_metric EventsSkippedDuplicate;;
      ackDelivery delivery
  | (EventClaimInProgress, None) =>
      sleep (ProcessingRequeueDelay config);;
      nackDelivery delivery true
  | (EventClaimMissing, None) => nackDelivery delivery false
  | (EventClaimed, None) =>
      outcome ← processEventWithRetry event;
      if (snd outcome : bool) then ackDelivery delivery else nackDelivery delivery true
  end.

(** [for delivery := range eventQueue.Events()], for the deliveries received. *)
Fixpoint worker (deliveries : list EventDelivery) : M unit :=
  match deliveries with
  | [] => mret tt
  | delivery :: deliveries => handleDelivery delivery;; worker deliveries
  end.

End Worker.

(** The identifiers of the goroutines startWorkers launches. *)
Definition startWorkers (count : Z) : list Z := seqZ 1 count.

(** A delivery of the broker: its settlement is recorded. *)
Definition broker_delivery (event : Event) : EventDelivery := {|
  Delivery_Event := event;
  delivery_ack := Some (emit (EffAck (Event_ID event));; mret None);
  delivery_nack := Some (λ requeue, emit (EffNack (Event_ID event) requeue);; mret None);
|}.

(** What the theorems assume of a processor: it works outside the service's
    own state, leaving the trace [work]. *)
Definition processor_works (processor : eventProcessor) (work : Z → Event → list Effect) : Prop :=
  ∀ id ev w, w_db (processor id ev w).2 = w_db w ∧ w_tx (processor id ev w).2 = w_tx w
    ∧ w_metrics (processor id ev w).2 = w_metrics w
    ∧ w_trace (processor id ev w).2 = w_trace w ++ work id ev.

Definition processEvent_work (id : Z) (ev : Event) : list Effect :=
  [EffProcess id ev; EffSleep 2000000000].

Lemma processEvent_works : processor_works processEvent processEvent_work.
Proof.
  intros id ev w. unfold processEvent. destruct (shouldSimulateFailure ev); simpl;
    unfold processEvent_work; by rewrite <- (app_assoc (w_trace w)).
Qed.

(** ** The retry loop *)

#[local] Arguments load : simpl never.

Definition bump (z : Z) : Z := wrap64 (z + 1).

(** The trace of [k] failed attempts from attempt [a] on, each followed by its
    backoff, and of the last attempt. *)
Fixpoint schedule (config : Config) (work : list Effect) (k : nat) (a : Z) : list Effect :=
  match k with
  | O => work
  | S k => work ++ EffSleep (RetryBackoff config a) :: schedule config work k (a + 1)
  end.

Section Retry.
Context `{E : Env} `{C : JsonCodec} `{R : DeadLetterRepository} `{HR : !DeadLetterRepositoryOk R}.
Context (workerID : Z) (config : Config) (processor : eventProcessor)
        (work : Z → Event → list Effect) (Hproc : processor_works processor work).

(** What the loop has done from attempt [a] on: [k] attempts were retried. *)
Record attempted (ev : Event) (maxAttempts a : Z) (k : nat) (r : bool * bool) (w w' : World) : Prop := {
  at_closed : w_tx w' = None;
  at_bound : (a + Z.of_nat k ≤ maxAttempts)%Z;
  at_trace : w_trace w' = w_trace w ++ schedule config (work workerID ev) k a;
  at_retries : load EventRetries (w_metrics w') = Nat.iter k bump (load EventRetries (w_metrics w));
  at_counted : load EventsProcessed (w_metrics w')
      = (if r.1 then bump else id) (load EventsProcessed (w_metrics w))
    ∧ load EventsFailedPermanent (w_metrics w')
      = (if r.1 then id else bump) (load EventsFailedPermanent (w_metrics w));
  at_gave_up : r.1 = false → (a + Z.of_nat k = maxAttempts)%Z;
  at_terminal : r.2 = true → ∃ e, events (w_db w') !! Event_ID ev = Some e
    ∧ e_attempts e = (a + Z.of_nat k)%Z
    ∧ if r.1 then e_status e = EventStatusProcessed ∧ e_error e = ""
      else e_status e = EventStatusFailed ∧ ∃ err, e_error e = error_string err
           ∧ on_record ev err maxAttempts (w_db w');
  at_persisted : no_faults → in_int4 maxAttempts = true →
    (∃ p, json_marshal (Event_Payload ev) = inr p) → r.2 = true;
}.

(** The state after one call of the processor and its measurement. *)
Definition after_attempt (ev : Event) (w w1 : World) : Prop :=
  w_db w1 = w_db w ∧ w_tx w1 = w_tx w ∧ w_trace w1 = w_trace w ++ work workerID ev
  ∧ ∀ c, load c (w_metrics w1) = load c (w_metrics w).

Lemma attempt_step ev (k : option GoError → M (bool * bool)) Q w :
  (∀ w0 w1, after_attempt ev w w1 → wp (k (processor workerID ev w0).1) Q w1) →
  wp (startedAt ← time_now;
      err ← processor workerID ev;
      now ← time_now;
      observe_duration (time_since startedAt now);;
      k err) Q w.
Proof.
  intros Hk. do 3 wp_step. unfold wp at 1. specialize (Hk (tick w)).
  destruct (Hproc workerID ev (tick w)) as (Hdb & Htx & Hm & Ht).
  do 4 wp_step. apply Hk. split_and!; simpl; [done..|]. intros c. by rewrite load_observe, Hm.
Qed.

Lemma in_int4_le n m : (1 ≤ n ≤ m)%Z → in_int4 m = true → in_int4 n = true.
Proof. unfold in_int4, int4_min. rewrite !andb_true_iff, !Z.leb_le. lia. Qed.

(** The last attempt succeeds. *)
Lemma attempt_succeeds ev maxAttempts a w w1 :
  (1 ≤ a ≤ maxAttempts)%Z → w_tx w = None → is_Some (events (w_db w) !! Event_ID ev) →
  after_attempt ev w w1 →
  wp (inc_metric EventsProcessed;;
      check MarkProcessed Background (Event_ID ev) a orelse (λ _, mret (true, false));
      mret (true, true)) (λ r w', attempted ev maxAttempts a 0 r w w') w1.
Proof.
  intros Ha Htx [e He] (Hdb & Htx1 & Ht & Hm). do 2 wp_step. apply wp_check. unfold wp at 1.
  set (w2 := set_metrics (inc EventsProcessed (w_metrics w1)) w1).
  destruct (MarkProcessed_outcome Background (Event_ID ev) a w2 e) as [Hput Hok]; [by simpl; rewrite Hdb|].
  destruct (MarkProcessed_closes Background (Event_ID ev) a w2) as [Hc _]; [by simpl; rewrite Htx1|].
  destruct (silent_MarkProcessed Background (Event_ID ev) a w2) as [Hm2 Ht2].
  destruct (MarkProcessed Background (Event_ID ev) a w2) as [r w3]. simpl in *.
  destruct r; wp_step; constructor; simpl; rewrite ?Hm2, ?load_inc, ?Hm; simpl; try done; try lia.
  - congruence.
  - intros Hnf Hn _. exfalso. discriminate (Hok Hnf (in_int4_le _ _ Ha Hn)).
  - congruence.
  - intros _. destruct (Hput eq_refl) as [now ->]. eexists. simpl. rewrite lookup_insert_eq.
    split; [done|]. simpl. split; [lia|done].
Qed.

(** The last attempt fails: the dead letter first, then the failed state. *)
Lemma attempt_fails ev err a w w1 :
  (1 ≤ a)%Z → w_tx w = None → is_Some (events (w_db w) !! Event_ID ev) →
  after_attempt ev w w1 →
  wp (inc_metric EventsFailedPermanent;;
      check Repo_Add Background ev err a orelse (λ _, mret (false, false));
      check MarkFailed Background (Event_ID ev) a err orelse (λ _, mret (false, false));
      mret (false, true)) (λ r w', attempted ev a a 0 r w w') w1.
Proof.
  intros Ha Htx [e He] (Hdb & Htx1 & Ht & Hm). do 2 wp_step. apply wp_check. unfold wp at 1.
  set (w2 := set_metrics (inc EventsFailedPermanent (w_metrics w1)) w1).
  destruct (add_dead_only Background ev err a w2) as [Hc [Hev _]]; [by simpl; rewrite Htx1|].
  destruct (add_silent Background ev err a w2) as [Hm2 Ht2].
  pose proof (add_recorded Background ev err a w2) as Hrec.
  pose proof (λ p, add_succeeds Background ev err a w2 p) as Hadd.
  destruct (Repo_Add Background ev err a w2) as [[e1|] w3]; simpl in *.
  { wp_step. constructor; simpl; rewrite ?Hm2, ?load_inc, ?Hm; simpl; try done; try lia; [congruence|].
    intros Hnf Hn [p Hp]. exfalso. discriminate (Hadd p Hnf Hn Hp). }
  apply wp_check. unfold wp at 1.
  destruct (MarkFailed_outcome Background (Event_ID ev) a err w3 e) as [Hput Hok]; [by rewrite Hev, Hdb|].
  destruct (MarkFailed_closes Background (Event_ID ev) a err w3 Hc) as [Hc3 _].
  destruct (silent_MarkFailed Background (Event_ID ev) a err w3) as [Hm3 Ht3].
  destruct (MarkFailed Background (Event_ID ev) a err w3) as [[e2|] w4]; simpl in *; wp_step;
    constructor; simpl; rewrite ?Hm3, ?Hm2, ?load_inc, ?Hm; simpl; try done; try lia; try congruence.
  - intros Hnf Hn _. exfalso. discriminate (Hok Hnf Hn).
  - intros _. destruct (Hput eq_refl) as [now Hdb4]. exists (final_row EventStatusFailed (error_string err) a now e).
    rewrite Hdb4. simpl. rewrite lookup_insert_eq. split_and!; [done|lia|done|].
    exists err. split; [done|]. eapply on_record_frame; [|exact (Hrec eq_refl)]. done.
Qed.

Lemma attempted_next ev maxAttempts a k r w w1 w2 :
  after_attempt ev w w1 →
  w_trace w2 = w_trace w1 ++ [EffSleep (RetryBackoff config a)] →
  w_metrics w2 = inc EventRetries (w_metrics w1) →
  ∀ w', attempted ev maxAttempts (a + 1) k r w2 w' → attempted ev maxAttempts a (S k) r w w'.
Proof.
  intros (Hdb & Htx1 & Ht & Hm) Ht2 Hm2 w' [Hc Hb Htr Hr [Hp Hf] Hg Hterm Hper].
  rewrite Hm2, load_inc in Hr, Hp, Hf. simpl in Hr, Hp, Hf. rewrite Hm in Hr, Hp, Hf.
  constructor; try done.
  - lia.
  - rewrite Htr, Ht2, Ht. simpl. by rewrite <- !app_assoc.
  - rewrite Hr. symmetry. exact (Nat.iter_succ_r k _ bump (load EventRetries (w_metrics w))).
  - intros Hr1. specialize (Hg Hr1). lia.
  - intros Hr2. destruct (Hterm Hr2) as (e & He & Hatt & Hst). exists e. split_and!; [done|lia|done].
Qed.

Lemma retry_loop_spec fuel ev maxAttempts a w :
  (1 ≤ a ≤ maxAttempts)%Z → in_int64 maxAttempts → Z.to_nat (maxAttempts - a) < fuel →
  w_tx w = None → is_Some (events (w_db w) !! Event_ID ev) →
  wp (retry_loop workerID config processor time_Sleep fuel ev maxAttempts a)
    (λ r w', ∃ k, attempted ev maxAttempts a k r w w') w.
Proof.
  intros Ha Hmax. revert a w Ha. induction fuel as [|fuel IH]; intros a w Ha Hfuel Htx He; [lia|]. simpl.
  rewrite (proj2 (Z.leb_le _ _)) by lia. apply attempt_step. intros w0 w1 Haft.
  destruct (processor workerID ev w0).1 as [err|]; last first.
  { eapply wp_wand; [by eapply attempt_succeeds|]. intros r w' Hat. by exists 0. }
  destruct (Z.eqb_spec a maxAttempts) as [->|Hne].
  { eapply wp_wand; [by apply attempt_fails; [lia|..]|]. intros r w' Hat. by exists 0. }
  do 3 wp_step. unfold time_Sleep. wp_step. pose proof Haft as (Hdb & Htx1 & Ht & Hm).
  rewrite wrap64_id by (unfold in_int64, int64_min in *; lia).
  eapply wp_wand; [apply IH|]; simpl; try lia; [congruence|by rewrite Hdb|].
  intros r w' [k Hat]. exists (S k). eapply attempted_next; [done| | |exact Hat]; done.
Qed.

(** A processor that never succeeds makes the loop give up. *)
Lemma retry_loop_fails fuel ev maxAttempts a w :
  (∀ w0, is_Some (processor workerID ev w0).1) →
  wp (retry_loop workerID config processor time_Sleep fuel ev maxAttempts a) (λ r _, r.1 = false) w.
Proof.
  intros Hfail. revert a w. induction fuel as [|fuel IH]; intros a w; simpl; [by wp_step|].
  case_match; [|by wp_step]. apply attempt_step. intros w0 w1 _.
  destruct (Hfail w0) as [err ->]. case_match; [|do 3 wp_step; unfold time_Sleep; wp_step; apply IH].
  do 2 wp_step. apply wp_check. unfold wp at 1. destruct (Repo_Add _ _ _ _ _).1; [by wp_step|].
  apply wp_check. unfold wp at 1. destruct (MarkFailed _ _ _ _ _).1; by wp_step.
Qed.

(** One that succeeds at once is called once. *)
Lemma retry_loop_succeeds fuel ev maxAttempts a w :
  (1 ≤ a ≤ maxAttempts)%Z → w_tx w = None → is_Some (events (w_db w) !! Event_ID ev) →
  (∀ w0, (processor workerID ev w0).1 = None) →
  wp (retry_loop workerID config processor time_Sleep (S fuel) ev maxAttempts a)
    (λ r w', r.1 = true ∧ attempted ev maxAttempts a 0 r w w') w.
Proof.
  intros Ha Htx He Hok. simpl. rewrite (proj2 (Z.leb_le _ _)) by lia. apply attempt_step.
  intros w0 w1 Haft. rewrite Hok. pose proof (attempt_succeeds ev maxAttempts a w w1 Ha Htx He Haft) as Hs.
  revert Hs. unfold wp. intros Hs. split; [|exact Hs]. rewrite M_bind_run. unfold M_check. rewrite M_bind_run.
  by destruct (MarkProcessed _ _ _ _).1.
Qed.

(** C10: the retry loop, for any processor and under any failures of the
    database.  It makes at most MaxRetries + 1 attempts; the trace is that of
    [k] failed attempts, each followed by its configured backoff, and one last
    attempt; [k] retries and exactly one of success and permanent failure are
    counted; it reports failure only when the attempts are used up; when it
    reports that the terminal state is persisted, the event is [processed]
    without error, or [failed] with the error of the last attempt and with its
    dead letter on record, and carries the number of attempts made; and without
    failures, for an attempt count the column can hold and an event that can be
    encoded, the terminal state is persisted. *)
Theorem processEventWithRetry_outcome ev w :
  (0 ≤ MaxRetries config < int64_max)%Z → w_tx w = None →
  is_Some (events (w_db w) !! Event_ID ev) →
  ∃ k, attempted ev (MaxRetries config + 1) 1 k
         (processEventWithRetry workerID config processor time_Sleep ev w).1 w
         (processEventWithRetry workerID config processor time_Sleep ev w).2.
Proof.
  intros Hmax Htx He. unfold processEventWithRetry.
  assert (in_int64 (MaxRetries config + 1)) as Hin by (unfold in_int64, int64_min; lia).
  rewrite wrap64_id by done. apply retry_loop_spec; [lia|done|lia|done|done].
Qed.

End Retry.

(** The program's own processor.  An event that does not ask for a
    simulated failure is processed in one attempt; one that does is tried
    MaxRetries + 1 times on the backoff schedule and given up. *)
Theorem processEvent_runs `{E : Env} `{C : JsonCodec} `{R : DeadLetterRepository}
    `{HR : !DeadLetterRepositoryOk R} id config ev w :
  (0 ≤ MaxRetries config < int64_max)%Z → w_tx w = None →
  is_Some (events (w_db w) !! Event_ID ev) →
  let run := processEventWithRetry id config processEvent time_Sleep ev w in
  run.1.1 = negb (shouldSimulateFailure ev)
  ∧ w_trace run.2 = w_trace w ++
      (if shouldSimulateFailure ev
       then schedule config (processEvent_work id ev) (Z.to_nat (MaxRetries config)) 1
       else processEvent_work id ev).
Proof.
  intros Hmax Htx He run.
  assert (in_int64 (MaxRetries config + 1)) as Hin by (unfold in_int64, int64_min; lia).
  unfold run, processEventWithRetry. rewrite wrap64_id by done.
  assert (∀ w0, (processEvent id ev w0).1 = if shouldSimulateFailure ev
    then Some (ErrMsg "simulated processing failure") else None) as Hv
    by (intros w0; unfold processEvent; by case_match).
  destruct (shouldSimulateFailure ev).
  - destruct (retry_loop_spec id config processEvent _ processEvent_works
      (S (Z.to_nat (MaxRetries config + 1))) ev (MaxRetries config + 1) 1 w) as [k Hk]; [lia|done|lia|done|done|].
    pose proof (retry_loop_fails id config processEvent _ processEvent_works
      (S (Z.to_nat (MaxRetries config + 1))) ev (MaxRetries config + 1) 1 w
      ltac:(intros w0; rewrite Hv; by eexists)) as Hf.
    split; [done|]. rewrite (at_trace _ _ _ _ _ _ _ _ _ _ Hk).
    pose proof (at_gave_up _ _ _ _ _ _ _ _ _ _ Hk Hf).
    by replace (Z.to_nat (MaxRetries config)) with k by lia.
  - destruct (retry_loop_succeeds id config processEvent _ processEvent_works
      (Z.to_nat (MaxRetries config + 1)) ev (MaxRetries config + 1) 1 w) as [Hr Hk]; [lia|done|done|done|].
    split; [done|]. apply (at_trace _ _ _ _ _ _ _ _ _ _ Hk).
Qed.

(** ** Settling deliveries *)

Definition is_settlement (e : Effect) : bool :=
  match e with EffAck _ | EffNack _ _ => true | _ => false end.

Lemma schedule_unsettled config work k a :
  Forall (λ e, is_settlement e = false) work →
  Forall (λ e, is_settlement e = false) (schedule config work k a).
Proof.
  intros Hw. revert a. induction k as [|k IH]; intros a; simpl; [done|].
  apply Forall_app. split; [done|]. by constructor.
Qed.

Section Settle.
Context `{E : Env} `{C : JsonCodec} `{R : DeadLetterRepository} `{HR : !DeadLetterRepositoryOk R}.
Context (workerID : Z) (config : Config) (processor : eventProcessor)
        (work : Z → Event → list Effect) (Hproc : processor_works processor work).
Context (Hunsettled : ∀ id ev, Forall (λ e, is_settlement e = false) (work id ev)).
Context (Hretries : (0 ≤ MaxRetries config < int64_max)%Z).

(** The event has reached a terminal state; if this worker failed it, its dead
    letter is on record. *)
Definition terminal (id : string) (db : Database) : Prop :=
  ∃ e, events db !! id = Some e ∧ e_status e ∈ [EventStatusProcessed; EventStatusFailed].

(** How a delivery ends: what is done before it is settled, the settlement, and
    what the settlement means. *)
Record settled (ev : Event) (w w' : World) (l : list Effect) (s : Effect) : Prop := {
  st_closed : w_tx w' = None;
  st_trace : w_trace w' = w_trace w ++ l ++ [s];
  st_once : Forall (λ e, is_settlement e = false) l;
  st_which : s = EffAck (Event_ID ev) ∨ ∃ requeue, s = EffNack (Event_ID ev) requeue;
  st_ack : s = EffAck (Event_ID ev) → terminal (Event_ID ev) (w_db w');
  st_discard : s = EffNack (Event_ID ev) false → events (w_db w) !! Event_ID ev = None;
  st_calm : no_faults → in_int4 (MaxRetries config + 1) = true →
    (∃ p, json_marshal (Event_Payload ev) = inr p) →
    s = match claim_answer (events (w_db w) !! Event_ID ev) (Event_ID ev)
          (timestamptz (env_clock (w_tick w) + wrap64 (- ProcessingLease config))) with
        | EventClaimed | EventClaimFinal => EffAck (Event_ID ev)
        | EventClaimInProgress => EffNack (Event_ID ev) true
        | EventClaimMissing => EffNack (Event_ID ev) false
        end;
}.

Lemma claimed_db_row id x now db :
  claim_answer (events db !! id) id x = EventClaimed → is_Some (events (claimed_db id x now db) !! id).
Proof.
  unfold claim_answer, claimed_db. destruct (events db !! id) as [e|]; [|done].
  destruct (processable id x id e); [|by case_match]. intros _. simpl. rewrite lookup_insert_eq. by eexists.
Qed.

Lemma final_answer_terminal id x now db :
  claim_answer (events db !! id) id x = EventClaimFinal → terminal id (claimed_db id x now db).
Proof.
  unfold claim_answer, claimed_db. destruct (events db !! id) as [e|] eqn:Ee; [|done].
  destruct (processable id x id e); [done|]. case_bool_decide; [|done]. intros _. by exists e.
Qed.

Lemma missing_answer id x db :
  claim_answer (events db !! id) id x = EventClaimMissing → events db !! id = None.
Proof. unfold claim_answer. destruct (events db !! id); [by repeat case_match|done]. Qed.

Lemma ClaimForProcessing_closes ctx id lease w :
  w_tx w = None → w_tx (ClaimForProcessing ctx id lease w).2 = None.
Proof.
  intros Htx. assert (PreOrder (λ _ _ : Database, True)) by by split.
  assert (evolves (λ _ _, True) (ClaimForProcessing ctx id lease)) as Hev
    by (unfold ClaimForProcessing; by solve_evolves).
  by apply Hev.
Qed.

(** The settlement of an event the worker has claimed. *)
Lemma claimed_settles ev w :
  w_tx w = None → is_Some (events (w_db w) !! Event_ID ev) →
  wp (outcome ← processEventWithRetry workerID config processor time_Sleep ev;
      if (snd outcome : bool) then ackDelivery (broker_delivery ev)
      else nackDelivery (broker_delivery ev) true)
    (λ _ w', w_tx w' = None ∧ ∃ l s, w_trace w' = w_trace w ++ l ++ [s]
       ∧ Forall (λ e, is_settlement e = false) l
       ∧ (s = EffAck (Event_ID ev) ∧ terminal (Event_ID ev) (w_db w')
          ∨ s = EffNack (Event_ID ev) true
            ∧ ¬ (no_faults ∧ in_int4 (MaxRetries config + 1) = true
                 ∧ ∃ p, json_marshal (Event_Payload ev) = inr p))) w.
Proof.
  intros Htx He. assert (in_int64 (MaxRetries config + 1)) as Hin by (unfold in_int64, int64_min; lia).
  wp_step. unfold wp at 1, processEventWithRetry. rewrite wrap64_id by done.
  destruct (retry_loop_spec workerID config processor work Hproc
    (S (Z.to_nat (MaxRetries config + 1))) ev (MaxRetries config + 1) 1 w) as [k Hk];
    [lia|done|lia|done|done|].
  destruct (retry_loop _ _ _ _ _ _ _ _ w) as [[ok persisted] w1]. simpl in *.
  pose proof (at_closed _ _ _ _ _ _ _ _ _ _ Hk) as Htx1.
  pose proof (at_trace _ _ _ _ _ _ _ _ _ _ Hk) as Ht1.
  pose proof (schedule_unsettled config (work workerID ev) k 1 (Hunsettled workerID ev)) as Hl.
  destruct persisted; (split; [done|]); (eexists _, _; split; [simpl; rewrite Ht1, <- app_assoc; done|]);
    (split; [done|]).
  - left. split; [done|]. destruct (at_terminal _ _ _ _ _ _ _ _ _ _ Hk eq_refl) as (e & He' & _ & Hst).
    exists e. split; [done|]. destruct ok; destruct Hst as [-> _]; set_solver.
  - right. split; [done|]. intros (Hnf & Hn & Hp).
    discriminate (at_persisted _ _ _ _ _ _ _ _ _ _ Hk Hnf Hn Hp).
Qed.

Lemma handleDelivery_settled ev w :
  w_tx w = None →
  wp (handleDelivery workerID config processor time_Sleep (broker_delivery ev))
    (λ _ w', ∃ l s, settled ev w w' l s) w.
Proof.
  intros Htx. unfold handleDelivery. simpl. wp_step. unfold wp at 1.
  pose proof (ClaimForProcessing_outcome Background (Event_ID ev) (ProcessingLease config) w) as Ho.
  simpl in Ho. unfold wp in Ho.
  pose proof (ClaimForProcessing_closes Background (Event_ID ev) (ProcessingLease config) w Htx) as Htx1.
  destruct (silent_ClaimForProcessing Background (Event_ID ev) (ProcessingLease config) w) as [_ Ht1].
  destruct (ClaimForProcessing Background (Event_ID ev) (ProcessingLease config) w) as [[c [e|]] w1];
    simpl in *.
  { destruct Ho as (-> & Hfault & _). exists [], (EffNack (Event_ID ev) true).
    constructor; simpl; rewrite ?Ht1; try done; eauto. }
  destruct Ho as [Hc Hdb]. destruct c; simpl.
  - eapply wp_wand; [apply claimed_settles; [done|]|].
    { rewrite Hdb. by apply claimed_db_row. }
    intros _ w' (Htx' & l & s & Ht & Hl & Hs). exists l, s. rewrite Ht1 in Ht.
    destruct Hs as [[-> Hterm]|[-> Hno]]; constructor; try done; eauto.
    + intros _ _ _. by rewrite <- Hc.
    + intros. exfalso. by apply Hno.
  - exists [EffSleep (ProcessingRequeueDelay config)], (EffNack (Event_ID ev) true).
    constructor; simpl; try done; eauto.
    + by rewrite Ht1, <- app_assoc.
    + intros _ _ _. by rewrite <- Hc.
  - exists [], (EffAck (Event_ID ev)). constructor; simpl; rewrite ?Ht1; try done; eauto.
    + intros _. rewrite Hdb. by apply final_answer_terminal.
    + intros _ _ _. by rewrite <- Hc.
  - exists [], (EffNack (Event_ID ev) false). constructor; simpl; rewrite ?Ht1; try done; eauto.
    + intros _. by eapply missing_answer.
    + intros _ _ _. by rewrite <- Hc.
Qed.

(** C4: every delivery is settled exactly once, as its last act, under any
    failures: what handleDelivery adds to the trace is work without any
    settlement followed by one Ack or Nack of this event.  It is acknowledged
    only when the event is processed or failed in the database; it is discarded
    (Nack without requeue) only when there is no such event; and without
    failures it is acknowledged exactly when the event was claimed or already
    final, requeued when another claim is running. *)
Theorem delivery_settled_once ev w :
  w_tx w = None →
  ∃ l s, settled ev w
    (handleDelivery workerID config processor time_Sleep (broker_delivery ev) w).2 l s.
Proof. apply handleDelivery_settled. Qed.

End Settle.

(** C32: a repeated delivery does no work.  For an event that is already
    processed or failed, under any failures, handleDelivery only settles the
    delivery (an acknowledgement, or a requeue when the database could not be
    asked), and no table changes; without failures it is acknowledged and
    counted as a skipped duplicate. *)
Theorem duplicate_delivery_skipped `{E : Env} `{C : JsonCodec} `{R : DeadLetterRepository}
    id config processor ev w :
  terminal (Event_ID ev) (w_db w) →
  let w' := (handleDelivery id config processor time_Sleep (broker_delivery ev) w).2 in
  w_db w' = w_db w
  ∧ (w_trace w' = w_trace w ++ [EffAck (Event_ID ev)]
     ∨ w_trace w' = w_trace w ++ [EffNack (Event_ID ev) true])
  ∧ (no_faults → w_trace w' = w_trace w ++ [EffAck (Event_ID ev)]
       ∧ w_metrics w' = inc EventsSkippedDuplicate (w_metrics w)).
Proof.
  intros (e & He & Hst).
  assert (wp (handleDelivery id config processor time_Sleep (broker_delivery ev)) (λ _ w', w_db w' = w_db w
    ∧ (w_trace w' = w_trace w ++ [EffAck (Event_ID ev)]
       ∨ w_trace w' = w_trace w ++ [EffNack (Event_ID ev) true])
    ∧ (no_faults → w_trace w' = w_trace w ++ [EffAck (Event_ID ev)]
       ∧ w_metrics w' = inc EventsSkippedDuplicate (w_metrics w))) w) as Hwp; [|exact Hwp].
  unfold handleDelivery. simpl. wp_step. unfold wp at 1.
  pose proof (ClaimForProcessing_outcome Background (Event_ID ev) (ProcessingLease config) w) as Ho.
  simpl in Ho. unfold wp in Ho.
  destruct (silent_ClaimForProcessing Background (Event_ID ev) (ProcessingLease config) w) as [Hm Ht].
  set (x := timestamptz _) in Ho.
  assert (processable (Event_ID ev) x (Event_ID ev) e = false) as Hnp.
  { unfold processable. apply andb_false_iff. right.
    assert (e_status e ≠ EventStatusQueued ∧ e_status e ≠ EventStatusProcessing) as [H1 H2].
    { rewrite !elem_of_cons in Hst. destruct Hst as [->|[->|[]%not_elem_of_nil]]; split; discriminate. }
    by rewrite !bool_decide_eq_false_2. }
  unfold claim_outcome, claim_answer, claimed_db in Ho. rewrite He, Hnp, bool_decide_eq_true_2 in Ho by done.
  destruct (ClaimForProcessing _ _ _ w) as [[c [err|]] w1]; simpl in *.
  - destruct Ho as (-> & Hf & [Hdb|Hdb]); (split; [done|]); (split; [right; simpl; by rewrite Ht|done]).
  - destruct Ho as [-> Hdb]. simpl. split; [done|]. simpl. rewrite Ht, Hm. eauto.
Qed.

(** ** On a concrete run *)

(** A delivery of the first event that asks for a failure. *)
Definition event_fail : Event :=
  mkEvent "evt-001" "payment.created" "req-3" (Some [("simulateFailure", JBool true)]).

Definition config_1 : Config := {|
  Port := "8080"; QueueSize := 10; WorkerCount := 3; ReadHeaderTimeoutSeconds := 5;
  ShutdownTimeoutSeconds := 10; LogFormat := "json"; MaxRetries := 2; RetryBackoffSeconds := 1;
  DeadLetterCapacity := 100; DatabaseURL := ""; DLQReplayToken := "secret";
  DLQAutoRetryEnabled := true; DLQAutoRetryIntervalSeconds := 60; DLQAutoRetryMaxAttempts := 3;
  RabbitMQURL := ""; RabbitMQQueue := "webhook.events"; RabbitMQReconnectMs := 1000;
  RabbitMQConnectTimeoutMs := 5000; OutboxPollIntervalMs := 500; OutboxBatchSize := 100;
  OutboxDispatchLeaseSeconds := 30; ProcessingLeaseSeconds := 300; ProcessingRequeueDelayMs := 1000 |}.

(** The environment, the codec and the repository of the run. *)
Definition run_env : Env := calm_env 1000.
Definition run_codec : JsonCodec := simple_codec.
Definition run_repository : DeadLetterRepository :=
  @persistent_repository run_env run_codec (NewPersistentDeadLetterStore 100).
Definition run_repository_ok : @DeadLetterRepositoryOk run_env run_codec run_repository :=
  @persistent_repository_ok run_env run_codec (NewPersistentDeadLetterStore 100).

Lemma processEventWithRetry_outcome_witness :
  ∃ k w', @attempted run_env run_codec run_repository run_repository_ok 1 config_1 processEvent_work
    event_1 3 1 k (true, true) world_saved w'.
Proof.
  destruct (@processEventWithRetry_outcome run_env run_codec run_repository run_repository_ok 1 config_1
    processEvent processEvent_work processEvent_works event_1 world_saved) as [k Hk].
  - vm_compute. split; [discriminate|reflexivity].
  - reflexivity.
  - vm_compute. by eexists.
  - exists k. eexists. exact Hk.
Defined.

Lemma processEvent_runs_witness :
  w_trace (@processEventWithRetry run_env run_repository 1 config_1 processEvent time_Sleep
    event_fail world_saved).2
  = [EffProcess 1 event_fail; EffSleep 2000000000; EffSleep 1000000000;
     EffProcess 1 event_fail; EffSleep 2000000000; EffSleep 2000000000;
     EffProcess 1 event_fail; EffSleep 2000000000].
Proof.
  refine (proj2 (@processEvent_runs run_env run_codec run_repository run_repository_ok 1 config_1 event_fail
    world_saved _ _ _)).
  - vm_compute. split; [discriminate|reflexivity].
  - reflexivity.
  - vm_compute. by eexists.
Defined.

Lemma processEvent_work_unsettled id ev :
  Forall (λ e, is_settlement e = false) (processEvent_work id ev).
Proof. by repeat constructor. Qed.

Lemma delivery_settled_once_witness :
  ∃ l s, @settled run_env run_codec config_1 event_1 world_saved
    (@handleDelivery run_env run_repository 1 config_1 processEvent time_Sleep
       (broker_delivery event_1) world_saved).2 l s.
Proof.
  apply (@delivery_settled_once run_env run_codec run_repository run_repository_ok 1 config_1
    processEvent processEvent_work processEvent_works processEvent_work_unsettled).
  - vm_compute. split; [discriminate|reflexivity].
  - reflexivity.
Defined.

Lemma duplicate_delivery_skipped_witness :
  let w := (@handleDelivery run_env run_repository 1 config_1 processEvent time_Sleep
              (broker_delivery event_1) world_saved).2 in
  w_db (@handleDelivery run_env run_repository 2 config_1 processEvent time_Sleep
          (broker_delivery event_1) w).2 = w_db w.
Proof.
  intros w. apply (@duplicate_delivery_skipped run_env run_codec run_repository 2 config_1 processEvent event_1 w).
  assert (e_status <$> events (w_db w) !! "evt-001" = Some EventStatusProcessed) as He
    by (vm_compute; reflexivity).
  destruct (events (w_db w) !! "evt-001") as [e|] eqn:Ee; [|discriminate].
  exists e. split; [exact Ee|]. simpl in He. injection He as ->. left.
Defined.
