(* ===== verification/RabbitMQ.v ===== *)
(** * rabbitmq_queue.go: the connections to the broker

    The AMQP client library is the class [Amqp]: the outcome of each call, for
    every call the program makes.  The queue's fields and the log of the calls
    are the [Broker] part of the state.  The publisher discharges the interface
    EventPublisher; no connection and no channel is ever lost; every delivery
    received is forwarded, rejected or requeued. *)

From stdpp Require Import base gmap strings list pretty.
From Stdlib Require Import ZArith Lia Ascii.
From S2P Require Import Prelude GoLib Config Models Metrics Sql Database DbInvariant World Scenario.
From S2P Require Import EventStore StoreLogic StoreProps StoreOutbox Outbox Worker Json.

Open Scope go_scope.

(** The outcome of the n-th interaction, were it such a call ([None] is nil);
    the queue's name, plain and as [%q] prints it. *)
Class Amqp := {
  amqp_dial : nat → option string;
  amqp_channel : nat → option string;
  amqp_declare : nat → option string;
  amqp_confirm : nat → option string;
  amqp_qos : nat → option string;
  amqp_consume : nat → option string;
  amqp_close : nat → option string;
  amqp_conn_closed : nat → Z → bool;
  amqp_chan_closed : nat → Z → bool;
  amqp_publish : nat → option string;
  amqp_has_confirmation : nat → bool;
  amqp_wait : nat → string + bool;
  queueName : string;
  quoted_queue : string;
}.

(** ** The client's calls *)

Definition log (c : AmqpCall) (w : World) : World :=
  let b := w_broker w in
  set_broker (mkBroker (publishConn b) (publishChannel b) (consumerConn b) (consumerChannel b)
                (b_log b ++ [c])) w.

Definition set_publisher (conn chan : option Z) (w : World) : World :=
  let b := w_broker w in
  set_broker (mkBroker conn chan (consumerConn b) (consumerChannel b) (b_log b)) w.

Definition set_consumer (conn chan : option Z) (w : World) : World :=
  let b := w_broker w in
  set_broker (mkBroker (publishConn b) (publishChannel b) conn chan (b_log b)) w.

Definition get_broker : M Broker := λ w, (w_broker w, w).
Definition put_publisher (conn chan : option Z) : M unit := λ w, (tt, set_publisher conn chan w).
Definition put_consumer (conn chan : option Z) : M unit := λ w, (tt, set_consumer conn chan w).

Section Client.
Context `{E : Env} `{A : Amqp}.

(** A call, logged with its outcome. *)
Definition amqp_call (outcome : nat → option string) (c : option string → AmqpCall) : M (option GoError) := λ w,
  (ErrMsg <$> outcome (w_tick w), tick (log (c (outcome (w_tick w))) w)).

(** A call that creates a connection or a channel; its number is fresh. *)
Definition amqp_create (outcome : nat → option string) (c : Z → AmqpCall) : M (result Z) := λ w,
  match outcome (w_tick w) with
  | Some e => (Err (ErrMsg e), tick w)
  | None => (Ok (Z.of_nat (w_tick w)), tick (log (c (Z.of_nat (w_tick w))) w))
  end.

Definition chan_IsClosed (ch : Z) : M bool := λ w,
  if amqp_chan_closed (w_tick w) ch then (true, tick (log (SawClosedChannel ch) w)) else (false, tick w).

Definition conn_IsClosed (c : Z) : M bool := λ w,
  if amqp_conn_closed (w_tick w) c then (true, tick (log (SawClosedConnection c) w)) else (false, tick w).

Definition channel_Close (ch : Z) : M (option GoError) := amqp_call amqp_close (λ _, CallCloseChannel ch).
Definition connection_Close (c : Z) : M (option GoError) := amqp_call amqp_close (λ _, CallCloseConnection c).

(** ** Opening and closing *)

Definition closeAMQPChannel (channel : option Z) : M (option GoError) :=
  match channel with
  | None => mret None
  | Some ch => closed ← chan_IsClosed ch; if (closed : bool) then mret None else channel_Close ch
  end.

Definition closeAMQPConnection (connection : option Z) : M (option GoError) :=
  match connection with
  | None => mret None
  | Some c => closed ← conn_IsClosed c; if (closed : bool) then mret None else connection_Close c
  end.

Definition declareRabbitMQQueue (channel : Z) : M (option GoError) :=
  check amqp_call amqp_declare (CallDeclare channel queueName true)
    orelse fail ("declare RabbitMQ queue " +:+ quoted_queue +:+ ": ");
  mret None.

Definition dial : M (result Z) :=
  c ←! amqp_create amqp_dial CallDial orelse fail_with "connect RabbitMQ: ";
  mret (Ok c).

(** The error paths that give the new connection back. *)
Definition give_back {B} (connection channel : Z) (result : B) : M B :=
  _ ← channel_Close channel;
  _ ← connection_Close connection;
  mret result.

Definition invalidatePublisherLocked : M unit :=
  b ← get_broker;
  _ ← closeAMQPChannel (publishChannel b);
  _ ← closeAMQPConnection (publishConn b);
  put_publisher None None.

(** The four conditions of the reuse, with Go's short-circuit evaluation. *)
Definition publisher_alive : M bool :=
  b ← get_broker;
  match publishConn b, publishChannel b with
  | Some c, chan =>
      closed ← conn_IsClosed c;
      if (closed : bool) then mret false
      else match chan with
           | Some ch => closed' ← chan_IsClosed ch; mret (negb closed')
           | None => mret false
           end
  | None, _ => mret false
  end.

Definition ensurePublisherLocked : M (option GoError) :=
  alive ← publisher_alive;
  if (alive : bool) then mret None
  else
    invalidatePublisherLocked;;
    connection ←! dial orelse fail "connect RabbitMQ publisher: ";
    channel ←! amqp_create amqp_channel (CallChannel connection)
      orelse (λ e, _ ← connection_Close connection;
                   fail "open RabbitMQ publisher channel: " e);
    check declareRabbitMQQueue channel orelse (λ e, give_back connection channel (Some e));
    check amqp_call amqp_confirm (CallConfirm channel)
      orelse (λ e, give_back connection channel (Some (errorf "enable RabbitMQ publisher confirms: " e)));
    put_publisher (Some connection) (Some channel);;
    mret None.

(** ** Publishing *)

Definition oracle {B} (f : nat → B) : M B := λ w, (f (w_tick w), tick w).

(** The panic of a method call on a nil channel; it is shown not to happen. *)
Definition nil_dereference : GoError := ErrMsg "invalid memory address or nil pointer dereference".

Definition publish (event : Event) : M (option GoError) :=
  match marshal_event event with
  | inl e => fail "marshal RabbitMQ event: " (ErrMsg e)
  | inr body =>
      check ensurePublisherLocked orelse (λ e, mret (Some e));
      b ← get_broker;
      match publishChannel b with
      | None => mret (Some nil_dereference)
      | Some channel =>
          now ← time_now;
          check amqp_call amqp_publish (CallPublish channel "" queueName
                  (mkAmqpPublishing "application/json" amqp_Persistent (Event_ID event) now body))
            orelse (λ e, invalidatePublisherLocked;; fail "publish RabbitMQ event: " e);
          confirmation ← oracle amqp_has_confirmation;
          if negb confirmation then
            invalidatePublisherLocked;;
            mret (Some (ErrMsg "RabbitMQ publisher confirmation is unavailable"))
          else
            waited ← oracle amqp_wait;
            match waited with
            | inl e =>
                invalidatePublisherLocked;;
                fail "wait for RabbitMQ publisher confirmation: " (ErrMsg e)
            | inr false => mret (Some (ErrMsg "RabbitMQ rejected published event"))
            | inr true => mret None
            end
      end
  end.

(** [Publish], with the attempt recorded. *)
Definition RabbitMQ_Publish (ctx : Ctx) (event : Event) : M (option GoError) :=
  err ← publish event;
  emit (EffPublish event err);;
  mret err.

#[export] Instance rabbitmq_publisher : EventPublisher := {| Publish := RabbitMQ_Publish |}.

(** ** Consuming *)

Definition openConsumer (workerCount : Z) : M (result (Z * Z)) :=
  connection ←! dial orelse (λ e, mret (Err e));
  channel ←! amqp_create amqp_channel (CallChannel connection)
    orelse (λ e, _ ← connection_Close connection;
                 fail_with "open RabbitMQ consumer channel: " e);
  check declareRabbitMQQueue channel orelse (λ e, give_back connection channel (Err e));
  check amqp_call amqp_qos (CallQos channel workerCount)
    orelse (λ e, give_back connection channel (Err (errorf "configure RabbitMQ prefetch: " e)));
  check amqp_call amqp_consume (CallConsume channel queueName false)
    orelse (λ e, give_back connection channel (Err (errorf "start RabbitMQ consumer: " e)));
  mret (Ok (connection, channel)).

Definition setConsumer (connection channel : Z) : M unit :=
  put_consumer (Some connection) (Some channel).

Definition clearConsumer (connection channel : Z) : M unit :=
  b ← get_broker;
  put_consumer (if bool_decide (consumerConn b = Some connection) then None else consumerConn b)
    (if bool_decide (consumerChannel b = Some channel) then None else consumerChannel b).

(** What the [select] of forwardDeliveries picks: the context is done, the
    channel of deliveries is closed, or a delivery; for a delivery that decodes,
    whether the workers' channel took it before the context was done. *)
Inductive Selected :=
| SelectDone
| SelectClosed
| SelectDelivery (tag : Z) (body : string) (taken : bool).

(** What becomes of a delivery. *)
Inductive Handoff :=
| Forwarded (tag : Z) (event : Event)
| Rejected (tag : Z)
| Requeued (tag : Z).

(** The deliveries handled, and whether the loop has returned. *)
Fixpoint forwardDeliveries (selects : list Selected) : list Handoff * bool :=
  match selects with
  | [] => ([], false)
  | SelectDone :: _ | SelectClosed :: _ => ([], true)
  | SelectDelivery tag body taken :: selects =>
      match unmarshal_event body with
      | None => let '(rest, returned) := forwardDeliveries selects in (Rejected tag :: rest, returned)
      | Some event =>
          if taken
          then let '(rest, returned) := forwardDeliveries selects in (Forwarded tag event :: rest, returned)
          else ([Requeued tag], true)
      end
  end.

(** Where the goroutine of consumeLoop is: at the head of the loop, in
    forwardDeliveries, or gone. *)
Inductive ConsumerState :=
| Connecting
| Forwarding (connection channel : Z)
| Returned.

(** The select of waitForRetry: the timer fired, or the context was cancelled. *)
Definition waitForRetry (selected : Wakeup) : bool :=
  match selected with Ticked => true | Stopped => false end.

(** What the goroutine meets on the way to its next state: what forwardDeliveries
    selects, whether the context is done afterwards, and what waitForRetry
    selects. *)
Record Turn := mkTurn {
  turn_selects : list Selected;
  turn_cancelled : bool;
  turn_wait : Wakeup;
}.

Definition consume_step (workerCount : Z) (turn : Turn) (st : ConsumerState)
    : M (list Handoff * ConsumerState) :=
  match st with
  | Returned => mret ([], Returned)
  | Connecting =>
      if turn_cancelled turn then mret ([], Returned)
      else
        opened ← openConsumer workerCount;
        match opened with
        | Err _ => mret ([], if waitForRetry (turn_wait turn) then Connecting else Returned)
        | Ok (connection, channel) =>
            setConsumer connection channel;;
            mret ([], Forwarding connection channel)
        end
  | Forwarding connection channel =>
      let '(handled, returned) := forwardDeliveries (turn_selects turn) in
      if negb returned then mret (handled, Forwarding connection channel)
      else if turn_cancelled turn then mret (handled, Returned)
      else
        clearConsumer connection channel;;
        _ ← closeAMQPChannel (Some channel);
        _ ← closeAMQPConnection (Some connection);
        mret (handled, if waitForRetry (turn_wait turn) then Connecting else Returned)
  end.

(** The queue in use: the goroutine of consumeLoop goes on, or another goroutine
    publishes. *)
Inductive Activity :=
| Consuming (turn : Turn)
| Publishing (event : Event).

Fixpoint consumeLoop (workerCount : Z) (acts : list Activity) (st : ConsumerState)
    : M (list Handoff * ConsumerState) :=
  match acts with
  | [] => mret ([], st)
  | Publishing event :: acts => _ ← publish event; consumeLoop workerCount acts st
  | Consuming turn :: acts =>
      '(handled, st') ← consume_step workerCount turn st;
      '(rest, st'') ← consumeLoop workerCount acts st';
      mret (handled ++ rest, st'')
  end.

(** [Close], the first time it is called: the errors it joins. *)
Definition Close : M (list GoError) :=
  b ← get_broker;
  put_consumer None None;;
  put_publisher None None;;
  e1 ← closeAMQPChannel (consumerChannel b);
  e2 ← closeAMQPConnection (consumerConn b);
  e3 ← closeAMQPChannel (publishChannel b);
  e4 ← closeAMQPConnection (publishConn b);
  mret (omap id [e1; e2; e3; e4]).

End Client.

(** ** The publisher touches nothing but the broker *)

Definition broker_only (w w' : World) : Prop :=
  w_db w' = w_db w ∧ w_tx w' = w_tx w ∧ w_metrics w' = w_metrics w ∧ w_trace w' = w_trace w.

#[export] Instance broker_only_preorder : PreOrder broker_only.
Proof. split; [by intros w|]. intros w1 w2 w3 (?&?&?&?) (?&?&?&?). split_and!; congruence. Qed.

Section BrokerOnly.
Context `{E : Env} `{A : Amqp}.

Lemma broker_only_call f c : respects broker_only (amqp_call f c).
Proof. by intros w. Qed.
Lemma broker_only_create f c : respects broker_only (amqp_create f c).
Proof. intros w. unfold amqp_create. by case_match. Qed.
Lemma broker_only_chan_IsClosed ch : respects broker_only (chan_IsClosed ch).
Proof. intros w. unfold chan_IsClosed. by case_match. Qed.
Lemma broker_only_conn_IsClosed c : respects broker_only (conn_IsClosed c).
Proof. intros w. unfold conn_IsClosed. by case_match. Qed.
Lemma broker_only_get : respects broker_only get_broker.
Proof. by intros w. Qed.
Lemma broker_only_put_publisher c ch : respects broker_only (put_publisher c ch).
Proof. by intros w. Qed.
Lemma broker_only_oracle {B} (f : nat → B) : respects broker_only (oracle f).
Proof. by intros w. Qed.
Lemma broker_only_time_now : respects broker_only time_now.
Proof. by intros w. Qed.

Lemma publish_broker_only ev : respects broker_only (publish ev).
Proof.
  unfold publish, ensurePublisherLocked, publisher_alive, invalidatePublisherLocked, dial,
    declareRabbitMQQueue, give_back, closeAMQPChannel, closeAMQPConnection, channel_Close, connection_Close.
  repeat first
    [ apply respects_ret; apply _
    | apply respects_bind; [apply _| |intros ?]
    | apply respects_try; [apply _| |intros ?|intros ?]
    | apply respects_check; [apply _| |intros ?|]
    | apply broker_only_call | apply broker_only_create | apply broker_only_chan_IsClosed
    | apply broker_only_conn_IsClosed | apply broker_only_get | apply broker_only_put_publisher
    | apply broker_only_oracle | apply broker_only_time_now
    | progress unfold fail, fail_with
    | case_match ].
Qed.

(** The RabbitMQ publisher satisfies the interface the dispatcher relies on. *)
#[export] Instance rabbitmq_publisher_ok : EventPublisherOk rabbitmq_publisher.
Proof.
  constructor; intros ctx ev w; destruct (publish_broker_only ev w) as (? & ? & ? & Ht); simpl;
    unfold RabbitMQ_Publish; rewrite !M_bind_run; simpl; [done|done|].
  by rewrite Ht.
Qed.

End BrokerOnly.

(** ** No connection is lost *)

#[local] Arguments closeAMQPChannel : simpl never.
#[local] Arguments closeAMQPConnection : simpl never.

Definition released_conn (c : Z) (b : Broker) : Prop :=
  CallCloseConnection c ∈ b_log b ∨ SawClosedConnection c ∈ b_log b.
Definition released_chan (ch : Z) (b : Broker) : Prop :=
  CallCloseChannel ch ∈ b_log b ∨ SawClosedChannel ch ∈ b_log b.

(** Every connection ever dialled and every channel ever opened is among [cs]
    and [chs] (local variables of the running function), held by the queue, or
    has been closed or seen closed; and the publisher's channel is in confirm
    mode, the durable queue having been declared on it. *)
Record owned `{A : Amqp} (cs chs : list Z) (b : Broker) : Prop := {
  ow_conn : ∀ c, CallDial c ∈ b_log b →
    c ∈ cs ∨ publishConn b = Some c ∨ consumerConn b = Some c ∨ released_conn c b;
  ow_chan : ∀ p ch, CallChannel p ch ∈ b_log b →
    ch ∈ chs ∨ publishChannel b = Some ch ∨ consumerChannel b = Some ch ∨ released_chan ch b;
  ow_confirm : ∀ ch, publishChannel b = Some ch →
    CallConfirm ch None ∈ b_log b ∧ CallDeclare ch queueName true None ∈ b_log b;
}.

(** Same fields, more calls, none of which creates anything. *)
Definition calls (w w' : World) : Prop :=
  let b := w_broker w in let b' := w_broker w' in
  publishConn b' = publishConn b ∧ publishChannel b' = publishChannel b
  ∧ consumerConn b' = consumerConn b ∧ consumerChannel b' = consumerChannel b
  ∧ ∃ l, b_log b' = b_log b ++ l
    ∧ (∀ c, CallDial c ∉ l) ∧ (∀ p ch, CallChannel p ch ∉ l).

#[export] Instance calls_preorder : PreOrder calls.
Proof.
  split.
  - intros w. split_and!; try done. exists []. rewrite app_nil_r. set_solver.
  - intros w1 w2 w3 (?&?&?&?& l1 & Hl1 & Hd1 & Hc1) (?&?&?&?& l2 & Hl2 & Hd2 & Hc2).
    split_and!; try congruence. exists (l1 ++ l2). rewrite Hl2, Hl1, app_assoc. split; [done|].
    split; intros *; rewrite elem_of_app; naive_solver.
Qed.

Lemma owned_calls `{A : Amqp} cs chs w w' :
  calls w w' → owned cs chs (w_broker w) → owned cs chs (w_broker w').
Proof.
  intros (Hpc & Hpch & Hcc & Hcch & l & Hl & Hd & Hc) [H1 H2 H3].
  constructor; unfold released_conn, released_chan; rewrite ?Hpc, ?Hpch, ?Hcc, ?Hcch, Hl.
  - intros c [Hin|Hin]%elem_of_app; [|by destruct (Hd c)].
    destruct (H1 c Hin) as [?|[?|[?|[?|?]]]]; rewrite ?elem_of_app; tauto.
  - intros p ch [Hin|Hin]%elem_of_app; [|by destruct (Hc p ch)].
    destruct (H2 p ch Hin) as [?|[?|[?|[?|?]]]]; rewrite ?elem_of_app; tauto.
  - intros ch Hch. rewrite !elem_of_app. destruct (H3 ch Hch). auto.
Qed.

Lemma released_conn_calls c w w' :
  calls w w' → released_conn c (w_broker w) → released_conn c (w_broker w').
Proof. intros (_&_&_&_& l & Hl & _) H. unfold released_conn in *. rewrite Hl, !elem_of_app. tauto. Qed.

Lemma released_chan_calls ch w w' :
  calls w w' → released_chan ch (w_broker w) → released_chan ch (w_broker w').
Proof. intros (_&_&_&_& l & Hl & _) H. unfold released_chan in *. rewrite Hl, !elem_of_app. tauto. Qed.

Lemma calls_log w n c :
  (∀ x, c ≠ CallDial x) → (∀ p x, c ≠ CallChannel p x) →
  w_broker n = w_broker (log c w) → calls w n.
Proof.
  intros Hd Hc Hn. unfold calls. rewrite Hn. split_and!; try done. exists [c]. split; [done|].
  split; intros *; rewrite list_elem_of_singleton; naive_solver.
Qed.

Lemma calls_same w n : w_broker n = w_broker w → calls w n.
Proof. intros Hn. unfold calls. rewrite Hn. split_and!; try done. exists []. rewrite app_nil_r. set_solver. Qed.

Section Owned.
Context `{E : Env} `{A : Amqp}.

Lemma amqp_call_calls f c w :
  (∀ a x, c a ≠ CallDial x) → (∀ a p x, c a ≠ CallChannel p x) → calls w (amqp_call f c w).2.
Proof. intros Hd Hc. by apply (calls_log _ _ (c (f (w_tick w)))). Qed.

Lemma wp_closeChannel o Q w :
  (∀ r w', calls w w' → (∀ ch, o = Some ch → released_chan ch (w_broker w')) → Q r w') →
  wp (closeAMQPChannel o) Q w.
Proof.
  intros HQ. unfold closeAMQPChannel. destruct o as [ch|]; [|wp_step; by apply HQ].
  wp_step. unfold wp at 1, chan_IsClosed. destruct (amqp_chan_closed (w_tick w) ch); simpl.
  - wp_step. apply HQ; [by apply (calls_log _ _ (SawClosedChannel ch))|].
    intros ? [= <-]. right. simpl. set_solver.
  - apply HQ; [|intros ? [= <-]; left; simpl; set_solver].
    transitivity (tick w); [by apply calls_same|by apply amqp_call_calls].
Qed.

Lemma wp_closeConnection o Q w :
  (∀ r w', calls w w' → (∀ c, o = Some c → released_conn c (w_broker w')) → Q r w') →
  wp (closeAMQPConnection o) Q w.
Proof.
  intros HQ. unfold closeAMQPConnection. destruct o as [c|]; [|wp_step; by apply HQ].
  wp_step. unfold wp at 1, conn_IsClosed. destruct (amqp_conn_closed (w_tick w) c); simpl.
  - wp_step. apply HQ; [by apply (calls_log _ _ (SawClosedConnection c))|].
    intros ? [= <-]. right. simpl. set_solver.
  - apply HQ; [|intros ? [= <-]; left; simpl; set_solver].
    transitivity (tick w); [by apply calls_same|by apply amqp_call_calls].
Qed.

Lemma owned_release_conn c cs chs b : released_conn c b → owned (c :: cs) chs b → owned cs chs b.
Proof.
  intros Hr [H1 H2 H3]. constructor; [|done|done]. intros c' Hc'. destruct (H1 c' Hc') as [[->|?]%elem_of_cons|?]; tauto.
Qed.

Lemma owned_release_chan ch cs chs b : released_chan ch b → owned cs (ch :: chs) b → owned cs chs b.
Proof.
  intros Hr [H1 H2 H3]. constructor; [done| |done]. intros p c' Hc'.
  destruct (H2 p c' Hc') as [[->|?]%elem_of_cons|?]; tauto.
Qed.

(** Closing a channel, closing a connection, and both. *)
Lemma wp_drop_conn {B} c cs chs (x : B) Q w :
  owned (c :: cs) chs (w_broker w) →
  (∀ w', owned cs chs (w_broker w') → calls w w' → Q x w') →
  wp (_ ← connection_Close c; mret x) Q w.
Proof.
  intros Ho HQ. wp_step. unfold wp at 1. wp_step.
  assert (calls w (connection_Close c w).2) as Hc by by apply amqp_call_calls.
  apply HQ; [|done]. apply (owned_release_conn c); [left; simpl; set_solver|].
  by apply (owned_calls _ _ w).
Qed.

Lemma wp_give_back {B} c ch (x : B) Q w :
  owned [c] [ch] (w_broker w) →
  (∀ w', owned [] [] (w_broker w') → calls w w' → Q x w') →
  wp (give_back c ch x) Q w.
Proof.
  intros Ho HQ. unfold give_back. wp_step. unfold wp at 1.
  assert (calls w (channel_Close ch w).2) as Hc by by apply amqp_call_calls.
  apply (wp_drop_conn c [] []); [|intros w' ??; apply HQ; [done|by etrans]].
  apply (owned_release_chan ch); [left; simpl; set_solver|]. by apply (owned_calls _ _ w).
Qed.

Definition consumer_fields (w : World) : option Z * option Z :=
  (consumerConn (w_broker w), consumerChannel (w_broker w)).

Lemma wp_invalidate Q w :
  owned [] [] (w_broker w) →
  (∀ w', owned [] [] (w_broker w') → publishConn (w_broker w') = None →
     publishChannel (w_broker w') = None → consumer_fields w' = consumer_fields w → Q tt w') →
  wp invalidatePublisherLocked Q w.
Proof.
  intros Ho HQ. unfold invalidatePublisherLocked. wp_step. unfold wp at 1, get_broker. simpl.
  wp_step. apply wp_closeChannel. intros _ w1 Hc1 Hr1. wp_step. apply wp_closeConnection.
  intros _ w2 Hc2 Hr2. unfold wp, put_publisher. simpl.
  pose proof (owned_calls _ _ _ _ Hc2 (owned_calls _ _ _ _ Hc1 Ho)) as [H1 H2 H3].
  assert (publishConn (w_broker w2) = publishConn (w_broker w)
    ∧ publishChannel (w_broker w2) = publishChannel (w_broker w)) as [Hpc Hpch].
  { destruct Hc1 as (?&?&_), Hc2 as (?&?&_). split; congruence. }
  apply HQ; [|done|done|].
  2:{ destruct Hc1 as (_&_&?&?&_), Hc2 as (_&_&?&?&_). unfold consumer_fields. simpl. congruence. }
  constructor; simpl; [| |done].
  - intros c Hc. destruct (H1 c Hc) as [?|[Hp|?]]; [tauto| |tauto].
    right; right; right. apply Hr2. congruence.
  - intros p ch Hch. destruct (H2 p ch Hch) as [?|[Hp|?]]; [tauto| |tauto].
    right; right; right. eapply (released_chan_calls ch _ _ Hc2), Hr1. congruence.
Qed.

(** The four pointers. *)
Definition fields (w : World) : option Z * option Z * option Z * option Z :=
  let b := w_broker w in (publishConn b, publishChannel b, consumerConn b, consumerChannel b).

Lemma calls_fields w w' : calls w w' → fields w' = fields w.
Proof. intros (H1 & H2 & H3 & H4 & _). unfold fields. congruence. Qed.

Lemma wp_call f c Q w :
  (∀ a x, c a ≠ CallDial x) → (∀ a p x, c a ≠ CallChannel p x) →
  (∀ a w', calls w w' → c a ∈ b_log (w_broker w') → Q (ErrMsg <$> a) w') →
  wp (amqp_call f c) Q w.
Proof. intros Hd Hc HQ. apply HQ; [by apply amqp_call_calls|]. simpl. set_solver. Qed.

Lemma owned_dial n cs chs w :
  owned cs chs (w_broker w) → owned (n :: cs) chs (w_broker (log (CallDial n) w)).
Proof.
  intros [H1 H2 H3]. constructor; unfold released_conn, released_chan; simpl.
  - intros c [Hc|Hc]%elem_of_app; [|set_solver].
    destruct (H1 c Hc) as [?|[?|[?|[?|?]]]]; rewrite ?elem_of_app, elem_of_cons; tauto.
  - intros p ch [Hc|Hc]%elem_of_app; [|set_solver].
    destruct (H2 p ch Hc) as [?|[?|[?|[?|?]]]]; rewrite ?elem_of_app; tauto.
  - intros ch Hch. rewrite !elem_of_app. destruct (H3 ch Hch). auto.
Qed.

Lemma owned_channel p n cs chs w :
  owned cs chs (w_broker w) → owned cs (n :: chs) (w_broker (log (CallChannel p n) w)).
Proof.
  intros [H1 H2 H3]. constructor; unfold released_conn, released_chan; simpl.
  - intros c [Hc|Hc]%elem_of_app; [|set_solver].
    destruct (H1 c Hc) as [?|[?|[?|[?|?]]]]; rewrite ?elem_of_app; tauto.
  - intros p' ch [Hc|Hc]%elem_of_app.
    + destruct (H2 p' ch Hc) as [?|[?|[?|[?|?]]]]; rewrite ?elem_of_app, elem_of_cons; tauto.
    + apply list_elem_of_singleton in Hc as [= -> ->]. left. set_solver.
  - intros ch Hch. rewrite !elem_of_app. destruct (H3 ch Hch). auto.
Qed.

(** After a failure nothing new is held and the pointers are what they were. *)
Definition gave_up (w w' : World) : Prop := owned [] [] (w_broker w') ∧ fields w' = fields w.

(** A connection, without and with a channel, that the queue does not hold yet. *)
Definition dialled (w : World) (c : Z) (w' : World) : Prop :=
  owned [c] [] (w_broker w') ∧ fields w' = fields w.

Definition acquired (w : World) (c ch : Z) (w' : World) : Prop :=
  owned [c] [ch] (w_broker w') ∧ fields w' = fields w.

Lemma wp_dial Q w :
  owned [] [] (w_broker w) →
  (∀ e w', gave_up w w' → Q (Err e) w') →
  (∀ c w', dialled w c w' → Q (Ok c) w') →
  wp dial Q w.
Proof.
  intros Ho He Hok. unfold dial. wp_step. unfold wp at 1, amqp_create.
  destruct (amqp_dial (w_tick w)); simpl; wp_step.
  - by apply He.
  - apply Hok. split; [|done]. by apply (owned_dial _ [] []).
Qed.

Lemma wp_channel c Q w w1 :
  dialled w c w1 →
  (∀ e w', dialled w c w' → Q (Err e) w') →
  (∀ ch w', acquired w c ch w' → Q (Ok ch) w') →
  wp (amqp_create amqp_channel (CallChannel c)) Q w1.
Proof.
  intros [Ho Hf] He Hok. unfold wp, amqp_create. destruct (amqp_channel (w_tick w1)); simpl.
  - by apply He.
  - apply Hok. split; [|done]. by apply owned_channel.
Qed.

Lemma wp_declare ch Q w :
  (∀ r w', calls w w' → r ≠ Some nil_dereference →
     (r = None → CallDeclare ch queueName true None ∈ b_log (w_broker w')) → Q r w') →
  wp (declareRabbitMQQueue ch) Q w.
Proof.
  intros HQ. unfold declareRabbitMQQueue. wp_step. apply wp_call; [done..|].
  intros [e|] w' Hc Hin; simpl; wp_step; by apply HQ.
Qed.

Lemma acquired_calls w c ch w1 w2 : acquired w c ch w1 → calls w1 w2 → acquired w c ch w2.
Proof.
  intros [Ho Hf] Hc. split; [by apply (owned_calls _ _ w1)|]. by rewrite (calls_fields _ _ Hc).
Qed.

Lemma wp_give_back_acquired {B} c ch (x : B) Q w w1 :
  acquired w c ch w1 → (∀ w', gave_up w w' → Q x w') → wp (give_back c ch x) Q w1.
Proof.
  intros [Ho Hf] HQ. apply wp_give_back; [done|]. intros w' Ho' Hc. apply HQ.
  split; [done|]. by rewrite (calls_fields _ _ Hc).
Qed.

(** The publisher is connected: its channel is in confirm mode. *)
Definition connected (w : World) : Prop :=
  ∃ ch, publishChannel (w_broker w) = Some ch
    ∧ CallConfirm ch None ∈ b_log (w_broker w) ∧ CallDeclare ch queueName true None ∈ b_log (w_broker w).

Lemma fields_consumer w w' : fields w' = fields w → consumer_fields w' = consumer_fields w.
Proof. unfold fields, consumer_fields. congruence. Qed.

Lemma wp_publisher_alive Q w :
  (∀ r w', calls w w' → (r = true → is_Some (publishChannel (w_broker w'))) → Q r w') →
  wp publisher_alive Q w.
Proof.
  intros HQ. unfold publisher_alive. wp_step. unfold wp at 1, get_broker. simpl.
  destruct (publishConn (w_broker w)) as [c|]; [|wp_step; by apply HQ].
  wp_step. unfold wp at 1, conn_IsClosed. destruct (amqp_conn_closed (w_tick w) c); simpl.
  { wp_step. apply HQ; [by apply (calls_log _ _ (SawClosedConnection c))|done]. }
  destruct (publishChannel (w_broker w)) as [ch|] eqn:Hch; [|wp_step; apply HQ; [by apply calls_same|done]].
  wp_step. unfold wp at 1, chan_IsClosed. simpl. destruct (amqp_chan_closed _ ch); simpl; wp_step; apply HQ.
  - by apply (calls_log _ _ (SawClosedChannel ch)).
  - done.
  - by apply calls_same.
  - intros _. simpl. by rewrite Hch.
Qed.

Lemma owned_put_publisher c ch w :
  owned [c] [ch] (w_broker w) → publishConn (w_broker w) = None → publishChannel (w_broker w) = None →
  CallConfirm ch None ∈ b_log (w_broker w) → CallDeclare ch queueName true None ∈ b_log (w_broker w) →
  owned [] [] (w_broker (set_publisher (Some c) (Some ch) w)).
Proof.
  intros [H1 H2 H3] Hn1 Hn2 Hcf Hdc. constructor; simpl.
  - intros c' Hc'. destruct (H1 c' Hc') as [->%list_elem_of_singleton|[?|?]]; [auto|congruence|auto].
  - intros p c' Hc'. destruct (H2 p c' Hc') as [->%list_elem_of_singleton|[?|?]]; [auto|congruence|auto].
  - by intros ? [= <-].
Qed.

Lemma connection_Close_gives_up c w w1 :
  dialled w c w1 → gave_up w (connection_Close c w1).2.
Proof.
  intros [Ho Hf]. assert (calls w1 (connection_Close c w1).2) as Hc by by apply amqp_call_calls.
  split; [|by rewrite (calls_fields _ _ Hc)].
  apply (owned_release_conn c); [left; simpl; set_solver|]. by apply (owned_calls _ _ w1).
Qed.

Lemma wp_ensurePublisher Q w :
  owned [] [] (w_broker w) →
  (∀ r w', owned [] [] (w_broker w') → consumer_fields w' = consumer_fields w →
     (r = None → connected w') → r ≠ Some nil_dereference → Q r w') →
  wp ensurePublisherLocked Q w.
Proof.
  intros Ho HQ. unfold ensurePublisherLocked. wp_step. apply wp_publisher_alive. intros r w1 Hc1 Halive.
  pose proof (owned_calls _ _ _ _ Hc1 Ho) as Ho1. pose proof (fields_consumer _ _ (calls_fields _ _ Hc1)) as Hf1.
  destruct r.
  { wp_step. apply HQ; [done|done| |done]. intros _. destruct (Halive eq_refl) as [ch Hch].
    exists ch. split; [done|]. by apply (ow_confirm _ _ _ Ho1). }
  wp_step. apply wp_invalidate; [done|]. intros w2 Ho2 Hn2 Hn2' Hf2. rewrite Hf1 in Hf2.
  assert (∀ e w', gave_up w2 w' → e ≠ nil_dereference → Q (Some e) w') as Hgive.
  { intros e w' [? Hf]%id Hne. apply HQ; [done| |done|congruence]. by rewrite (fields_consumer _ _ Hf). }
  wp_step. apply wp_dial; [done|by intros e w' ?; wp_step; apply Hgive|]. intros c w3 Hd.
  wp_step. apply (wp_channel c _ w2); [done| |].
  { intros e w4 Hd4. wp_step. unfold wp at 1. wp_step. apply Hgive; [|done]. by apply connection_Close_gives_up. }
  intros ch w4 Ha4. wp_step. apply wp_declare. intros [e|] w5 Hc5 He Hdc.
  { apply (wp_give_back_acquired _ _ _ _ w2); [by apply (acquired_calls _ _ _ w4)|].
    intros w' Hg. apply Hgive; [done|congruence]. }
  pose proof (acquired_calls _ _ _ _ _ Ha4 Hc5) as Ha5.
  wp_step. apply wp_call; [done..|]. intros [e|] w6 Hc6 Hin; simpl;
    pose proof (acquired_calls _ _ _ _ _ Ha5 Hc6) as Ha6.
  { apply (wp_give_back_acquired _ _ _ _ w2); [done|]. intros w' Hg. by apply Hgive. }
  destruct Ha6 as [Ho6 Hf6]. wp_step. unfold wp at 1, put_publisher. wp_step.
  assert (publishConn (w_broker w6) = None ∧ publishChannel (w_broker w6) = None) as [Hp Hp'].
  { unfold fields in Hf6. split; congruence. }
  assert (CallDeclare ch queueName true None ∈ b_log (w_broker w6)) as Hdc6.
  { destruct Hc6 as (_&_&_&_& l & -> & _). rewrite elem_of_app. left. by apply Hdc. }
  apply HQ; [by apply owned_put_publisher| |by eexists|done].
  rewrite <- Hf2, <- (fields_consumer _ _ Hf6). done.
Qed.

(** The last call made sent the encoded event, as a persistent message with the
    event's id, to the queue, without an error; before that the client had put the
    channel in confirm mode and declared the queue durable on it, without an
    error; and the broker's answer to the message was an acknowledgement. *)
Definition acknowledged (event : Event) (w' : World) : Prop :=
  ∃ ch l now body, marshal_event event = inr body
    ∧ b_log (w_broker w') = l ++ [CallPublish ch "" queueName
        (mkAmqpPublishing "application/json" amqp_Persistent (Event_ID event) now body) None]
    ∧ CallConfirm ch None ∈ l ∧ CallDeclare ch queueName true None ∈ l
    ∧ amqp_wait (Nat.pred (w_tick w')) = inr true.

Lemma wp_publish event Q w :
  owned [] [] (w_broker w) →
  (∀ r w', owned [] [] (w_broker w') → consumer_fields w' = consumer_fields w →
     (r = None → acknowledged event w') → r ≠ Some nil_dereference → Q r w') →
  wp (publish event) Q w.
Proof.
  intros Ho HQ. unfold publish. destruct (marshal_event event) as [e|body] eqn:Hbody; [wp_step; by apply HQ|].
  wp_step. apply wp_ensurePublisher; [done|]. intros [e|] w1 Ho1 Hf1 Hc1 He1; [by wp_step; apply HQ|].
  destruct (Hc1 eq_refl) as (ch & Hch & Hcf & Hdc). wp_step. unfold wp at 1, get_broker. simpl. rewrite Hch.
  do 2 wp_step. set (msg := mkAmqpPublishing _ _ _ _ _).
  set (w2 := (amqp_call amqp_publish (CallPublish ch "" queueName msg) (tick w1)).2).
  assert (calls (tick w1) w2) as Hc2 by by apply amqp_call_calls.
  assert (owned [] [] (w_broker w2)) as Ho2 by by apply (owned_calls _ _ (tick w1)).
  assert (consumer_fields w2 = consumer_fields w) as Hf2 by done.
  assert (∀ e w', w_broker w' = w_broker w2 → e ≠ nil_dereference →
    wp (invalidatePublisherLocked;; mret (Some e)) Q w') as Hinv.
  { intros e w' Hw' Hne. wp_step. apply wp_invalidate; [by rewrite Hw'|]. intros w3 ??? Hf3. wp_step.
    apply HQ; [done| |done|congruence]. rewrite Hf3, <- Hf2. unfold consumer_fields. by rewrite Hw'. }
  wp_step. unfold wp at 1. destruct (amqp_call _ _ (tick w1)).1 as [e|] eqn:Hsent; [by apply Hinv|].
  apply fmap_None in Hsent. fold w2.
  wp_step. unfold wp at 1, oracle. simpl. destruct (amqp_has_confirmation _); simpl; [|by apply Hinv].
  wp_step. unfold wp at 1. destruct (amqp_wait _) as [e|[]] eqn:Hw; simpl; [by apply Hinv| |by wp_step; apply HQ].
  wp_step. apply HQ; [done|done| |done]. intros _.
  exists ch, (b_log (w_broker w1)), (env_clock (w_tick w1)), body. split_and!; [done| |done..].
  simpl in Hsent. simpl. by rewrite Hsent.
Qed.

(** A connection, a channel and a consumer, or nothing. *)
Lemma wp_openConsumer workerCount Q w :
  owned [] [] (w_broker w) →
  (∀ e w', gave_up w w' → Q (Err e) w') →
  (∀ c ch w', acquired w c ch w' → CallQos ch workerCount None ∈ b_log (w_broker w') → Q (Ok (c, ch)) w') →
  wp (openConsumer workerCount) Q w.
Proof.
  intros Ho He Hok. unfold openConsumer.
  wp_step. apply wp_dial; [done|by intros e w' ?; wp_step; apply He|]. intros c w1 Hd1.
  wp_step. apply (wp_channel c _ w); [done| |].
  { intros e w2 Hd2. wp_step. unfold wp at 1. wp_step. apply He. by apply connection_Close_gives_up. }
  intros ch w2 Ha2. wp_step. apply wp_declare. intros o w3 Hc3 _ _.
  pose proof (acquired_calls _ _ _ _ _ Ha2 Hc3) as Ha3.
  destruct o as [e|]; simpl; [by eapply wp_give_back_acquired; [exact Ha3|apply He]|].
  wp_step. apply wp_call; [done..|]. intros o w4 Hc4 Hin4. pose proof (acquired_calls _ _ _ _ _ Ha3 Hc4) as Ha4.
  destruct o as [e|]; simpl; [by eapply wp_give_back_acquired; [exact Ha4|apply He]|].
  wp_step. apply wp_call; [done..|]. intros o w5 Hc5 _. pose proof (acquired_calls _ _ _ _ _ Ha4 Hc5) as Ha5.
  destruct o as [e|]; simpl; [by eapply wp_give_back_acquired; [exact Ha5|apply He]|].
  wp_step. apply Hok; [done|]. destruct Hc5 as (_&_&_&_& l & -> & _). set_solver.
Qed.

(** The consumer's pointers in each state of its goroutine. *)
Definition consumer_ok (st : ConsumerState) (w : World) : Prop :=
  match st with
  | Connecting => consumer_fields w = (None, None)
  | Forwarding c ch => consumer_fields w = (Some c, Some ch)
  | Returned => True
  end.

Lemma owned_set_consumer c ch w :
  owned [c] [ch] (w_broker w) → consumer_fields w = (None, None) →
  owned [] [] (w_broker (set_consumer (Some c) (Some ch) w)).
Proof.
  intros [H1 H2 H3] [= Hn1 Hn2]. constructor; simpl; [| |done].
  - intros c' Hc'. destruct (H1 c' Hc') as [->%list_elem_of_singleton|[?|[?|?]]]; [auto|auto|congruence|auto].
  - intros p c' Hc'. destruct (H2 p c' Hc') as [->%list_elem_of_singleton|[?|[?|?]]]; [auto|auto|congruence|auto].
Qed.

Lemma owned_clear_consumer c ch w :
  owned [] [] (w_broker w) → consumer_fields w = (Some c, Some ch) →
  owned [c] [ch] (w_broker (set_consumer None None w)).
Proof.
  intros [H1 H2 H3] [= Hn1 Hn2]. constructor; simpl; [| |done].
  - intros c' Hc'. destruct (H1 c' Hc') as [?%elem_of_nil|[?|[?|?]]]; [done|auto| |auto].
    left. set_solver.
  - intros p c' Hc'. destruct (H2 p c' Hc') as [?%elem_of_nil|[?|[?|?]]]; [done|auto| |auto].
    left. set_solver.
Qed.

Lemma wp_clearConsumer c ch Q w :
  consumer_fields w = (Some c, Some ch) → Q tt (set_consumer None None w) →
  wp (clearConsumer c ch) Q w.
Proof.
  intros [= Hc Hch] HQ. unfold clearConsumer. wp_step. unfold wp at 1, get_broker. simpl.
  rewrite Hc, Hch, !bool_decide_true by done. done.
Qed.

Lemma wp_consume_step workerCount turn st Q w :
  owned [] [] (w_broker w) → consumer_ok st w →
  (∀ r w', owned [] [] (w_broker w') → consumer_ok r.2 w' → Q r w') →
  wp (consume_step workerCount turn st) Q w.
Proof.
  intros Ho Hst HQ. unfold consume_step. destruct st as [|c ch|]; [| |wp_step; by apply HQ].
  - destruct (turn_cancelled turn); [wp_step; by apply HQ|].
    wp_step. apply wp_openConsumer; [done| |].
    + intros e w' [Ho' Hf']. wp_step. apply HQ; [done|]. destruct (waitForRetry (turn_wait turn)); [|done].
      simpl in *. by rewrite (fields_consumer _ _ Hf').
    + intros c ch w' [Ho' Hf'] _. wp_step. unfold wp at 1, setConsumer, put_consumer. simpl. wp_step.
      apply HQ; [|done]. apply owned_set_consumer; [done|]. by rewrite (fields_consumer _ _ Hf').
  - destruct (forwardDeliveries (turn_selects turn)) as [handled []]; cbn [negb]; [|wp_step; by apply HQ].
    destruct (turn_cancelled turn); [wp_step; by apply HQ|].
    wp_step. apply wp_clearConsumer; [done|]. pose proof (owned_clear_consumer c ch w Ho Hst) as Ho1.
    wp_step. apply wp_closeChannel. intros _ w2 Hc2 Hr2. wp_step. apply wp_closeConnection.
    intros _ w3 Hc3 Hr3. wp_step. apply HQ.
    + apply (owned_release_conn c); [by apply Hr3|]. apply (owned_calls _ _ w2); [done|].
      apply (owned_release_chan ch); [by apply Hr2|]. by apply (owned_calls _ _ _ _ Hc2).
    + simpl. destruct (waitForRetry (turn_wait turn)); [|done]. simpl.
      by rewrite (fields_consumer _ _ (calls_fields _ _ Hc3)), (fields_consumer _ _ (calls_fields _ _ Hc2)).
Qed.

Lemma wp_consumeLoop workerCount acts st Q w :
  owned [] [] (w_broker w) → consumer_ok st w →
  (∀ r w', owned [] [] (w_broker w') → consumer_ok r.2 w' → Q r w') →
  wp (consumeLoop workerCount acts st) Q w.
Proof.
  revert st Q w. induction acts as [|[turn|event] acts IH]; intros st Q w Ho Hst HQ; simpl.
  - wp_step. by apply HQ.
  - wp_step. apply wp_consume_step; [done..|]. intros [handled st'] w1 Ho1 Hst1.
    wp_step. apply IH; [done..|]. intros [rest st''] w2 Ho2 Hst2. wp_step. by apply HQ.
  - wp_step. apply wp_publish; [done|]. intros r w1 Ho1 Hf1 _ _. apply IH; [done| |done].
    destruct st; simpl in *; by rewrite ?Hf1.
Qed.

(** Nothing is held and nothing is open. *)
Definition all_released (b : Broker) : Prop :=
  (publishConn b = None ∧ publishChannel b = None ∧ consumerConn b = None ∧ consumerChannel b = None)
  ∧ (∀ c, CallDial c ∈ b_log b → released_conn c b)
  ∧ (∀ p ch, CallChannel p ch ∈ b_log b → released_chan ch b).

Lemma wp_Close Q w :
  owned [] [] (w_broker w) → (∀ r w', all_released (w_broker w') → Q r w') → wp Close Q w.
Proof.
  intros [H1 H2 _] HQ. unfold Close. wp_step. unfold wp at 1, get_broker. cbn [fst snd].
  wp_step. unfold wp at 1, put_consumer. wp_step. unfold wp at 1, put_publisher. cbn [fst snd].
  set (w1 := set_publisher None None _).
  wp_step. apply wp_closeChannel. intros ? w2 Hc2 Hr2. wp_step. apply wp_closeConnection. intros ? w3 Hc3 Hr3.
  wp_step. apply wp_closeChannel. intros ? w4 Hc4 Hr4. wp_step. apply wp_closeConnection. intros ? w5 Hc5 Hr5.
  wp_step. apply HQ.
  assert (calls w1 w5) as Hall by (do 3 (etrans; [eassumption|]); done).
  pose proof (calls_fields _ _ Hall) as [= Hf1 Hf2 Hf3 Hf4].
  split; [by rewrite Hf1, Hf2, Hf3, Hf4|].
  pose proof Hall as (_&_&_&_& l & Hl & Hd & Hch). split.
  - intros c Hc. rewrite Hl in Hc. apply elem_of_app in Hc as [Hc|Hc]; [|by destruct (Hd c)].
    destruct (H1 c Hc) as [?%elem_of_nil|[?|[?|?]]]; [done|by apply Hr5| |].
    + by apply (released_conn_calls _ _ _ Hc5), (released_conn_calls _ _ _ Hc4), Hr3.
    + by apply (released_conn_calls _ _ _ Hall).
  - intros p ch Hc. rewrite Hl in Hc. apply elem_of_app in Hc as [Hc|Hc]; [|by destruct (Hch p ch)].
    destruct (H2 p ch Hc) as [?%elem_of_nil|[?|[?|?]]]; [done| | |].
    + by apply (released_chan_calls _ _ _ Hc5), Hr4.
    + by apply (released_chan_calls _ _ _ Hc5), (released_chan_calls _ _ _ Hc4),
        (released_chan_calls _ _ _ Hc3), Hr2.
    + by apply (released_chan_calls _ _ _ Hall).
Qed.

Lemma owned_no_broker : owned [] [] no_broker.
Proof. constructor; set_solver. Qed.

Lemma consumeLoop_owned workerCount acts w :
  w_broker w = no_broker → owned [] [] (w_broker (consumeLoop workerCount acts Connecting w).2).
Proof.
  intros Hw. change (wp (consumeLoop workerCount acts Connecting) (λ _ w', owned [] [] (w_broker w')) w).
  apply wp_consumeLoop; [rewrite Hw; apply owned_no_broker| |done].
  by unfold consumer_ok, consumer_fields; rewrite Hw.
Qed.

(** ** The properties *)

(** C24: connections and channels are never lost: whatever the broker answers,
    however publications and the turns of consumeLoop interleave, every
    connection ever dialled and every channel ever opened is the one the
    publisher or the consumer holds, or has been closed (or was seen closed);
    and Close, at any point, releases all of them and clears the pointers. *)
Theorem connections_never_lost workerCount acts w :
  w_broker w = no_broker →
  let w1 := (consumeLoop workerCount acts Connecting w).2 in
  (∀ c, CallDial c ∈ b_log (w_broker w1) →
     publishConn (w_broker w1) = Some c ∨ consumerConn (w_broker w1) = Some c ∨ released_conn c (w_broker w1))
  ∧ (∀ p ch, CallChannel p ch ∈ b_log (w_broker w1) →
     publishChannel (w_broker w1) = Some ch ∨ consumerChannel (w_broker w1) = Some ch
     ∨ released_chan ch (w_broker w1))
  ∧ all_released (w_broker (Close w1).2).
Proof.
  intros Hw w1. assert (owned [] [] (w_broker w1)) as Ho by by apply consumeLoop_owned.
  split_and!.
  - intros c Hc. destruct (ow_conn _ _ _ Ho c Hc) as [?%elem_of_nil|?]; [done|tauto].
  - intros p ch Hc. destruct (ow_chan _ _ _ Ho p ch Hc) as [?%elem_of_nil|?]; [done|tauto].
  - change (wp Close (λ _ w', all_released (w_broker w')) w1). by apply wp_Close.
Qed.

(** C23: publish returns nil only for an event the broker has acknowledged:
    whatever happened before on the queue, a nil answer means that the last call
    sent the encoded event as a persistent message to the queue and was accepted
    by the client, that Confirm and the declaration of the durable queue had
    succeeded on its channel, and that the broker's answer to the message was a
    positive confirmation; and publish never uses a nil channel. *)
Theorem publish_nil_is_acknowledged workerCount acts event w :
  w_broker w = no_broker →
  let w1 := (consumeLoop workerCount acts Connecting w).2 in
  ((publish event w1).1 = None → acknowledged event (publish event w1).2)
  ∧ (publish event w1).1 ≠ Some nil_dereference.
Proof.
  intros Hw w1.
  change (wp (publish event) (λ r w', (r = None → acknowledged event w') ∧ r ≠ Some nil_dereference) w1).
  apply wp_publish; [by apply consumeLoop_owned|done].
Qed.

End Owned.

(** ** Forwarding *)

Section Forwarding.
Context `{A : Amqp}.

Definition select_tag (s : Selected) : option Z :=
  match s with SelectDelivery tag _ _ => Some tag | _ => None end.

Definition handoff_tag (h : Handoff) : Z :=
  match h with Forwarded tag _ | Rejected tag | Requeued tag => tag end.

(** What a delivery deserves: the event it holds goes to the workers, or back to
    the queue when they do not take it; what does not decode is dropped. *)
Definition handoff (s : Selected) : option Handoff :=
  match s with
  | SelectDelivery tag body taken => Some
      match unmarshal_event body with
      | None => Rejected tag
      | Some event => if taken then Forwarded tag event else Requeued tag
      end
  | _ => None
  end.

(** The loop returns. *)
Definition stops (s : Selected) : Prop :=
  match handoff s with None | Some (Requeued _) => True | _ => False end.

Lemma handoff_tags (l : list Selected) : handoff_tag <$> omap handoff l = omap select_tag l.
Proof.
  induction l as [|[| |tag body taken] l IH]; [done|done|done|]. csimpl. rewrite IH. f_equal.
  by repeat case_match.
Qed.

Lemma stops_dec s : stops s ∨ ¬ stops s.
Proof. unfold stops. repeat case_match; tauto. Qed.

Lemma forwardDeliveries_stop s selects :
  stops s → forwardDeliveries (s :: selects) = (omap handoff [s], true).
Proof.
  unfold stops. destruct s as [| |tag body tk]; simpl; [done|done|].
  by destruct (unmarshal_event body) as [ev|]; [destruct tk|].
Qed.

Lemma forwardDeliveries_go s selects :
  ¬ stops s → forwardDeliveries (s :: selects)
  = (omap handoff [s] ++ (forwardDeliveries selects).1, (forwardDeliveries selects).2).
Proof.
  unfold stops. destruct s as [| |tag body tk]; simpl; [tauto|tauto|].
  destruct (forwardDeliveries selects).
  by destruct (unmarshal_event body) as [ev|]; [destruct tk; [|tauto]|].
Qed.

(** C25: every delivery taken from the broker is handed over exactly once and in
    order: it goes to the workers as the event it decodes to, it is rejected when
    it does not decode, or it is returned to the queue; the loop goes on until the
    context is done, the broker closes the stream, or a delivery had to be
    returned, and takes nothing after that. *)
Theorem forwardDeliveries_exactly_once selects :
  ∃ taken left : list Selected, selects = taken ++ left
    ∧ (forwardDeliveries selects).1 = omap handoff taken
    ∧ handoff_tag <$> (forwardDeliveries selects).1 = omap select_tag taken
    ∧ if (forwardDeliveries selects).2
      then ∃ front last, taken = front ++ [last] ∧ stops last ∧ Forall (λ s, ¬ stops s) front
      else left = [] ∧ Forall (λ s, ¬ stops s) taken.
Proof.
  induction selects as [|s selects (taken & left & Hs & Hh & Ht & Hend)]; [by exists [], []|].
  destruct (stops_dec s) as [Hst|Hst].
  - rewrite (forwardDeliveries_stop _ _ Hst). exists [s], selects.
    split_and!; [done|done|apply handoff_tags|]. exists [], s. by split_and!.
  - rewrite (forwardDeliveries_go _ _ Hst). exists (s :: taken), left.
    assert (omap handoff [s] ++ (forwardDeliveries selects).1 = omap handoff (s :: taken)) as Hsh
      by by rewrite Hh, <- (omap_app _ [s] taken).
    split_and!; [by rewrite Hs|exact Hsh|cbn [fst]; rewrite Hsh; apply handoff_tags|]. cbn [snd].
    destruct (forwardDeliveries selects).2.
    + destruct Hend as (front & lst & -> & ? & ?). exists (s :: front), lst. split_and!; [done..|by constructor].
    + destruct Hend as [-> ?]. split; [done|by constructor].
Qed.

End Forwarding.

(** ** A concrete broker *)

(** Every call succeeds but the [refused]-th, a broker that answers no to the
    connection attempt made there. *)
Definition simple_amqp (refused : nat) : Amqp := {|
  amqp_dial := λ n, if (n =? refused)%nat then Some "connection refused" else None;
  amqp_channel := λ _, None;
  amqp_declare := λ _, None;
  amqp_confirm := λ _, None;
  amqp_qos := λ _, None;
  amqp_consume := λ _, None;
  amqp_close := λ _, None;
  amqp_conn_closed := λ _ _, false;
  amqp_chan_closed := λ _ _, false;
  amqp_publish := λ _, None;
  amqp_has_confirmation := λ _, true;
  amqp_wait := λ _, inr true;
  queueName := "webhook.events";
  quoted_queue := String (ascii_of_nat 34) ("webhook.events" +:+ String (ascii_of_nat 34) "");
|}.

(** The consumer's first connection is refused, the second one is used and lost;
    meanwhile an event is published. *)
Definition acts_1 : list Activity :=
  [Consuming (mkTurn [] false Ticked); Publishing event_1; Consuming (mkTurn [] false Ticked);
   Consuming (mkTurn [SelectDelivery 1 (body_of event_1) true; SelectDelivery 2 "" true; SelectClosed] false Ticked)].

Definition is_dial (c : AmqpCall) : bool := match c with CallDial _ => true | _ => false end.

Lemma connections_never_lost_witness :
  let _ := calm_env 1000 in let _ := simple_amqp 0 in
  let w1 := (consumeLoop 3 acts_1 Connecting empty_world).2 in
  length (filter (λ c, is_dial c = true) (b_log (w_broker w1))) = 2
  ∧ all_released (w_broker (Close w1).2).
Proof.
  intros E A w1. split; [vm_compute; reflexivity|].
  exact (proj2 (proj2 (connections_never_lost (E := E) (A := A) 3 acts_1 empty_world eq_refl))).
Defined.

Lemma publish_nil_is_acknowledged_witness :
  let _ := calm_env 1000 in let _ := simple_amqp 0 in
  let w1 := (consumeLoop 3 acts_1 Connecting empty_world).2 in
  acknowledged event_2 (publish event_2 w1).2.
Proof.
  intros E A w1.
  apply (proj1 (publish_nil_is_acknowledged (E := E) (A := A) 3 acts_1 event_2 empty_world eq_refl)).
  vm_compute. reflexivity.
Defined.
