(* ===== verification/Steps.v ===== *)
(** * The dispatcher and the worker, one call at a time

    DispatchPending and handleDelivery cut at the calls that other goroutines
    can observe: the calls of the store, of the broker and of the processor.  A
    control point says where a goroutine is; a step runs the code up to the next
    control point.  Alone, a goroutine that steps to its end does exactly what
    the function of Outbox.v or Worker.v does. *)

From stdpp Require Import base gmap strings list pretty.
From Stdlib Require Import ZArith Lia Ascii.
From S2P Require Import Prelude GoLib Config Models Metrics Sql Database DbInvariant World Scenario.
From S2P Require Import EventStore StoreLogic StoreProps StoreOutbox Outbox DeadLetters Worker.

Open Scope go_scope.

(** [n] steps of a goroutine. *)
Fixpoint steps {T} (step : T → M T) (n : nat) (s : T) : M T :=
  match n with
  | O => mret s
  | S n => s' ← step s; steps step n s'
  end.

Lemma steps_add {T} (step : T → M T) n m s w :
  steps step (n + m) s w = steps step m (steps step n s w).1 (steps step n s w).2.
Proof.
  revert s w. induction n as [|n IH]; intros s w; simpl; [done|]. by rewrite !M_bind_run, IH.
Qed.

(** From [s] and [w] the goroutine gets to [s'] and [w']. *)
Definition gets_to {T} (step : T → M T) (s : T) (w : World) (s' : T) (w' : World) : Prop :=
  ∃ n, steps step n s w = (s', w').

Lemma gets_to_refl {T} (step : T → M T) s w : gets_to step s w s w.
Proof. by exists 0. Qed.

Lemma gets_to_step {T} (step : T → M T) s w s' w' :
  gets_to step (step s w).1 (step s w).2 s' w' → gets_to step s w s' w'.
Proof. intros [n Hn]. exists (S n). simpl. by rewrite M_bind_run. Qed.

Lemma gets_to_trans {T} (step : T → M T) s1 w1 s2 w2 s3 w3 :
  gets_to step s1 w1 s2 w2 → gets_to step s2 w2 s3 w3 → gets_to step s1 w1 s3 w3.
Proof. intros [n Hn] [m Hm]. exists (n + m). by rewrite steps_add, Hn. Qed.

(** ** The dispatcher *)

(** At the claim; before the publication of a message, with the rest of the
    batch; after its confirmation, before the row is marked; after a failed
    publication, before it is recorded; at the end of the round. *)
Inductive DispatchAt :=
| AtClaimOutbox
| AtPublish (m : OutboxMessage) (rest : list OutboxMessage)
| AtMarkPublished (m : OutboxMessage) (rest : list OutboxMessage)
| AtMarkOutboxFailed (m : OutboxMessage) (e : GoError)
| AtRoundEnd (r : option GoError).

Definition next_message (msgs : list OutboxMessage) : DispatchAt :=
  match msgs with [] => AtRoundEnd None | m :: rest => AtPublish m rest end.

Section DispatchSteps.
Context `{E : Env} `{C : JsonCodec} `{P : EventPublisher} (d : OutboxDispatcher) (ctx : Ctx).

Definition dispatch_step (at_ : DispatchAt) : M DispatchAt :=
  match at_ with
  | AtClaimOutbox =>
      messages ←! ClaimPendingOutbox ctx (batchSize d) (dispatchLease d)
        orelse (λ e, mret (AtRoundEnd (Some e)));
      mret (next_message messages)
  | AtPublish m rest =>
      err ← Publish ctx (Message_Event m);
      match err with
      | Some e => mret (AtMarkOutboxFailed m e)
      | None => mret (AtMarkPublished m rest)
      end
  | AtMarkPublished m rest =>
      check MarkOutboxPublished ctx m orelse (λ e, mret (AtRoundEnd (Some e)));
      inc_metric EventsQueued;;
      mret (next_message rest)
  | AtMarkOutboxFailed m e =>
      _ ← MarkOutboxFailed Background m e;
      mret (AtRoundEnd None)
  | AtRoundEnd r => mret (AtRoundEnd r)
  end.

Lemma dispatch_messages_steps msgs w :
  gets_to dispatch_step (next_message msgs) w
    (AtRoundEnd (dispatch_messages ctx msgs w).1) (dispatch_messages ctx msgs w).2.
Proof.
  revert w. induction msgs as [|m msgs IH]; intros w; simpl; [apply gets_to_refl|].
  apply gets_to_step. simpl. rewrite !M_bind_run.
  destruct (Publish ctx (Message_Event m) w).1 as [e|]; simpl; apply gets_to_step; simpl.
  - rewrite !M_bind_run. apply gets_to_refl.
  - unfold M_check. rewrite !M_bind_run.
    destruct (MarkOutboxPublished ctx m _).1; simpl; [apply gets_to_refl|].
    rewrite !M_bind_run. apply IH.
Qed.

(** A dispatcher alone: stepping from the claim to the end of the round
    takes finitely many steps and ends with the answer and the state of
    DispatchPending. *)
Theorem dispatch_steps_agree w :
  gets_to dispatch_step AtClaimOutbox w
    (AtRoundEnd (DispatchPending d ctx w).1) (DispatchPending d ctx w).2.
Proof.
  apply gets_to_step. simpl. unfold DispatchPending, M_try. rewrite !M_bind_run.
  destruct (ClaimPendingOutbox _ _ _ w).1; simpl; [apply dispatch_messages_steps|apply gets_to_refl].
Qed.

End DispatchSteps.

(** ** The worker *)

Inductive Settlement := SettleAck | SettleRequeue | SettleDrop.

(** At the processing claim; waiting because the event is in progress elsewhere;
    before an attempt; after a success, before the event is marked; after the
    last failure, before the dead letter is stored, then before the event is
    marked; before the settlement; at the end. *)
Inductive WorkAt :=
| AtClaimEvent
| AtWait
| AtAttempt (attempt : Z)
| AtMarkProcessed (attempt : Z)
| AtDeadLetter (attempt : Z) (e : GoError)
| AtMarkFailed (attempt : Z) (e : GoError)
| AtSettle (s : Settlement)
| AtHandled.

Section WorkSteps.
Context `{E : Env} `{C : JsonCodec} `{R : DeadLetterRepository}.
Context (workerID : Z) (config : Config) (processor : eventProcessor) (sleep : Z → M unit).
Context (delivery : EventDelivery).

Let event : Event := Delivery_Event delivery.
Let maxAttempts : Z := wrap64 (MaxRetries config + 1).

Definition settle (s : Settlement) : M unit :=
  match s with
  | SettleAck => ackDelivery delivery
  | SettleRequeue => nackDelivery delivery true
  | SettleDrop => nackDelivery delivery false
  end.

Definition work_step (at_ : WorkAt) : M WorkAt :=
  match at_ with
  | AtClaimEvent =>
      claim ← ClaimForProcessing Background (Event_ID event) (ProcessingLease config);
      match claim with
      | (_, Some _) => mret (AtSettle SettleRequeue)
      | (EventClaimFinal, None) => inc_metric EventsSkippedDuplicate;; mret (AtSettle SettleAck)
      | (EventClaimInProgress, None) => mret AtWait
      | (EventClaimMissing, None) => mret (AtSettle SettleDrop)
      | (EventClaimed, None) => mret (AtAttempt 1)
      end
  | AtWait => sleep (ProcessingRequeueDelay config);; mret (AtSettle SettleRequeue)
  | AtAttempt attempt =>
      if (attempt <=? maxAttempts)%Z then
        startedAt ← time_now;
        err ← processor workerID event;
        now ← time_now;
        observe_duration (time_since startedAt now);;
        match err with
        | None => inc_metric EventsProcessed;; mret (AtMarkProcessed attempt)
        | Some err =>
            if (attempt =? maxAttempts)%Z
            then inc_metric EventsFailedPermanent;; mret (AtDeadLetter attempt err)
            else
              inc_metric EventRetries;;
              sleep (RetryBackoff config attempt);;
              mret (AtAttempt (wrap64 (attempt + 1)))
        end
      else mret (AtSettle SettleRequeue)
  | AtMarkProcessed attempt =>
      check MarkProcessed Background (Event_ID event) attempt orelse (λ _, mret (AtSettle SettleRequeue));
      mret (AtSettle SettleAck)
  | AtDeadLetter attempt err =>
      check Repo_Add Background event err attempt orelse (λ _, mret (AtSettle SettleRequeue));
      mret (AtMarkFailed attempt err)
  | AtMarkFailed attempt err =>
      check MarkFailed Background (Event_ID event) attempt err
        orelse (λ _, mret (AtSettle SettleRequeue));
      mret (AtSettle SettleAck)
  | AtSettle s => settle s;; mret AtHandled
  | AtHandled => mret AtHandled
  end.

(** What the worker does with the outcome of the retry loop. *)
Definition settlement_of (outcome : bool * bool) : Settlement :=
  if snd outcome then SettleAck else SettleRequeue.

Ltac one_step := apply gets_to_step; simpl; unfold M_check; rewrite ?M_bind_run.

Lemma retry_loop_steps fuel a w :
  (maxAttempts < a + Z.of_nat fuel)%Z → (1 ≤ a)%Z →
  let r := retry_loop workerID config processor sleep fuel event maxAttempts a w in
  gets_to work_step (AtAttempt a) w (AtSettle (settlement_of r.1)) r.2.
Proof.
  revert a w. induction fuel as [|fuel IH]; intros a w Hfuel Ha; simpl.
  - one_step. replace (a <=? maxAttempts)%Z with false by (symmetry; apply Z.leb_gt; lia).
    apply gets_to_refl.
  - one_step. destruct (a <=? maxAttempts)%Z eqn:Hle; [|apply gets_to_refl].
    rewrite ?M_bind_run. simpl. rewrite ?M_bind_run. simpl. rewrite ?M_bind_run. simpl.
    destruct (processor workerID event (tick w)).1 as [err|]; simpl.
    + destruct (a =? maxAttempts)%Z eqn:Heq; rewrite ?M_bind_run; simpl.
      * one_step. unfold M_check. rewrite ?M_bind_run.
        destruct (Repo_Add Background event err a _).1; [apply gets_to_refl|].
        simpl. one_step. rewrite ?M_bind_run. destruct (MarkFailed _ _ _ _ _).1; apply gets_to_refl.
      * rewrite ?M_bind_run. simpl.
        assert (wrap64 (a + 1) = a + 1)%Z as ->.
        { apply wrap64_id. unfold in_int64.
          assert (in_int64 maxAttempts) as Hm by apply wrap64_range. unfold in_int64 in Hm.
          unfold int64_min, int64_max in *. lia. }
        apply IH; lia.
    + rewrite ?M_bind_run. simpl. one_step. unfold M_check. rewrite ?M_bind_run.
      destruct (MarkProcessed _ _ _ _).1; apply gets_to_refl.
Qed.

Lemma settle_steps s w : gets_to work_step (AtSettle s) w AtHandled (settle s w).2.
Proof. one_step. apply gets_to_refl. Qed.

(** A worker alone: stepping from the processing claim takes finitely many
    steps to the end, with the state handleDelivery ends in, whatever the
    database, the processor, the dead letter repository and the broker answer. *)
Theorem work_steps_agree w :
  gets_to work_step AtClaimEvent w AtHandled
    (handleDelivery workerID config processor sleep delivery w).2.
Proof.
  one_step. unfold handleDelivery. rewrite M_bind_run. fold event.
  destruct (ClaimForProcessing _ _ _ w) as [[[] [e|]] w1]; simpl; try apply settle_steps.
  - rewrite M_bind_run. unfold processEventWithRetry. fold maxAttempts.
    set (r := retry_loop _ _ _ _ _ _ _ _ _).
    eapply gets_to_trans; [apply (retry_loop_steps (S (Z.to_nat maxAttempts))); lia|]. fold r.
    destruct r as [[ok []] w2]; apply settle_steps.
  - one_step. rewrite ?M_bind_run. apply settle_steps.
Qed.

End WorkSteps.
