(* ===== verification/System.v ===== *)
(** * The service as a whole

    Dispatchers, workers, and the clients of the store (HTTP, command line,
    scheduler) interleaved at their calls, with the broker's queue between them
    and crashes anywhere.  The invariant is at-least-once processing: an event
    that has not reached a terminal state is still to be dispatched, or a copy
    of it is in the broker or with a worker that has not given it up, except
    after a replay over a confirmation that its dispatcher has not recorded; the
    last run of the file loses an event that way. *)

From stdpp Require Import base gmap strings list pretty.
From Stdlib Require Import ZArith Lia Ascii.
From S2P Require Import Prelude GoLib Config Models Metrics Sql Database DbInvariant World Scenario.
From S2P Require Import EventStore StoreLogic StoreProps StoreOutbox StoreProcessing StoreDead Recovery Outbox.
From S2P Require Import DeadLetters Worker Steps.

Open Scope go_scope.

(** ** What the tables say of an event *)

Definition is_final (e : EventRow) : Prop :=
  e_status e = EventStatusProcessed ∨ e_status e = EventStatusFailed.

#[export] Instance is_final_dec e : Decision (is_final e).
Proof. unfold is_final. apply _. Defined.

(** In a terminal state; accepted and not in one; to be dispatched. *)
Definition finished (id : string) (db : Database) : Prop :=
  ∃ e, events db !! id = Some e ∧ is_final e.
Definition unfinished (id : string) (db : Database) : Prop :=
  ∃ e, events db !! id = Some e ∧ ¬ is_final e.
Definition undelivered (id : string) (db : Database) : Prop :=
  ∃ i r, outbox db !! i = Some r ∧ o_event_id r = id ∧ o_published_at r = None.

Definition failed (id : string) (db : Database) : Prop :=
  ∃ e, events db !! id = Some e ∧ e_status e = EventStatusFailed.
Definition has_dead_letter (id : string) (db : Database) : Prop := is_Some (dead_letters db !! id).

#[export] Instance failed_dec id db : Decision (failed id db).
Proof.
  destruct (events db !! id) as [e|] eqn:He.
  - destruct (decide (e_status e = EventStatusFailed)) as [Hs|Hs]; [left; by exists e|right].
    intros (e' & He' & Hs'). by simplify_eq.
  - right. intros (e & He' & _). congruence.
Defined.

(** Outbox rows and dead letters stay, nothing becomes published, nothing leaves
    a terminal state, what is unfinished was so before or is to be dispatched,
    and what has failed had failed before or has a dead letter. *)
Record calm (db db' : Database) : Prop := {
  cm_grows : outbox_grows db db';
  cm_unfinished : ∀ id, unfinished id db' → unfinished id db ∨ undelivered id db';
  cm_undelivered : ∀ id, undelivered id db → undelivered id db';
  cm_finished : ∀ id, finished id db → finished id db';
  cm_failed : ∀ id, failed id db' → failed id db ∨ has_dead_letter id db';
  cm_dead : ∀ id, has_dead_letter id db → has_dead_letter id db';
}.

#[export] Instance calm_preorder : PreOrder calm.
Proof.
  split.
  - intros db. split; auto. done.
  - intros a b c [g1 u1 d1 f1 b1 e1] [g2 u2 d2 f2 b2 e2]. split; [by etrans|..]; [|by auto|by auto| |by auto].
    + intros id Hc. destruct (u2 id Hc) as [Hb|]; [|by right]. destruct (u1 id Hb); auto.
    + intros id Hc. destruct (b2 id Hc) as [Hb|]; [|by right]. destruct (b1 id Hb); auto.
Qed.

Lemma calm_same db db' :
  events db' = events db → outbox db' = outbox db →
  (∀ id, has_dead_letter id db → has_dead_letter id db') → calm db db'.
Proof.
  intros He Ho Hd. split; unfold unfinished, undelivered, finished, failed; rewrite ?He, ?Ho; auto.
  intros i r Hr. rewrite Ho. eauto.
Qed.

(** Some rows of the dead letters change. *)
Lemma calm_dead P f db : calm db (update_dead_letters P (λ r, Some (f r)) db).2.
Proof.
  rewrite update_dead_letters_total. apply calm_same; [done..|]. intros id. unfold has_dead_letter. simpl.
  rewrite lookup_set_where. intros [d ->]. by eexists.
Qed.

(** Rows of the outbox change in their token, attempts and errors only. *)
Lemma calm_outbox P f db :
  (∀ r, o_event_id (f r) = o_event_id r ∧ o_published_at (f r) = o_published_at r) →
  calm db (set_outbox (set_where P f (outbox db)) db).
Proof.
  intros Hf. split; [apply set_where_grows; apply Hf|by auto| |by auto..].
  intros id (i & r & Hr & Hid & Hp). exists i. simpl. rewrite lookup_set_where, Hr. simpl.
  eexists. split; [done|]. destruct (Hf r), (P i r); split; congruence.
Qed.

(** Rows of events change without leaving a terminal state, and fail only with a
    dead letter. *)
Lemma calm_events P f db :
  (∀ k r r', P k r = true → f r = Some r' → (is_final r → is_final r')
     ∧ (e_status r' = EventStatusFailed → e_status r = EventStatusFailed ∨ has_dead_letter k db)) →
  calm db (update_events P f db).2.
Proof.
  intros Hf. unfold update_events. destruct (update_where P f (events db)) as [[n t]|] eqn:Eu; [|done].
  apply update_where_some in Eu as (_ & -> & Hdef). simpl.
  assert (∀ k e', set_where P (λ r, default r (f r)) (events db) !! k = Some e' →
    ∃ e, events db !! k = Some e ∧ (is_final e → is_final e')
      ∧ (e_status e' = EventStatusFailed → e_status e = EventStatusFailed ∨ has_dead_letter k db)) as Hrow.
  { intros k e'. rewrite lookup_set_where. destruct (events db !! k) as [e|] eqn:Ek; [|done].
    intros [= <-]. exists e. split; [done|]. destruct (P k e) eqn:EP; [|by auto].
    destruct (Hdef _ _ Ek EP) as [r' Hr']. rewrite Hr'. by eapply Hf. }
  split; [by intros i r Hr; eauto| |by auto| | |by auto].
  - intros id (e' & He' & Hn). left. destruct (Hrow _ _ He') as (e & He & Hfin & _). exists e. tauto.
  - intros id (e & He & Hfin). simpl.
    destruct (set_where P (λ r, default r (f r)) (events db) !! id) as [e'|] eqn:He'.
    + destruct (Hrow _ _ He') as (e0 & He0 & Himp & _). simplify_eq. exists e'. auto.
    + rewrite lookup_set_where, He in He'. done.
  - intros id (e' & He' & Hs). destruct (Hrow _ _ He') as (e & He & _ & Hfail).
    destruct (Hfail Hs); [left; by exists e|by right].
Qed.

(** ** The store calls *)

Section Calls.
Context `{E : Env} `{C : JsonCodec}.

Lemma calm_claim_outbox ctx limit lease : evolves calm (ClaimPendingOutbox ctx limit lease).
Proof.
  unfold ClaimPendingOutbox, newOutboxDispatchToken. solve_evolves.
  unfold sql_claim_outbox. case_match; [done|]. by apply calm_outbox.
Qed.

Lemma calm_mark_outbox_failed ctx m e : evolves calm (MarkOutboxFailed ctx m e).
Proof.
  unfold MarkOutboxFailed. solve_evolves. unfold sql_mark_outbox_failed, update_outbox.
  destruct (update_where _ _ _) as [[k t]|] eqn:Eu; [|done].
  apply update_where_some in Eu as (_ & -> & _). apply calm_outbox.
  intros r. unfold publish_failed_row. by case_match.
Qed.

Lemma calm_claim_event ctx id lease : evolves calm (ClaimForProcessing ctx id lease).
Proof.
  unfold ClaimForProcessing. solve_evolves.
  - apply calm_events. intros k r r' HP [= <-]. split; [|done]. intros Hfin. exfalso. unfold processable in HP.
    rewrite !andb_true_iff, orb_true_iff, andb_true_iff, !bool_decide_eq_true in HP.
    destruct Hfin as [Hs|Hs], HP as [_ [HP|[HP _]]]; by rewrite Hs in HP.
  - done.
Qed.

Lemma calm_mark_processed ctx id n : evolves calm (MarkProcessed ctx id n).
Proof.
  unfold MarkProcessed. solve_evolves. unfold sql_mark_processed, sql_mark_final. case_match; [|done].
  apply calm_events. intros k r r' _ [= <-]. split; [by left|done].
Qed.

(** MarkFailed on an event that has its dead letter. *)
Definition calm_if (id : string) (db db' : Database) : Prop := has_dead_letter id db → calm db db'.

#[export] Instance calm_if_preorder id : PreOrder (calm_if id).
Proof.
  split; [by intros db _|]. intros a b c Hab Hbc Ha. pose proof (Hab Ha) as Hc.
  etrans; [exact Hc|]. by apply Hbc, (cm_dead _ _ Hc).
Qed.

Lemma calm_mark_failed ctx id n e : evolves (calm_if id) (MarkFailed ctx id n e).
Proof.
  unfold MarkFailed. solve_evolves. intros Hd. unfold sql_mark_failed, sql_mark_final. case_match; [|done].
  apply calm_events. intros k r r' Hk [= <-]. apply bool_decide_eq_true in Hk as ->. split; [by right|by right].
Qed.

Lemma calm_save_dead_letter ctx ev e n : evolves calm (SaveDeadLetter ctx ev e n).
Proof.
  unfold SaveDeadLetter. case_match; solve_evolves. unfold sql_save_dead_letter.
  case_match; [|done]. apply calm_same; [done..|]. intros id. unfold has_dead_letter. simpl.
  rewrite lookup_insert_is_Some'. by right.
Qed.

Lemma calm_save ctx ev w :
  w_tx w = None → db_wf (w_db w) → calm (w_db w) (w_db (SaveQueuedWithOutbox ctx ev w).2).
Proof.
  intros Htx Hwf. destruct (SaveQueuedWithOutbox_outcome ctx ev w Htx Hwf) as [_ Ho].
  assert (∀ p now, events (w_db w) !! Event_ID ev = None → calm (w_db w) (saved ev p now (w_db w))) as Hs.
  { intros p now Hnew. rewrite saved_eval by done.
    assert (∀ i r, outbox (w_db w) !! i = Some r → i ≠ outbox_seq (w_db w)) as Hid.
    { intros i r Hr ->. apply (wf_ids _ Hwf) in Hr. lia. }
    split.
    - intros i r Hr. exists r. simpl. rewrite lookup_insert_ne; [done|]. intros <-. by apply (Hid _ _ Hr).
    - intros id (e & He & Hn). simpl in He. destruct (decide (id = Event_ID ev)) as [->|Hne].
      + right. exists (outbox_seq (w_db w)). simpl. rewrite lookup_insert_eq. by eexists.
      + rewrite lookup_insert_ne in He by done. left. by exists e.
    - intros id (i & r & Hr & ? & ?). exists i, r. simpl. rewrite lookup_insert_ne; [done|].
      intros <-. by apply (Hid _ _ Hr).
    - intros id (e & He & Hf). exists e. simpl. rewrite lookup_insert_ne; [done|]. congruence.
    - intros id (e & He & Hs). simpl in He. apply lookup_insert_Some in He as [[<- <-]|[? He]]; [done|].
      left. by exists e.
    - done. }
  inversion Ho; simplify_eq; auto; by apply calm_same.
Qed.

(** A replay, committed or not: the one event that leaves a terminal state is to
    be dispatched again. *)
Lemma replay_revives ctx id w :
  w_tx w = None → db_inv (w_db w) →
  let db := w_db w in let db' := w_db (ReplayDeadLetter ctx id w).2 in
  outbox_grows db db'
  ∧ (∀ id', unfinished id' db' → unfinished id' db ∨ undelivered id' db')
  ∧ (∀ id', undelivered id' db → undelivered id' db')
  ∧ (∀ id', finished id' db → finished id' db' ∨ (id' = id ∧ failed id db ∧ ¬ failed id db'))
  ∧ (∀ id', failed id' db' → failed id' db)
  ∧ (∀ id', has_dead_letter id' db → has_dead_letter id' db')
  ∧ (failed id db → ¬ failed id db' → undelivered id db').
Proof.
  intros Htx Hinv db db'. destruct (ReplayDeadLetter_outcome ctx id w Htx) as [_ Ho]. fold db db' in Ho. clearbody db'.
  assert (∀ now e d, events db !! id = Some e → dead_letters db !! id = Some d →
    e_status e = EventStatusFailed → db' = replayed id e now db →
    outbox_grows db db' ∧ (∀ id', unfinished id' db' → unfinished id' db ∨ undelivered id' db')
    ∧ (∀ id', undelivered id' db → undelivered id' db')
    ∧ (∀ id', finished id' db → finished id' db' ∨ (id' = id ∧ failed id db ∧ ¬ failed id db'))
    ∧ (∀ id', failed id' db' → failed id' db)
    ∧ (∀ id', has_dead_letter id' db → has_dead_letter id' db')
    ∧ (failed id db → ¬ failed id db' → undelivered id db')) as Hrep.
  { intros now e d He Hd Hs ->. destruct (replayed_eval id e d now db Hinv He Hs Hd)
      as (i & r & Hr & Hid & _ & ->).
    assert (∀ j s, outbox db !! j = Some s → ∃ s', (<[i:=reopened_row r]> (outbox db)) !! j = Some s'
      ∧ o_event_id s' = o_event_id s ∧ (o_published_at s = None → o_published_at s' = None)) as Hrows.
    { intros j s Hsj. destruct (decide (j = i)) as [->|Hne].
      - rewrite lookup_insert_eq. eexists. split; [done|]. by simplify_eq.
      - rewrite lookup_insert_ne by done. by exists s. }
    split_and!.
    - intros j s Hsj. destruct (Hrows j s Hsj) as (s' & ? & ? & _). eauto.
    - intros id' (e' & He' & Hn). simpl in He'. destruct (decide (id' = id)) as [->|Hne].
      + right. exists i. simpl. rewrite lookup_insert_eq. by eexists.
      + rewrite lookup_insert_ne in He' by done. left. by exists e'.
    - intros id' (j & s & Hsj & Hid' & Hp). destruct (Hrows j s Hsj) as (s' & ? & ? & Hp').
      exists j, s'. split_and!; [done|congruence|auto].
    - intros id' (e' & He' & Hf). destruct (decide (id' = id)) as [->|Hne].
      + right. split_and!; [done|by exists e|]. intros (e2 & He2 & Hs2). simpl in He2.
        rewrite lookup_insert_eq in He2. by simplify_eq.
      + left. exists e'. simpl. by rewrite lookup_insert_ne.
    - intros id' (e' & He' & Hs'). simpl in He'. apply lookup_insert_Some in He' as [[<- <-]|[? He']]; [done|].
      by exists e'.
    - intros id' Hd'. unfold has_dead_letter. simpl. rewrite lookup_insert_is_Some'. by right.
    - intros _ _. exists i. simpl. rewrite lookup_insert_eq. by eexists. }
  inversion Ho as [now e d He Hd Hs Hr Hdb|now e d err He Hd Hs|Hnf|e d He Hd Hs|err seq H1 H2]; subst db'.
  1,2: by eapply Hrep.
  all: split_and!; [by intros i r Hr; eauto|by auto..].
Qed.

End Calls.

(** ** Clients of the store *)

(** The calls of the HTTP handlers, the command line and the scheduler. *)
Definition client_op (op : StoreOp) : bool :=
  match op with
  | OpSave _ _ | OpReplay _ _ | OpListPending _ _ | OpList _ _ | OpListDead _ _ | OpOperational _
  | OpClaimDead _ _ _ | OpClaimDeadDetails _ _ _ | OpReschedule _ _ _ | OpRescheduleDelay _ _ _ _ => true
  | _ => false
  end.

Lemma calm_client `{E : Env} `{C : JsonCodec} op w :
  client_op op = true → (∀ ctx id, op ≠ OpReplay ctx id) → w_tx w = None → db_wf (w_db w) →
  calm (w_db w) (w_db (run_op op w).2).
Proof.
  intros Hop Hnr Htx Hwf. destruct op; try done; simpl; unfold void; rewrite M_bind_run; simpl.
  1: by apply calm_save.
  3: by destruct (Hnr ctx id).
  all: match goal with x : World |- context [(?m ?x).2] =>
    let H := fresh in assert (evolves calm m) as H; [|by apply H] end.
  all: unfold ListPendingOutbox, List_, ClaimRetryableDeadLetters, ClaimRetryableDeadLetterDetails,
    RescheduleDeadLetterRetry, RescheduleDeadLetterRetryWithDelay, ListDeadLetters, OperationalMetrics.
  all: try case_match; solve_evolves.
  all: try apply calm_dead.
  6: done.
  all: unfold sql_list_pending_outbox, sql_list_events, sql_list_dead_letters, sql_claim_dead_letters;
    case_match; try done.
  all: apply calm_same; [done..|]; intros id; unfold has_dead_letter; simpl; rewrite lookup_set_where;
    intros [r ->]; by eexists.
Qed.

(** ** The system *)

(** The service and the broker: the shared state, the messages ready in the
    queue, the dispatchers, and the workers that hold a delivery.  The last field
    is a history variable that no step depends on: the events whose last replay
    was made while a dispatcher had a confirmation for them that it had not
    recorded yet. *)
Record System := mkSystem {
  sys_world : World;
  sys_ready : list Event;
  sys_dispatchers : list DispatchAt;
  sys_workers : list (Event * WorkAt);
  sys_early : gset string;
}.

Definition sys_db (s : System) : Database := w_db (sys_world s).

(** What a publication does to the queue: a confirmed message is in it; one whose
    confirmation failed may be. *)
Definition enqueued (from to : DispatchAt) (q q' : list Event) : Prop :=
  match from, to with
  | AtPublish m _, AtMarkPublished _ _ => q' = q ++ [Message_Event m]
  | AtPublish m _, AtMarkOutboxFailed _ _ => q' = q ∨ q' = q ++ [Message_Event m]
  | _, _ => q' = q
  end.

(** What a settlement does to the queue: a requeued message is back; an
    acknowledged or dropped one is gone, unless the broker did not get the answer. *)
Definition resettled (ev : Event) (s : Settlement) (q q' : list Event) : Prop :=
  match s with
  | SettleRequeue => q' = q ++ [ev]
  | SettleAck | SettleDrop => q' = q ∨ q' = q ++ [ev]
  end.

(** A dispatcher has a confirmation for the event that it has not recorded. *)
Definition confirming (id : string) (s : System) : Prop :=
  ∃ m rest, AtMarkPublished m rest ∈ sys_dispatchers s ∧ Event_ID (Message_Event m) = id.

Definition confirms (id : string) (at_ : DispatchAt) : bool :=
  match at_ with
  | AtMarkPublished m _ => bool_decide (Event_ID (Message_Event m) = id)
  | _ => false
  end.

(** The history after a client's call: a replay that takes an event out of the
    failed state is early or it is not. *)
Definition note_call (op : StoreOp) (ds : list DispatchAt) (db db' : Database) (h : gset string) : gset string :=
  match op with
  | OpReplay _ id =>
      if bool_decide (failed id db) && negb (bool_decide (failed id db'))
      then if existsb (confirms id) ds then {[ id ]} ∪ h else h ∖ {[ id ]}
      else h
  | _ => h
  end.

Section System.
Context `{E : Env} `{C : JsonCodec} `{P : EventPublisher}.
Context (config : Config) (store : PersistentDeadLetterStore) (processor : eventProcessor).

(** The worker's steps, with time.Sleep and the persistent dead letters. *)
Definition worker_step (workerID : Z) (ev : Event) : WorkAt → M WorkAt :=
  work_step (R := persistent_repository store) workerID config processor time_Sleep (broker_delivery ev).

(** One step of the system. *)
Inductive sys_step : System → System → Prop :=
| client_call op w q ds ws h :
    client_op op = true →
    let w' := (run_op op w).2 in
    sys_step (mkSystem w q ds ws h) (mkSystem w' q ds ws (note_call op ds (w_db w) (w_db w') h))
| dispatcher_starts w q ds ws h :
    sys_step (mkSystem w q ds ws h) (mkSystem w q (ds ++ [AtClaimOutbox]) ws h)
| dispatcher_runs d ctx at_ w q q' ds1 ds2 ws h :
    let r := dispatch_step d ctx at_ w in
    enqueued at_ r.1 q q' →
    sys_step (mkSystem w q (ds1 ++ at_ :: ds2) ws h) (mkSystem r.2 q' (ds1 ++ r.1 :: ds2) ws h)
| dispatcher_ends at_ w q ds1 ds2 ws h :
    sys_step (mkSystem w q (ds1 ++ at_ :: ds2) ws h) (mkSystem w q (ds1 ++ ds2) ws h)
| broker_delivers ev w q1 q2 ds ws h :
    sys_step (mkSystem w (q1 ++ ev :: q2) ds ws h)
      (mkSystem w (q1 ++ q2) ds (ws ++ [(ev, AtClaimEvent)]) h)
| worker_runs id ev at_ w q ds ws1 ws2 h :
    (∀ s, at_ ≠ AtSettle s) →
    let r := worker_step id ev at_ w in
    sys_step (mkSystem w q ds (ws1 ++ (ev, at_) :: ws2) h) (mkSystem r.2 q ds (ws1 ++ (ev, r.1) :: ws2) h)
| worker_settles id ev s w q q' ds ws1 ws2 h :
    resettled ev s q q' →
    sys_step (mkSystem w q ds (ws1 ++ (ev, AtSettle s) :: ws2) h)
      (mkSystem (worker_step id ev (AtSettle s) w).2 q' ds (ws1 ++ ws2) h)
| worker_crashes ev at_ w q ds ws1 ws2 h :
    sys_step (mkSystem w q ds (ws1 ++ (ev, at_) :: ws2) h) (mkSystem w (q ++ [ev]) ds (ws1 ++ ws2) h).

(** Reachable from an empty database and an empty queue. *)
Definition initial (s : System) : Prop :=
  w_tx (sys_world s) = None ∧ sys_db s = empty_database
  ∧ sys_ready s = [] ∧ sys_dispatchers s = [] ∧ sys_workers s = [] ∧ sys_early s = ∅.

Definition reachable (s : System) : Prop := ∃ s0, initial s0 ∧ rtc sys_step s0 s.

End System.

(** ** The invariant *)

(** The worker has not decided to give the delivery up. *)
Definition undecided (at_ : WorkAt) : Prop :=
  match at_ with AtSettle SettleAck | AtSettle SettleDrop | AtHandled => False | _ => True end.

(** A copy of the event is in the queue or with an undecided worker. *)
Definition live (id : string) (s : System) : Prop :=
  (∃ ev, ev ∈ sys_ready s ∧ Event_ID ev = id)
  ∨ ∃ ev at_, (ev, at_) ∈ sys_workers s ∧ Event_ID ev = id ∧ undecided at_.

Definition batch (at_ : DispatchAt) : list OutboxMessage :=
  match at_ with
  | AtPublish m rest | AtMarkPublished m rest => m :: rest
  | AtMarkOutboxFailed m _ => [m]
  | _ => []
  end.

Record sys_inv (s : System) : Prop := {
  si_tx : w_tx (sys_world s) = None;
  si_db : db_inv (sys_db s);
  si_kept : ∀ id, id ∉ sys_early s → unfinished id (sys_db s) → undelivered id (sys_db s) ∨ live id s;
  si_confirmed : ∀ id, id ∉ sys_early s → confirming id s → finished id (sys_db s) ∨ live id s;
  si_match : ∀ at_, at_ ∈ sys_dispatchers s → messages_match (batch at_) (sys_db s);
  si_dead : ∀ id, failed id (sys_db s) → has_dead_letter id (sys_db s);
  si_marking : ∀ ev n e, (ev, AtMarkFailed n e) ∈ sys_workers s → has_dead_letter (Event_ID ev) (sys_db s);
}.

(** A step keeps the invariant when what it takes away is accounted for. *)
Lemma sys_inv_step s s' :
  sys_inv s → w_tx (sys_world s') = None → db_inv (sys_db s') →
  outbox_grows (sys_db s) (sys_db s') →
  (∀ id, unfinished id (sys_db s') → unfinished id (sys_db s) ∨ undelivered id (sys_db s')) →
  (∀ id, undelivered id (sys_db s) →
     undelivered id (sys_db s') ∨ finished id (sys_db s') ∨ live id s' ∨ id ∈ sys_early s') →
  (∀ id, finished id (sys_db s) → finished id (sys_db s') ∨ ¬ confirming id s ∨ id ∈ sys_early s') →
  (∀ id, live id s → live id s' ∨ finished id (sys_db s') ∨ events (sys_db s') !! id = None) →
  (∀ id, confirming id s' → confirming id s ∨ live id s') →
  (∀ at_, at_ ∈ sys_dispatchers s' →
     at_ ∈ sys_dispatchers s ∨ messages_match (batch at_) (sys_db s')) →
  (∀ id, failed id (sys_db s') → failed id (sys_db s) ∨ has_dead_letter id (sys_db s')) →
  (∀ id, has_dead_letter id (sys_db s) → has_dead_letter id (sys_db s')) →
  (∀ ev n e, (ev, AtMarkFailed n e) ∈ sys_workers s' →
     (ev, AtMarkFailed n e) ∈ sys_workers s ∨ has_dead_letter (Event_ID ev) (sys_db s')) →
  (∀ id, id ∈ sys_early s → id ∈ sys_early s' ∨ (undelivered id (sys_db s') ∧ ¬ confirming id s')) →
  sys_inv s'.
Proof.
  intros [Htx Hdb Hkept Hconf Hmatch Hdead Hmark] Htx' Hdb' Hg Hun Hud Hfin Hlive Hcf Hms Hfl Hd Hmk Hh.
  assert (∀ at_, at_ ∈ sys_dispatchers s' → messages_match (batch at_) (sys_db s')) as Hmatch'.
  { intros at_ Hat. destruct (Hms _ Hat); [|done]. eapply messages_match_grows; eauto. }
  assert (∀ id, finished id (sys_db s') → ¬ unfinished id (sys_db s')) as Hexcl.
  { intros id (e & He & Hf) (e' & He' & Hn). simplify_eq. done. }
  split; [done|done| | |done| |].
  - intros id Hn Hid. destruct (Hun id Hid) as [Hid0|]; [|by left].
    destruct (decide (id ∈ sys_early s)) as [He|Hn0]; [destruct (Hh id He) as [|[? _]]; [done|by left]|].
    destruct (Hkept id Hn0 Hid0) as [Hw|Hl].
    + destruct (Hud id Hw) as [?|[Hf|[?|?]]]; [by left| |by right|done]. by destruct (Hexcl id Hf).
    + destruct (Hlive id Hl) as [?|[Hf|Hnone]]; [by right|by destruct (Hexcl id Hf)|].
      destruct Hid as (e & He & _). congruence.
  - intros id Hn Hid. destruct (Hcf id Hid) as [Hid0|]; [|by right].
    destruct (decide (id ∈ sys_early s)) as [He|Hn0]; [by destruct (Hh id He) as [|[_ ?]]|].
    destruct (Hconf id Hn0 Hid0) as [Hf|Hl].
    + destruct (Hfin id Hf) as [|[Hno|?]]; [by left|done..].
    + destruct (Hlive id Hl) as [|[|Hnone]]; [by right|by left|]. exfalso.
      destruct Hid as (m & rest & Hin & Hm).
      destruct (Hmatch' _ Hin m) as (r & Hr & Hre); [simpl; left|].
      destruct (wf_mirror _ (proj1 Hdb') _ _ Hr) as (e & He & _). congruence.
  - intros id Hid. destruct (Hfl id Hid) as [Hid0|]; [|done]. by apply Hd, Hdead.
  - intros ev n e Hin. destruct (Hmk _ _ _ Hin) as [Hin0|]; [|done]. eapply Hd, Hmark. done.
Qed.

(** The calm steps. *)
Lemma sys_inv_calm s s' :
  sys_inv s → w_tx (sys_world s') = None → db_inv (sys_db s') → calm (sys_db s) (sys_db s') →
  (∀ id, live id s → live id s' ∨ finished id (sys_db s') ∨ events (sys_db s') !! id = None) →
  (∀ id, confirming id s' → confirming id s ∨ live id s') →
  (∀ at_, at_ ∈ sys_dispatchers s' →
     at_ ∈ sys_dispatchers s ∨ messages_match (batch at_) (sys_db s')) →
  (∀ ev n e, (ev, AtMarkFailed n e) ∈ sys_workers s' →
     (ev, AtMarkFailed n e) ∈ sys_workers s ∨ has_dead_letter (Event_ID ev) (sys_db s')) →
  sys_early s' = sys_early s → sys_inv s'.
Proof.
  intros Hs Htx Hdb [g u d f b e] H1 H2 H3 H4 Hh. apply (sys_inv_step s s' Hs Htx Hdb); auto.
  rewrite Hh. auto.
Qed.

Section Preservation.
Context `{E : Env} `{C : JsonCodec} `{P : EventPublisher} `{HP : !EventPublisherOk P}.

(** Every store call keeps the tables consistent. *)
Lemma store_call_inv op w :
  w_tx w = None → db_inv (w_db w) →
  w_tx (run_op op w).2 = None ∧ db_inv (w_db (run_op op w).2).
Proof.
  intros Htx Hinv. destruct (run_op_keeps any_call db_inv op w Htx) as [? Hk]; [by destruct op|].
  split; [done|by apply Hk].
Qed.

Lemma void_run {A} (m : M A) w : (void m w).2 = (m w).2.
Proof. unfold void. by rewrite M_bind_run. Qed.

(** A store call as an operation: no transaction is left open and the tables are
    consistent. *)
Ltac as_op op Htx Hinv :=
  let H := fresh in
  pose proof (store_call_inv op _ Htx Hinv) as H; simpl in H; rewrite void_run in H.

Lemma confirming_exists id s : confirming id s ↔ existsb (confirms id) (sys_dispatchers s) = true.
Proof.
  unfold confirming. rewrite existsb_exists. split.
  - intros (m & rest & Hin & Hid). exists (AtMarkPublished m rest). rewrite <- list_elem_of_In. simpl.
    by rewrite bool_decide_eq_true.
  - intros ([] & Hin & Hc); try done. apply bool_decide_eq_true in Hc. apply list_elem_of_In in Hin. eauto.
Qed.

(** A replay takes one event out of the failed state, and notes whether it was
    early; any other call of a client is calm. *)
Lemma client_call_inv op w q ds ws h :
  client_op op = true → sys_inv (mkSystem w q ds ws h) →
  sys_inv (mkSystem (run_op op w).2 q ds ws (note_call op ds (w_db w) (w_db (run_op op w).2) h)).
Proof.
  intros Hop Hs. pose proof (si_tx _ Hs) as Htx. pose proof (si_db _ Hs) as Hdb. simpl in Htx.
  unfold sys_db in Hdb. simpl in Hdb. destruct (store_call_inv op w Htx Hdb) as [Htx' Hdb'].
  assert ((∃ ctx id, op = OpReplay ctx id) ∨ ∀ ctx id, op ≠ OpReplay ctx id) as [(ctx & id & ->)|Hne]
    by (destruct op; naive_solver).
  - destruct (replay_revives ctx id w Htx Hdb) as (Hg & Hun & Hud & Hfin & Hfl & Hd & Hrev).
    simpl in *. rewrite void_run in *. set (w' := (ReplayDeadLetter ctx id w).2) in *.
    apply (sys_inv_step _ _ Hs); unfold sys_db; simpl; auto.
    + intros id' Hf. destruct (Hfin id' Hf) as [?|(-> & Hf0 & Hf1)]; [by left|]. right.
      rewrite bool_decide_eq_true_2, bool_decide_eq_false_2 by done. simpl.
      destruct (existsb _ ds) eqn:Ex; [right; set_solver|left]. intros Hcf%confirming_exists.
      simpl in Hcf. congruence.
    + intros id' Hin. case_bool_decide as Hf0; simpl; [|by left].
      case_bool_decide as Hf1; simpl; [by left|]. destruct (existsb _ ds) eqn:Ex; [left; set_solver|].
      destruct (decide (id' = id)) as [->|]; [right|left; set_solver].
      split; [by apply Hrev|]. intros Hcf%confirming_exists. simpl in Hcf. congruence.
  - apply (sys_inv_calm _ _ Hs); unfold sys_db; simpl; auto.
    + apply calm_client; [done..|apply Hdb].
    + destruct op; try done. by destruct (Hne ctx id).
Qed.

(** The row of a message becomes published, or nothing happens. *)
Lemma mark_published_effect ctx m w :
  w_tx w = None → db_inv (w_db w) → messages_match [m] (w_db w) →
  let w' := (MarkOutboxPublished ctx m w).2 in
  w_tx w' = None ∧ db_inv (w_db w') ∧ outbox_grows (w_db w) (w_db w')
  ∧ events (w_db w') = events (w_db w) ∧ dead_letters (w_db w') = dead_letters (w_db w)
  ∧ ∀ id, undelivered id (w_db w) → undelivered id (w_db w') ∨ id = Event_ID (Message_Event m).
Proof.
  intros Htx Hdb Hm w'. as_op (OpMarkPublished ctx m) Htx Hdb. fold w' in H. destruct H as [Htx' Hdb'].
  split; [done|]. split; [done|].
  destruct (Hm m) as (r & Hr & Hid); [left|].
  pose proof (MarkOutboxPublished_recorded ctx m w) as Hrec. fold w' in Hrec.
  assert (w_db w' = w_db w ∨ ∃ now, w_db w' = put_outbox (Message_ID m) (published_row now r) (w_db w))
    as [-> | [now ->]].
  { unfold recorded, reserved_row in Hrec. rewrite Hr in Hrec.
    destruct (reserved _ _ _ r); simpl in Hrec; naive_solver. }
  { split_and!; [done..|]. auto. }
  assert (∀ j s, outbox (w_db w) !! j = Some s → j ≠ Message_ID m →
    outbox (put_outbox (Message_ID m) (published_row now r) (w_db w)) !! j = Some s) as Hother.
  { intros j s Hs Hne. simpl. by rewrite lookup_insert_ne. }
  split_and!; [|done..|].
  - intros j s Hs. destruct (decide (j = Message_ID m)) as [->|Hne]; [|eauto].
    simpl. rewrite lookup_insert_eq. eexists. split; [done|]. by simplify_eq.
  - intros id (j & s & Hs & Hsid & Hp). destruct (decide (j = Message_ID m)) as [->|Hne].
    + right. congruence.
    + left. exists j, s. auto.
Qed.

(** What a step of a dispatcher does to the tables; the new messages match their
    rows; only a confirmed publication leads to a pending confirmation. *)
Lemma dispatch_step_effect d ctx at_ w :
  w_tx w = None → db_inv (w_db w) → messages_match (batch at_) (w_db w) →
  let r := dispatch_step d ctx at_ w in
  w_tx r.2 = None ∧ db_inv (w_db r.2) ∧ messages_match (batch r.1) (w_db r.2)
  ∧ (∀ m rest, r.1 = AtMarkPublished m rest → ∃ rest', at_ = AtPublish m rest')
  ∧ match at_ with
    | AtMarkPublished m _ => r.2 = (MarkOutboxPublished ctx m w).2
        ∨ w_db r.2 = w_db (MarkOutboxPublished ctx m w).2
    | _ => calm (w_db w) (w_db r.2)
    end.
Proof.
  intros Htx Hdb Hm r.
  assert (∀ msgs db m, messages_match (m :: msgs) db → messages_match (batch (next_message msgs)) db) as Hnext.
  { intros msgs db m Hmm. destruct msgs as [|m' msgs]; simpl; [intros ? []%elem_of_nil|].
    intros x Hx. apply Hmm. by right. }
  destruct at_ as [|m rest|m rest|m e|res]; unfold r; simpl.
  - unfold M_try. rewrite !M_bind_run.
    pose proof (ClaimPendingOutbox_spec ctx (batchSize d) (dispatchLease d) w) as Hspec. unfold wp in Hspec.
    destruct (calm_claim_outbox ctx (batchSize d) (dispatchLease d) w Htx) as [_ Hcalm].
    as_op (OpClaimOutbox ctx (batchSize d) (dispatchLease d)) Htx Hdb. destruct H as [Htx' Hdb'].
    destruct (ClaimPendingOutbox _ _ _ w) as [[msgs|e] w1]; simpl in *.
    + split_and!; [done|done| | |done]; [|by destruct msgs].
      destruct (Hspec msgs eq_refl) as (bytes & _ & Hcl).
      assert (messages_match msgs (w_db w1)) as Hmm.
      { intros m Hin. destruct (oc_row _ _ _ _ _ _ _ _ Hcl m Hin)
          as (row & _ & _ & _ & Hrow & _ & _ & Hid & _). eexists. split; [exact Hrow|done]. }
      destruct msgs; [intros ? []%elem_of_nil|done].
    + split_and!; [done|done|intros ? []%elem_of_nil|done|done].
  - rewrite !M_bind_run. destruct (publish_tables ctx (Message_Event m) w) as [Hdb1 Htx1].
    rewrite <- Htx1 in Htx. destruct (Publish ctx (Message_Event m) w).1 as [e|]; simpl; rewrite Hdb1.
    + split_and!; [done|done| |done|done]. intros x Hx. apply Hm. set_solver.
    + split_and!; [done|done|done| |done]. intros m' rest' [= <- <-]. by eexists.
  - unfold M_check. rewrite !M_bind_run.
    destruct (mark_published_effect ctx m w Htx Hdb) as (Htx' & Hdb' & Hg & He & Hd & Hud).
    { intros x Hx. apply Hm. set_solver. }
    destruct (MarkOutboxPublished ctx m w).1; simpl.
    + split_and!; [done|done|intros ? []%elem_of_nil|done|by left].
    + rewrite ?M_bind_run. simpl. split_and!; [done|done| |by destruct rest|by right].
      eapply messages_match_grows; [exact Hg|]. by eapply Hnext.
  - rewrite !M_bind_run. simpl. as_op (OpMarkOutboxFailed Background m e) Htx Hdb.
    destruct H as [Htx' Hdb']. destruct (calm_mark_outbox_failed Background m e w Htx) as [_ Hcalm].
    split_and!; [done|done|intros ? []%elem_of_nil|done|done].
  - split_and!; [done|done|intros ? []%elem_of_nil|done|done].
Qed.

Lemma enqueued_sub from to q q' ev : enqueued from to q q' → ev ∈ q → ev ∈ q'.
Proof.
  intros Hq Hev.
  destruct from, to; simpl in Hq; try (by subst); destruct_or? Hq; subst; rewrite ?elem_of_app; auto.
Qed.

Lemma enqueued_confirmed from to q q' m rest m' rest' :
  enqueued from to q q' → from = AtPublish m rest → to = AtMarkPublished m' rest' → Message_Event m ∈ q'.
Proof. intros Hq -> ->. simpl in Hq. set_solver. Qed.

Lemma dispatcher_runs_inv d ctx at_ w q q' ds1 ds2 ws h :
  let r := dispatch_step d ctx at_ w in
  enqueued at_ r.1 q q' →
  sys_inv (mkSystem w q (ds1 ++ at_ :: ds2) ws h) → sys_inv (mkSystem r.2 q' (ds1 ++ r.1 :: ds2) ws h).
Proof.
  intros r Hq Hs. set (s := mkSystem w q (ds1 ++ at_ :: ds2) ws h) in *.
  set (s' := mkSystem r.2 q' (ds1 ++ r.1 :: ds2) ws h).
  assert (at_ ∈ sys_dispatchers s) as Hin by (simpl; set_solver).
  destruct (dispatch_step_effect d ctx at_ w (si_tx _ Hs) (si_db _ Hs) (si_match _ Hs _ Hin))
    as (Htx & Hdb & Hm & Hpub & Heff). fold r in Htx, Hdb, Hm, Hpub, Heff.
  assert ((∀ ev, ev ∈ q → ev ∈ q') ∧ ∀ m rest, r.1 = AtMarkPublished m rest → Message_Event m ∈ q') as [Hsub Hnew].
  { split; [by intros ev; eapply enqueued_sub|]. intros m rest Hr. destruct (Hpub m rest Hr) as [rest' Hat].
    eapply enqueued_confirmed; [exact Hq|exact Hat|exact Hr]. }
  assert (∀ id, live id s → live id s') as Hlive.
  { intros id [(ev & Hev & Hid)|Hw]; [left; exists ev; split; [by apply Hsub|done]|by right]. }
  assert (∀ id, confirming id s' → confirming id s ∨ live id s') as Hcf.
  { intros id (m & rest & Hmr & Hid). simpl in Hmr. apply elem_of_app in Hmr as [Hmr|Hmr].
    - left. exists m, rest. simpl. set_solver.
    - apply elem_of_cons in Hmr as [Hmr|Hmr].
      + right. left. exists (Message_Event m). split; [|done]. by eapply Hnew.
      + left. exists m, rest. simpl. set_solver. }
  assert (∀ a, a ∈ sys_dispatchers s' → a ∈ sys_dispatchers s ∨ messages_match (batch a) (sys_db s')) as Hms.
  { intros a Ha. simpl in Ha. apply elem_of_app in Ha as [Ha|[->|Ha]%elem_of_cons]; [left|by right|left];
      simpl; set_solver. }
  destruct at_ as [|m rest|m rest|m e|res].
  3:{ destruct (mark_published_effect ctx m w (si_tx _ Hs) (si_db _ Hs)) as (_ & _ & Hg & He & Hd & Hud).
      { intros x Hx. apply (si_match _ Hs _ Hin). simpl. set_solver. }
      assert (w_db r.2 = w_db (MarkOutboxPublished ctx m w).2) as Heq by (destruct Heff; congruence).
      rewrite <- Heq in Hg, He, Hd, Hud.
      assert (∀ id, finished id (w_db w) → finished id (w_db r.2)) as Hfin
        by (unfold finished; by rewrite He).
      apply (sys_inv_step s s' Hs); unfold sys_db; simpl; auto.
      - intros id. unfold unfinished. rewrite He. auto.
      - intros id Hu. destruct (Hud id Hu) as [?| ->]; [by left|]. right.
        destruct (decide (Event_ID (Message_Event m) ∈ h)) as [|Hn]; [by auto|].
        destruct (si_confirmed _ Hs (Event_ID (Message_Event m)) Hn) as [Hf|Hl]; [by exists m, rest|..]; auto.
      - intros id. unfold failed. rewrite He. auto.
      - intros id. unfold has_dead_letter. by rewrite Hd. }
  all: apply (sys_inv_calm s s' Hs); unfold sys_db; simpl; auto.
Qed.

Section Workers.
Context (config : Config) (store : PersistentDeadLetterStore) (processor : eventProcessor).
Context (work : Z → Event → list Effect) (Hproc : processor_works processor work).

(** Recording a terminal state creates no event. *)
Definition absent_kept (id : string) (db db' : Database) : Prop :=
  events db !! id = None → events db' !! id = None.

#[local] Instance absent_kept_preorder id : PreOrder (absent_kept id).
Proof. split; unfold absent_kept; [by intros db|]. auto. Qed.

Lemma absent_mark_final status msg n now id id' db :
  absent_kept id db (sql_mark_final status msg n now id' db).2.
Proof.
  unfold absent_kept, sql_mark_final. intros Hn. case_match; [|done].
  rewrite update_events_total. simpl. by rewrite lookup_set_where, Hn.
Qed.

Lemma absent_mark_processed ctx id n : evolves (absent_kept id) (MarkProcessed ctx id n).
Proof. unfold MarkProcessed. solve_evolves. apply absent_mark_final. Qed.

Lemma absent_mark_failed ctx id n e : evolves (absent_kept id) (MarkFailed ctx id n e).
Proof. unfold MarkFailed. solve_evolves. apply absent_mark_final. Qed.

(** What a step of a worker does: it is calm, and the worker decides to give its
    delivery up only when the event is in a terminal state or does not exist. *)
Record worker_effect (ev : Event) (at_ : WorkAt) (w : World) (r : WorkAt * World) : Prop := {
  we_tx : w_tx r.2 = None;
  we_db : db_inv (w_db r.2);
  we_calm : calm (w_db w) (w_db r.2);
  we_decides : undecided at_ → undecided r.1
    ∨ finished (Event_ID ev) (w_db r.2) ∨ events (w_db r.2) !! Event_ID ev = None;
  we_marking : ∀ n e, r.1 = AtMarkFailed n e → has_dead_letter (Event_ID ev) (w_db r.2);
}.

(** A step that leaves the tables alone. *)
Lemma worker_effect_same ev at_ w r :
  w_tx w = None → db_inv (w_db w) → w_tx r.2 = w_tx w → w_db r.2 = w_db w →
  (undecided at_ → undecided r.1) → (∀ n e, r.1 ≠ AtMarkFailed n e) → worker_effect ev at_ w r.
Proof.
  intros Htx Hdb Htx' Hdb' Hu Hm. split; rewrite ?Htx', ?Hdb'; auto; [done|].
  intros n e Hr. by destruct (Hm n e).
Qed.

Lemma claim_event_effect id ev w :
  w_tx w = None → db_inv (w_db w) →
  worker_effect ev AtClaimEvent w (worker_step config store processor id ev AtClaimEvent w).
Proof.
  intros Htx Hdb. unfold worker_step. simpl. rewrite M_bind_run.
  pose proof (ClaimForProcessing_outcome Background (Event_ID ev) (ProcessingLease config) w) as Ho.
  simpl in Ho. unfold wp in Ho.
  destruct (calm_claim_event Background (Event_ID ev) (ProcessingLease config) w Htx) as [_ Hcalm].
  as_op (OpClaimProcessing Background (Event_ID ev) (ProcessingLease config)) Htx Hdb.
  destruct H as [Htx' Hdb'].
  destruct (ClaimForProcessing _ _ _ w) as [[c [e|]] w1]; simpl in *.
  - destruct Ho as [-> _]. split; simpl; auto; done.
  - destruct Ho as [-> Hw1]. unfold claim_answer in *. unfold claimed_db in Hw1.
    destruct (events (w_db w) !! Event_ID ev) as [e|] eqn:He; [destruct (processable _ _ _ e)|].
    + split; simpl; auto; done.
    + case_bool_decide as Hs; [|split; simpl; auto; done]. split; simpl; auto; try done.
      intros _. right. left. rewrite Hw1. exists e. split; [done|]. unfold is_final. set_solver.
    + split; simpl; auto; try done. intros _. right. right. by rewrite Hw1.
Qed.

Lemma attempt_effect id ev a w :
  w_tx w = None → db_inv (w_db w) →
  worker_effect ev (AtAttempt a) w (worker_step config store processor id ev (AtAttempt a) w).
Proof.
  intros Htx Hdb. destruct (Hproc id ev (tick w)) as (Hpd & Hpt & _ & _).
  unfold worker_step. simpl. destruct (a <=? _)%Z; [|by apply worker_effect_same].
  rewrite ?M_bind_run. simpl. rewrite ?M_bind_run. simpl.
  destruct (processor id ev (tick w)).1; simpl.
  - destruct (a =? _)%Z; by apply worker_effect_same.
  - by apply worker_effect_same.
Qed.

Lemma mark_processed_effect id ev a w :
  w_tx w = None → db_inv (w_db w) →
  worker_effect ev (AtMarkProcessed a) w (worker_step config store processor id ev (AtMarkProcessed a) w).
Proof.
  intros Htx Hdb. unfold worker_step. simpl. unfold M_check. rewrite M_bind_run.
  as_op (OpMarkProcessed Background (Event_ID ev) a) Htx Hdb. destruct H as [Htx' Hdb'].
  destruct (calm_mark_processed Background (Event_ID ev) a w Htx) as [_ Hcalm].
  destruct (absent_mark_processed Background (Event_ID ev) a w Htx) as [_ Habs].
  pose proof (λ e, MarkProcessed_outcome Background (Event_ID ev) a w e) as Ho. unfold wp in Ho.
  destruct (MarkProcessed Background (Event_ID ev) a w) as [[e|] w1]; simpl in *.
  - split; simpl; auto; done.
  - split; simpl; auto; try done. intros _. right.
    destruct (events (w_db w) !! Event_ID ev) as [e|] eqn:He; [|right; by apply Habs].
    destruct (Ho e eq_refl) as [Hput _]. destruct (Hput eq_refl) as [now ->]. left.
    eexists. simpl. rewrite lookup_insert_eq. split; [done|]. by left.
Qed.

Lemma mark_failed_effect id ev a err w :
  w_tx w = None → db_inv (w_db w) → has_dead_letter (Event_ID ev) (w_db w) →
  worker_effect ev (AtMarkFailed a err) w (worker_step config store processor id ev (AtMarkFailed a err) w).
Proof.
  intros Htx Hdb Hd. unfold worker_step. simpl. unfold M_check. rewrite M_bind_run.
  as_op (OpMarkFailed Background (Event_ID ev) a err) Htx Hdb. destruct H as [Htx' Hdb'].
  destruct (calm_mark_failed Background (Event_ID ev) a err w Htx) as [_ Hcalm%(λ f, f Hd)].
  destruct (absent_mark_failed Background (Event_ID ev) a err w Htx) as [_ Habs].
  pose proof (λ e, MarkFailed_outcome Background (Event_ID ev) a err w e) as Ho. unfold wp in Ho.
  destruct (MarkFailed Background (Event_ID ev) a err w) as [[e|] w1]; simpl in *.
  - split; simpl; auto; done.
  - split; simpl; auto; try done. intros _. right.
    destruct (events (w_db w) !! Event_ID ev) as [e|] eqn:He; [|right; by apply Habs].
    destruct (Ho e eq_refl) as [Hput _]. destruct (Hput eq_refl) as [now ->]. left.
    eexists. simpl. rewrite lookup_insert_eq. split; [done|]. by right.
Qed.

Lemma dead_letter_effect id ev a err w :
  w_tx w = None → db_inv (w_db w) →
  worker_effect ev (AtDeadLetter a err) w (worker_step config store processor id ev (AtDeadLetter a err) w).
Proof.
  intros Htx Hdb. unfold worker_step. simpl. unfold M_check. rewrite M_bind_run.
  as_op (OpSaveDeadLetter Background ev err a) Htx Hdb. destruct H as [Htx' Hdb'].
  destruct (calm_save_dead_letter Background ev err a w Htx) as [_ Hcalm].
  pose proof (SaveDeadLetter_outcome Background ev err a w) as Ho. unfold wp in Ho.
  destruct (SaveDeadLetter Background ev err a w) as [[e|] w1]; simpl in *.
  - split; simpl; auto; done.
  - split; simpl; auto; try done. intros n e _. destruct (proj1 Ho eq_refl) as (d & Hd & _). by exists d.
Qed.

Lemma worker_runs_effect id ev at_ w :
  (∀ s, at_ ≠ AtSettle s) → w_tx w = None → db_inv (w_db w) →
  (∀ n e, at_ = AtMarkFailed n e → has_dead_letter (Event_ID ev) (w_db w)) →
  worker_effect ev at_ w (worker_step config store processor id ev at_ w).
Proof.
  intros Hns Htx Hdb Hmk. destruct at_.
  - by apply claim_event_effect.
  - by apply worker_effect_same.
  - by apply attempt_effect.
  - by apply mark_processed_effect.
  - by apply dead_letter_effect.
  - apply mark_failed_effect; [done..|]. by eapply Hmk.
  - by destruct (Hns s).
  - by apply worker_effect_same.
Qed.

Lemma worker_runs_inv id ev at_ w q ds ws1 ws2 h :
  (∀ s, at_ ≠ AtSettle s) →
  let r := worker_step config store processor id ev at_ w in
  sys_inv (mkSystem w q ds (ws1 ++ (ev, at_) :: ws2) h) →
  sys_inv (mkSystem r.2 q ds (ws1 ++ (ev, r.1) :: ws2) h).
Proof.
  intros Hns r Hs. set (s := mkSystem w q ds (ws1 ++ (ev, at_) :: ws2) h) in *.
  destruct (worker_runs_effect id ev at_ w Hns (si_tx _ Hs) (si_db _ Hs)) as [Htx Hdb Hcalm Hdec Hmk].
  { intros n e ->. apply (si_marking _ Hs ev n e). simpl. set_solver. }
  fold r in Htx, Hdb, Hcalm, Hdec, Hmk. apply (sys_inv_calm s _ Hs); unfold sys_db; simpl; auto.
  - intros id' [Hq|(ev' & at' & Hin & Hid & Hu)]; [by left; left|]. simpl in Hin.
    apply elem_of_app in Hin as [Hin|[Heq|Hin]%elem_of_cons].
    + left. right. exists ev', at'. simpl. set_solver.
    + injection Heq as -> ->. subst id'. destruct (Hdec Hu) as [Hu'|?]; [|by right]. left. right.
      exists ev, r.1. simpl. set_solver.
    + left. right. exists ev', at'. simpl. set_solver.
  - intros ev' n e Hin. apply elem_of_app in Hin as [Hin|[Heq|Hin]%elem_of_cons]; [left; set_solver| |left; set_solver].
    injection Heq as -> Hr. right. by eapply Hmk.
Qed.

End Workers.

End Preservation.

(** ** At least once *)

Section Reachable.
Context `{E : Env} `{C : JsonCodec} `{P : EventPublisher} `{HP : !EventPublisherOk P}.
Context (config : Config) (store : PersistentDeadLetterStore) (processor : eventProcessor).
Context (work : Z → Event → list Effect) (Hproc : processor_works processor work).

(** Messages and workers come and go without touching the tables. *)
Lemma moves_inv w w' q q' ds ds' ws ws' h :
  sys_inv (mkSystem w q ds ws h) → w_tx w' = w_tx w → w_db w' = w_db w →
  (∀ id, live id (mkSystem w q ds ws h) → live id (mkSystem w' q' ds' ws' h)) →
  (∀ at_, at_ ∈ ds' → at_ ∈ ds ∨ at_ = AtClaimOutbox) →
  (∀ x, x ∈ ws' → x ∈ ws ∨ x.2 = AtClaimEvent) →
  sys_inv (mkSystem w' q' ds' ws' h).
Proof.
  intros Hs Htx Hdb Hlive Hds Hws. pose proof (si_tx _ Hs) as Htx0. pose proof (si_db _ Hs) as Hdb0.
  apply (sys_inv_calm _ _ Hs); unfold sys_db in *; simpl in *; rewrite ?Htx, ?Hdb; auto; [done|..].
  - intros id (m & rest & Hin & Hid). simpl in Hin. destruct (Hds _ Hin) as [|]; [|done].
    left. by exists m, rest.
  - intros at_ Hin. destruct (Hds _ Hin) as [| ->]; [by left|]. right. intros ? []%elem_of_nil.
  - intros ev n e Hin. destruct (Hws _ Hin); [by left|done].
Qed.

(** Copies that stay: the rest of the queue and of the workers. *)
Lemma live_moves id w w' q q' ds ds' ws ws' h h' :
  live id (mkSystem w q ds ws h) →
  (∀ ev, ev ∈ q → ev ∈ q' ∨ (ev, AtClaimEvent) ∈ ws') →
  (∀ ev at_, (ev, at_) ∈ ws → undecided at_ → (ev, at_) ∈ ws' ∨ ev ∈ q') →
  live id (mkSystem w' q' ds' ws' h').
Proof.
  intros [(ev & Hev & Hid)|(ev & at_ & Hev & Hid & Hu)] Hq Hw; simpl in *.
  - destruct (Hq ev Hev); [by left; exists ev|]. right. by exists ev, AtClaimEvent.
  - destruct (Hw ev at_ Hev Hu); [right; by exists ev, at_|left; by exists ev].
Qed.

Lemma sys_step_inv s s' : sys_step config store processor s s' → sys_inv s → sys_inv s'.
Proof.
  intros Hstep Hs. destruct Hstep as [op w q ds ws h Hop w'|w q ds ws h|d ctx at_ w q q' ds1 ds2 ws h r Hq
    |at_ w q ds1 ds2 ws h|ev w q1 q2 ds ws h|id ev at_ w q ds ws1 ws2 h Hns r
    |id ev st w q q' ds ws1 ws2 h Hq|ev at_ w q ds ws1 ws2 h].
  - by apply client_call_inv.
  - apply (moves_inv w w q q ds _ ws ws h Hs); [done..| |by auto].
    intros at_. rewrite elem_of_app, list_elem_of_singleton. tauto.
  - by apply (dispatcher_runs_inv d ctx at_ w q q').
  - apply (moves_inv _ _ _ _ _ _ _ _ _ Hs); [done..| |by auto]. intros a. rewrite !elem_of_app, elem_of_cons. tauto.
  - apply (moves_inv _ _ _ _ _ _ _ _ _ Hs); [done|done| |by auto|].
    + intros id Hl. apply (live_moves _ _ _ _ _ _ _ _ _ _ _ Hl).
      * intros x. rewrite !elem_of_app, elem_of_cons, list_elem_of_singleton. naive_solver.
      * intros x at_ Hx _. rewrite elem_of_app. auto.
    + intros x. rewrite elem_of_app, list_elem_of_singleton. intros [?| ->]; auto.
  - by apply worker_runs_inv with (work := work).
  - apply (moves_inv _ _ _ _ _ _ _ _ _ Hs); [by destruct st|by destruct st| |by auto|].
    + intros id' Hl. apply (live_moves _ _ _ _ _ _ _ _ _ _ _ Hl).
      * intros x Hx. left. destruct st; simpl in Hq; destruct_or? Hq; subst; rewrite ?elem_of_app; auto.
      * intros x at_ Hx Hu. rewrite elem_of_app, elem_of_cons in Hx. rewrite elem_of_app.
        destruct Hx as [?|[[= -> ->]|?]]; [by auto| |by auto]. right.
        destruct st; [done| |done]. simpl in Hq. subst. rewrite elem_of_app, list_elem_of_singleton. auto.
    + intros x. rewrite !elem_of_app, elem_of_cons. tauto.
  - apply (moves_inv _ _ _ _ _ _ _ _ _ Hs); [done|done| |by auto|].
    + intros id' Hl. apply (live_moves _ _ _ _ _ _ _ _ _ _ _ Hl).
      * intros x Hx. rewrite elem_of_app. auto.
      * intros x a Hx Hu. rewrite elem_of_app, elem_of_cons in Hx. rewrite !elem_of_app, list_elem_of_singleton.
        destruct Hx as [?|[[= -> ->]|?]]; auto.
    + intros x. rewrite !elem_of_app, elem_of_cons. tauto.
Qed.

Lemma initial_inv s : initial s → sys_inv s.
Proof.
  destruct s as [w q ds ws h]. unfold initial, sys_db. simpl. intros (Htx & Hdb & -> & -> & -> & ->).
  assert (∀ id, events (w_db w) !! id = None) as Hno by (intros; by rewrite Hdb).
  split; unfold sys_db; simpl; [done|rewrite Hdb; apply empty_database_wf|..].
  - intros id _ (e & He & _). by rewrite Hno in He.
  - intros id _ (m & rest & []%elem_of_nil & _).
  - intros at_ []%elem_of_nil.
  - intros id (e & He & _). by rewrite Hno in He.
  - intros ev n e []%elem_of_nil.
Qed.

Lemma reachable_inv s : reachable config store processor s → sys_inv s.
Proof.
  intros (s0 & Hi & Hsteps). apply initial_inv in Hi.
  induction Hsteps as [s|s1 s2 s3 H12 _ IH]; [done|]. by eapply IH, sys_step_inv.
Qed.

(** C2: at-least-once processing.  However dispatchers, workers, HTTP requests,
    commands and the scheduler interleave at their calls, whatever fails and
    whoever crashes, an accepted event that has not reached a terminal state is
    not lost: its outbox row is still to be dispatched, or a copy of it is in the
    broker's queue or with a worker that has not decided to give it up.  The one
    exception is an event whose last replay was made while a dispatcher had a
    confirmation for it that it had not recorded (sys_early): that late result can
    hide the replay, as late_result_hides_replay shows. *)
Theorem accepted_events_are_kept s id e :
  reachable config store processor s → id ∉ sys_early s →
  events (sys_db s) !! id = Some e →
  e_status e = EventStatusQueued ∨ e_status e = EventStatusProcessing →
  undelivered id (sys_db s) ∨ live id s.
Proof.
  intros Hr Hn He Hs. apply (si_kept _ (reachable_inv s Hr)); [done|]. exists e. split; [done|].
  unfold is_final. intros [Hf|Hf]; rewrite Hf in Hs; by destruct Hs.
Qed.

(** C9: a failed event can be recovered: in every reachable state an event that
    has failed has its dead letter, so that without further failures
    ReplayDeadLetter succeeds and puts it back in the queue of the dispatcher. *)
Theorem failed_events_are_replayable s id e ctx :
  reachable config store processor s →
  events (sys_db s) !! id = Some e → e_status e = EventStatusFailed →
  has_dead_letter id (sys_db s)
  ∧ (no_faults → (ReplayDeadLetter ctx id (sys_world s)).1 = None
       ∧ undelivered id (w_db (ReplayDeadLetter ctx id (sys_world s)).2)).
Proof.
  intros Hr He Hs. pose proof (reachable_inv s Hr) as Hinv.
  assert (has_dead_letter id (sys_db s)) as Hd by (apply (si_dead _ Hinv); by exists e).
  split; [done|]. intros Hnf.
  destruct (replay_succeeds ctx id (sys_world s) Hnf (si_tx _ Hinv) (si_db _ Hinv))
    as (Hok & _ & e' & d & i & r & now & _ & _ & _ & Hid & _ & Hdb).
  { split; [by exists e|done]. }
  split; [done|]. exists i, (reopened_row r). rewrite Hdb. simpl. by rewrite lookup_insert_eq.
Qed.

(** C14: nothing is stranded.  Take a reachable state with an empty queue and no
    worker at work, and an event that has not reached a terminal state, whose last
    replay, if any, was not early (sys_early) and whose outbox row carries no
    reservation.  When the database does not fail, no outbox row is locked
    elsewhere, random bytes can be had, the pending rows can be decoded, and the
    limit is at least their number, the next claim succeeds and returns a message
    for the event. *)
Theorem idle_service_dispatches s id e limit lease ctx :
  reachable config store processor s → id ∉ sys_early s → sys_ready s = [] → sys_workers s = [] →
  no_faults → (∀ n i, env_locked_outbox n i = false) → (∀ n, is_Some (env_rand n)) →
  decodable (sys_db s) → (Z.of_nat (size (pending (sys_db s))) ≤ limit)%Z →
  events (sys_db s) !! id = Some e →
  e_status e = EventStatusQueued ∨ e_status e = EventStatusProcessing →
  undispatched id (sys_db s) →
  ∃ msgs m, (ClaimPendingOutbox ctx limit lease (sys_world s)).1 = Ok msgs ∧ m ∈ msgs
    ∧ Event_ID (Message_Event m) = id.
Proof.
  intros Hr Hn Hq Hw Hnf Hlock Hrand Hdec Hlim He Hs Hfree.
  assert (undelivered id (sys_db s)) as (i & r & Hi & Hid & Hp).
  { destruct (si_kept _ (reachable_inv s Hr) id Hn) as [?|[(ev & Hev & _)|(ev & a & Hev & _)]]; [|done|..].
    - exists e. split; [done|]. unfold is_final. intros [Hf|Hf]; rewrite Hf in Hs; by destruct Hs.
    - rewrite Hq in Hev. by apply elem_of_nil in Hev.
    - rewrite Hw in Hev. by apply elem_of_nil in Hev. }
  assert (0 ≤ limit)%Z as Hl0 by lia.
  destruct (ClaimPendingOutbox_total ctx limit lease (sys_world s) Hnf (Hrand _) Hl0 Hdec) as [msgs Hmsgs].
  destruct (ClaimPendingOutbox_spec ctx limit lease (sys_world s) msgs Hmsgs) as (bytes & _ & Hcl).
  assert (i ∈ Message_ID <$> msgs) as Hin.
  { eapply claim_takes_all; [exact Hcl|exact Hlim|exact Hi| |apply Hlock].
    unfold claimable. rewrite Hp, (Hfree _ _ Hi Hid). done. }
  apply list_elem_of_fmap in Hin as (m & Him & Hm). exists msgs, m. split_and!; [done..|].
  destruct (oc_row _ _ _ _ _ _ _ _ Hcl m Hm) as (r' & Hr' & _ & _ & _ & _ & _ & Hid' & _).
  unfold sys_db in Hi. rewrite <- Him in Hr'. congruence.
Qed.

End Reachable.

(** ** On a concrete run *)

(** A processor that never succeeds. *)
Definition broken_processor : eventProcessor := λ _ _, mret (Some (ErrMsg "boom")).

Lemma broken_processor_works : processor_works broken_processor (λ _ _, []).
Proof. intros id ev w. simpl. by rewrite app_nil_r. Qed.

Lemma worker_runs_many `{E : Env} `{C : JsonCodec} `{P : EventPublisher} config store processor
    n id ev at_ w q ds ws h :
  let go := steps (worker_step config store processor id ev) in
  forallb (λ k, match (go k at_ w).1 with AtSettle _ => false | _ => true end) (seq 0 n) = true →
  rtc (sys_step config store processor) (mkSystem w q ds ((ev, at_) :: ws) h)
    (mkSystem (go n at_ w).2 q ds ((ev, (go n at_ w).1) :: ws) h).
Proof.
  intros go Hgo. revert at_ w Hgo. induction n as [|n IH]; intros at_ w Hgo; [done|].
  simpl in Hgo. apply andb_prop in Hgo as [H0 Hgo]. unfold go. simpl. rewrite M_bind_run.
  eapply rtc_l; [apply (worker_runs config store processor id ev at_ w q ds [] ws h)|].
  - intros s ->. done.
  - apply IH. rewrite <- seq_shift, forallb_forall in Hgo. apply forallb_forall.
    intros k Hk%(in_map S)%Hgo. unfold go in Hk. simpl in Hk. by rewrite M_bind_run in Hk.
Qed.

Module Run.
#[local] Instance E : Env := calm_env 1000.
#[local] Instance C : JsonCodec := simple_codec.
#[local] Instance P : EventPublisher := picky_publisher "order.created".
Definition store : PersistentDeadLetterStore := NewPersistentDeadLetterStore 100.

(** event_1 is accepted, published, recorded and delivered; its worker fails for
    good, up to the settlement. *)
Definition at_publish : DispatchAt * World := dispatch_step dispatcher_1 Background AtClaimOutbox world_saved.
Definition at_mark : DispatchAt * World := dispatch_step dispatcher_1 Background at_publish.1 at_publish.2.
Definition at_end : DispatchAt * World := dispatch_step dispatcher_1 Background at_mark.1 at_mark.2.
Definition at_work : WorkAt * World :=
  steps (worker_step config_1 store broken_processor 1 event_1) 6 AtClaimEvent at_end.2.

Definition delivered : System := mkSystem at_end.2 [] [at_end.1] [(event_1, AtClaimEvent)] ∅.
Definition given_up : System := mkSystem at_work.2 [] [at_end.1] [(event_1, at_work.1)] ∅.

Lemma saved_step :
  sys_step config_1 store broken_processor (mkSystem empty_world [] [] [] ∅) (mkSystem world_saved [] [] [] ∅).
Proof.
  replace world_saved with (run_op (OpSave Background event_1) empty_world).2 by (vm_compute; reflexivity).
  by apply (client_call _ _ _ (OpSave Background event_1)).
Qed.

(** A step of the only dispatcher. *)
Lemma dispatch_runs at_ w q q' :
  enqueued at_ (dispatch_step dispatcher_1 Background at_ w).1 q q' →
  sys_step config_1 store broken_processor (mkSystem w q [at_] [] ∅)
    (mkSystem (dispatch_step dispatcher_1 Background at_ w).2 q' [(dispatch_step dispatcher_1 Background at_ w).1] [] ∅).
Proof. apply (dispatcher_runs _ _ _ dispatcher_1 Background at_ w q q' [] [] [] ∅). Qed.

Lemma delivered_reachable : reachable config_1 store broken_processor delivered.
Proof.
  exists (mkSystem empty_world [] [] [] ∅). split; [by vm_compute|].
  eapply rtc_l; [apply saved_step|]. eapply rtc_l; [apply dispatcher_starts|].
  apply (rtc_l _ _ (mkSystem at_publish.2 [] [at_publish.1] [] ∅)).
  { apply dispatch_runs. vm_compute. reflexivity. }
  apply (rtc_l _ _ (mkSystem at_mark.2 [event_1] [at_mark.1] [] ∅)).
  { apply dispatch_runs. vm_compute. reflexivity. }
  apply (rtc_l _ _ (mkSystem at_end.2 [event_1] [at_end.1] [] ∅)).
  { apply dispatch_runs. vm_compute. reflexivity. }
  eapply rtc_l; [apply (broker_delivers _ _ _ event_1 _ [] [])|]. apply rtc_refl.
Qed.

Lemma given_up_reachable : reachable config_1 store broken_processor given_up.
Proof.
  destruct delivered_reachable as (s0 & Hi & Hs). exists s0. split; [done|]. etrans; [exact Hs|].
  apply (worker_runs_many config_1 store broken_processor 6 1 event_1). vm_compute. reflexivity.
Qed.

Lemma accepted_events_are_kept_witness :
  ¬ undelivered "evt-001" (sys_db delivered) ∧ live "evt-001" delivered.
Proof.
  assert (¬ undelivered "evt-001" (sys_db delivered)) as Hno.
  { assert (∃ r, outbox (sys_db delivered) = {[ 1%Z := r ]} ∧ is_Some (o_published_at r)) as (r & Ho & Hp)
      by (vm_compute; eexists; split; [reflexivity|by eexists]).
    intros (i & r' & Hi & _ & Hn). rewrite Ho in Hi. apply lookup_singleton_Some in Hi as [_ <-].
    rewrite Hn in Hp. by destruct Hp. }
  split; [exact Hno|].
  assert (∃ e, events (sys_db delivered) !! "evt-001" = Some e ∧ e_status e = EventStatusQueued)
    as (e & He & Hs) by (vm_compute; eexists; split; reflexivity).
  destruct (accepted_events_are_kept config_1 store broken_processor _ broken_processor_works delivered
    "evt-001" e delivered_reachable (not_elem_of_empty "evt-001") He (or_introl Hs)) as [Hu|Hl]; [by destruct (Hno Hu)|exact Hl].
Defined.

Lemma failed_events_are_replayable_witness :
  has_dead_letter "evt-001" (sys_db given_up).
Proof.
  assert (∃ e, events (sys_db given_up) !! "evt-001" = Some e ∧ e_status e = EventStatusFailed)
    as (e & He & Hs) by (vm_compute; eexists; split; reflexivity).
  exact (proj1 (failed_events_are_replayable config_1 store broken_processor _ broken_processor_works given_up
    "evt-001" e Background given_up_reachable He Hs)).
Defined.

(** The exception is real: event_1 fails for good and is replayed before the
    dispatcher has recorded its confirmation; once it does, the event is queued,
    its outbox row is published, and no copy of it is left. *)
Definition at_work_early : WorkAt * World :=
  steps (worker_step config_1 store broken_processor 1 event_1) 6 AtClaimEvent at_mark.2.
Definition settled_early : World :=
  (worker_step config_1 store broken_processor 1 event_1 (AtSettle SettleAck) at_work_early.2).2.
Definition replayed_early : World := (run_op (OpReplay Background "evt-001") settled_early).2.
Definition marked_late : DispatchAt * World := dispatch_step dispatcher_1 Background at_mark.1 replayed_early.
Definition lost : System := mkSystem marked_late.2 [] [marked_late.1] [] {[ "evt-001" ]}.

Lemma lost_reachable : reachable config_1 store broken_processor lost.
Proof.
  exists (mkSystem empty_world [] [] [] ∅). split; [by vm_compute|].
  eapply rtc_l; [apply saved_step|]. eapply rtc_l; [apply dispatcher_starts|].
  apply (rtc_l _ _ (mkSystem at_publish.2 [] [at_publish.1] [] ∅)).
  { apply dispatch_runs. vm_compute. reflexivity. }
  apply (rtc_l _ _ (mkSystem at_mark.2 [event_1] [at_mark.1] [] ∅)).
  { apply dispatch_runs. vm_compute. reflexivity. }
  eapply rtc_l; [apply (broker_delivers _ _ _ event_1 _ [] [])|].
  etrans; [apply (worker_runs_many config_1 store broken_processor 6 1 event_1); vm_compute; reflexivity|].
  fold at_work_early. replace at_work_early.1 with (AtSettle SettleAck) by (vm_compute; reflexivity).
  eapply rtc_l; [apply (worker_settles _ _ _ 1 event_1 SettleAck at_work_early.2 [] [] [at_mark.1] [] []); by left|].
  fold settled_early. eapply rtc_l; [by apply (client_call _ _ _ (OpReplay Background "evt-001"))|].
  fold replayed_early. replace (note_call _ _ _ _ _) with ({[ "evt-001" ]} : gset string)
    by (vm_compute; reflexivity).
  eapply rtc_l; [|apply rtc_refl].
  apply (dispatcher_runs _ _ _ dispatcher_1 Background at_mark.1 replayed_early [] [] [] [] []).
  vm_compute. reflexivity.
Qed.

Lemma early_replay_loses :
  (e_status <$> events (sys_db lost) !! "evt-001") = Some EventStatusQueued
  ∧ ¬ undelivered "evt-001" (sys_db lost) ∧ ¬ live "evt-001" lost.
Proof.
  split; [vm_compute; reflexivity|]. split.
  - assert (∃ r, outbox (sys_db lost) = {[ 1%Z := r ]} ∧ is_Some (o_published_at r)) as (r & Ho & Hp)
      by (vm_compute; eexists; split; [reflexivity|by eexists]).
    intros (i & r' & Hi & _ & Hn). rewrite Ho in Hi. apply lookup_singleton_Some in Hi as [_ <-].
    rewrite Hn in Hp. by destruct Hp.
  - by intros [(ev & Hev%elem_of_nil & _)|(ev & at_ & Hev%elem_of_nil & _)].
Qed.

(** event_1 accepted, nothing else has happened. *)
Definition idle : System := mkSystem world_saved [] [] [] ∅.

Lemma idle_reachable : reachable config_1 store broken_processor idle.
Proof.
  exists (mkSystem empty_world [] [] [] ∅). split; [by vm_compute|].
  eapply rtc_l; [apply (client_call _ _ _ (OpSave Background event_1)); done|apply rtc_refl].
Qed.

Lemma idle_service_dispatches_witness :
  ∃ msgs m, (ClaimPendingOutbox Background 10 30 world_saved).1 = Ok msgs ∧ m ∈ msgs
    ∧ Event_ID (Message_Event m) = "evt-001".
Proof.
  assert (∃ e, events (sys_db idle) !! "evt-001" = Some e ∧ e_status e = EventStatusQueued)
    as (e & He & Hs) by (vm_compute; eexists; split; reflexivity).
  assert (∃ r, outbox (sys_db idle) = {[ 1%Z := r ]} ∧ o_dispatching_at r = None) as (r & Ho & Hd)
    by (eexists; split; vm_compute; reflexivity).
  apply (idle_service_dispatches config_1 store broken_processor _ broken_processor_works idle "evt-001" e
    10 30 Background idle_reachable (not_elem_of_empty "evt-001") eq_refl eq_refl (calm_env_no_faults _)); [done| | | |done|by left|].
  - intros n. by eexists.
  - apply world_saved_decodable.
  - vm_compute. discriminate.
  - unfold undispatched. rewrite Ho. by apply map_Forall_singleton.
Defined.

End Run.
