(* ===== verification/DlqRetry.v ===== *)
(** * dlq_retry.go: the automatic replay of dead letters

    The scheduler's delay (exponential, capped at a day, with jitter) and its
    round over the dead letters that are due.  A Go panic is [None]. *)

From stdpp Require Import base gmap strings list pretty.
From Stdlib Require Import ZArith Lia Ascii.
From S2P Require Import Prelude GoLib Config Models Metrics Sql Database DbInvariant World Scenario.
From S2P Require Import EventStore StoreLogic StoreProps StoreProcessing StoreDead Outbox Worker.

Open Scope go_scope.

#[local] Arguments load : simpl never.

Record DLQRetryScheduler := mkScheduler {
  interval : Z;
  maxAttempts : Z;
  has_metrics : bool;   (* scheduler.metrics != nil *)
}.

Definition NewDLQRetryScheduler (config : Config) : DLQRetryScheduler :=
  mkScheduler (mul64 (DLQAutoRetryIntervalSeconds config) Second) (DLQAutoRetryMaxAttempts config) true.

(** Whether [Start] launches the loop. *)
Definition scheduler_starts (scheduler : DLQRetryScheduler) : bool :=
  negb (maxAttempts scheduler =? 0)%Z.

Definition day : Z := 86400000000000.

(** The doublings of the delay for [steps] further steps; [inl] is the early
    return. *)
Fixpoint double_delay (steps : nat) (delay : Z) : Z + Z :=
  match steps with
  | O => inr delay
  | S steps =>
      let delay := mul64 delay 2 in
      if (day <=? delay)%Z then inl day else double_delay steps delay
  end.

Section Scheduler.
Context `{E : Env}.

(** [rand.Int63n(n)] panics unless [n] is positive. *)
Definition Int63n (n : Z) : M (option Z) := λ w,
  (if (0 <? n)%Z then Some (env_int63 (w_tick w) `mod` n)%Z else None, tick w).

Definition retryDelay (scheduler : DLQRetryScheduler) (attempt : Z) : M (option Z) :=
  match double_delay (Z.to_nat (attempt - 1)) (interval scheduler) with
  | inl delay => mret (Some delay)
  | inr delay =>
      let jitterLimit := Z.quot delay 4 in
      if (jitterLimit =? 0)%Z then mret (Some delay)
      else
        jitter ← Int63n (wrap64 (jitterLimit + 1));
        mret (match jitter with Some j => Some (wrap64 (delay + j)) | None => None end)
  end.

Definition inc_if (b : bool) (c : Counter) : M unit := if b then inc_metric c else mret tt.

(** The loop over the claimed items. *)
Fixpoint retry_items (scheduler : DLQRetryScheduler) (ctx : Ctx)
    (items : list RetryableDeadLetterDetail) : M (option unit) :=
  match items with
  | [] => mret (Some tt)
  | item :: items =>
      inc_if (has_metrics scheduler) DeadLetterAutoRetries;;
      r ← ReplayDeadLetter ctx (RD_EventID item);
      match r with
      | Some err =>
          inc_if (has_metrics scheduler) DeadLetterAutoRetryFailed;;
          delay ← retryDelay scheduler (RD_ReplayAttempt item);
          match delay with
          | None => mret None
          | Some delay =>
              _ ← RescheduleDeadLetterRetryWithDelay ctx (RD_EventID item) err delay;
              retry_items scheduler ctx items
          end
      | None => retry_items scheduler ctx items
      end
  end.

Definition retry (scheduler : DLQRetryScheduler) (ctx : Ctx) : M (option unit) :=
  claimed ← ClaimRetryableDeadLetterDetails ctx 10 (maxAttempts scheduler);
  match claimed with
  | Err _ => mret (Some tt)
  | Ok items => retry_items scheduler ctx items
  end.

(** The [select] of [run], for the wake-ups received so far: whether the loop has
    ended; [None] is a panic. *)
Fixpoint scheduler_loop (scheduler : DLQRetryScheduler) (ctx : Ctx) (wakeups : list Wakeup)
    : M (option bool) :=
  match wakeups with
  | [] => mret (Some false)
  | Stopped :: _ => mret (Some true)
  | Ticked :: wakeups =>
      r ← retry scheduler ctx;
      match r with
      | None => mret None
      | Some _ => scheduler_loop scheduler ctx wakeups
      end
  end.

(** [run]: time.NewTicker panics unless its argument is positive. *)
Definition scheduler_run (scheduler : DLQRetryScheduler) (ctx : Ctx) (wakeups : list Wakeup)
    : M (option bool) :=
  r ← retry scheduler ctx;
  match r with
  | None => mret None
  | Some _ =>
      if (interval scheduler <=? 0)%Z then mret None
      else scheduler_loop scheduler ctx wakeups
  end.

End Scheduler.

(** ** The delay *)

Lemma double_delay_spec steps d :
  (0 < d)%Z → (d * 2 ≤ int64_max)%Z →
  double_delay steps d =
    if decide (steps ≠ 0%nat ∧ day ≤ d * 2 ^ Z.of_nat steps)%Z then inl day
    else inr (d * 2 ^ Z.of_nat steps)%Z.
Proof.
  revert d. induction steps as [|steps IH]; intros d Hd Hmax; simpl double_delay.
  { rewrite decide_False by lia. f_equal. simpl. lia. }
  assert (mul64 d 2 = d * 2)%Z as ->.
  { unfold mul64. apply wrap64_id. unfold in_int64, int64_min. lia. }
  replace (d * 2 ^ Z.of_nat (S steps))%Z with (d * 2 * 2 ^ Z.of_nat steps)%Z
    by (rewrite Nat2Z.inj_succ, Z.pow_succ_r by lia; lia).
  assert (1 ≤ 2 ^ Z.of_nat steps)%Z as Hpow by (apply (Z.pow_le_mono_r 2 0); lia).
  destruct (day <=? d * 2)%Z eqn:Eday.
  - apply Z.leb_le in Eday. rewrite decide_True; [done|]. split; [lia|]. nia.
  - apply Z.leb_gt in Eday. rewrite IH by (unfold day, int64_max in *; lia).
    destruct steps as [|steps]; [|apply decide_ext; naive_solver lia].
    simpl (Z.of_nat 0) in *. rewrite Z.pow_0_r, Z.mul_1_r in *. rewrite !decide_False by lia. done.
Qed.

Section Delay.
Context `{E : Env}.

Lemma retryDelay_value s attempt w :
  (0 < interval s)%Z → (interval s * 2 ≤ int64_max)%Z → (1 ≤ attempt)%Z →
  let base := (interval s * 2 ^ (attempt - 1))%Z in
  ∃ d, (retryDelay s attempt w).1 = Some d
    ∧ if decide (attempt ≠ 1 ∧ day ≤ base)%Z then d = day
      else (base ≤ d ≤ base + base / 4)%Z.
Proof.
  intros Hi Hmax Ha base. unfold retryDelay.
  rewrite double_delay_spec by done. rewrite Z2Nat.id by lia. fold base.
  destruct (decide (attempt ≠ 1 ∧ day ≤ base)%Z) as [Hcap|Hcap].
  { rewrite decide_True by lia. by eexists. }
  rewrite decide_False by lia.
  assert (0 < base ∧ base * 2 ≤ int64_max)%Z as [Hpos Hle].
  { assert (1 ≤ 2 ^ (attempt - 1))%Z by (apply (Z.pow_le_mono_r 2 0); lia). split; [unfold base; nia|].
    destruct (decide (attempt = 1%Z)) as [->|Hne].
    - unfold base. rewrite Z.mul_1_r. lia.
    - assert (base < day)%Z by lia. unfold day, int64_max in *. lia. }
  rewrite Z.quot_div_nonneg by lia. pose proof (Z.div_pos base 4 ltac:(lia) ltac:(lia)).
  assert (base / 4 ≤ base)%Z by (apply Z.div_le_upper_bound; lia).
  assert (base / 4 * 4 ≤ base)%Z by (rewrite Z.mul_comm; apply Z.mul_div_le; lia).
  destruct (base / 4 =? 0)%Z eqn:Ej; [eexists; split; [done|]; lia|]. apply Z.eqb_neq in Ej.
  rewrite M_bind_run. unfold Int63n. simpl.
  rewrite wrap64_id by (unfold in_int64, int64_min, int64_max in *; lia).
  rewrite (proj2 (Z.ltb_lt _ _)) by lia. eexists. split; [done|].
  pose proof (Z.mod_pos_bound (env_int63 (w_tick w)) (base / 4 + 1)).
  rewrite wrap64_id; unfold in_int64, int64_min, int64_max in *; lia.
Qed.

(** C33: the delay before the next automatic replay.  For a positive interval
    that does not overflow when doubled, attempt [n] waits
    [interval * 2^(n-1)] plus a jitter of at most a quarter of it, except that
    from the second attempt on a product of a day or more becomes exactly a day,
    without jitter; the first attempt and the jitter are not capped.  There is
    neither a panic nor an overflow. *)
Theorem retryDelay_bounds s attempt w :
  (0 < interval s)%Z → (interval s * 2 ≤ int64_max)%Z → (1 ≤ attempt)%Z →
  let base := (interval s * 2 ^ (attempt - 1))%Z in
  ∃ d, (retryDelay s attempt w).1 = Some d
    ∧ if decide (attempt ≠ 1 ∧ day ≤ base)%Z then d = day
      else (base ≤ d ≤ base + base / 4)%Z.
Proof. apply retryDelay_value. Qed.

(** No attempt number makes the delay panic. *)
Lemma retryDelay_some s attempt w :
  (0 < interval s)%Z → (interval s * 2 ≤ int64_max)%Z → is_Some (retryDelay s attempt w).1.
Proof.
  intros Hi Hmax. assert (retryDelay s attempt = retryDelay s (Z.max 1 attempt)) as ->.
  { unfold retryDelay. by replace (Z.to_nat (Z.max 1 attempt - 1)) with (Z.to_nat (attempt - 1)) by lia. }
  destruct (retryDelay_value s (Z.max 1 attempt) w) as (d & Hd & _); [done|done|lia|by eexists].
Qed.

Lemma retry_items_some s ctx items w :
  (0 < interval s)%Z → (interval s * 2 ≤ int64_max)%Z → is_Some (retry_items s ctx items w).1.
Proof.
  intros Hi Hmax. revert w. induction items as [|item items IH]; intros w; simpl; [by eexists|].
  rewrite !M_bind_run. destruct (ReplayDeadLetter ctx (RD_EventID item) _).1; [|apply IH].
  rewrite !M_bind_run. set (w1 := (inc_if _ _ _).2).
  destruct (retryDelay_some s (RD_ReplayAttempt item) w1 Hi Hmax) as [delay ->].
  rewrite M_bind_run. apply IH.
Qed.

Lemma retry_some s ctx w :
  (0 < interval s)%Z → (interval s * 2 ≤ int64_max)%Z → is_Some (retry s ctx w).1.
Proof.
  intros Hi Hmax. unfold retry. rewrite M_bind_run.
  destruct (ClaimRetryableDeadLetterDetails _ _ _ w).1; [by apply retry_items_some|by eexists].
Qed.

(** C38: the scheduler never panics.  For a positive interval that does not
    overflow when doubled, whatever the database answers and however long it
    runs, the loop goes on until the context is done and then returns. *)
Theorem scheduler_never_panics s ctx wakeups w :
  (0 < interval s)%Z → (interval s * 2 ≤ int64_max)%Z →
  (scheduler_run s ctx wakeups w).1 = Some (bool_decide (Stopped ∈ wakeups)).
Proof.
  intros Hi Hmax. unfold scheduler_run. rewrite M_bind_run.
  destruct (retry_some s ctx w Hi Hmax) as [[] ->].
  rewrite (proj2 (Z.leb_gt _ _)) by done. generalize ((retry s ctx w).2). clear w.
  induction wakeups as [|[] wakeups IH]; intros w; cbn [scheduler_loop].
  - done.
  - rewrite M_bind_run. destruct (retry_some s ctx w Hi Hmax) as [[] ->]. rewrite IH. f_equal.
    apply bool_decide_ext. set_solver.
  - rewrite bool_decide_eq_true_2; [done|left].
Qed.

End Delay.

(** ** A round *)

(** The dead letter has been replayed, or has its next attempt scheduled. *)
Definition accounted (id : string) (db : Database) : Prop :=
  ∃ d, dead_letters db !! id = Some d ∧ (is_Some (d_replayed_at d) ∨ is_Some (d_next_retry_at d)).

(** Rows of other events are as before. *)
Definition frame (ids : list string) (db db' : Database) : Prop :=
  ∀ id, id ∉ ids → events db' !! id = events db !! id ∧ dead_letters db' !! id = dead_letters db !! id.

Definition requeued (id : string) (db db' : Database) : Prop :=
  ∀ e, events db !! id = Some e → e_status e = EventStatusFailed →
    ∃ e', events db' !! id = Some e' ∧ e_status e' = EventStatusQueued.

Section Round.
Context `{E : Env}.
Context (Hnf : no_faults).

Lemma Replay_effect ctx id w d :
  w_tx w = None → db_inv (w_db w) → dead_letters (w_db w) !! id = Some d →
  wp (ReplayDeadLetter ctx id) (λ r w', w_tx w' = None ∧ db_inv (w_db w')
    ∧ frame [id] (w_db w) (w_db w')
    ∧ match r with
      | None => accounted id (w_db w') ∧ requeued id (w_db w) (w_db w')
      | Some _ => w_db w' = w_db w ∧ requeued id (w_db w) (w_db w')
      end) w.
Proof.
  intros Htx Hinv Hd. destruct (ReplayDeadLetter_outcome ctx id w Htx) as [Htx' Ho].
  destruct (Replay_keeps any_call db_inv ctx id w Htx) as [_ Hinv']. specialize (Hinv' Hinv).
  unfold wp. destruct (ReplayDeadLetter ctx id w) as [r w']. simpl in *. split_and!; [done..| |].
  all: inversion Ho as [now e d' He Hd' Hs|? ? ? ? ? ? ? ? ? Hf|Hn|e d' He Hd' Hs|? ? ? ? Hf]; subst;
    try (by destruct (Hf Hnf)).
  - destruct (replayed_eval id e d' now (w_db w) Hinv He Hs Hd') as (i & row & _ & _ & _ & Heq).
    intros id' Hne. rewrite Heq. simpl. rewrite !lookup_insert_ne by set_solver. done.
  - by intros id' _.
  - by intros id' _.
  - destruct (replayed_eval id e d' now (w_db w) Hinv He Hs Hd') as (i & row & _ & _ & _ & Heq).
    rewrite Heq. split.
    + exists (replayed_row (timestamptz now) d'). simpl. rewrite lookup_insert_eq. eauto.
    + intros e' _ _. exists (requeued_row (timestamptz now) e). simpl. by rewrite lookup_insert_eq.
  - split; [done|]. intros e He Hs. destruct Hn; congruence.
  - split; [done|]. intros e' He' Hs'. congruence.
Qed.

Lemma Reschedule_effect ctx id err delay w d :
  w_tx w = None → db_inv (w_db w) → dead_letters (w_db w) !! id = Some d →
  wp (RescheduleDeadLetterRetryWithDelay ctx id err delay) (λ _ w', w_tx w' = None ∧ db_inv (w_db w')
    ∧ frame [id] (w_db w) (w_db w') ∧ events (w_db w') = events (w_db w)
    ∧ accounted id (w_db w')) w.
Proof.
  intros Htx Hinv Hd.
  assert (evolves (keeps db_inv) (RescheduleDeadLetterRetryWithDelay ctx id err delay)) as Hev.
  { unfold RescheduleDeadLetterRetryWithDelay. solve_evolves. intros HQ. by apply db_inv_invariant. }
  destruct (Hev w Htx) as [Htx' Hinv']. specialize (Hinv' Hinv).
  assert (∀ next, let db' := (sql_reschedule next (error_string err) id (w_db w)).2 in
    frame [id] (w_db w) db' ∧ events db' = events (w_db w) ∧ accounted id db'
    ∧ is_Some (sql_reschedule next (error_string err) id (w_db w)).1) as Hs.
  { intros next. unfold sql_reschedule. rewrite update_dead_letters_total. simpl. split_and!.
    - intros id' Hne. simpl. split; [done|]. rewrite lookup_set_where.
      destruct (dead_letters (w_db w) !! id'); [|done]. simpl.
      rewrite bool_decide_eq_false_2 by set_solver. done.
    - done.
    - unfold accounted. simpl. rewrite lookup_set_where, Hd. simpl.
      rewrite bool_decide_eq_true_2 by done. simpl. eexists. split; [done|].
      destruct (d_replayed_at d) eqn:Er; simpl; [left|right; by eexists]. by rewrite Er.
    - by eexists. }
  assert (wp (RescheduleDeadLetterRetryWithDelay ctx id err delay) (λ _ w', frame [id] (w_db w) (w_db w')
    ∧ events (w_db w') = events (w_db w) ∧ accounted id (w_db w')) w) as Hwp.
  { unfold RescheduleDeadLetterRetryWithDelay. do 4 wp_step; try (exfalso; revert Hnf; faulty).
    all: match goal with H : sql_reschedule ?n _ _ _ = _ |- _ =>
      specialize (Hs n); cbn [w_db tick] in H; rewrite H in Hs end; simpl in Hs.
    - wp_step. naive_solver.
    - destruct Hs as (_ & _ & _ & []). done. }
  split; [done|]. split; [done|]. exact Hwp.
Qed.

Lemma wp_inc_if (b : bool) (c : Counter) (Q : unit → World → Prop) (w : World) :
  (∀ w', w_db w' = w_db w → w_tx w' = w_tx w →
     w_metrics w' = (if b then inc c (w_metrics w) else w_metrics w) → Q tt w') →
  wp (inc_if b c) Q w.
Proof. intros HQ. unfold inc_if. destruct b; wp_step; by apply HQ. Qed.

(** The delay of a scheduler whose interval can be doubled. *)
Lemma wp_retryDelay s attempt Q w :
  (0 < interval s)%Z → (interval s * 2 ≤ int64_max)%Z → (1 ≤ attempt)%Z →
  (∀ d w', w_db w' = w_db w → w_tx w' = w_tx w → w_metrics w' = w_metrics w → Q (Some d) w') →
  wp (retryDelay s attempt) Q w.
Proof.
  intros Hi Hmax Ha HQ. destruct (retryDelay_value s attempt w Hi Hmax Ha) as (d & Hd & _).
  unfold wp. rewrite Hd. apply HQ; unfold retryDelay; by repeat case_match.
Qed.

(** What a round does with its items. *)
Record retried (s : DLQRetryScheduler) (items : list RetryableDeadLetterDetail) (w w' : World) : Prop := {
  rt_closed : w_tx w' = None;
  rt_inv : db_inv (w_db w');
  rt_counted : has_metrics s = true →
    load DeadLetterAutoRetries (w_metrics w')
    = Nat.iter (length items) (λ z, wrap64 (z + 1)) (load DeadLetterAutoRetries (w_metrics w));
  rt_accounted : ∀ x, x ∈ items → accounted (RD_EventID x) (w_db w');
  rt_requeued : ∀ x, x ∈ items → requeued (RD_EventID x) (w_db w) (w_db w');
  rt_frame : frame (RD_EventID <$> items) (w_db w) (w_db w');
}.

(** One item handled, then the others. *)
Lemma retried_cons s x items w w1 w' :
  RD_EventID x ∉ (RD_EventID <$> items) →
  (has_metrics s = true → load DeadLetterAutoRetries (w_metrics w1)
     = wrap64 (load DeadLetterAutoRetries (w_metrics w) + 1)) →
  frame [RD_EventID x] (w_db w) (w_db w1) → accounted (RD_EventID x) (w_db w1) →
  requeued (RD_EventID x) (w_db w) (w_db w1) →
  retried s items w1 w' → retried s (x :: items) w w'.
Proof.
  intros Hx Hm Hf Ha Hr [Hc Hi Hm' Ha' Hr' Hf']. destruct (Hf' _ Hx) as [Hev Hdl].
  constructor; [done|done| | | |].
  - intros Hs. rewrite Hm', Hm by done.
    symmetry. exact (Nat.iter_succ_r (length items) _ (λ z, wrap64 (z + 1)) _).
  - intros y [->|Hy]%elem_of_cons; [|by apply Ha']. destruct Ha as (d & Hd & ?). exists d. by rewrite Hdl.
  - intros y [->|Hy]%elem_of_cons.
    + intros e He Hs. rewrite Hev. by eapply Hr.
    + intros e He Hs. apply (Hr' y Hy e); [|done].
      rewrite <- He. apply Hf. apply not_elem_of_cons. split; [|apply not_elem_of_nil].
      intros Heq. apply Hx. rewrite <- Heq. by apply list_elem_of_fmap_2.
  - intros id [Hid Hid']%not_elem_of_cons. destruct (Hf' id Hid') as [-> ->]. apply Hf. set_solver.
Qed.

(** The state after one item has been handled. *)
Record item_handled (s : DLQRetryScheduler) (x : RetryableDeadLetterDetail) (w w1 : World) : Prop := {
  ih_closed : w_tx w1 = None;
  ih_inv : db_inv (w_db w1);
  ih_counted : has_metrics s = true → load DeadLetterAutoRetries (w_metrics w1)
    = wrap64 (load DeadLetterAutoRetries (w_metrics w) + 1);
  ih_frame : frame [RD_EventID x] (w_db w) (w_db w1);
  ih_accounted : accounted (RD_EventID x) (w_db w1);
  ih_requeued : requeued (RD_EventID x) (w_db w) (w_db w1);
}.

Lemma retry_item_calm s ctx x items Q w d :
  (0 < interval s)%Z → (interval s * 2 ≤ int64_max)%Z → (1 ≤ RD_ReplayAttempt x)%Z →
  w_tx w = None → db_inv (w_db w) → dead_letters (w_db w) !! RD_EventID x = Some d →
  (∀ w1, item_handled s x w w1 → wp (retry_items s ctx items) Q w1) →
  wp (retry_items s ctx (x :: items)) Q w.
Proof.
  intros Hi Hmax Ha Htx Hinv Hd Hnext. simpl. wp_step. apply wp_inc_if. intros w0 Hdb0 Htx0 Hm0.
  assert (has_metrics s = true → load DeadLetterAutoRetries (w_metrics w0)
    = wrap64 (load DeadLetterAutoRetries (w_metrics w) + 1)) as Hc0.
  { intros Hs. by rewrite Hm0, Hs, load_inc. }
  wp_step. rewrite <- Hdb0 in Hd, Hinv. rewrite Htx in Htx0.
  pose proof (Replay_effect ctx (RD_EventID x) w0 d Htx0 Hinv Hd) as Hrep.
  destruct (silent_ReplayDeadLetter ctx (RD_EventID x) w0) as [Hm1 _]. unfold wp in Hrep |- * at 1.
  destruct (ReplayDeadLetter ctx (RD_EventID x) w0) as [[err|] w1]; simpl in *;
    destruct Hrep as (Htx1 & Hinv1 & Hf1 & Hrest & Hrq).
  - wp_step. apply wp_inc_if. intros w2 Hdb2 Htx2 Hm2. wp_step. rewrite Hrest in *.
    apply wp_retryDelay; [done..|]. intros delay w3 Hdb3 Htx3 Hm3. wp_step.
    pose proof (Reschedule_effect ctx (RD_EventID x) err delay w3 d) as Hrs.
    rewrite Htx3, Htx2, Hdb3, Hdb2 in Hrs. specialize (Hrs Htx1 Hinv Hd). unfold wp in Hrs |- * at 1.
    destruct (silent_RescheduleWithDelay ctx (RD_EventID x) err delay w3) as [Hm4 _].
    destruct Hrs as (Htx4 & Hinv4 & Hf4 & Hev4 & Hacc4). apply Hnext.
    constructor; rewrite <- ?Hdb0; try done.
    + intros Hs. rewrite Hm4, Hm3, Hm2, Hs, load_inc, Hm1. by apply Hc0.
    + intros e He Hs. rewrite Hev4. by apply (Hrq e).
  - apply Hnext. constructor; rewrite <- ?Hdb0; try done. intros Hs. rewrite Hm1. by apply Hc0.
Qed.

Lemma retry_items_calm s ctx items w :
  (0 < interval s)%Z → (interval s * 2 ≤ int64_max)%Z →
  w_tx w = None → db_inv (w_db w) → NoDup (RD_EventID <$> items) →
  (∀ x, x ∈ items → (1 ≤ RD_ReplayAttempt x)%Z ∧ is_Some (dead_letters (w_db w) !! RD_EventID x)) →
  wp (retry_items s ctx items) (λ r w', r = Some tt ∧ retried s items w w') w.
Proof.
  intros Hi Hmax. revert w. induction items as [|x items IH]; intros w Htx Hinv Hnd Hrow.
  { simpl. wp_step. split; [done|]. constructor; try done; by intros ? []%not_elem_of_nil. }
  rewrite fmap_cons in Hnd. apply NoDup_cons in Hnd as [Hx Hnd]. destruct (Hrow x) as [Ha [d Hd]]; [left|].
  eapply retry_item_calm; [done..|]. intros w1 [Htx1 Hinv1 Hm1 Hf1 Ha1 Hr1].
  eapply wp_wand; [apply IH; [done..|]|].
  - intros y Hy. destruct (Hrow y) as [? Hd']; [by right|]. split; [done|].
    destruct (Hf1 (RD_EventID y)) as [_ ->]; [|done]. apply not_elem_of_cons.
    split; [|apply not_elem_of_nil]. intros Heq. apply Hx. rewrite <- Heq. by apply list_elem_of_fmap_2.
  - intros r w' [-> Hrt]. split; [done|]. by eapply retried_cons.
Qed.

(** C29: a round of the scheduler loses no dead letter.  Without failures, and
    for an interval that can be doubled, a round over the dead letters it has
    claimed ends without a panic, keeps the invariant of the tables, counts one
    automatic retry per item, and for every item: the event is queued again if
    it had failed, and the dead letter is either replayed or has its next
    attempt scheduled; no event and no dead letter outside the claimed ones
    changes after the claim. *)
Theorem retry_round s ctx w items :
  (0 < interval s)%Z → (interval s * 2 ≤ int64_max)%Z → w_tx w = None → db_inv (w_db w) →
  let claim := ClaimRetryableDeadLetterDetails ctx 10 (maxAttempts s) w in
  claim.1 = Ok items →
  (retry s ctx w).1 = Some tt ∧ retried s items claim.2 (retry s ctx w).2.
Proof.
  intros Hi Hmax Htx Hinv claim Hok.
  pose proof (ClaimRetryableDeadLetterDetails_spec ctx 10 (maxAttempts s) w items Hok) as Hcl.
  assert (evolves (keeps db_inv) (ClaimRetryableDeadLetterDetails ctx 10 (maxAttempts s))) as Hev.
  { unfold ClaimRetryableDeadLetterDetails. solve_evolves. intros HQ. by apply db_inv_invariant. }
  destruct (Hev w Htx) as [Htx1 Hinv1]. specialize (Hinv1 Hinv). fold claim in Hcl, Htx1, Hinv1.
  unfold retry. rewrite M_bind_run. fold claim. rewrite Hok.
  apply retry_items_calm; [done..|apply (dc_distinct _ _ _ _ _ _ _ Hcl)|].
  intros x Hx. destruct (dc_row _ _ _ _ _ _ _ Hcl x Hx) as (d & Hd & _ & _ & Hd' & ->).
  split; [|by rewrite Hd'; eexists]. pose proof (ok_replay_attempts _ (wf_dead _ (proj1 Hinv) _ _ Hd)). lia.
Qed.

End Round.

(** ** On a concrete run *)

Definition scheduler_1 : DLQRetryScheduler := mkScheduler 60000000000 3 true.

Lemma retryDelay_bounds_witness :
  let _ := calm_env 1000 in
  ∃ d, (retryDelay scheduler_1 3 empty_world).1 = Some d ∧ (240000000000 ≤ d ≤ 300000000000)%Z.
Proof.
  intros E. destruct (retryDelay_bounds (E := E) scheduler_1 3 empty_world) as (d & Hd & Hb);
    [reflexivity|vm_compute; discriminate|lia|].
  exists d. split; [exact Hd|]. rewrite decide_False in Hb; [exact Hb|].
  intros [_ Hday]. apply Hday. reflexivity.
Defined.

Lemma retry_round_witness :
  let _ := calm_env 2000 in
  (retry scheduler_1 Cancellable world_dead).1 = Some tt
  ∧ accounted "evt-001" (w_db (retry scheduler_1 Cancellable world_dead).2).
Proof.
  intros E. destruct (retry_round (E := E) (calm_env_no_faults _) scheduler_1 Cancellable world_dead
    [mkRetryable "evt-001" 1]) as [Hr Hrt].
  - reflexivity.
  - vm_compute. discriminate.
  - apply world_dead_inv.
  - apply world_dead_inv.
  - vm_compute. reflexivity.
  - split; [exact Hr|]. exact (rt_accounted _ _ _ _ Hrt (mkRetryable "evt-001" 1) ltac:(left)).
Defined.

Lemma scheduler_never_panics_witness :
  let _ := calm_env 2000 in
  (scheduler_run (NewDLQRetryScheduler config_1) Cancellable [Ticked; Ticked; Stopped] world_dead).1
  = Some true.
Proof.
  intros E. exact (scheduler_never_panics (E := E) (NewDLQRetryScheduler config_1) Cancellable
    [Ticked; Ticked; Stopped] world_dead ltac:(vm_compute; reflexivity) ltac:(vm_compute; discriminate)).
Defined.
