(* ===== verification/Prometheus.v ===== *)
(** * metrics_prometheus.go and metrics-prometheus-extra.go

    The text exposition of the counters and gauges, with the two ratios
    computed in float64 arithmetic and printed with six decimals. *)

From stdpp Require Import base gmap strings list pretty.
From Stdlib Require Import ZArith Lia Ascii SpecFloat.
From S2P Require Import Prelude GoLib Models Metrics.

Definition newline : string := String (ascii_of_nat 10) EmptyString.

(** One metric with its two comment lines. *)
Definition write_metric (kind name help : string) (value : Z) : string :=
  "# HELP " +:+ name +:+ " " +:+ help +:+ newline +:+
  "# TYPE " +:+ name +:+ " " +:+ kind +:+ newline +:+
  name +:+ " " +:+ pretty value +:+ newline.

Definition writeCounter := write_metric "counter".
Definition writeGauge := write_metric "gauge".

(** The metrics in the order they are written: kind, name, help and value. *)
Definition metric_lines (m : Metrics) (queueLength queueCapacity : Z)
    : list (string * string * string * Z) :=
  let s := Snapshot m queueLength queueCapacity in
  let l := processingLatency m in
  [("counter", "webhook_events_queued_total", "Events accepted into the outbox.", MR_EventsQueued s);
   ("counter", "webhook_events_rejected_total", "Events rejected by the API.", MR_EventsRejected s);
   ("counter", "webhook_events_duplicated_total", "Duplicate events rejected by the API.", MR_EventsDuplicated s);
   ("counter", "webhook_events_processed_total", "Events processed successfully.", MR_EventsProcessed s);
   ("counter", "webhook_events_failed_permanent_total", "Events that reached permanent failure.", MR_EventsFailedPermanent s);
   ("counter", "webhook_event_retries_total", "Event processing retries.", MR_EventRetries s);
   ("counter", "webhook_dead_letter_replays_total", "Dead letters replayed manually.", MR_DeadLetterReplays s);
   ("counter", "webhook_dead_letter_replay_rejected_total", "Rejected dead letter replay requests.", MR_DeadLetterReplayRejected s);
   ("counter", "webhook_dead_letter_auto_retries_total", "Dead letters replayed automatically.", MR_DeadLetterAutoRetries s);
   ("counter", "webhook_dead_letter_auto_retry_failed_total", "Failed automatic dead letter replays.", MR_DeadLetterAutoRetryFailed s);
   ("gauge", "webhook_queue_length", "Current in-process queue length.", MR_QueueLength s);
   ("gauge", "webhook_queue_capacity", "Configured in-process queue capacity.", MR_QueueCapacity s);
   ("counter", "webhook_event_processing_duration_nanoseconds_total", "Total event processing duration in nanoseconds.", sumNS l);
   ("counter", "webhook_event_processing_attempts_total", "Total event processing attempts measured for latency.", count l);
   ("gauge", "webhook_event_processing_duration_nanoseconds_max", "Maximum observed event processing duration in nanoseconds.", maxNS l)].

Definition write_line (line : string * string * string * Z) : string :=
  let '(kind, name, help, value) := line in write_metric kind name help value.

Definition Prometheus_ (m : Metrics) (queueLength queueCapacity : Z) : string :=
  foldr (λ line text, write_line line +:+ text) "" (metric_lines m queueLength queueCapacity).

(** ** The ratios *)

(** [float64(n)]: round to nearest, ties to even. *)
Definition float64_of_int (n : Z) : spec_float := binary_normalize 53 1024 n 0 false.

(** The digits of [n], padded with zeros to [width]. *)
Definition zero_padded (width : nat) (n : Z) : string :=
  let digits := pretty (Z.to_N n) in
  String.string_of_list_ascii
    (replicate (width - String.length digits) "0"%char ++ String.list_ascii_of_string digits).

(** [%.6f] of a finite value. *)
Definition format_6f (f : spec_float) : string :=
  let fixed (sign : bool) (millionths : Z) :=
    (if sign then "-" else "") +:+ pretty (Z.to_N (millionths / 1000000)) +:+ "."
    +:+ zero_padded 6 (millionths mod 1000000) in
  match f with
  | S754_zero s => fixed s 0%Z
  | S754_finite s m e =>
      fixed s (if (0 <=? e)%Z then Z.pos m * 2 ^ e * 1000000
               else round_half_even (Z.pos m * 1000000) (2 ^ (- e)))%Z
  | S754_infinity s => (if s then "-" else "+") +:+ "Inf"
  | S754_nan => "NaN"
  end.

Definition ratio (numerator denominator : Z) : string :=
  if (denominator =? 0)%Z then "0"
  else format_6f (SFdiv 53 1024 (float64_of_int numerator) (float64_of_int denominator)).

(** OperationalMetrics: the pending outbox messages and dead letters. *)
Definition PrometheusWithOperationalMetrics (m : Metrics) (queueLength queueCapacity : Z)
    (operational : Z * Z) : string :=
  let help_gauge name help value :=
    "# HELP " +:+ name +:+ " " +:+ help +:+ newline +:+
    "# TYPE " +:+ name +:+ " gauge" +:+ newline +:+ name +:+ " " +:+ value +:+ newline in
  Prometheus_ m queueLength queueCapacity +:+
  help_gauge "webhook_outbox_pending_messages" "Current unpublished Outbox messages."
    (pretty (fst operational)) +:+
  help_gauge "webhook_dead_letters_pending" "Current unreplayed dead letters."
    (pretty (snd operational)) +:+
  help_gauge "webhook_events_rejection_ratio" "Rejected events divided by accepted and rejected events."
    (ratio (load EventsRejected m) (wrap64 (load EventsQueued m + load EventsRejected m))) +:+
  help_gauge "webhook_events_failure_ratio" "Permanently failed events divided by processed and failed events."
    (ratio (load EventsFailedPermanent m)
       (wrap64 (load EventsProcessed m + load EventsFailedPermanent m))).

Example ratio_third : ratio 1 3 = "0.333333".
Proof. vm_compute. reflexivity. Qed.
Example ratio_tie : ratio 1 128 = "0.007812".
Proof. vm_compute. reflexivity. Qed.
Example ratio_whole : ratio 7 7 = "1.000000".
Proof. vm_compute. reflexivity. Qed.
