(* ===== verification/Http.v ===== *)
(** * The fragment of net/http the service uses

    Headers with canonical keys, requests and responses, and the patterns of
    the multiplexer (a method and literal path segments, one of which may be a
    wildcard). *)

From stdpp Require Import base gmap strings list.
From Stdlib Require Import ZArith Lia Ascii.
From S2P Require Import Prelude GoLib Models Metrics.

(** ** Headers *)

Definition is_upper (c : ascii) : bool := (65 <=? nat_of_ascii c) && (nat_of_ascii c <=? 90).
Definition is_lower (c : ascii) : bool := (97 <=? nat_of_ascii c) && (nat_of_ascii c <=? 122).
Definition to_upper (c : ascii) : ascii := if is_lower c then ascii_of_nat (nat_of_ascii c - 32) else c.
Definition to_lower (c : ascii) : ascii := if is_upper c then ascii_of_nat (nat_of_ascii c + 32) else c.

(** The bytes of a header name (RFC 7230 tokens). *)
Definition token_byte (c : ascii) : bool :=
  is_upper c || is_lower c || ((48 <=? nat_of_ascii c) && (nat_of_ascii c <=? 57))
  || existsb (Ascii.eqb c) (String.list_ascii_of_string "!#$%&'*+-.^_`|~").

Fixpoint canonical_from (upper : bool) (s : string) : string :=
  match s with
  | EmptyString => EmptyString
  | String c s =>
      String (if upper then to_upper c else to_lower c) (canonical_from (Ascii.eqb c "-") s)
  end.

(** [textproto.CanonicalMIMEHeaderKey]: a name with an invalid byte stays as
    it is. *)
Definition CanonicalHeaderKey (s : string) : string :=
  if forallb token_byte (String.list_ascii_of_string s) then canonical_from true s else s.

Abbreviation Header := (gmap string (list string)).

Definition Header_Get (h : Header) (key : string) : string :=
  match h !! CanonicalHeaderKey key with Some (v :: _) => v | _ => "" end.

Definition Header_Set (key value : string) (h : Header) : Header :=
  <[CanonicalHeaderKey key := [value]]> h.

Lemma Header_Get_Set key value h : Header_Get (Header_Set key value h) key = value.
Proof. unfold Header_Get, Header_Set. by rewrite lookup_insert_eq. Qed.

Lemma Header_Get_Set_ne key key' value h :
  CanonicalHeaderKey key ≠ CanonicalHeaderKey key' →
  Header_Get (Header_Set key value h) key' = Header_Get h key'.
Proof. intros Hne. unfold Header_Get, Header_Set. by rewrite lookup_insert_ne. Qed.

(** ** Requests and responses *)

(** [Request_Path] is the cleaned path, one decoded segment after another. *)
Record Request := mkRequest {
  Request_Method : string;
  Request_Path : list string;
  Request_Header : Header;
  Request_Body : string;
}.

(** HealthResponse (models.go); the two formatted times are the instants. *)
Record HealthResponse := mkHealth {
  Health_Status : string;
  Health_Time : Z;
  Health_Date : Z;
  Health_QueueLength : Z;
  Health_QueueCapacity : Z;
}.

(** The values the handlers encode as JSON, and the Prometheus text. *)
Inductive Body :=
| BError (message : string)
| BAccepted (eventId : string)
| BReplayAccepted (eventId status : string)
| BReadiness (status : string) (error : option string)
| BHealth (health : HealthResponse)
| BMetrics (metrics : MetricsResponse)
| BDeadLetters (deadLetters : DeadLetterResponse)
| BText (text : string)
| BEmpty.

Record Response := mkResponse {
  Response_Code : Z;
  Response_Header : Header;
  Response_Body : Body;
}.

Definition StatusOK : Z := 200.
Definition StatusAccepted : Z := 202.
Definition StatusBadRequest : Z := 400.
Definition StatusUnauthorized : Z := 401.
Definition StatusNotFound : Z := 404.
Definition StatusMethodNotAllowed : Z := 405.
Definition StatusConflict : Z := 409.
Definition StatusInternalServerError : Z := 500.
Definition StatusServiceUnavailable : Z := 503.

(** writeJSON, on the header [w.Header()] holds. *)
Definition writeJSON (header : Header) (statusCode : Z) (body : Body) : Response :=
  mkResponse statusCode (Header_Set "Content-Type" "application/json" header) body.

Definition writeError (header : Header) (statusCode : Z) (message : string) : Response :=
  writeJSON header statusCode (BError message).

(** ** The multiplexer *)

Inductive Segment := Literal (s : string) | Wildcard (name : string).

Record Pattern := mkPattern { pattern_method : string; pattern_path : list Segment }.

(** The values of the wildcards when the path matches. *)
Fixpoint match_path (pattern : list Segment) (path : list string) : option (list (string * string)) :=
  match pattern, path with
  | [], [] => Some []
  | Literal s :: pattern, t :: path =>
      if bool_decide (s = t) then match_path pattern path else None
  | Wildcard name :: pattern, t :: path =>
      values ← match_path pattern path; Some ((name, t) :: values)
  | _, _ => None
  end.

(** A GET pattern also answers HEAD. *)
Definition match_method (pattern method : string) : bool :=
  bool_decide (pattern = method)
  || (bool_decide (pattern = "GET") && bool_decide (method = "HEAD")).

Inductive Routed (H : Type) :=
| Found (handler : H) (values : list (string * string))
| MethodNotAllowed
| NotFound.
Arguments Found {H}. Arguments MethodNotAllowed {H}. Arguments NotFound {H}.

(** The patterns of this service have distinct paths, so the first that
    matches is the only one. *)
Fixpoint route {H} (patterns : list (Pattern * H)) (method : string) (path : list string)
    (path_matched : bool) : Routed H :=
  match patterns with
  | [] => if path_matched then MethodNotAllowed else NotFound
  | (p, h) :: patterns =>
      match match_path (pattern_path p) path with
      | Some values =>
          if match_method (pattern_method p) method then Found h values
          else route patterns method path true
      | None => route patterns method path path_matched
      end
  end.

(** [r.PathValue(name)]. *)
Definition PathValue (values : list (string * string)) (name : string) : string :=
  match list_find (λ nv, nv.1 = name) values with Some (_, (_, v)) => v | None => "" end.
