(* ===== verification/Handlers.v ===== *)
(** * handlers.go, prometheus-handler.go, request_id.go, app.go, commands.go

    The HTTP handlers over the event store, the request id middleware, the
    routes, and the command line.  A handler takes the header the middleware
    has prepared for the response, the request and the wildcards of its path. *)

From stdpp Require Import base gmap strings list pretty.
From Stdlib Require Import ZArith Lia Ascii.
From S2P Require Import Prelude GoLib Config Models Metrics Sql Database DbInvariant World Scenario.
From S2P Require Import EventStore StoreLogic StoreProps StoreProcessing StoreDead DeadLetters.
From S2P Require Import Prometheus Http Json.

Open Scope go_scope.

#[local] Arguments load : simpl never.

(** The queue's [Stats] at each reading; the quoting of [%q]; the error of a
    write to [os.Stdout] at the n-th interaction ([None] is nil). *)
Class Front := {
  queue_stats : nat → QueueStats;
  quote : string → string;
  stdout_error : nat → option string;
}.

(** The fields of App besides the store, the queue and the metrics. *)
Record App := mkApp {
  app_config : Config;
  app_deadLetters : PersistentDeadLetterStore;
}.

Definition NewApp (config : Config) : App :=
  mkApp config (NewPersistentDeadLetterStore (DeadLetterCapacity config)).

Section Handlers.
Context `{E : Env} `{C : JsonCodec} `{F : Front}.
Implicit Types header : Header.

Definition Stats : M QueueStats := λ w, (queue_stats (w_tick w), tick w).

Definition get_metrics : M Metrics := λ w, (w_metrics w, w).

(** [store.db.PingContext]. *)
Definition PingContext (ctx : Ctx) : M (result unit) := db_call ctx (λ _ db, (Some tt, db)).

Definition healthHandler header : M Response :=
  queueStats ← Stats;
  now1 ← time_now;
  now2 ← time_now;
  mret (writeJSON header StatusOK
    (BHealth (mkHealth "ok" now1 now2 (Stats_Length queueStats) (Stats_Capacity queueStats)))).

Definition readinessHandler header : M Response :=
  _ ←! PingContext Cancellable
    orelse (λ _, mret (writeJSON header StatusServiceUnavailable
                         (BReadiness "not_ready" (Some "database unavailable"))));
  mret (writeJSON header StatusOK (BReadiness "ready" None)).

Definition metricsHandler header : M Response :=
  queueStats ← Stats;
  metrics ← get_metrics;
  mret (writeJSON header StatusOK
    (BMetrics (Snapshot metrics (Stats_Length queueStats) (Stats_Capacity queueStats)))).

Definition prometheusMetricsHandler header : M Response :=
  queueStats ← Stats;
  operational ←! OperationalMetrics Cancellable
    orelse (λ _, mret (writeError header StatusServiceUnavailable "metrics unavailable"));
  metrics ← get_metrics;
  mret (mkResponse StatusOK
    (Header_Set "Content-Type" "text/plain; version=0.0.4; charset=utf-8" header)
    (BText (PrometheusWithOperationalMetrics metrics (Stats_Length queueStats)
              (Stats_Capacity queueStats) operational))).

Definition deadLettersHandler (app : App) header : M Response :=
  response ←! Persistent_Snapshot (app_deadLetters app) Cancellable
    orelse (λ _, mret (writeError header StatusInternalServerError "failed to list dead letters"));
  mret (writeJSON header StatusOK (BDeadLetters response)).

Definition rejectReplay header (code : Z) (message : string) : M Response :=
  inc_metric DeadLetterReplayRejected;;
  mret (writeError header code message).

(** The token of the Authorization header, empty without the bearer prefix. *)
Definition providedToken (r : Request) : string :=
  let authorization := Header_Get (Request_Header r) "Authorization" in
  if HasPrefix authorization "Bearer " then TrimSpace (TrimPrefix authorization "Bearer ") else "".

Definition replayDeadLetterHandler (app : App) header (r : Request) (values : list (string * string))
    : M Response :=
  if bool_decide (DLQReplayToken (app_config app) = "") then
    rejectReplay header StatusServiceUnavailable "dead letter replay is not configured"
  else if negb (ConstantTimeCompare (providedToken r) (DLQReplayToken (app_config app)) =? 1)%Z then
    rejectReplay header StatusUnauthorized "unauthorized"
  else
    let eventID := TrimSpace (PathValue values "eventID") in
    if bool_decide (eventID = "") then
      rejectReplay header StatusBadRequest "event id is required"
    else
      check ReplayDeadLetter Cancellable eventID orelse (λ err,
        if errors_is err ErrDeadLetterNotFound then
          rejectReplay header StatusNotFound "dead letter not found"
        else if errors_is err ErrDeadLetterNotFailed then
          rejectReplay header StatusConflict "event is not failed"
        else rejectReplay header StatusInternalServerError "failed to replay dead letter");
      inc_metric DeadLetterReplays;;
      mret (writeJSON header StatusAccepted (BReplayAccepted eventID EventStatusQueued)).

Definition rejectEvent header (code : Z) (message : string) : M Response :=
  inc_metric EventsRejected;;
  mret (writeError header code message).

Definition createEventHandler header (r : Request) : M Response :=
  match decode_event (Request_Body r) with
  | None => rejectEvent header StatusBadRequest "invalid JSON body"
  | Some event =>
      if bool_decide (Event_ID event = "") then
        rejectEvent header StatusBadRequest "id is required"
      else if bool_decide (Event_Type event = "") then
        rejectEvent header StatusBadRequest "type is required"
      else
        let event := mkEvent (Event_ID event) (Event_Type event)
                       (Header_Get (Request_Header r) "X-Request-ID") (Event_Payload event) in
        check SaveQueuedWithOutbox Cancellable event orelse (λ err,
          inc_metric EventsRejected;;
          if errors_is err ErrEventAlreadyExists then
            inc_metric EventsDuplicated;;
            mret (writeError header StatusConflict "duplicate event id")
          else mret (writeError header StatusInternalServerError "failed to persist event"));
        mret (writeJSON header StatusAccepted (BAccepted (Event_ID event)))
  end.

(** ** request_id.go *)

Definition newRequestID : M string :=
  bytes ← rand_read;
  mret (match bytes with Ok b => EncodeToString b | Err _ => "request-unknown" end).

Definition requestIDMiddleware (next : Header → Request → M Response) (r : Request) : M Response :=
  let given := Header_Get (Request_Header r) "X-Request-ID" in
  requestID ← (if bool_decide (given = "") then newRequestID else mret given);
  let r' := mkRequest (Request_Method r) (Request_Path r)
              (Header_Set "X-Request-ID" requestID (Request_Header r)) (Request_Body r) in
  _ ← time_now;
  response ← next (Header_Set "X-Request-ID" requestID ∅) r';
  _ ← time_now;
  mret response.

(** ** app.go *)

Definition handlers (app : App)
    : list (Pattern * (Header → Request → list (string * string) → M Response)) :=
  [(mkPattern "GET" [Literal "health"], λ h _ _, healthHandler h);
   (mkPattern "GET" [Literal "ready"], λ h _ _, readinessHandler h);
   (mkPattern "GET" [Literal "metrics"], λ h _ _, metricsHandler h);
   (mkPattern "GET" [Literal "metrics"; Literal "prometheus"], λ h _ _, prometheusMetricsHandler h);
   (mkPattern "GET" [Literal "dead-letters"], λ h _ _, deadLettersHandler app h);
   (mkPattern "POST" [Literal "internal"; Literal "dead-letters"; Wildcard "eventID"; Literal "replay"],
    λ h r values, replayDeadLetterHandler app h r values);
   (mkPattern "POST" [Literal "events"], λ h r _, createEventHandler h r)].

Definition mux (app : App) (header : Header) (r : Request) : M Response :=
  match route (handlers app) (Request_Method r) (Request_Path r) false with
  | Found handler values => handler header r values
  | MethodNotAllowed => mret (mkResponse StatusMethodNotAllowed header BEmpty)
  | NotFound => mret (mkResponse StatusNotFound header BEmpty)
  end.

Definition routes (app : App) : Request → M Response := requestIDMiddleware (mux app).

(** ** commands.go *)

Inductive CommandOutput := Replayed (eventID : string).

(** [json.NewEncoder(os.Stdout).Encode] of a map that can be encoded. *)
Definition encode_stdout : M (option GoError) := λ w, (ErrMsg <$> stdout_error (w_tick w), tick w).

(** Whether a command was handled, its error, and what it prints. *)
Definition runCommand (ctx : Ctx) (args : list string)
    : M (bool * option GoError * option CommandOutput) :=
  match args with
  | [] => mret (false, None, None)
  | command :: rest =>
      if bool_decide (command = "replay-dead-letter") then
        match rest with
        | [arg] =>
            if bool_decide (TrimSpace arg = "") then
              mret (true, Some (ErrMsg "uso: go run . replay-dead-letter <event-id>"), None)
            else
              let eventID := TrimSpace arg in
              check ReplayDeadLetter ctx eventID orelse (λ err, mret (true, Some err, None));
              check encode_stdout orelse (λ err, mret (true, Some err, None));
              mret (true, None, Some (Replayed eventID))
        | _ => mret (true, Some (ErrMsg "uso: go run . replay-dead-letter <event-id>"), None)
        end
      else
        mret (true, Some (ErrMsg ("comando desconhecido " +:+ quote command +:+
          "; uso: go run . migrate ou go run . replay-dead-letter <event-id>")), None)
  end.

End Handlers.

(** ** Accepting events *)

(** Events, outbox and dead letters are the same. *)
Definition same_tables (db db' : Database) : Prop :=
  events db' = events db ∧ outbox db' = outbox db ∧ dead_letters db' = dead_letters db.

(** The event and its outbox row have been added. *)
Definition accepted `{JsonCodec} (ev : Event) (db db' : Database) : Prop :=
  events db !! Event_ID ev = None ∧ ∃ payload now i,
    json_marshal (Event_Payload ev) = inr payload ∧ outbox db !! i = None
    ∧ events db' = <[Event_ID ev := new_event_row ev payload now]> (events db)
    ∧ outbox db' = <[i := new_outbox_row ev payload now]> (outbox db)
    ∧ dead_letters db' = dead_letters db.

Definition with_request_id (rid : string) (ev : Event) : Event :=
  mkEvent (Event_ID ev) (Event_Type ev) rid (Event_Payload ev).

Section CreateEvent.
Context `{E : Env} `{C : JsonCodec} `{F : Front}.

Lemma saved_accepted ev payload now db :
  db_wf db → events db !! Event_ID ev = None → json_marshal (Event_Payload ev) = inr payload →
  accepted ev db (saved ev payload now db).
Proof.
  intros Hwf Hnew Hj. split; [done|]. exists payload, now, (outbox_seq db). rewrite saved_eval by done.
  split_and!; try done. destruct (outbox db !! outbox_seq db) eqn:Eo; [|done].
  apply (wf_ids _ Hwf) in Eo. lia.
Qed.

(** The answers of the handler, with what each means for the tables and the
    counters. *)
Inductive create_outcome (r : Request) (w : World) : Z → World → Prop :=
| create_accepted ev w' :
    decode_event (Request_Body r) = Some ev → Event_ID ev ≠ "" → Event_Type ev ≠ "" →
    accepted (with_request_id (Header_Get (Request_Header r) "X-Request-ID") ev) (w_db w) (w_db w') →
    w_metrics w' = w_metrics w → create_outcome r w StatusAccepted w'
| create_invalid w' :
    (∀ ev, decode_event (Request_Body r) = Some ev → Event_ID ev = "" ∨ Event_Type ev = "") →
    w_db w' = w_db w → w_metrics w' = inc EventsRejected (w_metrics w) →
    create_outcome r w StatusBadRequest w'
| create_duplicate ev w' :
    decode_event (Request_Body r) = Some ev → is_Some (events (w_db w) !! Event_ID ev) →
    same_tables (w_db w) (w_db w') →
    w_metrics w' = inc EventsDuplicated (inc EventsRejected (w_metrics w)) →
    create_outcome r w StatusConflict w'
| create_failed ev w' :
    decode_event (Request_Body r) = Some ev →
    same_tables (w_db w) (w_db w')
    ∨ accepted (with_request_id (Header_Get (Request_Header r) "X-Request-ID") ev) (w_db w) (w_db w') →
    (no_faults → ∃ msg, json_marshal (Event_Payload ev) = inl msg) →
    w_metrics w' = inc EventsRejected (w_metrics w) →
    create_outcome r w StatusInternalServerError w'.

Lemma createEventHandler_spec header r w :
  w_tx w = None → db_wf (w_db w) →
  wp (createEventHandler header r) (λ resp w',
    w_tx w' = None ∧ create_outcome r w (Response_Code resp) w'
    ∧ Response_Header resp = Header_Set "Content-Type" "application/json" header) w.
Proof.
  intros Htx Hwf. unfold createEventHandler, rejectEvent.
  destruct (decode_event (Request_Body r)) as [ev|] eqn:Ed.
  2:{ wp_steps. split_and!; [done| |done]. apply create_invalid; [|done..]. congruence. }
  case_bool_decide as Hid; [|case_bool_decide as Hty].
  1,2: wp_steps; split_and!; [done| |done]; apply create_invalid; [|done..]; intros ev'; rewrite Ed; intros [= <-]; tauto.
  set (ev' := mkEvent _ _ _ _). apply wp_check.
  pose proof (SaveQueuedWithOutbox_outcome Cancellable ev' w Htx Hwf) as [Htx' Ho].
  destruct (silent_SaveQueuedWithOutbox Cancellable ev' w) as [Hm _]. unfold wp at 1.
  destruct (SaveQueuedWithOutbox Cancellable ev' w) as [res w']. simpl in *.
  assert (same_tables (w_db w) (w_db w)) as Hsame by done.
  inversion Ho as [payload now Hj Hnew|payload now e Hj Hnew Hns Hf|Hdup|e seq Hns Hf]; subst; simpl.
  - wp_step. split_and!; [done| |done]. eapply create_accepted; [done..| |done].
    match goal with H : _ = w_db w' |- _ => rewrite <- H end. by apply saved_accepted.
  - wp_step. wp_step. rewrite Hns. wp_step. split_and!; [done| |done].
    eapply create_failed; [done| |by intros|by simpl; rewrite Hm]. right. simpl.
    match goal with H : _ = w_db w' |- _ => rewrite <- H end. by apply saved_accepted.
  - wp_steps. split_and!; [done| |done]. eapply create_duplicate; [done|done| |by simpl; rewrite Hm].
    simpl. by match goal with H : _ = w_db w' |- _ => rewrite <- H end.
  - wp_step. wp_step. rewrite Hns. wp_step. split_and!; [done| |done].
    eapply create_failed; [done| |done|by simpl; rewrite Hm]. left. simpl.
    by match goal with H : _ = w_db w' |- _ => rewrite <- H end.
Qed.

(** C26: what POST /events answers, under any failures.  202 only when the
    decoded event has an id and a type, the id was free, and the event and its
    outbox row are stored with the request id; 400 exactly for a body that
    does not decode to such an event, with nothing stored; 409 only for an id
    that is taken, with nothing stored; otherwise 500, which without failures
    means that the payload cannot be encoded.  Every refusal is counted once as
    rejected, and a duplicate once more as such. *)
Theorem createEventHandler_answers header r w :
  w_tx w = None → db_wf (w_db w) →
  create_outcome r w (Response_Code (createEventHandler header r w).1) (createEventHandler header r w).2.
Proof. intros Htx Hwf. apply (createEventHandler_spec header r w Htx Hwf). Qed.

End CreateEvent.

(** ** Manual replay *)

Section Replay.
Context `{E : Env} `{C : JsonCodec} `{F : Front}.

(** The request carries the configured bearer token. *)
Definition authorized (app : App) (r : Request) : Prop :=
  let authorization := Header_Get (Request_Header r) "Authorization" in
  DLQReplayToken (app_config app) ≠ ""
  ∧ HasPrefix authorization "Bearer " = true
  ∧ TrimSpace (TrimPrefix authorization "Bearer ") = DLQReplayToken (app_config app).

Lemma token_check app r :
  DLQReplayToken (app_config app) ≠ "" →
  negb (ConstantTimeCompare (providedToken r) (DLQReplayToken (app_config app)) =? 1)%Z = false
  ↔ authorized app r.
Proof.
  intros Hne. rewrite negb_false_iff, Z.eqb_eq, ConstantTimeCompare_spec. unfold providedToken, authorized.
  destruct (HasPrefix _ _); naive_solver.
Qed.

(** The answer of the handler, and the error of the replay if it got there. *)
Definition replay_code (app : App) (r : Request) (values : list (string * string))
    (replay : option GoError) : Z :=
  if bool_decide (DLQReplayToken (app_config app) = "") then StatusServiceUnavailable
  else if negb (ConstantTimeCompare (providedToken r) (DLQReplayToken (app_config app)) =? 1)%Z
  then StatusUnauthorized
  else if bool_decide (TrimSpace (PathValue values "eventID") = "") then StatusBadRequest
  else match replay with
       | None => StatusAccepted
       | Some err =>
           if errors_is err ErrDeadLetterNotFound then StatusNotFound
           else if errors_is err ErrDeadLetterNotFailed then StatusConflict
           else StatusInternalServerError
       end.

Lemma replayDeadLetterHandler_run app header r values w :
  let id := TrimSpace (PathValue values "eventID") in
  let replay := ReplayDeadLetter Cancellable id w in
  let resp := (replayDeadLetterHandler app header r values w).1 in
  let w' := (replayDeadLetterHandler app header r values w).2 in
  Response_Code resp = replay_code app r values replay.1
  ∧ w_metrics w' = inc (if bool_decide (Response_Code resp = StatusAccepted) then DeadLetterReplays
                        else DeadLetterReplayRejected) (w_metrics w)
  ∧ (authorized app r → w_db w' = w_db w ∨ w_db w' = w_db replay.2 ∧ id ≠ "")
  ∧ (¬ authorized app r → w_db w' = w_db w)
  ∧ (authorized app r → id ≠ "" → w_db w' = w_db replay.2).
Proof.
  intros id replay resp w'. unfold resp, w'. clear resp w'.
  unfold replayDeadLetterHandler, replay_code, rejectReplay. fold id.
  case_bool_decide as Htok; simpl.
  { split_and!; try done; [by left|]. by intros []. }
  destruct (negb _) eqn:Ecmp; simpl.
  { assert (¬ authorized app r) as Hno by (intros Hau; apply token_check in Hau; congruence).
    by split_and!. }
  assert (authorized app r) as Hau by by apply token_check.
  case_bool_decide as Hid; simpl; [by split_and!; eauto|].
  unfold M_check. rewrite M_bind_run. fold replay.
  destruct (silent_ReplayDeadLetter Cancellable id w) as [Hm _]. fold replay in Hm.
  destruct replay as [[err|] w1]; simpl in *; [repeat case_match|]; simpl; rewrite Hm;
    (split_and!; try done; by eauto).
Qed.

(** C28: only the bearer token opens the replay endpoint: without it (or when
    none is configured) no table changes, whatever the failures, the refusal is
    counted, and the answer is 503 when no token is configured and 401
    otherwise. *)
Theorem replay_needs_token app header r values w :
  ¬ authorized app r →
  let resp := (replayDeadLetterHandler app header r values w).1 in
  let w' := (replayDeadLetterHandler app header r values w).2 in
  w_db w' = w_db w ∧ w_metrics w' = inc DeadLetterReplayRejected (w_metrics w)
  ∧ Response_Code resp = if bool_decide (DLQReplayToken (app_config app) = "")
                         then StatusServiceUnavailable else StatusUnauthorized.
Proof.
  intros Hno resp w'.
  destruct (replayDeadLetterHandler_run app header r values w) as (Hcode & Hm & _ & Hsame & _).
  fold resp w' in Hcode, Hm, Hsame. unfold replay_code in Hcode.
  assert (Response_Code resp = if bool_decide (DLQReplayToken (app_config app) = "")
    then StatusServiceUnavailable else StatusUnauthorized) as Hc.
  { rewrite Hcode. destruct (bool_decide (DLQReplayToken (app_config app) = "")) eqn:Ht; [done|].
    apply bool_decide_eq_false in Ht. destruct (negb _) eqn:Ecmp; [done|]. by apply token_check in Ecmp. }
  split_and!; [by apply Hsame| |done]. rewrite Hm, Hc. f_equal. by case_bool_decide.
Qed.

(** C13: what an authorized replay of a named event answers without failures:
    202 for a failed event with a dead letter, and then the event is queued
    again; 409 for an event in another state; 404 when the event or its dead
    letter does not exist; in the last two cases nothing changes. *)
Theorem replayDeadLetterHandler_answers app header r values w :
  no_faults → w_tx w = None → db_inv (w_db w) → authorized app r →
  TrimSpace (PathValue values "eventID") ≠ "" →
  let id := TrimSpace (PathValue values "eventID") in
  let resp := (replayDeadLetterHandler app header r values w).1 in
  let db' := w_db (replayDeadLetterHandler app header r values w).2 in
  match events (w_db w) !! id, dead_letters (w_db w) !! id with
  | Some e, Some d =>
      if bool_decide (e_status e = EventStatusFailed)
      then Response_Code resp = StatusAccepted ∧ Response_Body resp = BReplayAccepted id EventStatusQueued
           ∧ ∃ now, events db' = <[id := requeued_row now e]> (events (w_db w))
      else Response_Code resp = StatusConflict ∧ db' = w_db w
  | _, _ => Response_Code resp = StatusNotFound ∧ db' = w_db w
  end.
Proof.
  intros Hnf Htx Hinv Hau Hne id resp db'.
  destruct (replayDeadLetterHandler_run app header r values w) as (Hcode & _ & _ & _ & Hdb).
  specialize (Hdb Hau Hne). fold resp id in Hcode. fold db' id in Hdb.
  pose proof Hau as [Htok _]. apply token_check in Hau; [|done]. unfold replay_code in Hcode.
  rewrite bool_decide_eq_false_2, Hau, bool_decide_eq_false_2 in Hcode by done.
  destruct (ReplayDeadLetter_outcome Cancellable id w Htx) as [_ Ho].
  assert (Response_Body resp = BReplayAccepted id EventStatusQueued
    ∨ (ReplayDeadLetter Cancellable id w).1 ≠ None) as Hbody.
  { unfold resp, replayDeadLetterHandler. rewrite bool_decide_eq_false_2, Hau by done. fold id.
    rewrite bool_decide_eq_false_2 by done. unfold M_check. rewrite M_bind_run.
    destruct (ReplayDeadLetter Cancellable id w) as [[err|] w1]; simpl; [by right|by left]. }
  destruct (ReplayDeadLetter Cancellable id w) as [res w1]. simpl in *. rewrite Hdb.
  inversion Ho as [now e d He Hd Hs|? ? ? ? ? ? ? ? ? Hf|Hn|e d He Hd Hs|? ? ? ? Hf]; subst; try done.
  - rewrite He, Hd, bool_decide_eq_true_2 by done. split_and!; [done|by destruct Hbody|].
    destruct (replayed_eval id e d now (w_db w) Hinv He Hs Hd) as (i & row & _ & _ & _ & ->). by eexists.
  - destruct Hn as [-> | ->]; [done|]. by destruct (events _ !! id).
  - rewrite He, Hd, bool_decide_eq_false_2 by done. split; [|done].
    rewrite Hcode, errors_is_wrap by done. by rewrite errors_is_wrap.
Qed.

End Replay.

(** ** The request id, end to end *)

Section RequestId.
Context `{E : Env} `{C : JsonCodec} `{F : Front}.

(** The id the middleware settles on. *)
Definition request_id (r : Request) (n : nat) : string :=
  let given := Header_Get (Request_Header r) "X-Request-ID" in
  if bool_decide (given = "") then
    match env_rand n with Some bytes => EncodeToString bytes | None => "request-unknown" end
  else given.

(** C27: the request id of POST /events, end to end through the middleware and
    the routes.  The response carries in X-Request-ID the id of the request, or
    a fresh one (the hexadecimal form of the random bytes) when it had none;
    and when the event is accepted, that same id is stored with the event and
    with its outbox row. *)
Theorem request_id_end_to_end app r w :
  w_tx w = None → db_wf (w_db w) → Request_Method r = "POST" → Request_Path r = ["events"] →
  let resp := (routes app r w).1 in
  let db' := w_db (routes app r w).2 in
  Header_Get (Response_Header resp) "X-Request-ID" = request_id r (w_tick w)
  ∧ (Response_Code resp = StatusAccepted →
     ∃ ev e i row, decode_event (Request_Body r) = Some ev
       ∧ events db' !! Event_ID ev = Some e ∧ e_request_id e = request_id r (w_tick w)
       ∧ outbox db' !! i = Some row ∧ o_event_id row = Event_ID ev
       ∧ o_request_id row = request_id r (w_tick w)).
Proof.
  intros Htx Hwf Hmeth Hpath.
  assert (wp (routes app r) (λ resp w',
    Header_Get (Response_Header resp) "X-Request-ID" = request_id r (w_tick w)
    ∧ (Response_Code resp = StatusAccepted →
       ∃ ev e i row, decode_event (Request_Body r) = Some ev
         ∧ events (w_db w') !! Event_ID ev = Some e ∧ e_request_id e = request_id r (w_tick w)
         ∧ outbox (w_db w') !! i = Some row ∧ o_event_id row = Event_ID ev
         ∧ o_request_id row = request_id r (w_tick w))) w) as Hwp; [|exact Hwp].
  unfold routes, requestIDMiddleware. wp_step.
  apply (wp_wand _ (λ rid w1, rid = request_id r (w_tick w) ∧ w_db w1 = w_db w ∧ w_tx w1 = None)).
  { unfold request_id. case_bool_decide; [|by wp_step]. unfold newRequestID.
    do 2 wp_step; wp_step; match goal with H : env_rand _ = _ |- _ => rewrite H end; done. }
  intros rid w1 (-> & Hdb1 & Htx1). set (rid := request_id r (w_tick w)). do 3 wp_step.
  unfold mux. simpl. rewrite Hmeth, Hpath. simpl.
  set (r' := mkRequest _ _ _ _).
  eapply wp_wand; [apply (createEventHandler_spec _ r' (tick w1)); simpl; [done|by rewrite Hdb1]|].
  intros resp w2 (Htx2 & Hout & Hhead). simpl in Hhead. do 3 wp_step. simpl. rewrite Hhead. split.
  { rewrite Header_Get_Set_ne by (vm_compute; discriminate). apply Header_Get_Set. }
  intros Hcode. rewrite Hcode in Hout. inversion Hout as [ev ? Hdec _ _ [Hnew Hacc]| | |]; subst.
  destruct Hacc as (payload & now & i & _ & _ & He & Ho & _). unfold with_request_id in *. simpl in *.
  exists ev. eexists _, i, _. rewrite He, Ho, !lookup_insert_eq. split_and!; try done; simpl;
    apply Header_Get_Set.
Qed.

(** The command line.  Without arguments nothing is handled and nothing
    happens; [replay-dead-letter] with one non-blank argument runs the replay
    of the trimmed id and reports its error, or prints the id and reports the
    error of the write; anything else is a handled error that touches nothing. *)
Theorem runCommand_cases ctx args w :
  match args with
  | [] => runCommand ctx args w = ((false, None, None), w)
  | [command; arg] =>
      if bool_decide (command = "replay-dead-letter" ∧ TrimSpace arg ≠ "")
      then
        let '(err, w1) := ReplayDeadLetter ctx (TrimSpace arg) w in
        runCommand ctx args w =
          match err, stdout_error (w_tick w1) with
          | Some e, _ => ((true, Some e, None), w1)
          | None, Some msg => ((true, Some (ErrMsg msg), None), tick w1)
          | None, None => ((true, None, Some (Replayed (TrimSpace arg))), tick w1)
          end
      else ∃ err, runCommand ctx args w = ((true, Some err, None), w)
  | _ => ∃ err, runCommand ctx args w = ((true, Some err, None), w)
  end.
Proof.
  destruct args as [|command [|arg [|arg2 rest]]]; [done|..]; unfold runCommand.
  - by case_bool_decide; eexists.
  - destruct (decide (command = "replay-dead-letter")) as [->|Hc].
    + rewrite (bool_decide_eq_true_2 (_ = _)) by done.
      destruct (decide (TrimSpace arg = "")) as [Ha|Ha].
      * rewrite bool_decide_eq_false_2, bool_decide_eq_true_2 by naive_solver. by eexists.
      * rewrite bool_decide_eq_true_2, bool_decide_eq_false_2 by done.
        unfold M_check. rewrite M_bind_run.
        destruct (ReplayDeadLetter ctx (TrimSpace arg) w) as [[err|] w1]; simpl; [done|].
        rewrite M_bind_run. simpl. by destruct (stdout_error (w_tick w1)).
    + rewrite !bool_decide_eq_false_2 by naive_solver. by eexists.
  - by case_bool_decide; eexists.
Qed.

End RequestId.

(** ** On a concrete run *)

Definition front_1 : Front := {|
  queue_stats := λ _, mkQueueStats 0 10;
  quote := λ s, s;
  stdout_error := λ _, None;
|}.

Definition post_event : Request := mkRequest "POST" ["events"] ∅ (body_of (mkEvent "evt-002" "payment.created" "" (Some []))).

Definition post_replay (token : string) : Request :=
  mkRequest "POST" ["internal"; "dead-letters"; "evt-001"; "replay"]
    (Header_Set "Authorization" ("Bearer " +:+ token) ∅) "".

Definition app_1 : App :=
  mkApp {| Port := "8080"; QueueSize := 10; WorkerCount := 3; ReadHeaderTimeoutSeconds := 5;
    ShutdownTimeoutSeconds := 10; LogFormat := "json"; MaxRetries := 2; RetryBackoffSeconds := 1;
    DeadLetterCapacity := 100; DatabaseURL := ""; DLQReplayToken := "secret";
    DLQAutoRetryEnabled := true; DLQAutoRetryIntervalSeconds := 60; DLQAutoRetryMaxAttempts := 3;
    RabbitMQURL := ""; RabbitMQQueue := "webhook.events"; RabbitMQReconnectMs := 1000;
    RabbitMQConnectTimeoutMs := 5000; OutboxPollIntervalMs := 500; OutboxBatchSize := 100;
    OutboxDispatchLeaseSeconds := 30; ProcessingLeaseSeconds := 300; ProcessingRequeueDelayMs := 1000 |}
    (NewPersistentDeadLetterStore 100).

Lemma createEventHandler_answers_witness :
  let _ := calm_env 1000 in let _ := simple_codec in
  create_outcome post_event world_saved 202 (createEventHandler ∅ post_event world_saved).2
  ∧ create_outcome (mkRequest "POST" ["events"] ∅ "{") world_saved 400
      (createEventHandler ∅ (mkRequest "POST" ["events"] ∅ "{") world_saved).2.
Proof.
  intros E C. split.
  - exact (createEventHandler_answers (E := E) (C := C) ∅ post_event world_saved
      (proj1 world_saved_inv) (proj1 (proj2 world_saved_inv))).
  - exact (createEventHandler_answers (E := E) (C := C) ∅ (mkRequest "POST" ["events"] ∅ "{")
      world_saved (proj1 world_saved_inv) (proj1 (proj2 world_saved_inv))).
Defined.

Lemma authorized_1 : authorized app_1 (post_replay "secret").
Proof. split; [discriminate|]. split; vm_compute; reflexivity. Qed.

Lemma unauthorized_1 : ¬ authorized app_1 (post_replay "guess").
Proof. intros (_ & _ & H). vm_compute in H. discriminate. Qed.

Lemma replay_needs_token_witness :
  let _ := calm_env 2000 in
  w_db (replayDeadLetterHandler app_1 ∅ (post_replay "guess") [("eventID", "evt-001")] world_dead).2
  = w_db world_dead.
Proof.
  intros E. exact (proj1 (replay_needs_token (E := E) app_1 ∅ (post_replay "guess") [("eventID", "evt-001")]
    world_dead unauthorized_1)).
Defined.

Lemma replayDeadLetterHandler_answers_witness :
  let _ := calm_env 2000 in
  Response_Code (replayDeadLetterHandler app_1 ∅ (post_replay "secret") [("eventID", "evt-001")] world_dead).1
  = 202%Z.
Proof.
  intros E. pose proof (replayDeadLetterHandler_answers (E := E) app_1 ∅ (post_replay "secret")
    [("eventID", "evt-001")] world_dead (calm_env_no_faults _) (proj1 world_dead_inv) (proj2 world_dead_inv)
    authorized_1 ltac:(vm_compute; discriminate)) as H.
  vm_compute in H. destruct H as [H _]. vm_compute. exact H.
Defined.

Lemma request_id_end_to_end_witness :
  let _ := calm_env 1000 in let _ := simple_codec in let _ := front_1 in
  Header_Get (Response_Header (routes app_1 post_event world_saved).1) "X-Request-ID"
  = "00000000000000000000000000000000".
Proof.
  intros E C F.
  exact (proj1 (request_id_end_to_end (E := E) (C := C) (F := F) app_1 post_event world_saved
    (proj1 world_saved_inv) (proj1 (proj2 world_saved_inv)) eq_refl eq_refl)).
Defined.
