(* ===== verification/EndToEnd.v ===== *)
(** * From the request to the worker

    The encodings and the components composed: what a client posts is what the
    dispatcher claims, and what a worker is given once the broker delivers it. *)

From stdpp Require Import base gmap strings list pretty.
From Stdlib Require Import ZArith Lia Ascii SpecFloat.
From S2P Require Import Prelude GoLib Config Models JsonNum Json JsonProps Metrics Sql Database DbInvariant World Scenario.
From S2P Require Import EventStore StoreLogic StoreProps StoreOutbox RabbitMQ Http Handlers.

Open Scope go_scope.

Section EndToEnd.
Context `{E : Env} (json_error_text : string → string).
#[local] Instance go_json : JsonCodec := json_codec json_error_text.
#[local] Instance go_json_ok : JsonCodecOk go_json := json_codec_ok json_error_text.

(** An accepted request leaves the world as the store does. *)
Lemma createEventHandler_saves header r ev w :
  decode_event (Request_Body r) = Some ev → Event_ID ev ≠ "" → Event_Type ev ≠ "" →
  let saved := SaveQueuedWithOutbox Cancellable (with_request_id (Header_Get (Request_Header r) "X-Request-ID") ev) w in
  saved.1 = None →
  Response_Code (createEventHandler header r w).1 = StatusAccepted ∧ (createEventHandler header r w).2 = saved.2.
Proof.
  intros Hdec Hid Hty saved Hok. unfold createEventHandler. rewrite Hdec, !bool_decide_eq_false_2 by done.
  fold (with_request_id (Header_Get (Request_Header r) "X-Request-ID") ev).
  unfold M_check. rewrite M_bind_run. fold saved. by rewrite Hok.
Qed.

(** C19: what a client posts is what a worker is given.  Suppose that the database
    does not fail, no outbox row is locked elsewhere, random bytes can be had, the
    pending rows can be decoded, and the request id is valid UTF-8.  Then a POST of
    any document that decodes to an event with an id that is not stored yet and a
    type is answered 202; the next claim, with a limit above the number of rows
    pending before, hands out the event with the payload of the document and the
    request id of the request; the message published for it can be encoded; and a
    consumer that receives that message forwards exactly this event to the
    workers. *)
Theorem posted_event_reaches_worker header r ev ctx limit lease w tag :
  no_faults → (∀ n i, env_locked_outbox n i = false) → (∀ n, is_Some (env_rand n)) →
  w_tx w = None → db_wf (w_db w) → decodable (w_db w) → (Z.of_nat (size (pending (w_db w))) < limit)%Z →
  decode_event (Request_Body r) = Some ev → Event_ID ev ≠ "" → Event_Type ev ≠ "" →
  utf8_valid (Header_Get (Request_Header r) "X-Request-ID") = true → events (w_db w) !! Event_ID ev = None →
  let posted := createEventHandler header r w in
  let ev' := with_request_id (Header_Get (Request_Header r) "X-Request-ID") ev in
  Response_Code posted.1 = StatusAccepted
  ∧ ∃ msgs m body, (ClaimPendingOutbox ctx limit lease posted.2).1 = Ok msgs ∧ m ∈ msgs ∧ Message_Event m = ev'
    ∧ marshal_event (Message_Event m) = inr body
    ∧ forwardDeliveries [SelectDelivery tag body true] = ([Forwarded tag ev'], false).
Proof.
  intros Hnf Hlock Hrand Htx Hwf Hdecb Hlim Hdec Hid Hty Hrid Hnew posted ev'.
  pose proof (decoded_payload json_error_text _ _ Hdec) as Hj. pose proof (decoded_event_wf _ _ Hdec) as [Hwi Hwt _ Hwp].
  assert (event_wf ev') as Hwf' by by split.
  assert ((SaveQueuedWithOutbox Cancellable ev' w).1 = None) as Hsave.
  { destruct (SaveQueuedWithOutbox_outcome Cancellable ev' w Htx Hwf) as [_ Ho].
    destruct (json_roundtrip _ Hj) as (s & Henc & _).
    inversion Ho as [s' now _ _ Hr|? ? ? ? ? ? Hf|Hdup|? ? ? Hf]; [done|by destruct (Hf Hnf)| |].
    - change (Event_ID ev') with (Event_ID ev) in Hdup. rewrite Hnew in Hdup. by destruct Hdup.
    - destruct (Hf Hnf) as [msg Hmsg]. by pose proof (eq_trans (eq_sym Henc) Hmsg). }
  destruct (createEventHandler_saves header r ev w Hdec Hid Hty Hsave) as [Hcode Hw]. split; [done|].
  destruct (accepted_event_is_claimed Cancellable ctx ev' limit lease w) as (msgs & m & Hcl & Hin & Hev & _); try done.
  destruct (event_roundtrip ev' Hwf') as (body & Henc & Hback).
  exists msgs, m, body. unfold posted. rewrite Hw, Hev. split_and!; try done.
  simpl. by rewrite Hback.
Qed.

End EndToEnd.

(** ** On a concrete request *)

(** A document with a payload, posted to a service that holds one event. *)
Definition post_2 : Request :=
  mkRequest "POST" ["events"] (Header_Set "X-Request-ID" "req-2" ∅)
    (body_of (mkEvent "evt-002" "payment.created" "" (Event_Payload event_2))).

Lemma posted_event_reaches_worker_witness :
  let _ := calm_env 1000 in let _ := simple_codec in
  Response_Code (createEventHandler ∅ post_2 world_saved).1 = StatusAccepted
  ∧ ∃ msgs m body, (ClaimPendingOutbox Background 10 30 (createEventHandler ∅ post_2 world_saved).2).1 = Ok msgs
    ∧ m ∈ msgs ∧ Message_Event m = event_2 ∧ marshal_event (Message_Event m) = inr body
    ∧ forwardDeliveries [SelectDelivery 1 body true] = ([Forwarded 1 event_2], false).
Proof.
  intros E C.
  refine (posted_event_reaches_worker (E := E) (λ _, "invalid character") ∅ post_2
    (mkEvent "evt-002" "payment.created" "" (Event_Payload event_2)) Background 10 30 world_saved 1
    (calm_env_no_faults _) (λ _ _, eq_refl) (λ _, ex_intro _ _ eq_refl)
    (proj1 world_saved_inv) (proj1 (proj2 world_saved_inv)) _ _ _ _ _ _ _).
  - apply world_saved_decodable.
  - reflexivity.
  - vm_compute. reflexivity.
  - discriminate.
  - discriminate.
  - vm_compute. reflexivity.
  - vm_compute. reflexivity.
Defined.
