(* ===== verification/Startup.v ===== *)
(** * Process start: main.go, logger.go, db_pool.go, migrations.go

    The start of the program up to the point where it serves: configuration,
    logger, the commands, the connection pool of the event store, and the
    migrations.  The outcome of each call to the operating system and to the
    libraries (database/sql's driver, golang-migrate) is the class [Host]; the
    calls are in the trace. *)

From stdpp Require Import base gmap strings list pretty.
From Stdlib Require Import ZArith Lia Ascii.
From S2P Require Import Prelude GoLib Config Models Metrics Sql Database DbInvariant World Scenario.
From S2P Require Import EventStore StoreLogic StoreProps StoreDead Http Handlers.

Open Scope go_scope.

#[export] Instance LogHandler_eq_dec : EqDecision LogHandler.
Proof. solve_decision. Defined.
#[export] Instance HostCall_eq_dec : EqDecision HostCall.
Proof. solve_decision. Defined.

(** The answer of [migrator.Up]. *)
Inductive UpResult := UpApplied | UpNoChange | UpFailed (msg : string).

Class Host := {
  host_error : nat → HostCall → option string;   (* the error of the n-th interaction *)
  host_abs : string → string;                    (* filepath.Abs, when it succeeds *)
  host_up : nat → UpResult;
}.

(** ** URLs of files *)

Definition is_alnum (c : ascii) : bool :=
  let n := nat_of_ascii c in
  ((48 <=? n) && (n <=? 57)) || ((65 <=? n) && (n <=? 90)) || ((97 <=? n) && (n <=? 122)).

(** net/url: the bytes of a path that [escape] leaves alone. *)
Definition path_safe (c : ascii) : bool :=
  is_alnum c || bool_decide (c ∈ ["-"; "_"; "."; "~"; "$"; "&"; "+"; ","; "/"; ":"; ";"; "="; "@"]%char).

Definition upperhex (n : nat) : ascii := ascii_of_nat (if n <? 10 then 48 + n else 55 + n).

Fixpoint escape_path (s : string) : string :=
  match s with
  | EmptyString => EmptyString
  | String c s =>
      if path_safe c then String c (escape_path s)
      else String "%" (String (upperhex (nat_of_ascii c / 16))
             (String (upperhex (nat_of_ascii c mod 16)) (escape_path s)))
  end.

(** [(&url.URL{Scheme: file, Path: path}).String()] for a path that starts with a slash. *)
Definition file_url (path : string) : string := "file://" +:+ escape_path path.

Definition source_path (abs : string) : string :=
  if String.prefix "/" abs then abs else "/" +:+ abs.

(** Decoding gives the path back: the migrations are read from the directory that
    was named. *)
Definition unhex (c : ascii) : nat :=
  let n := nat_of_ascii c in if n <? 58 then n - 48 else n - 55.

Fixpoint unescape_path (s : string) : string :=
  match s with
  | EmptyString => EmptyString
  | String c rest =>
      if bool_decide (c = "%"%char) then
        match rest with
        | String a (String b rest) => String (ascii_of_nat (16 * unhex a + unhex b)) (unescape_path rest)
        | _ => s
        end
      else String c (unescape_path rest)
  end.

Lemma escaped_byte c :
  if path_safe c then c ≠ "%"%char
  else ascii_of_nat (16 * unhex (upperhex (nat_of_ascii c / 16)) + unhex (upperhex (nat_of_ascii c mod 16))) = c.
Proof. by destruct c as [[] [] [] [] [] [] [] []]; vm_compute. Qed.

Lemma unescape_escape s : unescape_path (escape_path s) = s.
Proof.
  induction s as [|c s IH]; [done|]. cbn [escape_path]. pose proof (escaped_byte c) as Hc.
  destruct (path_safe c); cbn [unescape_path].
  - rewrite bool_decide_eq_false_2 by done. by rewrite IH.
  - rewrite bool_decide_eq_true_2 by done. by rewrite Hc, IH.
Qed.

Section Startup.
Context `{E : Env} `{C : JsonCodec} `{F : Front} `{H : Host}.
Context (LookupEnv : string → option string) (url_parse : string → option URL).

(** A call that may fail. *)
Definition host_call (c : HostCall) : M (option GoError) := λ w,
  (ErrMsg <$> host_error (w_tick w) c, tick (add_trace (EffHost c) w)).

(** A call whose error is ignored, or that has none. *)
Definition host_do (c : HostCall) : M unit := _ ← host_call c; mret tt.

(** ** logger.go *)

(** strings.EqualFold with an ASCII text that no other letter folds to. *)
Definition ascii_lower (c : ascii) : ascii :=
  let n := nat_of_ascii c in if (65 <=? n) && (n <=? 90) then ascii_of_nat (n + 32) else c.
Fixpoint string_lower (s : string) : string :=
  match s with EmptyString => EmptyString | String c s => String (ascii_lower c) (string_lower s) end.
Definition EqualFold_text (s : string) : bool := bool_decide (string_lower s = "text").

Definition setupLogger (config : Config) : M unit :=
  host_do (SetDefaultLogger (if EqualFold_text (LogFormat config) then TextHandler else JSONHandler)).

(** ** db_pool.go and openEventStore *)

Definition openEventStore (databaseURL : string) (maxOpenConns maxIdleConns maxLifetime maxIdleTime : Z)
    : M (option GoError) :=
  check host_call (SqlOpen databaseURL) orelse fail "open event store: ";
  check host_call SqlPing orelse (λ e, host_do SqlClose;; fail "ping event store: " e);
  host_do (SetMaxOpenConns maxOpenConns);;
  host_do (SetMaxIdleConns maxIdleConns);;
  host_do (SetConnMaxLifetime maxLifetime);;
  host_do (SetConnMaxIdleTime maxIdleTime);;
  mret None.

Definition OpenEventStore (databaseURL : string) : M (option GoError) :=
  let maxOpenConns := getEnvAsInt LookupEnv "DB_MAX_OPEN_CONNS" 20 in
  let maxIdleConns := getEnvAsInt LookupEnv "DB_MAX_IDLE_CONNS" 10 in
  let maxLifetime := mul64 (getEnvAsInt LookupEnv "DB_CONN_MAX_LIFETIME_SECONDS" 1800) Second in
  let maxIdleTime := mul64 (getEnvAsInt LookupEnv "DB_CONN_MAX_IDLE_TIME_SECONDS" 300) Second in
  openEventStore databaseURL maxOpenConns maxIdleConns maxLifetime maxIdleTime.

Definition EventStore_Close : M (option GoError) := host_call SqlClose.

(** ** migrations.go *)

(** [migrator.Up()]. *)
Definition migrate_up : M (option GoError) := λ w,
  (match host_up (w_tick w) with
   | UpApplied | UpNoChange => None
   | UpFailed msg => Some (ErrMsg msg)
   end, tick (add_trace (EffHost MigrateUp) w)).

(** The part after [defer db.Close()], and after [defer migrator.Close()]. *)
Definition migrate_opened (abs : string) : M (option GoError) :=
  check host_call SqlPing orelse fail "ping migration database: ";
  check host_call PgxWithInstance orelse fail "create migration driver: ";
  check host_call (MigrateNew (file_url (source_path abs))) orelse fail "initialize migrations: ";
  r ← (check migrate_up orelse fail "apply migrations: "; mret None);
  host_do MigrateClose;;
  mret r.

Definition RunMigrations (databaseURL migrationsPath : string) : M (option GoError) :=
  check host_call (FilepathAbs migrationsPath) orelse fail "resolve migrations path: ";
  check host_call (SqlOpen databaseURL) orelse fail "open migration database: ";
  r ← migrate_opened (host_abs migrationsPath);
  host_do SqlClose;;
  mret r.

(** ** main.go, up to the server *)

(** The process has exited, or the service runs. *)
Inductive Started := Exited (code : Z) | Serving (config : Config).

(** [fmt.Fprintln(os.Stderr, ...)] and [os.Exit(1)]: deferred calls do not run. *)
Definition die (text : string) : M Started := host_do (PrintStderr text);; mret (Exited 1).

(** After the migrate command: the event store, then a command or the service. *)
Definition main_open (config : Config) (args : list string) : M Started :=
  check OpenEventStore (DatabaseURL config) orelse (λ _, mret (Exited 1));
  answer ← runCommand Background args;
  match answer with
  | (true, Some e, _) => die (error_string e)
  | (true, None, _) => _ ← EventStore_Close; mret (Exited 0)
  | (false, _, _) => mret (Serving config)
  end.

(** [args] is [os.Args[1:]]. *)
Definition main_start (args : list string) : M Started :=
  match LoadConfig LookupEnv url_parse with
  | Err e => die (error_string e)
  | Ok config =>
      setupLogger config;;
      if bool_decide (head args = Some "migrate") then
        if bool_decide (args ≠ ["migrate"]) then die "uso: go run . migrate"
        else
          check RunMigrations (DatabaseURL config) "migrations" orelse (λ _, mret (Exited 1));
          mret (Exited 0)
      else main_open config args
  end.

(** ** What the calls leave open *)

(** The calls made since [w]. *)
Definition called (w w' : World) (l : list HostCall) : Prop :=
  w_trace w' = w_trace w ++ (EffHost <$> l).

(** The call succeeds at the [n]-th interaction. *)
Definition succeeds (n : nat) (c : HostCall) : Prop := host_error n c = None.

(** Run the calls, with a case for each outcome. *)
Ltac host_cases :=
  unfold M_check, host_do, host_call, fail, succeeds; rewrite ?M_bind_run; simpl;
  repeat match goal with
  | |- context [host_error ?n ?c] => destruct (host_error n c) eqn:?; simpl; rewrite ?M_bind_run; simpl
  end.

(** Give the calls of a run that has been evaluated. *)
Ltac calls_are l := exists l; split; [by unfold called; simpl; rewrite <- ?app_assoc|].

Lemma openEventStore_calls url maxOpen maxIdle lifetime idleTime w :
  let r := openEventStore url maxOpen maxIdle lifetime idleTime w in
  let n := w_tick w in
  (r.1 = None ↔ succeeds n (SqlOpen url) ∧ succeeds (S n) SqlPing)
  ∧ ∃ l, called w r.2 l
    ∧ match r.1 with
      | None => l = [SqlOpen url; SqlPing; SetMaxOpenConns maxOpen; SetMaxIdleConns maxIdle;
                     SetConnMaxLifetime lifetime; SetConnMaxIdleTime idleTime]
      | Some _ => SqlOpen url ∈ l ∧ (succeeds n (SqlOpen url) ↔ last l = Some SqlClose)
                  ∧ length (filter (λ c, c = SqlClose) l) ≤ 1
      end.
Proof.
  unfold openEventStore. host_cases.
  1,2: split; [naive_solver|]; calls_are [SqlOpen url]; split_and!; [set_solver|naive_solver|simpl; lia].
  - split; [naive_solver|]. calls_are [SqlOpen url; SqlPing; SqlClose].
    split_and!; [set_solver|naive_solver|simpl; lia].
  - split; [naive_solver|].
    by calls_are [SqlOpen url; SqlPing; SetMaxOpenConns maxOpen; SetMaxIdleConns maxIdle;
      SetConnMaxLifetime lifetime; SetConnMaxIdleTime idleTime].
Qed.

(** Opening the event store.  It returns nil exactly when the driver accepts
    the URL and the database answers, and then the four limits of the pool are
    the configured ones; when the database does not answer the pool is closed
    before the error is returned, so that no pool is ever left behind. *)
Theorem openEventStore_outcome url maxOpen maxIdle lifetime idleTime w :
  let r := openEventStore url maxOpen maxIdle lifetime idleTime w in
  let n := w_tick w in
  (r.1 = None ↔ succeeds n (SqlOpen url) ∧ succeeds (S n) SqlPing)
  ∧ ∃ l, called w r.2 l
    ∧ match r.1 with
      | None => l = [SqlOpen url; SqlPing; SetMaxOpenConns maxOpen; SetMaxIdleConns maxIdle;
                     SetConnMaxLifetime lifetime; SetConnMaxIdleTime idleTime]
      | Some _ => SqlOpen url ∈ l ∧ (succeeds n (SqlOpen url) ↔ last l = Some SqlClose)
                  ∧ length (filter (λ c, c = SqlClose) l) ≤ 1
      end.
Proof. apply openEventStore_calls. Qed.

(** The migration database was opened; the migrator was created. *)
Definition migration_opened (url path : string) (n : nat) : Prop :=
  succeeds n (FilepathAbs path) ∧ succeeds (S n) (SqlOpen url).
Definition migration_created (url path : string) (n : nat) : Prop :=
  migration_opened url path n ∧ succeeds (n + 2) SqlPing ∧ succeeds (n + 3) PgxWithInstance
  ∧ succeeds (n + 4) (MigrateNew (file_url (source_path (host_abs path)))).

Definition migration_result (url path : string) (w : World) (r : option GoError) (w' : World) : Prop :=
  let n := w_tick w in
  (r = None ↔ migration_created url path n ∧ ∀ msg, host_up (n + 5) ≠ UpFailed msg)
  ∧ ∃ l, called w w' l
    ∧ (MigrateUp ∈ l ↔ migration_created url path n)
    ∧ (migration_created url path n → ∃ front, l = front ++ [MigrateClose; SqlClose] ∧ SqlClose ∉ front)
    ∧ (migration_opened url path n → ∃ front, l = front ++ [SqlClose] ∧ SqlClose ∉ front)
    ∧ (¬ migration_opened url path n → SqlClose ∉ l).

Lemma wp_host_call c Q w :
  (∀ e, ¬ succeeds (w_tick w) c → Q (Some e) (tick (add_trace (EffHost c) w))) →
  (succeeds (w_tick w) c → Q None (tick (add_trace (EffHost c) w))) →
  wp (host_call c) Q w.
Proof.
  unfold wp, host_call, succeeds. intros He Hok. simpl.
  destruct (host_error (w_tick w) c); simpl; [by apply He|by apply Hok].
Qed.

Lemma wp_host_do c Q w : Q tt (tick (add_trace (EffHost c) w)) → wp (host_do c) Q w.
Proof. done. Qed.

(** A run that stops before the migrator exists. *)
Lemma migration_stopped url path w e w' l :
  ¬ migration_created url path (w_tick w) → called w w' l → MigrateUp ∉ l →
  (migration_opened url path (w_tick w) → ∃ front, l = front ++ [SqlClose] ∧ SqlClose ∉ front) →
  (¬ migration_opened url path (w_tick w) → SqlClose ∉ l) →
  migration_result url path w (Some e) w'.
Proof. intros Hc Hl Hup Ho Hno. split; [naive_solver|]. exists l. naive_solver. Qed.

(** Where the run stops, with the calls made. *)
Ltac stopped l :=
  apply (migration_stopped _ _ _ _ _ l);
  [unfold migration_created, migration_opened; rewrite ?Nat.add_succ_r, ?Nat.add_0_r; naive_solver
  |by unfold called; simpl; rewrite <- ?app_assoc|set_solver| |];
  unfold migration_opened; try naive_solver; intros _.

Lemma wp_RunMigrations url path w :
  wp (RunMigrations url path) (migration_result url path w) w.
Proof.
  unfold RunMigrations, migrate_opened. set (src := MigrateNew (file_url (source_path (host_abs path)))).
  wp_step. apply wp_host_call; [intros e Habs; wp_step; stopped [FilepathAbs path]; set_solver|intros Habs].
  wp_step. apply wp_host_call; [intros e Hopen; wp_step; stopped [FilepathAbs path; SqlOpen url]; set_solver|].
  intros Hopen. do 2 wp_step. apply wp_host_call.
  { intros e Hp. wp_step. wp_step. apply wp_host_do. wp_step.
    stopped [FilepathAbs path; SqlOpen url; SqlPing; SqlClose].
    exists [FilepathAbs path; SqlOpen url; SqlPing]. split; [done|set_solver]. }
  intros Hping. wp_step. apply wp_host_call.
  { intros e Hp. wp_step. wp_step. apply wp_host_do. wp_step.
    stopped [FilepathAbs path; SqlOpen url; SqlPing; PgxWithInstance; SqlClose].
    exists [FilepathAbs path; SqlOpen url; SqlPing; PgxWithInstance]. split; [done|set_solver]. }
  intros Hpgx. wp_step. apply wp_host_call.
  { intros e Hp. wp_step. wp_step. apply wp_host_do. wp_step.
    stopped [FilepathAbs path; SqlOpen url; SqlPing; PgxWithInstance; src; SqlClose].
    exists [FilepathAbs path; SqlOpen url; SqlPing; PgxWithInstance; src]. split; [done|set_solver]. }
  intros Hnew. assert (migration_created url path (w_tick w)) as Hc.
  { unfold migration_created, migration_opened. by rewrite !Nat.add_succ_r, !Nat.add_0_r. }
  do 2 wp_step. unfold wp at 1, migrate_up. simpl.
  set (front := [FilepathAbs path; SqlOpen url; SqlPing; PgxWithInstance; src; MigrateUp]).
  assert (∀ r w', called w w' (front ++ [MigrateClose; SqlClose]) →
    (r = None ↔ ∀ msg, host_up (w_tick w + 5) ≠ UpFailed msg) → migration_result url path w r w') as Hend.
  { intros r w' Hl Hr. split; [naive_solver|]. exists (front ++ [MigrateClose; SqlClose]).
    unfold front. split_and!; [done|set_solver|..].
    - intros _. exists front. split; [done|]. unfold front. set_solver.
    - intros _. exists (front ++ [MigrateClose]). split; [done|]. unfold front. set_solver.
    - intros []. apply Hc. }
  destruct (host_up (S (S (S (S (S (w_tick w))))))) as [| |msg] eqn:Hup; do 2 wp_step; apply wp_host_do;
    do 2 wp_step; apply wp_host_do; wp_step; (apply Hend; [by unfold called; simpl; rewrite <- ?app_assoc|]);
    rewrite !Nat.add_succ_r, !Nat.add_0_r, Hup; naive_solver.
Qed.

(** C40: running the migrations.  It returns nil exactly when everything could be
    opened and the migrations were applied or there was nothing to apply; the
    migrations only run once all of it is open; and on every path the database
    is closed, once and last, when it was opened, after the migrator when that
    was created. *)
Theorem RunMigrations_outcome url path w :
  let r := RunMigrations url path w in
  let n := w_tick w in
  (r.1 = None ↔ migration_created url path n ∧ ∀ msg, host_up (n + 5) ≠ UpFailed msg)
  ∧ ∃ l, called w r.2 l
    ∧ (MigrateUp ∈ l ↔ migration_created url path n)
    ∧ (migration_created url path n → ∃ front, l = front ++ [MigrateClose; SqlClose] ∧ SqlClose ∉ front)
    ∧ (migration_opened url path n → ∃ front, l = front ++ [SqlClose] ∧ SqlClose ∉ front)
    ∧ (¬ migration_opened url path n → SqlClose ∉ l).
Proof.
  intros r n. apply (wp_RunMigrations url path w).
Qed.

(** ** Which start leads where *)

(** Calls to the host leave the tables alone. *)
Definition same_state (w w' : World) : Prop := w_db w' = w_db w ∧ w_tx w' = w_tx w.

#[local] Instance same_state_preorder : PreOrder same_state.
Proof. split; [by intros w|]. intros w1 w2 w3 [] []. split; congruence. Qed.

Lemma same_state_call c : respects same_state (host_call c).
Proof. by intros w. Qed.

Lemma same_state_up : respects same_state migrate_up.
Proof. by intros w. Qed.

Ltac solve_same_state :=
  repeat first
    [ apply respects_ret; apply _
    | apply respects_check; [apply _| |intros ?|]
    | apply respects_bind; [apply _| |intros ?]
    | apply same_state_call | apply same_state_up
    | progress unfold fail, host_do ].

Lemma same_state_open url : respects same_state (OpenEventStore url).
Proof. unfold OpenEventStore, openEventStore. solve_same_state. Qed.

Lemma same_state_migrations url path : respects same_state (RunMigrations url path).
Proof. unfold RunMigrations, migrate_opened. solve_same_state. Qed.

(** A store that was opened is left open. *)
Lemma OpenEventStore_leaves_open url w :
  (OpenEventStore url w).1 = None →
  ∃ l, called w (OpenEventStore url w).2 l ∧ SqlOpen url ∈ l ∧ SqlClose ∉ l.
Proof.
  intros Hok. destruct (openEventStore_calls url (getEnvAsInt LookupEnv "DB_MAX_OPEN_CONNS" 20)
    (getEnvAsInt LookupEnv "DB_MAX_IDLE_CONNS" 10)
    (mul64 (getEnvAsInt LookupEnv "DB_CONN_MAX_LIFETIME_SECONDS" 1800) Second)
    (mul64 (getEnvAsInt LookupEnv "DB_CONN_MAX_IDLE_TIME_SECONDS" 300) Second) w) as [_ (l & Hl & Hres)].
  fold (OpenEventStore url) in Hl, Hres. rewrite Hok in Hres. subst l. eexists. split; [exact Hl|].
  split; [left|]. rewrite !not_elem_of_cons. split_and!; [done..|]. apply not_elem_of_nil.
Qed.

(** A command is a replay that succeeded and was reported, or it answers an error. *)
Lemma runCommand_result command args w :
  (∃ e out, (runCommand Background (command :: args) w).1 = (true, Some e, out))
  ∨ ∃ id w' out, command :: args = ["replay-dead-letter"; id]
      ∧ runCommand Background (command :: args) w = (true, None, out, tick w')
      ∧ ReplayDeadLetter Background (TrimSpace id) w = (None, w') ∧ stdout_error (w_tick w') = None.
Proof.
  unfold runCommand. case_bool_decide as Hc; [|left; by do 2 eexists].
  destruct args as [|id [|]]; [left; by do 2 eexists| |left; by do 2 eexists].
  case_bool_decide; [left; by do 2 eexists|]. unfold M_check. rewrite M_bind_run.
  destruct (ReplayDeadLetter Background (TrimSpace id) w) as [[e|] w'] eqn:Hr; [left; by do 2 eexists|].
  simpl. rewrite M_bind_run. simpl. destruct (stdout_error (w_tick w')) eqn:Hout; [left; by do 2 eexists|].
  right. exists id, w'. eexists. split_and!; [congruence|done|done|done].
Qed.

(** Why a start can fail once the configuration is accepted; [w] is the state
    after the logger is set up. *)
Definition start_fails_with (c : Config) (args : list string) (w : World) : Prop :=
  if decide (head args = Some "migrate") then
    args ≠ ["migrate"] ∨ is_Some (RunMigrations (DatabaseURL c) "migrations" w).1
  else
    let opened := OpenEventStore (DatabaseURL c) w in
    is_Some opened.1 ∨ ∃ e out, (runCommand Background args opened.2).1 = (true, Some e, out).

Definition start_fails (args : list string) (w : World) : Prop :=
  (∃ e, LoadConfig LookupEnv url_parse = Err e)
  ∨ ∃ c, LoadConfig LookupEnv url_parse = Ok c ∧ start_fails_with c args (setupLogger c w).2.

(** C39: where a start leads.  The service runs only without arguments, with an
    accepted configuration and an event store that is open and untouched.  The
    process exits with code 0 only after the logger was set up and the migrations
    then succeeded, or the event store was then opened, the replay succeeded and
    its report was written to the standard output; in the second case the last
    call closes the event store.  In every other case it exits with code 1, and
    then for a reason: a rejected configuration, a migration that failed, a store
    that could not be opened, or a command that is unknown, failed, or could not
    write its report. *)
Theorem main_start_outcome args w :
  let r := main_start args w in
  match r.1 with
  | Serving c =>
      args = [] ∧ LoadConfig LookupEnv url_parse = Ok c ∧ w_db r.2 = w_db w
      ∧ ∃ l, called w r.2 l ∧ SqlOpen (DatabaseURL c) ∈ l ∧ SqlClose ∉ l
  | Exited code =>
      (code = 0%Z ∧ ∃ c, LoadConfig LookupEnv url_parse = Ok c
         ∧ ((args = ["migrate"] ∧ w_db r.2 = w_db w
             ∧ (RunMigrations (DatabaseURL c) "migrations" (setupLogger c w).2).1 = None)
            ∨ ∃ id w1 w2, args = ["replay-dead-letter"; id]
                ∧ OpenEventStore (DatabaseURL c) (setupLogger c w).2 = (None, w1) ∧ w_db w1 = w_db w
                ∧ ReplayDeadLetter Background (TrimSpace id) w1 = (None, w2)
                ∧ stdout_error (w_tick w2) = None ∧ w_db r.2 = w_db w2
                ∧ last (w_trace r.2) = Some (EffHost SqlClose)))
      ∨ (code = 1%Z ∧ start_fails args w)
  end.
Proof.
  unfold main_start. destruct (LoadConfig LookupEnv url_parse) as [c|e] eqn:Hcfg.
  2:{ right. split; [done|]. left. by eexists. }
  rewrite M_bind_run. set (w0 := (setupLogger c w).2).
  assert (w_db w0 = w_db w) as Hw0 by done.
  assert (∃ h, called w w0 [SetDefaultLogger h]) as [h Ht0] by by eexists.
  assert (start_fails_with c args w0 → 1%Z = 1%Z ∧ start_fails args w) as Hfail.
  { intros Hf. split; [done|]. right. by exists c. }
  assert ((setupLogger c w).2 = w0) as Hlogged by done.
  clearbody w0. unfold start_fails_with in Hfail.
  case_bool_decide as Hmig.
  { rewrite decide_True in Hfail by done.
    case_bool_decide as Hargs; [right; apply Hfail; by left|]. unfold M_check. rewrite M_bind_run.
    destruct (same_state_migrations (DatabaseURL c) "migrations" w0) as [Hdb _].
    destruct (RunMigrations _ _ w0).1 eqn:Hm; [right; apply Hfail; by right|]. left. split; [done|]. exists c. split; [done|].
    left. rewrite Hlogged. split_and!; [done|simpl; congruence|done]. }
  rewrite decide_False in Hfail by done. unfold main_open, M_check. rewrite M_bind_run.
  destruct (same_state_open (DatabaseURL c) w0) as [Hdb1 _].
  pose proof (OpenEventStore_leaves_open (DatabaseURL c) w0) as Hopen.
  destruct (OpenEventStore (DatabaseURL c) w0) as [[e|] w1] eqn:Hopened; simpl in *; [right; apply Hfail; left; by eexists|].
  rewrite M_bind_run. destruct args as [|command args].
  - destruct (Hopen eq_refl) as (l & Hl & Hin & Hout). simpl. split_and!; [done..|congruence|].
    exists (SetDefaultLogger h :: l). split; [|set_solver]. unfold called in *. rewrite Hl, Ht0. by rewrite <- app_assoc.
  - destruct (runCommand_result command args w1) as [(e & out & Hr)|(id & w2 & out & Hargs & Hr & Hrep & Hout)].
    + rewrite Hr. right. apply Hfail. right. by exists e, out.
    + rewrite Hr. left. split; [done|]. exists c. split; [done|]. right. exists id, w1, w2.
      rewrite Hlogged. split_and!; [done|done|congruence|done|done|done|apply last_snoc].
Qed.

End Startup.
