(* ===== verification/Shutdown.v ===== *)
(** * Serving and shutting down: main.go after the start

    The goroutines of the running process and main's way through the shutdown, as
    a step relation.  A goroutine is alive or gone; main waits for the wait
    groups in the order of the code; a worker ends when the events channel is
    closed and drained. *)

From stdpp Require Import base strings list relations.
From Stdlib Require Import ZArith Lia.
From S2P Require Import Prelude GoLib Config Models Outbox Worker DlqRetry.

(** Where main is. *)
Inductive MainAt :=
| MainServing            (* select on serverErrors and the shutdown signal *)
| MainShutdownServer     (* server.Shutdown *)
| MainStopDispatcher     (* stopDispatcher() *)
| MainWaitDispatchers    (* dispatchers.Wait() *)
| MainStopConsuming      (* eventQueue.StopConsuming(): cancel *)
| MainWaitConsumer       (* eventQueue.StopConsuming(): consumeWorkers.Wait() *)
| MainWaitWorkers        (* workers.Wait() *)
| MainCloseQueue         (* eventQueue.Close() *)
| MainDeferred           (* the deferred calls: eventStore.Close() *)
| MainExited (code : Z).

#[global] Instance MainAt_eq_dec : EqDecision MainAt.
Proof. solve_decision. Defined.

Record Process := mkProcess {
  p_main : MainAt;
  p_accepting : bool;           (* the server takes new requests *)
  p_requests : nat;             (* requests being handled *)
  p_timed_out : bool;           (* server.Shutdown gave up waiting *)
  p_dispatch_cancelled : bool;  (* dispatcherContext *)
  p_dispatchers : nat;          (* the wait group of dispatcher and scheduler *)
  p_consume_cancelled : bool;   (* consumeContext *)
  p_consumer : bool;            (* the goroutine of consumeLoop *)
  p_buffer : nat;               (* deliveries in the events channel *)
  p_closed : bool;              (* the events channel is closed *)
  p_workers : nat;              (* the wait group of the workers *)
  p_busy : nat;                 (* workers handling a delivery *)
  p_queue_open : bool;
  p_store_open : bool;
}.

(** The goroutines main starts. *)
Definition serving (config : Config) : Process := {|
  p_main := MainServing; p_accepting := true; p_requests := 0; p_timed_out := false;
  p_dispatch_cancelled := false;
  p_dispatchers := 1 + (if DLQAutoRetryEnabled config && scheduler_starts (NewDLQRetryScheduler config)
                        then 1 else 0);
  p_consume_cancelled := false; p_consumer := true; p_buffer := 0; p_closed := false;
  p_workers := length (startWorkers (WorkerCount config)); p_busy := 0;
  p_queue_open := true; p_store_open := true;
|}.

(** len and cap of the events channel. *)
Definition Process_Stats (config : Config) (p : Process) : QueueStats :=
  mkQueueStats (Z.of_nat (p_buffer p)) (QueueSize config).

(** ** Steps *)

Section Process.
Context (config : Config).

(** main. *)
Definition main_at (at_ : MainAt) (p : Process) : Process :=
  mkProcess at_ (p_accepting p) (p_requests p) (p_timed_out p) (p_dispatch_cancelled p) (p_dispatchers p)
    (p_consume_cancelled p) (p_consumer p) (p_buffer p) (p_closed p) (p_workers p) (p_busy p)
    (p_queue_open p) (p_store_open p).

(** eventQueue.StopConsuming: cancel the context, then wait for the goroutine of
    consumeLoop. *)
Inductive stop_consuming (p : Process) : Process → Prop :=
| consume_cancel :
    p_main p = MainStopConsuming →
    stop_consuming p (mkProcess MainWaitConsumer (p_accepting p) (p_requests p) (p_timed_out p)
      (p_dispatch_cancelled p) (p_dispatchers p) true (p_consumer p) (p_buffer p) (p_closed p) (p_workers p)
      (p_busy p) (p_queue_open p) (p_store_open p))
| consumer_done :
    p_main p = MainWaitConsumer → p_consumer p = false → stop_consuming p (main_at MainWaitWorkers p).

(** The goroutine of main.  ListenAndServe returns with an error, or with
    ErrServerClosed; or the signal arrives; and so on to the deferred calls. *)
Inductive main_step (p : Process) : Process → Prop :=
| server_failed :
    p_main p = MainServing → main_step p (main_at (MainExited 1) p)
| server_closed :
    p_main p = MainServing →
    main_step p (mkProcess MainShutdownServer false (p_requests p) false (p_dispatch_cancelled p)
      (p_dispatchers p) (p_consume_cancelled p) (p_consumer p) (p_buffer p) (p_closed p) (p_workers p)
      (p_busy p) (p_queue_open p) (p_store_open p))
| shutdown_signal :
    p_main p = MainServing →
    main_step p (mkProcess MainShutdownServer false (p_requests p) false (p_dispatch_cancelled p)
      (p_dispatchers p) (p_consume_cancelled p) (p_consumer p) (p_buffer p) (p_closed p) (p_workers p)
      (p_busy p) (p_queue_open p) (p_store_open p))
| server_drained :
    p_main p = MainShutdownServer → p_requests p = 0 → main_step p (main_at MainStopDispatcher p)
| server_timeout :
    p_main p = MainShutdownServer →
    main_step p (mkProcess MainStopDispatcher false (p_requests p) true (p_dispatch_cancelled p)
      (p_dispatchers p) (p_consume_cancelled p) (p_consumer p) (p_buffer p) (p_closed p) (p_workers p)
      (p_busy p) (p_queue_open p) (p_store_open p))
| dispatcher_stopped :
    p_main p = MainStopDispatcher →
    main_step p (mkProcess MainWaitDispatchers (p_accepting p) (p_requests p) (p_timed_out p) true
      (p_dispatchers p) (p_consume_cancelled p) (p_consumer p) (p_buffer p) (p_closed p) (p_workers p)
      (p_busy p) (p_queue_open p) (p_store_open p))
| dispatchers_done :
    p_main p = MainWaitDispatchers → p_dispatchers p = 0 → main_step p (main_at MainStopConsuming p)
| consuming_stops p' :
    stop_consuming p p' → main_step p p'
| workers_done :
    p_main p = MainWaitWorkers → p_workers p = 0 → main_step p (main_at MainCloseQueue p)
| queue_closed :
    p_main p = MainCloseQueue →
    main_step p (mkProcess MainDeferred (p_accepting p) (p_requests p) (p_timed_out p)
      (p_dispatch_cancelled p) (p_dispatchers p) (p_consume_cancelled p) (p_consumer p) (p_buffer p)
      (p_closed p) (p_workers p) (p_busy p) false (p_store_open p))
| store_closed :
    p_main p = MainDeferred →
    main_step p (mkProcess (MainExited 0) (p_accepting p) (p_requests p) (p_timed_out p)
      (p_dispatch_cancelled p) (p_dispatchers p) (p_consume_cancelled p) (p_consumer p) (p_buffer p)
      (p_closed p) (p_workers p) (p_busy p) (p_queue_open p) false).

(** The other goroutines, while the process has not exited. *)
Definition goroutines (p : Process) (accepting : bool) (requests dispatchers : nat) (consumer : bool)
    (buffer : nat) (closed : bool) (workers busy : nat) : Process :=
  mkProcess (p_main p) accepting requests (p_timed_out p) (p_dispatch_cancelled p) dispatchers
    (p_consume_cancelled p) consumer buffer closed workers busy (p_queue_open p) (p_store_open p).

Definition exited (p : Process) : Prop := ∃ code, p_main p = MainExited code.

Inductive goroutine_step (p : Process) : Process → Prop :=
| request_arrives :
    p_accepting p = true →
    goroutine_step p (goroutines p true (S (p_requests p)) (p_dispatchers p) (p_consumer p) (p_buffer p)
      (p_closed p) (p_workers p) (p_busy p))
| request_handled n :
    p_requests p = S n →
    goroutine_step p (goroutines p (p_accepting p) n (p_dispatchers p) (p_consumer p) (p_buffer p)
      (p_closed p) (p_workers p) (p_busy p))
| dispatcher_returns n :
    p_dispatch_cancelled p = true → p_dispatchers p = S n →
    goroutine_step p (goroutines p (p_accepting p) (p_requests p) n (p_consumer p) (p_buffer p)
      (p_closed p) (p_workers p) (p_busy p))
| delivery_buffered :
    p_consumer p = true → (Z.of_nat (p_buffer p) < QueueSize config)%Z →
    goroutine_step p (goroutines p (p_accepting p) (p_requests p) (p_dispatchers p) true (S (p_buffer p))
      (p_closed p) (p_workers p) (p_busy p))
| consumer_returns :
    p_consume_cancelled p = true → p_consumer p = true →
    goroutine_step p (goroutines p (p_accepting p) (p_requests p) (p_dispatchers p) false (p_buffer p)
      true (p_workers p) (p_busy p))
| worker_takes n :
    p_buffer p = S n → p_busy p < p_workers p →
    goroutine_step p (goroutines p (p_accepting p) (p_requests p) (p_dispatchers p) (p_consumer p) n
      (p_closed p) (p_workers p) (S (p_busy p)))
| worker_settles n :
    p_busy p = S n →
    goroutine_step p (goroutines p (p_accepting p) (p_requests p) (p_dispatchers p) (p_consumer p)
      (p_buffer p) (p_closed p) (p_workers p) n)
| worker_returns n :
    p_closed p = true → p_buffer p = 0 → p_workers p = S n → p_busy p ≤ n →
    goroutine_step p (goroutines p (p_accepting p) (p_requests p) (p_dispatchers p) (p_consumer p)
      (p_buffer p) (p_closed p) n (p_busy p)).

Definition process_step (p p' : Process) : Prop :=
  ¬ exited p ∧ (main_step p p' ∨ goroutine_step p p').

End Process.

(** ** The order of the shutdown *)

(** How far main has come; a process that exited with an error never started to
    shut down. *)
Definition stage (at_ : MainAt) : nat :=
  match at_ with
  | MainServing => 0
  | MainShutdownServer => 1
  | MainStopDispatcher => 2
  | MainWaitDispatchers => 3
  | MainStopConsuming => 4
  | MainWaitConsumer => 5
  | MainWaitWorkers => 6
  | MainCloseQueue => 7
  | MainDeferred => 8
  | MainExited code => if decide (code = 0%Z) then 9 else 0
  end.

Definition past (n : nat) (p : Process) : bool := n <=? stage (p_main p).

(** Every flag records exactly how far main has come, and what main has waited
    for is gone. *)
Record shutdown_inv (config : Config) (p : Process) : Prop := {
  sd_busy : p_busy p ≤ p_workers p;
  sd_closed : p_closed p = negb (p_consumer p);
  sd_capacity : (Z.of_nat (p_buffer p) ≤ QueueSize config)%Z;
  sd_workers : p_workers p = Z.to_nat (WorkerCount config) ∨ (p_closed p = true ∧ p_buffer p = 0);
  sd_consumer : p_consumer p = false → p_consume_cancelled p = true;
  sd_consuming : p_consume_cancelled p = past 5 p;
  sd_cancelled : past 3 p → p_dispatch_cancelled p = true;
  sd_accepting : past 1 p → p_accepting p = false;
  sd_requests : past 2 p → p_requests p = 0 ∨ p_timed_out p = true;
  sd_dispatchers : past 4 p → p_dispatchers p = 0;
  sd_no_consumer : past 6 p → p_consumer p = false;
  sd_no_workers : past 7 p → p_workers p = 0;
  sd_queue : p_queue_open p = negb (past 8 p);
  sd_store : p_store_open p = negb (past 9 p);
}.

Section Order.
Context (config : Config) (LookupEnv : string → option string) (url_parse : string → option URL).
Context (Hload : LoadConfig LookupEnv url_parse = Ok config).

Lemma loaded_positive : (0 < QueueSize config)%Z ∧ (0 < WorkerCount config)%Z.
Proof.
  apply LoadConfig_char in Hload as [_ Hv]. pose proof (cv_positive _ _ Hv) as Hp.
  rewrite !Forall_cons in Hp. tauto.
Qed.

Lemma serving_inv : shutdown_inv config (serving config).
Proof.
  pose proof loaded_positive as [Hq Hw].
  constructor; unfold past; simpl; try done; try lia.
  left. unfold startWorkers. by rewrite length_seqZ.
Qed.

Lemma main_step_inv p p' : shutdown_inv config p → main_step p p' → shutdown_inv config p'.
Proof.
  intros [] Hs. destruct Hs as [Hm|Hm|Hm|Hm|Hm|Hm|Hm|p' [Hm|Hm]|Hm|Hm|Hm]; unfold past in *; rewrite Hm in *; simpl in *.
  all: constructor; unfold past; simpl; try assumption; try done.
  all: try (intros; intuition congruence).
Qed.

Lemma past_le n m p : n ≤ m → past m p → past n p.
Proof. unfold past. rewrite !Is_true_true, !Nat.leb_le. lia. Qed.

Lemma goroutine_step_inv p p' : shutdown_inv config p → goroutine_step config p p' → shutdown_inv config p'.
Proof.
  pose proof loaded_positive as [Hq Hw]. intros Hi Hs.
  assert (∀ n, past n p' = past n p) as Hpast by (by destruct Hs).
  destruct Hi. destruct Hs.
  all: constructor; rewrite ?Hpast; clear Hpast; simpl; try assumption; try done; try lia.
  - intros H1%sd_accepting0. congruence.
  - intros H2. assert (past 1 p) as H1%sd_accepting0 by (revert H2; apply past_le; lia). congruence.
  - intros [?|?]%sd_requests0; [lia|by right].
  - intros ?%sd_dispatchers0. lia.
  - by rewrite sd_closed0, H.
  - rewrite sd_closed0, H in *. naive_solver.
  - intros ?%sd_no_consumer0. congruence.
  - by right.
  - intros ?%sd_no_workers0. lia.
Qed.

Lemma process_inv p : rtc (process_step config) (serving config) p → shutdown_inv config p.
Proof.
  intros Hr. revert p Hr. apply rtc_ind_r; [apply serving_inv|].
  intros p1 p2 _ [_ [Hs|Hs]] Hi; [by eapply main_step_inv|by eapply goroutine_step_inv].
Qed.

(** C15: the shutdown takes the parts down in the order of their dependencies.  In
    every reachable state the events channel holds at most QUEUE_SIZE
    deliveries; a worker is gone only after the channel was closed and drained;
    the consumer is gone only after the dispatcher and the scheduler, and after
    the server stopped accepting requests; the queue is closed only when no
    dispatcher, consumer or worker is left and every delivery put in the
    channel has been settled; and the store is closed last, by main on its way
    out, with no request running unless server.Shutdown timed out. *)
Theorem shutdown_order p :
  rtc (process_step config) (serving config) p →
  (0 ≤ Stats_Length (Process_Stats config p) ≤ Stats_Capacity (Process_Stats config p))%Z
  ∧ ((Z.of_nat (p_workers p) < WorkerCount config)%Z → p_closed p = true ∧ p_buffer p = 0)
  ∧ (p_consumer p = false →
     p_accepting p = false ∧ p_dispatchers p = 0 ∧ (p_requests p = 0 ∨ p_timed_out p = true))
  ∧ (p_queue_open p = false →
     p_dispatchers p = 0 ∧ p_consumer p = false ∧ p_workers p = 0 ∧ p_busy p = 0 ∧ p_buffer p = 0)
  ∧ (p_store_open p = false →
     p_main p = MainExited 0 ∧ p_queue_open p = false ∧ (p_requests p = 0 ∨ p_timed_out p = true)).
Proof.
  intros [Hb Hcl Hcap Hws Hco Hcs Hca Hac Hrq Hds Hnc Hnw Hq Hst]%process_inv.
  pose proof loaded_positive as [Hqs Hwc].
  assert (p_consumer p = false → past 5 p) as H5 by (intros ?%Hco; rewrite <- Hcs; by apply Is_true_true).
  assert (p_queue_open p = false → past 8 p) as H8.
  { intros H. rewrite Hq in H. by apply Is_true_true, negb_false_iff. }
  assert (p_store_open p = false → past 9 p) as H9.
  { intros H. rewrite Hst in H. by apply Is_true_true, negb_false_iff. }
  split; [simpl; lia|]. split_and!; [intros ?; destruct Hws as [?|?]; [lia|done]|..].
  - intros ?%H5. split_and!; [apply Hac|apply Hds|apply Hrq]; (eapply past_le; [|done]; lia).
  - intros ?%H8. assert (p_workers p = 0) as H0 by (apply Hnw; eapply past_le; [|done]; lia).
    split_and!; [apply Hds|apply Hnc|done|lia|destruct Hws as [?|[??]]; [lia|done]];
      (eapply past_le; [|done]; lia).
  - intros H%H9. split_and!; [|rewrite Hq|apply Hrq; eapply past_le; [|done]; lia].
    + revert H. unfold past. rewrite Is_true_true, Nat.leb_le. destruct (p_main p) as [| | | | | | | | |code]; simpl; try lia.
      case_decide; [by subst|lia].
    + apply negb_false_iff, Is_true_true. eapply past_le; [|done]; lia.
Qed.

(** ** The shutdown ends *)

(** What is left to do. *)
Definition remaining (p : Process) : nat :=
  (9 - stage (p_main p)) + p_requests p + p_dispatchers p + (if p_consumer p then 1 else 0)
  + 2 * p_buffer p + p_busy p + p_workers p.

(** Once the signal has come something can always be done. *)
Lemma shutdown_progress p :
  shutdown_inv config p → past 1 p → p_main p ≠ MainExited 0 →
  ∃ p', process_step config p p' ∧ remaining p' < remaining p ∧ past 1 p'.
Proof.
  intros [Hb Hcl Hcap Hws Hco Hcs Hca Hac Hrq Hds Hnc Hnw Hq Hst] H1 Hm.
  assert (¬ exited p) as Hex.
  { intros [code Hc]. unfold past in H1. rewrite Hc in H1, Hm. simpl in H1.
    case_decide; [by subst|by destruct H1]. }
  set (G := ∃ p', _). assert (∀ p', main_step p p' ∨ goroutine_step config p p' →
    remaining p' < remaining p → past 1 p' → G) as Hstep by (intros p' ???; by exists p').
  clearbody G. unfold past in *. unfold remaining in Hstep. destruct (p_main p) eqn:Hmain; simpl in *; try done.
  - eapply Hstep; [left; by apply server_timeout|simpl; lia|done].
  - eapply Hstep; [left; by apply dispatcher_stopped|simpl; lia|done].
  - destruct (p_dispatchers p) as [|n] eqn:Hd.
    + eapply Hstep; [left; by apply dispatchers_done|simpl; lia|done].
    + eapply Hstep; [right; eapply dispatcher_returns; [by apply Hca|done]|simpl; rewrite Hmain; simpl; lia|].
      simpl. by rewrite Hmain.
  - eapply Hstep; [left; by apply consuming_stops, consume_cancel|simpl; lia|done].
  - destruct (p_consumer p) eqn:Hc.
    + eapply Hstep; [right; by apply consumer_returns|simpl; rewrite Hmain; simpl; lia|simpl; by rewrite Hmain].
    + eapply Hstep; [left; by apply consuming_stops, consumer_done|simpl; rewrite Hc; lia|done].
  - destruct (p_workers p) as [|n] eqn:Hn.
    { eapply Hstep; [left; by apply workers_done|simpl; lia|done]. }
    destruct (p_busy p) as [|b] eqn:Hbusy.
    2:{ eapply Hstep; [right; by eapply worker_settles|simpl; rewrite Hmain; simpl; lia|simpl; by rewrite Hmain]. }
    rewrite Hnc in Hcl by done. destruct (p_buffer p) as [|m] eqn:Hbuf.
    + eapply Hstep; [right; eapply worker_returns; [done..|lia]| |simpl; by rewrite Hmain].
      simpl. rewrite Hmain, Hbusy, Hbuf. simpl. lia.
    + eapply Hstep; [right; eapply worker_takes; [done|lia]| |simpl; by rewrite Hmain].
      simpl. rewrite Hmain, Hbusy, Hn. simpl. lia.
  - eapply Hstep; [left; by apply queue_closed|simpl; lia|done].
  - eapply Hstep; [left; by apply store_closed|simpl; lia|done].
  - destruct Hex. by eexists.
Qed.

Lemma shutdown_path p :
  shutdown_inv config p → past 1 p → ∃ p', rtc (process_step config) p p' ∧ p_main p' = MainExited 0.
Proof.
  induction p as [p IH] using (well_founded_induction (well_founded_ltof _ remaining)). intros Hi H1. destruct (decide (p_main p = MainExited 0)) as [|Hne]; [by exists p|].
  destruct (shutdown_progress p Hi H1 Hne) as (p1 & Hs & Hlt & H1').
  destruct (IH p1) as (p' & Hr & Hm); [done| |done|].
  { destruct Hs as [_ [Hs|Hs]]; [by eapply main_step_inv|by eapply goroutine_step_inv]. }
  exists p'. split; [by eapply rtc_l|done].
Qed.

(** Without the consumer every step is progress. *)
Lemma drained_decreases p p' :
  shutdown_inv config p → p_consumer p = false → process_step config p p' →
  shutdown_inv config p' ∧ p_consumer p' = false ∧ remaining p' < remaining p.
Proof.
  intros Hi Hc [Hex Hs].
  assert (past 5 p) as H5.
  { rewrite <- (sd_consuming _ _ Hi), (sd_consumer _ _ Hi Hc). done. }
  assert (p_accepting p = false) as Ha.
  { apply (sd_accepting _ _ Hi). eapply past_le; [|done]. lia. }
  split. { destruct Hs; [by eapply main_step_inv|by eapply goroutine_step_inv]. }
  clear Hi. destruct Hs as [Hs|Hs].
  - unfold past in H5. destruct Hs as [Hm|Hm|Hm|Hm|Hm|Hm|Hm|p' [Hm|Hm]|Hm|Hm|Hm]; unfold remaining; rewrite Hm in *; simpl in *;
      split; try done; lia.
  - clear H5. destruct Hs; unfold remaining; simpl; split; try congruence; rewrite ?Hc; lia.
Qed.

(** C16: a shutdown can always complete.  From every state the process can be in
    after the shutdown signal there is a way to the normal exit: no wait of main
    for the server, the wait groups or the consumer is a deadlock. *)
Theorem shutdown_completes p :
  rtc (process_step config) (serving config) p → past 1 p →
  ∃ p', rtc (process_step config) p p' ∧ p_main p' = MainExited 0 ∧ p_store_open p' = false.
Proof.
  intros Hp H1. destruct (shutdown_path p (process_inv _ Hp) H1) as (p' & Hr & Hm).
  exists p'. split_and!; [done|done|].
  rewrite (sd_store _ _ (process_inv _ (rtc_trans _ _ _ Hp Hr))). unfold past. by rewrite Hm.
Qed.

(** C17: the end of a shutdown is bounded.  Once the consumer has returned every
    run of the process makes at most [remaining] steps, whatever the goroutines
    do, and a run that cannot go on has reached the normal exit. *)
Theorem shutdown_terminates p n p' :
  rtc (process_step config) (serving config) p → p_consumer p = false →
  nsteps (process_step config) n p p' →
  n + remaining p' ≤ remaining p
  ∧ ((∀ p'', ¬ process_step config p' p'') → p_main p' = MainExited 0).
Proof.
  intros Hi%process_inv Hc Hn.
  assert (shutdown_inv config p' ∧ p_consumer p' = false ∧ n + remaining p' ≤ remaining p) as (Hi' & Hc' & Hle).
  { induction Hn as [|n p p1 p' Hs _ IH]; [done|].
    destruct (drained_decreases p p1 Hi Hc Hs) as (Hi1 & Hc1 & Hlt).
    destruct (IH Hi1 Hc1) as (? & ? & ?). split_and!; [done|done|lia]. }
  split; [done|]. intros Hstuck. destruct (decide (p_main p' = MainExited 0)) as [|Hne]; [done|].
  destruct (shutdown_progress p' Hi') as (p'' & Hs & _); [|done|by destruct (Hstuck p'')].
  eapply (past_le 1 5); [lia|]. rewrite <- (sd_consuming _ _ Hi'), (sd_consumer _ _ Hi' Hc'). done.
Qed.

End Order.

(** ** On a concrete run *)

(** The default configuration; a shutdown during which a delivery is handled. *)
Definition default_config : Config := readConfig (env_of []).

Definition process_at (at_ : MainAt) (dispatchers : nat) (cancelled consumer : bool) (buffer workers busy : nat)
    (queue_open store_open : bool) : Process :=
  mkProcess at_ (bool_decide (at_ = MainServing)) 0 false (bool_decide (3 ≤ stage at_)) dispatchers cancelled consumer buffer
    (negb consumer) workers busy queue_open store_open.

Definition signalled : Process := process_at MainShutdownServer 1 false true 1 3 0 true true.
Definition drained : Process := process_at MainWaitConsumer 0 true false 1 3 0 true true.
Definition finished : Process := process_at (MainExited 0) 0 true false 0 0 0 false false.

Ltac process_go c :=
  first [eapply rtc_l|eapply nsteps_l];
  [split; [by intros [? [=]]|first [left; eapply c|left; eapply consuming_stops, c|right; eapply c]; simpl; first [done|lia]]|cbv [main_at goroutines]; simpl].

Lemma signalled_reachable : rtc (process_step default_config) (serving default_config) signalled.
Proof.
  change (serving default_config) with (process_at MainServing 1 false true 0 3 0 true true).
  process_go delivery_buffered. process_go shutdown_signal. apply rtc_refl.
Qed.

Lemma drained_reachable : rtc (process_step default_config) signalled drained.
Proof.
  process_go server_drained. process_go dispatcher_stopped. process_go dispatcher_returns.
  process_go dispatchers_done. process_go consume_cancel. process_go consumer_returns. apply rtc_refl.
Qed.

Lemma finished_in_9 : nsteps (process_step default_config) 9 drained finished.
Proof.
  process_go consumer_done. process_go worker_takes. process_go worker_returns. process_go worker_settles.
  do 2 process_go worker_returns. process_go workers_done. process_go queue_closed. process_go store_closed.
  apply nsteps_O.
Qed.

Lemma shutdown_order_witness :
  p_queue_open finished = false ∧ p_dispatchers finished = 0 ∧ p_workers finished = 0.
Proof.
  split; [reflexivity|].
  destruct (shutdown_order default_config (env_of []) default_url_parse ltac:(vm_compute; reflexivity) finished)
    as (_ & _ & _ & Hq & _).
  - eapply rtc_trans; [apply signalled_reachable|].
    eapply rtc_trans; [apply drained_reachable|eapply rtc_nsteps_2, finished_in_9].
  - destruct Hq as (Hd & _ & Hw & _); [reflexivity|]. exact (conj Hd Hw).
Defined.

Lemma shutdown_completes_witness :
  ∃ p', rtc (process_step default_config) signalled p' ∧ p_main p' = MainExited 0 ∧ p_store_open p' = false.
Proof.
  apply (shutdown_completes default_config (env_of []) default_url_parse).
  - vm_compute. reflexivity.
  - apply signalled_reachable.
  - exact I.
Defined.

Lemma shutdown_terminates_witness :
  remaining drained = 9 ∧ 9 + remaining finished ≤ remaining drained.
Proof.
  split; [reflexivity|].
  apply (shutdown_terminates default_config (env_of []) default_url_parse ltac:(vm_compute; reflexivity)
    drained 9 finished).
  - eapply rtc_trans; [apply signalled_reachable|apply drained_reachable].
  - reflexivity.
  - apply finished_in_9.
Defined.
